(** * Domination game engine: a shallow embedding of [domination/core.py]

    The engine is Python 2 code.  Integers are modelled by [Z] (the operator
    [/] on two ints is floor division, [Z.div]), floats by exact rationals
    [Q], lists by [list], objects by records whose fields carry the names of
    the Python attributes.  Exceptions are explicit: a fallible operation
    returns a [Result].

    The module [utilities] (angle normalisation, flood fill, ray/shape
    intersection) and the agents' code are not part of the engine file; the
    functions taken from them are parameters of the sections below. *)

From Stdlib Require Import ZArith QArith Qround Qabs Lia Lqa List String Bool.
From stdpp Require Import base list.
Import ListNotations.

Local Open Scope Z_scope.

(** ** Python values and exceptions *)

Inductive PyExn :=
  | TypeError (msg : string)
  | NameError (name : string)
  | ZeroDivisionError
  | IndexError
  | ValueError
  | AttributeError
  | Exception (msg : string)
  | GameInterrupt
  | KeyboardInterrupt.

(** The outcome of a call: a value, an exception that leaves the call, or
    no outcome at all (a loop that does not stop). *)
Inductive Result (A : Type) :=
  | Ok (a : A)
  | Raise (e : PyExn)
  | Diverge.
Arguments Ok {A} a.
Arguments Raise {A} e.
Arguments Diverge {A}.

Definition bind {A B} (r : Result A) (k : A -> Result B) : Result B :=
  match r with
  | Ok a => k a
  | Raise e => Raise e
  | Diverge => Diverge
  end.

Notation "x <- r ;; k" := (bind r (fun x => k))
  (at level 100, r at next level, right associativity).

(** Comparisons and [min]/[max] on floats, as Python evaluates them:
    [min(a, b)] keeps [a] unless [b < a], [max(a, b)] keeps [a] unless
    [b > a]. *)

Definition Qltb (a b : Q) : bool := negb (Qle_bool b a).

Definition py_min (a b : Q) : Q := if Qltb b a then b else a.
Definition py_max (a b : Q) : Q := if Qltb a b then b else a.





(** ** Constants *)

Inductive Team := TEAM_RED | TEAM_BLUE | TEAM_NEUTRAL.

Definition Team_eqb (a b : Team) : bool :=
  match a, b with
  | TEAM_RED, TEAM_RED | TEAM_BLUE, TEAM_BLUE
  | TEAM_NEUTRAL, TEAM_NEUTRAL => true
  | _, _ => false
  end.



Definition CAPTURE_MODE_NEUTRAL  : Z := 0.
Definition CAPTURE_MODE_FIRST    : Z := 1.
Definition CAPTURE_MODE_MAJORITY : Z := 2.

Definition ENDGAME_NONE   : Z := 0.
Definition ENDGAME_SCORE  : Z := 1.
Definition ENDGAME_CRUMBS : Z := 2.

Definition SIMULATION_SUBSTEPS : nat := 10.
Definition SIMULATION_MAXITER  : nat := 10.

Inductive GameState :=
  STATE_NEW | STATE_READY | STATE_RUNNING | STATE_INTERRUPT | STATE_ENDED.

Definition GameState_eqb (a b : GameState) : bool :=
  match a, b with
  | STATE_NEW, STATE_NEW | STATE_READY, STATE_READY
  | STATE_RUNNING, STATE_RUNNING | STATE_INTERRUPT, STATE_INTERRUPT
  | STATE_ENDED, STATE_ENDED => true
  | _, _ => false
  end.

(** ** Settings *)

Record Settings := mkSettings {
  max_steps     : Z;
  max_score     : Z;
  max_turn      : Q;
  max_speed     : Q;
  max_range     : Q;
  max_see       : Z;
  field_known   : bool;
  ammo_rate     : Z;
  ammo_amount   : Z;
  spawn_time    : Z;
  field_width   : Z;
  field_height  : Z;
  tilesize      : Z;
  think_time    : Q;
  capture_mode  : Z;
  end_condition : Z;
  num_agents    : Z
}.

(** [Settings.__init__]: stores the arguments, then validates two of them. *)
Definition Settings_init (s : Settings) : Result Settings :=
  if negb (max_score s mod 2 =? 0) then
    Raise (Exception "Max score has to be even.")
  else if field_width s mod 2 =? 0 then
    Raise (Exception "Field width must be odd.")
  else Ok s.

Definition set_max_steps (v : Z) (s : Settings) : Settings :=
  {| max_steps := v; max_score := max_score s; max_turn := max_turn s;
     max_speed := max_speed s; max_range := max_range s;
     max_see := max_see s; field_known := field_known s;
     ammo_rate := ammo_rate s; ammo_amount := ammo_amount s;
     spawn_time := spawn_time s; field_width := field_width s;
     field_height := field_height s; tilesize := tilesize s;
     think_time := think_time s; capture_mode := capture_mode s;
     end_condition := end_condition s; num_agents := num_agents s |}.

Definition set_max_score (v : Z) (s : Settings) : Settings :=
  {| max_steps := max_steps s; max_score := v; max_turn := max_turn s;
     max_speed := max_speed s; max_range := max_range s; max_see := max_see
     s; field_known := field_known s; ammo_rate := ammo_rate s; ammo_amount
     := ammo_amount s; spawn_time := spawn_time s; field_width :=
     field_width s; field_height := field_height s; tilesize := tilesize s;
     think_time := think_time s; capture_mode := capture_mode s;
     end_condition := end_condition s; num_agents := num_agents s |}.

Definition set_max_turn (v : Q) (s : Settings) : Settings :=
  {| max_steps := max_steps s; max_score := max_score s; max_turn := v;
     max_speed := max_speed s; max_range := max_range s; max_see := max_see
     s; field_known := field_known s; ammo_rate := ammo_rate s; ammo_amount
     := ammo_amount s; spawn_time := spawn_time s; field_width :=
     field_width s; field_height := field_height s; tilesize := tilesize s;
     think_time := think_time s; capture_mode := capture_mode s;
     end_condition := end_condition s; num_agents := num_agents s |}.

Definition set_field_known (v : bool) (s : Settings) : Settings :=
  {| max_steps := max_steps s; max_score := max_score s; max_turn :=
     max_turn s; max_speed := max_speed s; max_range := max_range s; max_see
     := max_see s; field_known := v; ammo_rate := ammo_rate s; ammo_amount
     := ammo_amount s; spawn_time := spawn_time s; field_width :=
     field_width s; field_height := field_height s; tilesize := tilesize s;
     think_time := think_time s; capture_mode := capture_mode s;
     end_condition := end_condition s; num_agents := num_agents s |}.

Definition set_end_condition (v : Z) (s : Settings) : Settings :=
  {| max_steps := max_steps s; max_score := max_score s; max_turn :=
     max_turn s; max_speed := max_speed s; max_range := max_range s; max_see
     := max_see s; field_known := field_known s; ammo_rate := ammo_rate s;
     ammo_amount := ammo_amount s; spawn_time := spawn_time s; field_width
     := field_width s; field_height := field_height s; tilesize := tilesize
     s; think_time := think_time s; capture_mode := capture_mode s;
     end_condition := v; num_agents := num_agents s |}.

(** ** Game objects *)

Inductive Shape := SHAPE_RECT | SHAPE_CIRC.

Inductive Class :=
  | Tank | Wall | ControlPoint | Ammo | Crumb
  | Fountain | AmmoFountain | CrumbFountain | TankSpawn.

Definition Class_eqb (a b : Class) : bool :=
  match a, b with
  | Tank, Tank | Wall, Wall | ControlPoint, ControlPoint | Ammo, Ammo
  | Crumb, Crumb | Fountain, Fountain | AmmoFountain, AmmoFountain
  | CrumbFountain, CrumbFountain | TankSpawn, TankSpawn => true
  | _, _ => false
  end.

(** The class attribute [SIZE]. *)
Definition SIZE (c : Class) : Z :=
  match c with
  | Tank => 16 | Wall => 12 | ControlPoint => 24 | Ammo => 16 | Crumb => 4
  | Fountain => 16 | AmmoFountain => 16 | CrumbFountain => 50
  | TankSpawn => 16
  end.

(** [isinstance(o, Fountain)] holds for the two subclasses as well. *)
Definition is_fountain (c : Class) : bool :=
  match c with
  | Fountain | AmmoFountain | CrumbFountain => true
  | _ => false
  end.

(** An action is the triple [(turn, speed, shoot)]. *)
Definition Action := (Q * Q * bool)%type.

(** The agent classes read from the two brain files, and the two
    dictionaries of extra constructor arguments. *)
Inductive BrainClass := red_brain_class | blue_brain_class.
Inductive InitArgs := red_init | blue_init.

(** A decision delegate is identified by the constructor call that made
    it: the class, the positional arguments [(id, team)], the settings copy,
    whether the field geometry was passed, and the extra arguments. What the
    delegate answers is outside the engine. *)
Record Brain := mkBrain {
  brain_class    : BrainClass;
  brain_id       : nat;
  brain_team     : Team;
  brain_settings : Settings;
  brain_field    : bool;
  brain_init     : InitArgs
}.

(** The three slots of [ControlPoint.collided], indexed by team. *)
Record Tally := mkTally { slot_red : Z; slot_blue : Z; slot_neutral : Z }.

Definition tally_get (c : Tally) (t : Team) : Z :=
  match t with
  | TEAM_RED => slot_red c
  | TEAM_BLUE => slot_blue c
  | TEAM_NEUTRAL => slot_neutral c
  end.

Definition tally_incr (c : Tally) (t : Team) : Tally :=
  match t with
  | TEAM_RED => mkTally (slot_red c + 1) (slot_blue c) (slot_neutral c)
  | TEAM_BLUE => mkTally (slot_red c) (slot_blue c + 1) (slot_neutral c)
  | TEAM_NEUTRAL => mkTally (slot_red c) (slot_blue c) (slot_neutral c + 1)
  end.

Definition tally_zero : Tally := mkTally 0 0 0.

(** What a tank keeps of its [TankSpawn]: position and orientation. *)
Record Spawn := mkSpawn { spawn_x : Q; spawn_y : Q; spawn_angle : Q }.

(** One record for every class: an attribute a class does not have keeps
    its default and is never read for objects of that class.  [oid] is the
    identity of the object ([id(o)] in Python); [tank_id] is the attribute
    [Tank.id]. The attributes used only by the renderer or inside the
    position solver ([graphic], [_a], [_da], [_moved], [_hitx], ...) are
    left out. *)
Record GameObject := mkGameObject {
  cls : Class;
  oid : nat;
  x : Q;
  y : Q;
  width : Q;
  height : Q;
  angle : Q;
  shape : Shape;
  solid : bool;
  movable : bool;
  physical : bool;
  _x : Q;
  _y : Q;
  _dx : Q;
  _dy : Q;
  team : Team;
  brain : option Brain;
  tank_id : nat;
  ammo : Z;
  shoots : bool;
  respawn_in : Z;
  spawn : option Spawn;
  actions : list Action;
  record : bool;
  time_thought : Q;
  collided : Tally;
  pickedup : bool;
  countdown : Z;
  DELAY : Z;
  children : list nat;
  parent : option nat
}.

Definition set_oid (v : nat) (o : GameObject) : GameObject :=
  {| cls := cls o; oid := v; x := x o; y := y o; width := width o; height :=
     height o; angle := angle o; shape := shape o; solid := solid o; movable
     := movable o; physical := physical o; _x := _x o; _y := _y o; _dx :=
     _dx o; _dy := _dy o; team := team o; brain := brain o; tank_id :=
     tank_id o; ammo := ammo o; shoots := shoots o; respawn_in := respawn_in
     o; spawn := spawn o; actions := actions o; record := record o;
     time_thought := time_thought o; collided := collided o; pickedup :=
     pickedup o; countdown := countdown o; DELAY := DELAY o; children :=
     children o; parent := parent o |}.

Definition set_x (v : Q) (o : GameObject) : GameObject :=
  {| cls := cls o; oid := oid o; x := v; y := y o; width := width o; height
     := height o; angle := angle o; shape := shape o; solid := solid o;
     movable := movable o; physical := physical o; _x := _x o; _y := _y o;
     _dx := _dx o; _dy := _dy o; team := team o; brain := brain o; tank_id
     := tank_id o; ammo := ammo o; shoots := shoots o; respawn_in :=
     respawn_in o; spawn := spawn o; actions := actions o; record := record
     o; time_thought := time_thought o; collided := collided o; pickedup :=
     pickedup o; countdown := countdown o; DELAY := DELAY o; children :=
     children o; parent := parent o |}.

Definition set_y (v : Q) (o : GameObject) : GameObject :=
  {| cls := cls o; oid := oid o; x := x o; y := v; width := width o; height
     := height o; angle := angle o; shape := shape o; solid := solid o;
     movable := movable o; physical := physical o; _x := _x o; _y := _y o;
     _dx := _dx o; _dy := _dy o; team := team o; brain := brain o; tank_id
     := tank_id o; ammo := ammo o; shoots := shoots o; respawn_in :=
     respawn_in o; spawn := spawn o; actions := actions o; record := record
     o; time_thought := time_thought o; collided := collided o; pickedup :=
     pickedup o; countdown := countdown o; DELAY := DELAY o; children :=
     children o; parent := parent o |}.

Definition set_angle (v : Q) (o : GameObject) : GameObject :=
  {| cls := cls o; oid := oid o; x := x o; y := y o; width := width o;
     height := height o; angle := v; shape := shape o; solid := solid o;
     movable := movable o; physical := physical o; _x := _x o; _y := _y o;
     _dx := _dx o; _dy := _dy o; team := team o; brain := brain o; tank_id
     := tank_id o; ammo := ammo o; shoots := shoots o; respawn_in :=
     respawn_in o; spawn := spawn o; actions := actions o; record := record
     o; time_thought := time_thought o; collided := collided o; pickedup :=
     pickedup o; countdown := countdown o; DELAY := DELAY o; children :=
     children o; parent := parent o |}.

Definition set__x (v : Q) (o : GameObject) : GameObject :=
  {| cls := cls o; oid := oid o; x := x o; y := y o; width := width o;
     height := height o; angle := angle o; shape := shape o; solid := solid
     o; movable := movable o; physical := physical o; _x := v; _y := _y o;
     _dx := _dx o; _dy := _dy o; team := team o; brain := brain o; tank_id
     := tank_id o; ammo := ammo o; shoots := shoots o; respawn_in :=
     respawn_in o; spawn := spawn o; actions := actions o; record := record
     o; time_thought := time_thought o; collided := collided o; pickedup :=
     pickedup o; countdown := countdown o; DELAY := DELAY o; children :=
     children o; parent := parent o |}.

Definition set__y (v : Q) (o : GameObject) : GameObject :=
  {| cls := cls o; oid := oid o; x := x o; y := y o; width := width o;
     height := height o; angle := angle o; shape := shape o; solid := solid
     o; movable := movable o; physical := physical o; _x := _x o; _y := v;
     _dx := _dx o; _dy := _dy o; team := team o; brain := brain o; tank_id
     := tank_id o; ammo := ammo o; shoots := shoots o; respawn_in :=
     respawn_in o; spawn := spawn o; actions := actions o; record := record
     o; time_thought := time_thought o; collided := collided o; pickedup :=
     pickedup o; countdown := countdown o; DELAY := DELAY o; children :=
     children o; parent := parent o |}.

Definition set__dx (v : Q) (o : GameObject) : GameObject :=
  {| cls := cls o; oid := oid o; x := x o; y := y o; width := width o;
     height := height o; angle := angle o; shape := shape o; solid := solid
     o; movable := movable o; physical := physical o; _x := _x o; _y := _y
     o; _dx := v; _dy := _dy o; team := team o; brain := brain o; tank_id :=
     tank_id o; ammo := ammo o; shoots := shoots o; respawn_in := respawn_in
     o; spawn := spawn o; actions := actions o; record := record o;
     time_thought := time_thought o; collided := collided o; pickedup :=
     pickedup o; countdown := countdown o; DELAY := DELAY o; children :=
     children o; parent := parent o |}.

Definition set__dy (v : Q) (o : GameObject) : GameObject :=
  {| cls := cls o; oid := oid o; x := x o; y := y o; width := width o;
     height := height o; angle := angle o; shape := shape o; solid := solid
     o; movable := movable o; physical := physical o; _x := _x o; _y := _y
     o; _dx := _dx o; _dy := v; team := team o; brain := brain o; tank_id :=
     tank_id o; ammo := ammo o; shoots := shoots o; respawn_in := respawn_in
     o; spawn := spawn o; actions := actions o; record := record o;
     time_thought := time_thought o; collided := collided o; pickedup :=
     pickedup o; countdown := countdown o; DELAY := DELAY o; children :=
     children o; parent := parent o |}.

Definition set_team (v : Team) (o : GameObject) : GameObject :=
  {| cls := cls o; oid := oid o; x := x o; y := y o; width := width o;
     height := height o; angle := angle o; shape := shape o; solid := solid
     o; movable := movable o; physical := physical o; _x := _x o; _y := _y
     o; _dx := _dx o; _dy := _dy o; team := v; brain := brain o; tank_id :=
     tank_id o; ammo := ammo o; shoots := shoots o; respawn_in := respawn_in
     o; spawn := spawn o; actions := actions o; record := record o;
     time_thought := time_thought o; collided := collided o; pickedup :=
     pickedup o; countdown := countdown o; DELAY := DELAY o; children :=
     children o; parent := parent o |}.

Definition set_ammo (v : Z) (o : GameObject) : GameObject :=
  {| cls := cls o; oid := oid o; x := x o; y := y o; width := width o;
     height := height o; angle := angle o; shape := shape o; solid := solid
     o; movable := movable o; physical := physical o; _x := _x o; _y := _y
     o; _dx := _dx o; _dy := _dy o; team := team o; brain := brain o;
     tank_id := tank_id o; ammo := v; shoots := shoots o; respawn_in :=
     respawn_in o; spawn := spawn o; actions := actions o; record := record
     o; time_thought := time_thought o; collided := collided o; pickedup :=
     pickedup o; countdown := countdown o; DELAY := DELAY o; children :=
     children o; parent := parent o |}.

Definition set_shoots (v : bool) (o : GameObject) : GameObject :=
  {| cls := cls o; oid := oid o; x := x o; y := y o; width := width o;
     height := height o; angle := angle o; shape := shape o; solid := solid
     o; movable := movable o; physical := physical o; _x := _x o; _y := _y
     o; _dx := _dx o; _dy := _dy o; team := team o; brain := brain o;
     tank_id := tank_id o; ammo := ammo o; shoots := v; respawn_in :=
     respawn_in o; spawn := spawn o; actions := actions o; record := record
     o; time_thought := time_thought o; collided := collided o; pickedup :=
     pickedup o; countdown := countdown o; DELAY := DELAY o; children :=
     children o; parent := parent o |}.

Definition set_respawn_in (v : Z) (o : GameObject) : GameObject :=
  {| cls := cls o; oid := oid o; x := x o; y := y o; width := width o;
     height := height o; angle := angle o; shape := shape o; solid := solid
     o; movable := movable o; physical := physical o; _x := _x o; _y := _y
     o; _dx := _dx o; _dy := _dy o; team := team o; brain := brain o;
     tank_id := tank_id o; ammo := ammo o; shoots := shoots o; respawn_in :=
     v; spawn := spawn o; actions := actions o; record := record o;
     time_thought := time_thought o; collided := collided o; pickedup :=
     pickedup o; countdown := countdown o; DELAY := DELAY o; children :=
     children o; parent := parent o |}.

Definition set_actions (v : list Action) (o : GameObject) : GameObject :=
  {| cls := cls o; oid := oid o; x := x o; y := y o; width := width o;
     height := height o; angle := angle o; shape := shape o; solid := solid
     o; movable := movable o; physical := physical o; _x := _x o; _y := _y
     o; _dx := _dx o; _dy := _dy o; team := team o; brain := brain o;
     tank_id := tank_id o; ammo := ammo o; shoots := shoots o; respawn_in :=
     respawn_in o; spawn := spawn o; actions := v; record := record o;
     time_thought := time_thought o; collided := collided o; pickedup :=
     pickedup o; countdown := countdown o; DELAY := DELAY o; children :=
     children o; parent := parent o |}.

Definition set_time_thought (v : Q) (o : GameObject) : GameObject :=
  {| cls := cls o; oid := oid o; x := x o; y := y o; width := width o;
     height := height o; angle := angle o; shape := shape o; solid := solid
     o; movable := movable o; physical := physical o; _x := _x o; _y := _y
     o; _dx := _dx o; _dy := _dy o; team := team o; brain := brain o;
     tank_id := tank_id o; ammo := ammo o; shoots := shoots o; respawn_in :=
     respawn_in o; spawn := spawn o; actions := actions o; record := record
     o; time_thought := v; collided := collided o; pickedup := pickedup o;
     countdown := countdown o; DELAY := DELAY o; children := children o;
     parent := parent o |}.

Definition set_collided (v : Tally) (o : GameObject) : GameObject :=
  {| cls := cls o; oid := oid o; x := x o; y := y o; width := width o;
     height := height o; angle := angle o; shape := shape o; solid := solid
     o; movable := movable o; physical := physical o; _x := _x o; _y := _y
     o; _dx := _dx o; _dy := _dy o; team := team o; brain := brain o;
     tank_id := tank_id o; ammo := ammo o; shoots := shoots o; respawn_in :=
     respawn_in o; spawn := spawn o; actions := actions o; record := record
     o; time_thought := time_thought o; collided := v; pickedup := pickedup
     o; countdown := countdown o; DELAY := DELAY o; children := children o;
     parent := parent o |}.

Definition set_pickedup (v : bool) (o : GameObject) : GameObject :=
  {| cls := cls o; oid := oid o; x := x o; y := y o; width := width o;
     height := height o; angle := angle o; shape := shape o; solid := solid
     o; movable := movable o; physical := physical o; _x := _x o; _y := _y
     o; _dx := _dx o; _dy := _dy o; team := team o; brain := brain o;
     tank_id := tank_id o; ammo := ammo o; shoots := shoots o; respawn_in :=
     respawn_in o; spawn := spawn o; actions := actions o; record := record
     o; time_thought := time_thought o; collided := collided o; pickedup :=
     v; countdown := countdown o; DELAY := DELAY o; children := children o;
     parent := parent o |}.

Definition set_countdown (v : Z) (o : GameObject) : GameObject :=
  {| cls := cls o; oid := oid o; x := x o; y := y o; width := width o;
     height := height o; angle := angle o; shape := shape o; solid := solid
     o; movable := movable o; physical := physical o; _x := _x o; _y := _y
     o; _dx := _dx o; _dy := _dy o; team := team o; brain := brain o;
     tank_id := tank_id o; ammo := ammo o; shoots := shoots o; respawn_in :=
     respawn_in o; spawn := spawn o; actions := actions o; record := record
     o; time_thought := time_thought o; collided := collided o; pickedup :=
     pickedup o; countdown := v; DELAY := DELAY o; children := children o;
     parent := parent o |}.

Definition set_DELAY (v : Z) (o : GameObject) : GameObject :=
  {| cls := cls o; oid := oid o; x := x o; y := y o; width := width o;
     height := height o; angle := angle o; shape := shape o; solid := solid
     o; movable := movable o; physical := physical o; _x := _x o; _y := _y
     o; _dx := _dx o; _dy := _dy o; team := team o; brain := brain o;
     tank_id := tank_id o; ammo := ammo o; shoots := shoots o; respawn_in :=
     respawn_in o; spawn := spawn o; actions := actions o; record := record
     o; time_thought := time_thought o; collided := collided o; pickedup :=
     pickedup o; countdown := countdown o; DELAY := v; children := children
     o; parent := parent o |}.

Definition set_children (v : list nat) (o : GameObject) : GameObject :=
  {| cls := cls o; oid := oid o; x := x o; y := y o; width := width o;
     height := height o; angle := angle o; shape := shape o; solid := solid
     o; movable := movable o; physical := physical o; _x := _x o; _y := _y
     o; _dx := _dx o; _dy := _dy o; team := team o; brain := brain o;
     tank_id := tank_id o; ammo := ammo o; shoots := shoots o; respawn_in :=
     respawn_in o; spawn := spawn o; actions := actions o; record := record
     o; time_thought := time_thought o; collided := collided o; pickedup :=
     pickedup o; countdown := countdown o; DELAY := DELAY o; children := v;
     parent := parent o |}.

Definition set_parent (v : option nat) (o : GameObject) : GameObject :=
  {| cls := cls o; oid := oid o; x := x o; y := y o; width := width o;
     height := height o; angle := angle o; shape := shape o; solid := solid
     o; movable := movable o; physical := physical o; _x := _x o; _y := _y
     o; _dx := _dx o; _dy := _dy o; team := team o; brain := brain o;
     tank_id := tank_id o; ammo := ammo o; shoots := shoots o; respawn_in :=
     respawn_in o; spawn := spawn o; actions := actions o; record := record
     o; time_thought := time_thought o; collided := collided o; pickedup :=
     pickedup o; countdown := countdown o; DELAY := DELAY o; children :=
     children o; parent := v |}.

(** [GameObject.__init__]. *)
Definition GameObject_init (c : Class) (x y width height angle : Q)
    (shape : Shape) (solid movable physical : bool) : GameObject :=
  {| cls := c; oid := 0%nat; x := x; y := y; width := width;
     height := height; angle := angle; shape := shape; solid := solid;
     movable := movable; physical := physical;
     _x := x; _y := y; _dx := 0; _dy := 0;
     team := TEAM_NEUTRAL; brain := None; tank_id := 0%nat; ammo := 0;
     shoots := false; respawn_in := -1; spawn := None; actions := [];
     record := false; time_thought := 0; collided := tally_zero;
     pickedup := false; countdown := -1; DELAY := 10; children := [];
     parent := None |}.

(** [Tank.__init__], once its arguments are bound. *)
Definition Tank_init (x0 y0 angle0 : Q) (id : nat) (team : Team)
    (brain : option Brain) (spawn : option Spawn)
    (actions : option (list Action)) (record : bool) : GameObject :=
  let o := GameObject_init Tank x0 y0 (inject_Z (SIZE Tank))
             (inject_Z (SIZE Tank)) angle0 SHAPE_CIRC true true true in
  {| cls := cls o; oid := oid o; x := x o; y := y o;
     width := width o; height := height o; angle := angle o;
     shape := shape o; solid := solid o; movable := movable o;
     physical := physical o; _x := _x o; _y := _y o; _dx := _dx o;
     _dy := _dy o;
     team := team; brain := brain; tank_id := id; ammo := 0;
     shoots := false; respawn_in := -1; spawn := spawn;
     actions := match actions with Some a => a | None => [] end;
     record := record; time_thought := 0; collided := collided o;
     pickedup := pickedup o; countdown := countdown o; DELAY := DELAY o;
     children := children o; parent := parent o |}.

(** [Wall(x=, y=, width=, height=)]. *)
Definition Wall_init (x y width height : Q) : GameObject :=
  GameObject_init Wall x y width height 0 SHAPE_RECT true false true.

Definition ControlPoint_init (x y : Q) : GameObject :=
  GameObject_init ControlPoint x y (inject_Z (SIZE ControlPoint))
    (inject_Z (SIZE ControlPoint)) 0 SHAPE_CIRC false false true.

Definition Ammo_init (x y : Q) : GameObject :=
  GameObject_init Ammo x y (inject_Z (SIZE Ammo)) (inject_Z (SIZE Ammo))
    0 SHAPE_CIRC false false true.

Definition Crumb_init (x y : Q) : GameObject :=
  GameObject_init Crumb x y (inject_Z (SIZE Crumb)) (inject_Z (SIZE Crumb))
    0 SHAPE_RECT false false true.

(** [Fountain.__init__], shared by the two subclasses; [DELAY] is the class
    attribute ([AmmoFountain] overwrites it when added to a game). *)
Definition Fountain_init (c : Class) (x y : Q) : GameObject :=
  set_DELAY (match c with CrumbFountain => -1 | _ => 10 end)
    (GameObject_init c x y (inject_Z (SIZE c)) (inject_Z (SIZE c))
       0 SHAPE_RECT false false false).

Definition TankSpawn_init (x y angle : Q) (team : Team) : GameObject :=
  set_team team
    (GameObject_init TankSpawn x y (inject_Z (SIZE TankSpawn))
       (inject_Z (SIZE TankSpawn)) angle SHAPE_RECT false false false).

(** ** Separation of two overlapping objects: [Game.compute_separation] *)

Section Separation.

(** [math.sqrt] *)
Variable sqrt : Q -> Q.

Local Open Scope Q_scope.

Definition Shape_eqb (a b : Shape) : bool :=
  match a, b with
  | SHAPE_RECT, SHAPE_RECT | SHAPE_CIRC, SHAPE_CIRC => true
  | _, _ => false
  end.

Definition Separation := (Q * GameObject * GameObject * Q * Q)%type.

(** The branch "Separate Circle/Circle" of the source, entered when the
    local [sep_as_circles] is true. *)
Definition separate_circles (circleproxy : Q * Q * Q)
    (object1 object2 : GameObject) : option (Q * Q * Q) :=
  let '(cx, cy, ra) := circleproxy in
  let md := ra + width object2 / 2 in
  let dx := (cx + ra) - (_x object2 + width object2 / 2) in
  let dy := (cy + ra) - (_y object2 + height object2 / 2) in
  let ds := dx * dx + dy * dy in
  if Qeq_bool ds 0 then Some (0, 0, 0)
  else if Qltb ds (md * md) then
    let d := sqrt ds in
    let p := md - d in
    let f := p / d in
    Some (p, f * dx, f * dy)
  else None.

(** The branch "Separate Rect/Rect": the smallest of the four overlaps,
    tried in the order left, top, right, bottom. *)
Definition separate_rects (object1 object2 : GameObject)
    : option (Q * Q * Q) :=
  let o1l := _x object1 in
  let o1t := _y object1 in
  let o1r := o1l + width object1 in
  let o1b := o1t + height object1 in
  let o2l := _x object2 in
  let o2t := _y object2 in
  let o2r := o2l + width object2 in
  let o2b := o2t + height object2 in
  let pt := o1r - o2l in
  if negb (Qltb 0 pt) then None else
  let '(p, px, py) := (pt, - pt, 0) in
  let pt := o1b - o2t in
  if negb (Qltb 0 pt) then None else
  let '(p, px, py) := if Qltb pt p then (pt, 0, - pt) else (p, px, py) in
  let pt := o2r - o1l in
  if negb (Qltb 0 pt) then None else
  let '(p, px, py) := if Qltb pt p then (pt, pt, 0) else (p, px, py) in
  let pt := o2b - o1t in
  if negb (Qltb 0 pt) then None else
  let '(p, px, py) := if Qltb pt p then (pt, 0, pt) else (p, px, py) in
  Some (p, px, py).

(** The locals of the first part of [compute_separation].  The source
    assigns [sep_as_cicles] in the circle/circle case and [switched] in
    the mixed case; neither name is read afterwards, the two flags that
    are read are [sep_as_circles] and [objects_switched]. *)
Record SepLocals := mkSepLocals {
  object1 : GameObject;
  object2 : GameObject;
  sep_as_circles : bool;
  sep_as_cicles : bool;
  objects_switched : bool;
  switched : bool;
  circleproxy : option (Q * Q * Q)
}.

Definition classify (o1 o2 : GameObject) : SepLocals :=
  if Shape_eqb (shape o1) SHAPE_CIRC && Shape_eqb (shape o2) SHAPE_CIRC
  then
    {| object1 := o1; object2 := o2;
       sep_as_circles := false; sep_as_cicles := true;
       objects_switched := false; switched := false;
       circleproxy :=
         Some (_x o1 + width o1, _y o1 + height o1, width o1 / 2) |}
  else if Shape_eqb (shape o1) SHAPE_RECT
          && Shape_eqb (shape o2) SHAPE_RECT
  then
    {| object1 := o1; object2 := o2;
       sep_as_circles := false; sep_as_cicles := false;
       objects_switched := false; switched := false;
       circleproxy := None |}
  else
    let sw := Shape_eqb (shape o1) SHAPE_CIRC in
    let '(o1, o2) := if sw then (o2, o1) else (o1, o2) in
    let cx := _x o2 + width o2 / 2 in
    let cy := _y o2 + height o2 / 2 in
    let l := _x o1 in
    let t := _y o1 in
    let r := l + width o1 in
    let b := t + height o1 in
    let proxy :=
      if Qltb cx l then
        if Qltb cy t then Some (l, t, 0)
        else if Qltb b cy then Some (l, b, 0)
        else None
      else if Qltb r cx then
        if Qltb cy t then Some (r, t, 0)
        else if Qltb b cy then Some (r, b, 0)
        else None
      else None in
    {| object1 := o1; object2 := o2;
       sep_as_circles := match proxy with Some _ => true | None => false end;
       sep_as_cicles := false;
       objects_switched := false; switched := sw;
       circleproxy := proxy |}.

Definition compute_separation (o1 o2 : GameObject) : option Separation :=
  let L := classify o1 o2 in
  let sep :=
    if sep_as_circles L then
      match circleproxy L with
      | Some proxy => separate_circles proxy (object1 L) (object2 L)
      | None => None
      end
    else separate_rects (object1 L) (object2 L) in
  match sep with
  | None => None
  | Some (p, px, py) =>
      if objects_switched L
      then Some (p, object2 L, object1 L, - px, - py)
      else Some (p, object1 L, object2 L, px, py)
  end.

(** The quantities the circle/circle case is meant to compare: the centres
    of the two discs and their radii. *)
Definition centre_x (o : GameObject) : Q := _x o + width o / 2.
Definition centre_y (o : GameObject) : Q := _y o + height o / 2.
Definition radius (o : GameObject) : Q := width o / 2.
Definition centre_dist2 (o1 o2 : GameObject) : Q :=
  (centre_x o2 - centre_x o1) * (centre_x o2 - centre_x o1)
  + (centre_y o2 - centre_y o1) * (centre_y o2 - centre_y o1).

End Separation.

(** Two tanks (discs of diameter 16) whose centres are 3 apart in x and 4
    apart in y, hence at distance 5. *)
Definition tank_at (px py : Q) : GameObject :=
  Tank_init px py 0 0%nat TEAM_RED None None None false.

(** ** The field, the statistics, the replay bundle and the game *)

(** [Field]: the tile grid [walls] (rows of 0/1), the spawn points
    [(x, y, angle)], the control points [(x, y)], the other objects
    [(x, y, class)], and the merged wall rectangles [(x, y, w, h)] that
    [rects_merge] derived from the grid. *)
Module Field.

Record t := mk {
  width : Z;
  height : Z;
  tilesize : Z;
  walls : list (list Z);
  spawns_red : list (Z * Z * Q);
  spawns_blue : list (Z * Z * Q);
  controlpoints : list (Z * Z);
  other_objects : list (Z * Z * Class);
  wallrects : list (Q * Q * Q * Q)
}.

Definition set_walls (v : list (list Z)) (o : t) : t :=
  {| width := width o; height := height o; tilesize := tilesize o; walls :=
     v; spawns_red := spawns_red o; spawns_blue := spawns_blue o;
     controlpoints := controlpoints o; other_objects := other_objects o;
     wallrects := wallrects o |}.

End Field.

Module GameStats.

Record t := mk {
  score_red : Z;
  score_blue : Z;
  score : Q;
  steps : Z;
  crumbs_red : Z;
  crumbs_blue : Z;
  ammo_red : Z;
  ammo_blue : Z
}.

Definition set_score_red (v : Z) (o : t) : t :=
  {| score_red := v; score_blue := score_blue o; score := score o; steps :=
     steps o; crumbs_red := crumbs_red o; crumbs_blue := crumbs_blue o;
     ammo_red := ammo_red o; ammo_blue := ammo_blue o |}.

Definition set_score_blue (v : Z) (o : t) : t :=
  {| score_red := score_red o; score_blue := v; score := score o; steps :=
     steps o; crumbs_red := crumbs_red o; crumbs_blue := crumbs_blue o;
     ammo_red := ammo_red o; ammo_blue := ammo_blue o |}.

Definition set_score (v : Q) (o : t) : t :=
  {| score_red := score_red o; score_blue := score_blue o; score := v; steps
     := steps o; crumbs_red := crumbs_red o; crumbs_blue := crumbs_blue o;
     ammo_red := ammo_red o; ammo_blue := ammo_blue o |}.

Definition set_steps (v : Z) (o : t) : t :=
  {| score_red := score_red o; score_blue := score_blue o; score := score o;
     steps := v; crumbs_red := crumbs_red o; crumbs_blue := crumbs_blue o;
     ammo_red := ammo_red o; ammo_blue := ammo_blue o |}.

Definition set_crumbs_red (v : Z) (o : t) : t :=
  {| score_red := score_red o; score_blue := score_blue o; score := score o;
     steps := steps o; crumbs_red := v; crumbs_blue := crumbs_blue o;
     ammo_red := ammo_red o; ammo_blue := ammo_blue o |}.

Definition set_crumbs_blue (v : Z) (o : t) : t :=
  {| score_red := score_red o; score_blue := score_blue o; score := score o;
     steps := steps o; crumbs_red := crumbs_red o; crumbs_blue := v;
     ammo_red := ammo_red o; ammo_blue := ammo_blue o |}.

Definition set_ammo_red (v : Z) (o : t) : t :=
  {| score_red := score_red o; score_blue := score_blue o; score := score o;
     steps := steps o; crumbs_red := crumbs_red o; crumbs_blue :=
     crumbs_blue o; ammo_red := v; ammo_blue := ammo_blue o |}.

Definition set_ammo_blue (v : Z) (o : t) : t :=
  {| score_red := score_red o; score_blue := score_blue o; score := score o;
     steps := steps o; crumbs_red := crumbs_red o; crumbs_blue :=
     crumbs_blue o; ammo_red := ammo_red o; ammo_blue := v |}.

End GameStats.

(** [GameStats.__init__] *)
Definition GameStats_init : GameStats.t :=
  {| GameStats.score_red := 0; GameStats.score_blue := 0;
     GameStats.score := 0; GameStats.steps := 0;
     GameStats.crumbs_red := 0; GameStats.crumbs_blue := 0;
     GameStats.ammo_red := 0; GameStats.ammo_blue := 0 |}.

(** What the engine prints: the lines of [Game.log] and of the [print]
    statements, kept as values instead of formatted text. *)
Inductive Message :=
  | MsgPlayingReplay
  | MsgAgentRaised (team : Team) (id : nat)
  | MsgRule
  | MsgTraceback
  | MsgTimedOut (team : Team) (id : nat) (time_thought : Q)
  | MsgStats (stats : GameStats.t)
  | MsgInterrupted.

Module ReplayData.

Record t := mk {
  settings : Settings;
  field : option Field.t;
  version : string;
  actions_red : list (list Action);
  actions_blue : list (list Action)
}.

Definition set_settings (v : Settings) (o : t) : t :=
  {| settings := v; field := field o; version := version o; actions_red :=
     actions_red o; actions_blue := actions_blue o |}.

Definition set_field (v : option Field.t) (o : t) : t :=
  {| settings := settings o; field := v; version := version o; actions_red
     := actions_red o; actions_blue := actions_blue o |}.

Definition set_actions_red (v : list (list Action)) (o : t) : t :=
  {| settings := settings o; field := field o; version := version o;
     actions_red := v; actions_blue := actions_blue o |}.

Definition set_actions_blue (v : list (list Action)) (o : t) : t :=
  {| settings := settings o; field := field o; version := version o;
     actions_red := actions_red o; actions_blue := v |}.

End ReplayData.

(** The game.  [objects] is the list [self.objects]; the lists [tanks] and
    [controlpoints] hold references to objects of [objects] and are kept as
    lists of object identities.  [stdout] collects what is printed,
    [next_oid] is the identity the next created object receives and [rng]
    counts the draws made from the random source.  The renderer is absent
    ([rendered=False]). *)
Module Game.

Record t := mk {
  record : bool;
  replay : option ReplayData.t;
  verbose : bool;
  settings : Settings;
  field : Field.t;
  score_red : Z;
  score_blue : Z;
  step : Z;
  objects : list GameObject;
  tanks : list nat;
  controlpoints : list nat;
  stats : GameStats.t;
  agent_raised_exception : bool;
  state : GameState;
  interrupted : bool;
  stdout : list Message;
  next_oid : nat;
  rng : nat
}.

Definition set_replay (v : option ReplayData.t) (o : t) : t :=
  {| record := record o; replay := v; verbose := verbose o; settings :=
     settings o; field := field o; score_red := score_red o; score_blue :=
     score_blue o; step := step o; objects := objects o; tanks := tanks o;
     controlpoints := controlpoints o; stats := stats o;
     agent_raised_exception := agent_raised_exception o; state := state o;
     interrupted := interrupted o; stdout := stdout o; next_oid := next_oid
     o; rng := rng o |}.

Definition set_settings (v : Settings) (o : t) : t :=
  {| record := record o; replay := replay o; verbose := verbose o; settings
     := v; field := field o; score_red := score_red o; score_blue :=
     score_blue o; step := step o; objects := objects o; tanks := tanks o;
     controlpoints := controlpoints o; stats := stats o;
     agent_raised_exception := agent_raised_exception o; state := state o;
     interrupted := interrupted o; stdout := stdout o; next_oid := next_oid
     o; rng := rng o |}.

Definition set_score_red (v : Z) (o : t) : t :=
  {| record := record o; replay := replay o; verbose := verbose o; settings
     := settings o; field := field o; score_red := v; score_blue :=
     score_blue o; step := step o; objects := objects o; tanks := tanks o;
     controlpoints := controlpoints o; stats := stats o;
     agent_raised_exception := agent_raised_exception o; state := state o;
     interrupted := interrupted o; stdout := stdout o; next_oid := next_oid
     o; rng := rng o |}.

Definition set_score_blue (v : Z) (o : t) : t :=
  {| record := record o; replay := replay o; verbose := verbose o; settings
     := settings o; field := field o; score_red := score_red o; score_blue
     := v; step := step o; objects := objects o; tanks := tanks o;
     controlpoints := controlpoints o; stats := stats o;
     agent_raised_exception := agent_raised_exception o; state := state o;
     interrupted := interrupted o; stdout := stdout o; next_oid := next_oid
     o; rng := rng o |}.

Definition set_step (v : Z) (o : t) : t :=
  {| record := record o; replay := replay o; verbose := verbose o; settings
     := settings o; field := field o; score_red := score_red o; score_blue
     := score_blue o; step := v; objects := objects o; tanks := tanks o;
     controlpoints := controlpoints o; stats := stats o;
     agent_raised_exception := agent_raised_exception o; state := state o;
     interrupted := interrupted o; stdout := stdout o; next_oid := next_oid
     o; rng := rng o |}.

Definition set_objects (v : list GameObject) (o : t) : t :=
  {| record := record o; replay := replay o; verbose := verbose o; settings
     := settings o; field := field o; score_red := score_red o; score_blue
     := score_blue o; step := step o; objects := v; tanks := tanks o;
     controlpoints := controlpoints o; stats := stats o;
     agent_raised_exception := agent_raised_exception o; state := state o;
     interrupted := interrupted o; stdout := stdout o; next_oid := next_oid
     o; rng := rng o |}.

Definition set_tanks (v : list nat) (o : t) : t :=
  {| record := record o; replay := replay o; verbose := verbose o; settings
     := settings o; field := field o; score_red := score_red o; score_blue
     := score_blue o; step := step o; objects := objects o; tanks := v;
     controlpoints := controlpoints o; stats := stats o;
     agent_raised_exception := agent_raised_exception o; state := state o;
     interrupted := interrupted o; stdout := stdout o; next_oid := next_oid
     o; rng := rng o |}.

Definition set_controlpoints (v : list nat) (o : t) : t :=
  {| record := record o; replay := replay o; verbose := verbose o; settings
     := settings o; field := field o; score_red := score_red o; score_blue
     := score_blue o; step := step o; objects := objects o; tanks := tanks
     o; controlpoints := v; stats := stats o; agent_raised_exception :=
     agent_raised_exception o; state := state o; interrupted := interrupted
     o; stdout := stdout o; next_oid := next_oid o; rng := rng o |}.

Definition set_stats (v : GameStats.t) (o : t) : t :=
  {| record := record o; replay := replay o; verbose := verbose o; settings
     := settings o; field := field o; score_red := score_red o; score_blue
     := score_blue o; step := step o; objects := objects o; tanks := tanks
     o; controlpoints := controlpoints o; stats := v; agent_raised_exception
     := agent_raised_exception o; state := state o; interrupted :=
     interrupted o; stdout := stdout o; next_oid := next_oid o; rng := rng o
     |}.

Definition set_agent_raised_exception (v : bool) (o : t) : t :=
  {| record := record o; replay := replay o; verbose := verbose o; settings
     := settings o; field := field o; score_red := score_red o; score_blue
     := score_blue o; step := step o; objects := objects o; tanks := tanks
     o; controlpoints := controlpoints o; stats := stats o;
     agent_raised_exception := v; state := state o; interrupted :=
     interrupted o; stdout := stdout o; next_oid := next_oid o; rng := rng o
     |}.

Definition set_state (v : GameState) (o : t) : t :=
  {| record := record o; replay := replay o; verbose := verbose o; settings
     := settings o; field := field o; score_red := score_red o; score_blue
     := score_blue o; step := step o; objects := objects o; tanks := tanks
     o; controlpoints := controlpoints o; stats := stats o;
     agent_raised_exception := agent_raised_exception o; state := v;
     interrupted := interrupted o; stdout := stdout o; next_oid := next_oid
     o; rng := rng o |}.

Definition set_interrupted (v : bool) (o : t) : t :=
  {| record := record o; replay := replay o; verbose := verbose o; settings
     := settings o; field := field o; score_red := score_red o; score_blue
     := score_blue o; step := step o; objects := objects o; tanks := tanks
     o; controlpoints := controlpoints o; stats := stats o;
     agent_raised_exception := agent_raised_exception o; state := state o;
     interrupted := v; stdout := stdout o; next_oid := next_oid o; rng :=
     rng o |}.

Definition set_stdout (v : list Message) (o : t) : t :=
  {| record := record o; replay := replay o; verbose := verbose o; settings
     := settings o; field := field o; score_red := score_red o; score_blue
     := score_blue o; step := step o; objects := objects o; tanks := tanks
     o; controlpoints := controlpoints o; stats := stats o;
     agent_raised_exception := agent_raised_exception o; state := state o;
     interrupted := interrupted o; stdout := v; next_oid := next_oid o; rng
     := rng o |}.

Definition set_next_oid (v : nat) (o : t) : t :=
  {| record := record o; replay := replay o; verbose := verbose o; settings
     := settings o; field := field o; score_red := score_red o; score_blue
     := score_blue o; step := step o; objects := objects o; tanks := tanks
     o; controlpoints := controlpoints o; stats := stats o;
     agent_raised_exception := agent_raised_exception o; state := state o;
     interrupted := interrupted o; stdout := stdout o; next_oid := v; rng :=
     rng o |}.

Definition set_rng (v : nat) (o : t) : t :=
  {| record := record o; replay := replay o; verbose := verbose o; settings
     := settings o; field := field o; score_red := score_red o; score_blue
     := score_blue o; step := step o; objects := objects o; tanks := tanks
     o; controlpoints := controlpoints o; stats := stats o;
     agent_raised_exception := agent_raised_exception o; state := state o;
     interrupted := interrupted o; stdout := stdout o; next_oid := next_oid
     o; rng := v |}.

End Game.

(** ** What lies outside the engine file *)

(** What one tank's delegate does in one step: whether [observe] raised and
    how long it took, what [action] returned ([None] when it raised or did
    not return a triple) and how long it took. *)
Record Thought := mkThought {
  observe_raised : bool;
  observe_time   : Q;
  action_result  : option Action;
  action_time    : Q
}.

(** Everything the loop obtains from outside [core.py]:
    - [cos], [sin] from [math], and [angle_fix] from [utilities];
    - [gauss], the successive draws of [random.gauss(0, SIZE)];
    - [think step team id], the behaviour of the agents and of the clock;
    - [raycast objects p0 p1 exclude], the sorted hits [(t, point, who)] of
      [Game.raycast], which rests on the intersection tests of [utilities];
    - [physics objects], the positional part of [Game.substep]: the new
      [(_x, _y)] of the objects it moved and the colliding pairs in the order
      the set [pairs] is iterated (an order that follows object addresses);
    - [interrupt step k], whether an interrupt is raised at point [k] of a
      step (0: on entry, 1: after the actions, 2: after the substeps);
    - [finalize brain interrupted], the exception [brain.finalize] raises,
      if any;
    - [global_allobjects], the value of the module-level name [allobjects],
      if the wildcard imports [from utilities import *] and
      [from libs import *] bind one: [core.py] itself binds no such name
      at module level. *)
Record World := mkWorld {
  cos       : Q -> Q;
  sin       : Q -> Q;
  angle_fix : Q -> Q;
  gauss     : nat -> Q;
  think     : Z -> Team -> nat -> Thought;
  raycast   : list GameObject -> Q * Q -> Q * Q -> nat
              -> list (Q * (Q * Q) * nat);
  physics   : list GameObject -> list (nat * (Q * Q)) * list (nat * nat);
  interrupt : Z -> nat -> bool;
  finalize  : Brain -> bool -> option PyExn;
  global_allobjects : option (list GameObject)
}.

(** ** The object list *)

Definition has_oid (i : nat) (o : GameObject) : bool := Nat.eqb (oid o) i.

Definition lookup_obj (i : nat) (l : list GameObject) : option GameObject :=
  find (has_oid i) l.

Definition update_obj (i : nat) (f : GameObject -> GameObject)
    (l : list GameObject) : list GameObject :=
  map (fun o => if has_oid i o then f o else o) l.

Definition remove_obj (i : nat) (l : list GameObject) : list GameObject :=
  filter (fun o => negb (has_oid i o)) l.

Definition remove_nat (i : nat) (l : list nat) : list nat :=
  filter (fun j => negb (Nat.eqb j i)) l.

(** [Game.log]: prints only when [verbose] is set. *)
Definition Game_log (g : Game.t) (m : Message) : Game.t :=
  if Game.verbose g then Game.set_stdout (Game.stdout g ++ [m]) g else g.

(** The [print] statement. *)
Definition print (g : Game.t) (m : Message) : Game.t :=
  Game.set_stdout (Game.stdout g ++ [m]) g.

(** A new object receives its identity when it is created. *)
Definition alloc (o : GameObject) (g : Game.t) : GameObject * Game.t :=
  (set_oid (Game.next_oid g) o, Game.set_next_oid (S (Game.next_oid g)) g).
(** ** Methods of the game objects *)

(** [ControlPoint.update]: the tally is reset and the owner, if any, takes
    one point from the other side. *)
Definition ControlPoint_update (self : GameObject) (g : Game.t)
    : GameObject * Game.t :=
  let self := set_collided tally_zero self in
  if Team_eqb (team self) TEAM_RED
     && (Game.score_red g <? max_score (Game.settings g)) then
    (self, Game.set_score_blue (Game.score_blue g - 1)
             (Game.set_score_red (Game.score_red g + 1) g))
  else if Team_eqb (team self) TEAM_BLUE
          && (Game.score_blue g <? max_score (Game.settings g)) then
    (self, Game.set_score_red (Game.score_red g - 1)
             (Game.set_score_blue (Game.score_blue g + 1) g))
  else (self, g).

(** [ControlPoint.collide], for the three capture modes; any other mode
    changes nothing. *)
Definition ControlPoint_collide (mode : Z) (self other : GameObject)
    : GameObject :=
  if negb (Class_eqb (cls other) Tank) then self
  else if mode =? 0 then
    if (0 <? tally_get (collided self) (team self))
       && negb (Team_eqb (team self) (team other)) then
      set_team TEAM_NEUTRAL self
    else
      let self := set_team (team other) self in
      set_collided (tally_incr (collided self) (team self)) self
  else if mode =? 1 then
    if 0 <? tally_get (collided self) (team self) then self
    else
      let self := set_team (team other) self in
      set_collided (tally_incr (collided self) (team self)) self
  else if mode =? 2 then
    let self := set_collided (tally_incr (collided self) (team other)) self in
    if negb (Team_eqb (team self) (team other))
       && (tally_get (collided self) (team other)
           =? tally_get (collided self) (team self)) then
      set_team TEAM_NEUTRAL self
    else if tally_get (collided self) (team self)
            <? tally_get (collided self) (team other) then
      set_team (team other) self
    else self
  else self.

(** [Tank.update]: the respawn countdown. *)
Definition Tank_update (self : GameObject) : GameObject :=
  if respawn_in self =? 0 then set_respawn_in (-1) self
  else if 0 <? respawn_in self then
    set_respawn_in (respawn_in self - 1) self
  else self.

(** The three lines printed when an agent raises. *)
Definition print_agent_exception (self : GameObject) (g : Game.t) : Game.t :=
  let g := print g (MsgAgentRaised (team self) (tank_id self)) in
  let g := print g MsgRule in
  let g := print g MsgTraceback in
  print g MsgRule.

(** [Tank.send_observation], as far as the tank and the game are changed:
    the observation itself is handed to the delegate and kept nowhere
    else. *)
Definition Tank_send_observation (W : World) (self : GameObject)
    (g : Game.t) : GameObject * Game.t :=
  match brain self with
  | None => (self, g)
  | Some _ =>
      let th := think W (Game.step g) (team self) (tank_id self) in
      let g := if observe_raised th then
                 print_agent_exception self
                   (Game.set_agent_raised_exception true g)
               else g in
      (set_time_thought (observe_time th) self, g)
  end.

Definition NOOP : Action := (0%Q, 0%Q, false).

(** The first half of [Tank.get_action]: the action of this step, taken
    from the queue or asked from the delegate. A tank without delegate whose
    queue is empty fails on [self.brain.action()] inside the [try]. *)
Definition Tank_choose_action (W : World) (self : GameObject) (g : Game.t)
    : Action * GameObject * Game.t :=
  match negb (record self), actions self with
  | true, a :: rest => (a, set_actions rest self, g)
  | _, _ =>
      let th := think W (Game.step g) (team self) (tank_id self) in
      let answer := match brain self with
                    | Some _ => action_result th
                    | None => None
                    end in
      let '(a, g) :=
        match answer with
        | Some a => (a, g)
        | None => (NOOP, print_agent_exception self
                           (Game.set_agent_raised_exception true g))
        end in
      let self :=
        set_time_thought (time_thought self + action_time th)%Q self in
      let '(a, g) :=
        if Qltb (think_time (Game.settings g)) (time_thought self) then
          (NOOP, Game_log g (MsgTimedOut (team self) (tank_id self)
                               (time_thought self)))
        else (a, g) in
      let self := if record self
                  then set_actions (actions self ++ [a]) self else self in
      (a, self, g)
  end.

(** The two clamps of [get_action]. *)
Definition clamp_speed (s : Settings) (speed : Q) : Q :=
  py_min (max_speed s) speed.

Definition clamp_turn (W : World) (s : Settings) (turn : Q) : Q :=
  py_max (- max_turn s) (py_min (max_turn s) (angle_fix W turn)).

(** The second half: the action is applied when the tank is alive. *)
Definition Tank_apply_action (W : World) (s : Settings) (a : Action)
    (self : GameObject) : GameObject :=
  let '(turn, speed, shoot) := a in
  let self := set_shoots false self in
  if respawn_in self =? -1 then
    let speed := clamp_speed s speed in
    let turn := clamp_turn W s turn in
    let self := set_angle (angle self + turn)%Q self in
    let self := set_x (x self + cos W (angle self) * speed)%Q self in
    let self := set_y (y self + sin W (angle self) * speed)%Q self in
    if shoot && (0 <? ammo self) then
      set_ammo (ammo self - 1) (set_shoots true self)
    else self
  else self.

(** [Tank.get_action] *)
Definition Tank_get_action (W : World) (self : GameObject) (g : Game.t)
    : GameObject * Game.t :=
  let '(a, self, g) := Tank_choose_action W self g in
  (Tank_apply_action W (Game.settings g) a self, g).

(** [Game.rem_object]: the object leaves the list and, when it has a parent
    fountain, the children of that fountain. *)
Definition rem_object (o : GameObject) (g : Game.t) : Game.t :=
  let objs := remove_obj (oid o) (Game.objects g) in
  let objs := match parent o with
              | Some p =>
                  update_obj p
                    (fun f => set_children (remove_nat (oid o) (children f)) f)
                    objs
              | None => objs
              end in
  Game.set_objects objs g.

(** [Ammo.collide] and [Crumb.collide]. *)
Definition Ammo_collide (self other : GameObject) (g : Game.t) : Game.t :=
  if negb (pickedup self) && Class_eqb (cls other) Tank then
    let st := Game.stats g in
    let st := match team other with
              | TEAM_RED =>
                  GameStats.set_ammo_red (GameStats.ammo_red st + 1) st
              | TEAM_BLUE =>
                  GameStats.set_ammo_blue (GameStats.ammo_blue st + 1) st
              | TEAM_NEUTRAL => st
              end in
    let g := Game.set_stats st g in
    let g := Game.set_objects
               (update_obj (oid other)
                  (fun t => set_ammo (ammo t + ammo_amount (Game.settings g)) t)
                  (Game.objects g)) g in
    rem_object self g
  else g.

Definition Crumb_collide (self other : GameObject) (g : Game.t) : Game.t :=
  if negb (pickedup self) && Class_eqb (cls other) Tank then
    let st := Game.stats g in
    let st := match team other with
              | TEAM_RED =>
                  GameStats.set_crumbs_red (GameStats.crumbs_red st + 1) st
              | TEAM_BLUE =>
                  GameStats.set_crumbs_blue (GameStats.crumbs_blue st + 1) st
              | TEAM_NEUTRAL => st
              end in
    rem_object self (Game.set_stats st g)
  else g.

(** [o1.collide(o2)] for the objects with identities [i] and [j]. A pickup
    that was removed earlier in the same substep is no longer found in the
    list; in the source it is still called and does nothing, its
    [pickedup] flag being set. A tank only notes the collision in its
    observation. *)
Definition collide (i j : nat) (g : Game.t) : Game.t :=
  match lookup_obj i (Game.objects g), lookup_obj j (Game.objects g) with
  | Some self, Some other =>
      match cls self with
      | ControlPoint =>
          Game.set_objects
            (update_obj i
               (fun cp => ControlPoint_collide
                            (capture_mode (Game.settings g)) cp other)
               (Game.objects g)) g
      | Ammo => Ammo_collide self other g
      | Crumb => Crumb_collide self other g
      | _ => g
      end
  | _, _ => g
  end.

(** *** Fountains *)

Definition CHILD_CLASS (c : Class) : Class :=
  match c with CrumbFountain => Crumb | _ => Ammo end.

Definition MIN_CHILDREN (c : Class) : nat :=
  match c with CrumbFountain => 100%nat | _ => 1%nat end.

(** [SPREAD]: the identity, except for [CrumbFountain], which adds two
    random offsets. *)
Definition SPREAD (W : World) (self : GameObject) (px py : Q) (g : Game.t)
    : Q * Q * Game.t :=
  match cls self with
  | CrumbFountain =>
      ((px + gauss W (Game.rng g))%Q, (py + gauss W (S (Game.rng g)))%Q,
       Game.set_rng (S (S (Game.rng g))) g)
  | _ => (px, py, g)
  end.

Definition child_init (c : Class) (px py : Q) : GameObject :=
  match c with
  | Crumb => Crumb_init px py
  | _ => Ammo_init px py
  end.

(** [Fountain.spawn_one] for the fountain with identity [i]. The child is
    appended to the object list as [add_object] does; its [added_to_game]
    does nothing. *)
Fixpoint Fountain_spawn_one (W : World) (attempts : nat) (i : nat)
    (g : Game.t) : Result Game.t :=
  match attempts with
  | O => Ok g
  | S attempts' =>
      match lookup_obj i (Game.objects g) with
      | None => Ok g
      | Some self =>
          let '(px, py, g) :=
            SPREAD W self (x self + width self / 2)%Q
                          (y self + height self / 2)%Q g in
          let f := Game.field g in
          if Field.tilesize f =? 0 then Raise ZeroDivisionError else
          let j := Qfloor (px / inject_Z (Field.tilesize f)) in
          let i' := Qfloor (py / inject_Z (Field.tilesize f)) in
          if (0 <=? i') && (i' <? Field.height f)
             && (0 <=? j) && (j <? Field.width f) then
            match nth_error (Field.walls f) (Z.to_nat i') with
            | None => Raise IndexError
            | Some row =>
                match nth_error row (Z.to_nat j) with
                | None => Raise IndexError
                | Some tile =>
                    if tile =? 0 then
                      let cc := CHILD_CLASS (cls self) in
                      let half := (inject_Z (SIZE cc) / 2)%Q in
                      let '(c, g) :=
                        alloc (child_init cc (px - half)%Q (py - half)%Q) g in
                      let c := set_parent (Some i) c in
                      let objs :=
                        update_obj i
                          (fun f => set_children (children f ++ [oid c]) f)
                          (Game.objects g) in
                      Ok (Game.set_objects (objs ++ [c]) g)
                    else Fountain_spawn_one W attempts' i g
                end
            end
          else Fountain_spawn_one W attempts' i g
      end
  end.

(** [Fountain.update] *)
Definition Fountain_update (W : World) (self : GameObject) (g : Game.t)
    : Result Game.t :=
  let c := countdown self in
  let c := if -1 <? c then c - 1 else c in
  let c := if (c =? -1)
              && (length (children self) <? MIN_CHILDREN (cls self))%nat
           then DELAY self else c in
  let g := Game.set_objects
             (update_obj (oid self) (set_countdown c) (Game.objects g)) g in
  if c =? 0 then Fountain_spawn_one W 10 (oid self) g else Ok g.

(** [Fountain.added_to_game]: the loop [while len(self.children) <
    self.MIN_CHILDREN: self.spawn_one()], given [fuel] rounds. *)
Fixpoint Fountain_added_to_game (W : World) (fuel : nat) (i : nat)
    (g : Game.t) : Result Game.t :=
  match lookup_obj i (Game.objects g) with
  | None => Ok g
  | Some self =>
      if (length (children self) <? MIN_CHILDREN (cls self))%nat then
        match fuel with
        | O => Diverge
        | S fuel' =>
            g <- Fountain_spawn_one W 10 i g ;;
            Fountain_added_to_game W fuel' i g
        end
      else Ok g
  end.

(** [o.added_to_game(game)]: [AmmoFountain] first takes its delay from the
    settings. A tank prepares its observation. *)
Definition added_to_game (W : World) (fuel : nat) (o : GameObject)
    (g : Game.t) : Result Game.t :=
  match cls o with
  | AmmoFountain =>
      let g := Game.set_objects
                 (update_obj (oid o)
                    (set_DELAY (ammo_rate (Game.settings g)))
                    (Game.objects g)) g in
      Fountain_added_to_game W fuel (oid o) g
  | Fountain | CrumbFountain => Fountain_added_to_game W fuel (oid o) g
  | _ => Ok g
  end.

(** [Game.add_object] *)
Definition add_object (W : World) (fuel : nat) (o : GameObject)
    (g : Game.t) : Result Game.t :=
  added_to_game W fuel o (Game.set_objects (Game.objects g ++ [o]) g).

(** [o.update()] for the object with identity [i]. *)
Definition update_object (W : World) (i : nat) (g : Game.t)
    : Result Game.t :=
  match lookup_obj i (Game.objects g) with
  | None => Ok g
  | Some self =>
      match cls self with
      | Tank =>
          Ok (Game.set_objects
                (update_obj i (fun _ => Tank_update self) (Game.objects g)) g)
      | ControlPoint =>
          let '(self, g) := ControlPoint_update self g in
          Ok (Game.set_objects
                (update_obj i (fun _ => self) (Game.objects g)) g)
      | Fountain | AmmoFountain | CrumbFountain => Fountain_update W self g
      | _ => Ok g
      end
  end.

(** A tally as it occurs in a game: tanks belong to the red or the blue
    team, so the neutral slot is never counted up, and no slot is
    negative. *)
Definition tally_ok (c : Tally) : Prop :=
  0 <= slot_red c /\ 0 <= slot_blue c /\ slot_neutral c = 0.

(** ** Calling [Tank(...)]: how Python binds the arguments *)

Local Open Scope string_scope.

(** The values that occur as arguments of [Tank(...)] in [Game.setup]. *)
Inductive PyVal :=
  | VNone
  | VBool (b : bool)
  | VInt (z : Z)
  | VFloat (q : Q)
  | VTeam (t : Team)
  | VBrain (b : Brain)
  | VSpawn (s : Spawn)
  | VActions (l : list Action)
  | VGame.

(** Positional arguments fill the parameters from the left. *)
Fixpoint bind_positional (params : list string) (args : list PyVal)
    : Result (list (string * PyVal)) :=
  match args, params with
  | [], _ => Ok []
  | a :: args', p :: params' =>
      r <- bind_positional params' args' ;;
      Ok ((p, a) :: r)
  | _ :: _, [] => Raise (TypeError "too many positional arguments")
  end.

Definition is_bound (k : string) (bound : list (string * PyVal)) : bool :=
  existsb (fun b => String.eqb k (fst b)) bound.

(** A keyword argument must name a parameter that has no value yet. *)
Fixpoint bind_keywords (params : list string)
    (bound : list (string * PyVal)) (kw : list (string * PyVal))
    : Result (list (string * PyVal)) :=
  match kw with
  | [] => Ok bound
  | (k, v) :: kw' =>
      if negb (existsb (String.eqb k) params) then
        Raise (TypeError "unexpected keyword argument")
      else if is_bound k bound then
        Raise (TypeError "got multiple values for keyword argument")
      else bind_keywords params (bound ++ [(k, v)]) kw'
  end.

Definition bind_args (params : list string) (args : list PyVal)
    (kw : list (string * PyVal)) : Result (list (string * PyVal)) :=
  bound <- bind_positional params args ;;
  bind_keywords params bound kw.

(** The value of parameter [k], or its default. *)
Definition arg (k : string) (default : PyVal)
    (bound : list (string * PyVal)) : PyVal :=
  match find (fun b => String.eqb k (fst b)) bound with
  | Some (_, v) => v
  | None => default
  end.

(** [float(v)] *)
Definition to_float (v : PyVal) : Result Q :=
  match v with
  | VFloat q => Ok q
  | VInt z => Ok (inject_Z z)
  | VBool b => Ok (if b then 1%Q else 0%Q)
  | _ => Raise (TypeError "float() argument must be a string or a number")
  end.

(** The remaining attributes are stored as given; the model keeps them when
    they have the type the engine later relies on. *)
Definition to_id (v : PyVal) : Result nat :=
  match v with
  | VInt z => Ok (Z.to_nat z)
  | _ => Raise (TypeError "id")
  end.

Definition to_team (v : PyVal) : Result Team :=
  match v with
  | VTeam t => Ok t
  | VInt 0 => Ok TEAM_RED
  | VInt 1 => Ok TEAM_BLUE
  | VInt 2 => Ok TEAM_NEUTRAL
  | _ => Raise (TypeError "team")
  end.

Definition to_brain (v : PyVal) : Result (option Brain) :=
  match v with
  | VNone => Ok None
  | VBrain b => Ok (Some b)
  | _ => Raise (TypeError "brain")
  end.

Definition to_spawn (v : PyVal) : Result (option Spawn) :=
  match v with
  | VNone => Ok None
  | VSpawn s => Ok (Some s)
  | _ => Raise (TypeError "spawn")
  end.

Definition to_actions (v : PyVal) : Result (option (list Action)) :=
  match v with
  | VNone => Ok None
  | VActions l => Ok (Some l)
  | _ => Raise (TypeError "actions")
  end.

Definition to_bool (v : PyVal) : Result bool :=
  match v with
  | VBool b => Ok b
  | _ => Raise (TypeError "record")
  end.

(** The parameters of [Tank.__init__] after [self]. *)
Definition Tank_params : list string :=
  ["x"; "y"; "angle"; "id"; "team"; "brain"; "spawn"; "actions"; "record"].

(** The call of [Tank] with positional arguments [args] and keyword
    arguments [kw]. *)
Definition Tank_call (args : list PyVal) (kw : list (string * PyVal))
    : Result GameObject :=
  b <- bind_args Tank_params args kw ;;
  px <- to_float (arg "x" (VInt 0) b) ;;
  py <- to_float (arg "y" (VInt 0) b) ;;
  pa <- to_float (arg "angle" (VInt 0) b) ;;
  id <- to_id (arg "id" (VInt 0) b) ;;
  tm <- to_team (arg "team" (VTeam TEAM_RED) b) ;;
  br <- to_brain (arg "brain" VNone b) ;;
  sp <- to_spawn (arg "spawn" VNone b) ;;
  ac <- to_actions (arg "actions" VNone b) ;;
  rc <- to_bool (arg "record" (VBool false) b) ;;
  Ok (Tank_init px py pa id tm br sp ac rc).

(** ** [Field.get_objects] *)

Local Close Scope string_scope.
Local Open Scope Z_scope.

Fixpoint assign_oids (n : nat) (l : list GameObject) : list GameObject :=
  match l with
  | [] => []
  | o :: l' => set_oid n o :: assign_oids (S n) l'
  end.

(** [cls(x=..., y=...)] for a class named in [other_objects]. *)
Definition construct (c : Class) (px py : Q) : GameObject :=
  match c with
  | Tank => Tank_init px py 0 0%nat TEAM_RED None None None false
  | Wall => Wall_init px py 12 12
  | ControlPoint => ControlPoint_init px py
  | Ammo => Ammo_init px py
  | Crumb => Crumb_init px py
  | Fountain | AmmoFountain | CrumbFountain => Fountain_init c px py
  | TankSpawn => TankSpawn_init px py 0 TEAM_RED
  end.

(** The objects of the field, in the order [walls + cps + redspawns +
    bluespawns + other]; they receive the identities [n], [n+1], ... *)
Definition get_objects (f : Field.t) (n : nat)
    : list GameObject * list GameObject * list GameObject
      * list GameObject :=
  let ts := Field.tilesize f in
  let walls :=
    map (fun w : Q * Q * Q * Q =>
           let '(wx, wy, ww, wh) := w in Wall_init wx wy ww wh)
        (Field.wallrects f) in
  let ofs := (ts - SIZE ControlPoint) / 2 in
  let cps :=
    map (fun p : Z * Z =>
           let '(px, py) := p in
           ControlPoint_init (inject_Z (px * ts + ofs))
                             (inject_Z (py * ts + ofs)))
        (Field.controlpoints f) in
  let ofs := (ts - SIZE TankSpawn) / 2 in
  let mkspawn (tm : Team) (p : Z * Z * Q) :=
    let '(px, py, r) := p in
    TankSpawn_init (inject_Z (px * ts + ofs)) (inject_Z (py * ts + ofs))
                   r tm in
  let redspawns := map (mkspawn TEAM_RED) (Field.spawns_red f) in
  let bluespawns := map (mkspawn TEAM_BLUE) (Field.spawns_blue f) in
  let other :=
    map (fun p : Z * Z * Class =>
           let '(px, py, c) := p in
           let ofs := (inject_Z (ts - SIZE c) / 2)%Q in
           construct c (inject_Z (px * ts) + ofs)%Q
                       (inject_Z (py * ts) + ofs)%Q)
        (Field.other_objects f) in
  let n1 := (n + length walls)%nat in
  let n2 := (n1 + length cps)%nat in
  let n3 := (n2 + length redspawns)%nat in
  let n4 := (n3 + length bluespawns)%nat in
  let walls := assign_oids n walls in
  let cps := assign_oids n1 cps in
  let redspawns := assign_oids n2 redspawns in
  let bluespawns := assign_oids n3 bluespawns in
  let other := assign_oids n4 other in
  (walls ++ cps ++ redspawns ++ bluespawns ++ other,
   cps, redspawns, bluespawns).

(** ** [Game.__init__] and [Game.setup] *)

Definition version : string := "1.0"%string.

(** [ReplayData.__init__]; the attribute [field] is only set by
    [Game.end]. *)
Definition ReplayData_init (g : Game.t) : ReplayData.t :=
  {| ReplayData.settings := Game.settings g;
     ReplayData.field := None;
     ReplayData.version := version;
     ReplayData.actions_red := [];
     ReplayData.actions_blue := [] |}.

Definition empty_field : Field.t :=
  {| Field.width := 0; Field.height := 0; Field.tilesize := 0;
     Field.walls := []; Field.spawns_red := []; Field.spawns_blue := [];
     Field.controlpoints := []; Field.other_objects := [];
     Field.wallrects := [] |}.

(** The attributes [Game.__init__] sets; those that [setup] initialises
    have placeholder values until then. *)
Definition blank_game (s : Settings) (f : Field.t) (record : bool)
    (replay : option ReplayData.t) (verbose : bool) (out : list Message)
    : Game.t :=
  {| Game.record := record; Game.replay := replay;
     Game.verbose := verbose; Game.settings := s; Game.field := f;
     Game.score_red := 0; Game.score_blue := 0; Game.step := 0;
     Game.objects := []; Game.tanks := []; Game.controlpoints := [];
     Game.stats := GameStats_init;
     Game.agent_raised_exception := false;
     Game.state := STATE_NEW; Game.interrupted := false;
     Game.stdout := out; Game.next_oid := 0%nat; Game.rng := 0%nat |}.

(** [Game.__init__] without renderer. For a new game the settings and the
    field are the ones given (a field that is not given is generated
    first); for a replay they come from the bundle. *)
Definition Game_init (settings : Settings) (field : Field.t)
    (record : bool) (replay : option ReplayData.t) (verbose : bool)
    : Result Game.t :=
  match replay with
  | Some r =>
      if record then
        Raise (Exception "Cannot record and play replay at the same time.")
      else
        let out := if verbose then [MsgPlayingReplay] else [] in
        if negb (String.eqb (ReplayData.version r) version) then
          Raise (Exception "Replay is for older game version.")
        else
          match ReplayData.field r with
          | None => Raise AttributeError
          | Some f =>
              Ok (blank_game (ReplayData.settings r) f record replay
                    verbose out)
          end
  | None => Ok (blank_game settings field record replay verbose [])
  end.

(** [for o in allobjects: self.add_object(o)] *)
Fixpoint add_objects (W : World) (fuel : nat) (l : list GameObject)
    (g : Game.t) : Result Game.t :=
  match l with
  | [] => Ok g
  | o :: l' =>
      g <- add_object W fuel o g ;;
      add_objects W fuel l' g
  end.

Definition spawn_of (s : GameObject) : Spawn :=
  {| spawn_x := x s; spawn_y := y s; spawn_angle := angle s |}.

(** The delegate of the tank at spawn [i] of a team, for the four
    constructor calls of the source: [known] tells which of the two calls
    of a loop is taken. *)
Definition new_brain_red (g : Game.t) (i : nat) : Brain :=
  if field_known (Game.settings g) then
    mkBrain red_brain_class i TEAM_RED (Game.settings g) true red_init
  else
    mkBrain red_brain_class i TEAM_RED (Game.settings g) false red_init.

Definition new_brain_blue (g : Game.t) (i : nat) : Brain :=
  if field_known (Game.settings g) then
    mkBrain blue_brain_class i TEAM_BLUE (Game.settings g) true blue_init
  else
    mkBrain red_brain_class i TEAM_RED (Game.settings g) false red_init.

(** After a tank is built it gets its identity, joins [self.tanks] and is
    added to the game. *)
Definition enlist_tank (W : World) (fuel : nat) (t : GameObject)
    (g : Game.t) : Result Game.t :=
  let '(t, g) := alloc t g in
  let g := Game.set_tanks (Game.tanks g ++ [oid t]) g in
  add_object W fuel t g.

(** The two loops of the branch "Initialize new tanks with brains". *)
Fixpoint setup_brain_tanks (W : World) (fuel : nat) (tm : Team) (i : nat)
    (spawns : list GameObject) (g : Game.t) : Result Game.t :=
  match spawns with
  | [] => Ok g
  | s :: rest =>
      let brain := match tm with
                   | TEAM_RED => new_brain_red g i
                   | _ => new_brain_blue g i
                   end in
      t <- Tank_call
             [VFloat (x s + 2)%Q; VFloat (y s + 2)%Q; VFloat (angle s);
              VInt (Z.of_nat i)]
             [("team", VTeam tm); ("brain", VBrain brain);
              ("spawn", VSpawn (spawn_of s));
              ("record", VBool (Game.record g))]%string ;;
      g <- enlist_tank W fuel t g ;;
      setup_brain_tanks W fuel tm (S i) rest g
  end.

(** The two loops of the branch "Initialize tanks to play replays", over
    [zip(spawns, actions)]. *)
Fixpoint setup_replay_tanks (W : World) (fuel : nat) (tm : Team) (i : nat)
    (spawns : list GameObject) (acts : list (list Action)) (g : Game.t)
    : Result Game.t :=
  match spawns, acts with
  | s :: rest, a :: acts' =>
      t <- Tank_call
             [VGame; VFloat (x s + 2)%Q; VFloat (y s + 2)%Q;
              VFloat (angle s); VInt (Z.of_nat i)]
             [("team", VTeam tm); ("spawn", VSpawn (spawn_of s));
              ("actions", VActions a)]%string ;;
      g <- enlist_tank W fuel t g ;;
      setup_replay_tanks W fuel tm (S i) rest acts' g
  | _, _ => Ok g
  end.

(** [Game.setup] *)
Definition Game_setup (W : World) (fuel : nat) (g : Game.t)
    : Result Game.t :=
  let g := if Game.record g
           then Game.set_replay (Some (ReplayData_init g)) g else g in
  let '(allobjects, cps, reds, blues) :=
    get_objects (Game.field g) (Game.next_oid g) in
  let g := Game.set_next_oid (Game.next_oid g + length allobjects)%nat g in
  let g := Game.set_score_red (max_score (Game.settings g) / 2) g in
  let g := Game.set_score_blue (max_score (Game.settings g) / 2) g in
  let g := Game.set_step 0 g in
  let g := Game.set_objects [] g in
  let g := Game.set_stats GameStats_init g in
  let g := Game.set_agent_raised_exception false g in
  let g := Game.set_tanks [] g in
  let g := Game.set_controlpoints [] g in
  g <- add_objects W fuel allobjects g ;;
  let g := Game.set_controlpoints (map oid cps) g in
  g <- match Game.record g, Game.replay g with
       | false, Some r =>
           g <- setup_replay_tanks W fuel TEAM_RED 0 reds
                  (ReplayData.actions_red r) g ;;
           setup_replay_tanks W fuel TEAM_BLUE 0 blues
             (ReplayData.actions_blue r) g
       | _, _ =>
           g <- setup_brain_tanks W fuel TEAM_RED 0 reds g ;;
           setup_brain_tanks W fuel TEAM_BLUE 0 blues g
       end ;;
  let g := Game.set_state STATE_READY g in
  Ok (Game.set_interrupted false g).
(** ** [Game.run] and [Game.end] *)

(** How one pass through the body of the main loop ends: it falls through
    to the next step, leaves the loop by [break], or an exception leaves
    it. *)
Inductive Outcome :=
  | Next (g : Game.t)
  | Stop (g : Game.t)
  | Abort (e : PyExn) (g : Game.t)
  | NoOutcome.

(** How [run] ends: it returns, an exception leaves it, or it never
    ends. *)
Inductive Run :=
  | Returned (g : Game.t)
  | Uncaught (e : PyExn) (g : Game.t)
  | Hangs.

(** [for o in self.objects: o.update()], over the objects present when the
    loop starts (the pickups a fountain appends meanwhile have an empty
    [update]). *)
Fixpoint update_all (W : World) (ids : list nat) (g : Game.t)
    : Result Game.t :=
  match ids with
  | [] => Ok g
  | i :: ids' =>
      g <- update_object W i g ;;
      update_all W ids' g
  end.

(** [for t in self.tanks: t.m()] for a method [m] of [Tank]. *)
Fixpoint for_tanks (m : GameObject -> Game.t -> GameObject * Game.t)
    (ids : list nat) (g : Game.t) : Game.t :=
  match ids with
  | [] => g
  | i :: ids' =>
      let g :=
        match lookup_obj i (Game.objects g) with
        | Some self =>
            let '(self, g) := m self g in
            Game.set_objects
              (update_obj i (fun _ => self) (Game.objects g)) g
        | None => g
        end in
      for_tanks m ids' g
  end.

(** "Compute shooting": the first object hit by the ray of a shooting tank
    is sent to respawn when it is a tank. *)
Definition shoot (W : World) (tank : GameObject) (g : Game.t) : Game.t :=
  if shoots tank then
    let tcx := (_x tank + width tank / 2)%Q in
    let tcy := (_y tank + height tank / 2)%Q in
    let target :=
      ((cos W (angle tank) * max_range (Game.settings g) + tcx)%Q,
       (sin W (angle tank) * max_range (Game.settings g) + tcy)%Q) in
    match raycast W (Game.objects g) (tcx, tcy) target (oid tank) with
    | (_, _, who) :: _ =>
        Game.set_objects
          (update_obj who
             (fun o => if Class_eqb (cls o) Tank
                       then set_respawn_in (spawn_time (Game.settings g)) o
                       else o)
             (Game.objects g)) g
    | [] => g
    end
  else g.

Fixpoint shoot_all (W : World) (ids : list nat) (g : Game.t) : Game.t :=
  match ids with
  | [] => g
  | i :: ids' =>
      let g := match lookup_obj i (Game.objects g) with
               | Some tank => shoot W tank g
               | None => g
               end in
      shoot_all W ids' g
  end.

(** The per-substep displacement of the movable objects. *)
Definition set_deltas (o : GameObject) : GameObject :=
  if movable o then
    let o := set__dx ((x o - _x o) / inject_Z (Z.of_nat SIMULATION_SUBSTEPS))%Q
               o in
    set__dy ((y o - _y o) / inject_Z (Z.of_nat SIMULATION_SUBSTEPS))%Q o
  else o.

(** "Reset tanks that got shot". *)
Definition reset_tank (s : Settings) (tank : GameObject)
    : Result GameObject :=
  if respawn_in tank =? spawn_time s then
    match spawn tank with
    | None => Raise AttributeError
    | Some sp =>
        let tank := set_ammo 0 tank in
        let tank := set__x (spawn_x sp + 2)%Q
                      (set_x (spawn_x sp + 2)%Q tank) in
        let tank := set__y (spawn_y sp + 2)%Q
                      (set_y (spawn_y sp + 2)%Q tank) in
        let tank := set__dy 0%Q (set__dx 0%Q tank) in
        Ok (set_angle (spawn_angle sp) tank)
    end
  else Ok tank.

Fixpoint reset_tanks (ids : list nat) (g : Game.t) : Result Game.t :=
  match ids with
  | [] => Ok g
  | i :: ids' =>
      match lookup_obj i (Game.objects g) with
      | Some tank =>
          tank <- reset_tank (Game.settings g) tank ;;
          reset_tanks ids'
            (Game.set_objects
               (update_obj i (fun _ => tank) (Game.objects g)) g)
      | None => reset_tanks ids' g
      end
  end.

(** The positions the solver computed are written to the movable physical
    objects (the list [broadphase_mov]). *)
Fixpoint apply_positions (ps : list (nat * (Q * Q)))
    (objs : list GameObject) : list GameObject :=
  match ps with
  | [] => objs
  | (i, (px, py)) :: ps' =>
      apply_positions ps'
        (update_obj i
           (fun o => if movable o && physical o
                     then set__y py (set__x px o) else o)
           objs)
  end.

(** [for (o1,o2) in pairs: o1.collide(o2); o2.collide(o1)] *)
Fixpoint notify (pairs : list (nat * nat)) (g : Game.t) : Game.t :=
  match pairs with
  | [] => g
  | (i, j) :: pairs' => notify pairs' (collide j i (collide i j g))
  end.

(** [Game.substep] *)
Definition substep (W : World) (g : Game.t) : Game.t :=
  let '(ps, pairs) := physics W (Game.objects g) in
  notify pairs (Game.set_objects (apply_positions ps (Game.objects g)) g).

Fixpoint substeps (W : World) (n : nat) (g : Game.t) : Game.t :=
  match n with
  | O => g
  | S n' => substeps W n' (substep W g)
  end.

(** The last loop of a step: positions and angles are snapped. *)
Definition snap (W : World) (o : GameObject) : GameObject :=
  if movable o then
    set_angle (angle_fix W (angle o)) (set_y (_y o) (set_x (_x o) o))
  else o.

Definition is_crumb (o : GameObject) : bool := Class_eqb (cls o) Crumb.

(** The test of the line "No crumbs left ending condition": the name
    [allobjects] is not a local of [run] (it is one of [setup]), so it is
    looked up among the globals of the module. *)
Definition crumbs_left (W : World) : Result bool :=
  match global_allobjects W with
  | None => Raise (NameError "allobjects")
  | Some l => Ok (existsb is_crumb l)
  end.

Definition of_result (g0 : Game.t) (r : Result Game.t)
    (k : Game.t -> Outcome) : Outcome :=
  match r with
  | Ok g => k g
  | Raise e => Abort e g0
  | Diverge => NoOutcome
  end.

(** Observations, actions and shots of one step. *)
Definition sense_think_act (W : World) (g : Game.t) : Game.t :=
  let g := for_tanks (Tank_send_observation W) (Game.tanks g) g in
  let g := for_tanks (Tank_get_action W) (Game.tanks g) g in
  shoot_all W (Game.tanks g) g.

(** "Score ending condition" *)
Definition score_over (g : Game.t) : bool :=
  negb (Z.land (end_condition (Game.settings g)) ENDGAME_SCORE =? 0)
  && ((Game.score_red g =? 0) || (Game.score_blue g =? 0)).

(** "No crumbs left ending condition": the flag is tested first, the
    objects are only looked at when it is set. *)
Definition crumbs_over (W : World) (g : Game.t) : Result bool :=
  if negb (Z.land (end_condition (Game.settings g)) ENDGAME_CRUMBS =? 0)
  then some_left <- crumbs_left W ;; Ok (negb some_left)
  else Ok false.

(** The rest of a step: displacements, respawns, the substeps and the
    final snap. *)
Definition simulate (W : World) (g : Game.t) : Outcome :=
  let g := Game.set_objects (map set_deltas (Game.objects g)) g in
  of_result g (reset_tanks (Game.tanks g) g) (fun g =>
  let g := substeps W SIMULATION_SUBSTEPS g in
  if interrupt W (Game.step g) 2 then Abort KeyboardInterrupt g else
  Next (Game.set_objects (map (snap W) (Game.objects g)) g)).

(** The body of the main loop for the loop variable [s]. *)
Definition Game_step (W : World) (s : Z) (g : Game.t) : Outcome :=
  let g := Game.set_step (s + 1) g in
  if interrupt W (Game.step g) 0 then Abort KeyboardInterrupt g else
  of_result g (update_all W (map oid (Game.objects g)) g) (fun g =>
  let g := sense_think_act W g in
  if interrupt W (Game.step g) 1 then Abort KeyboardInterrupt g else
  if score_over g then Stop g else
  match crumbs_over W g with
  | Raise e => Abort e g
  | Diverge => NoOutcome
  | Ok true => Stop g
  | Ok false => simulate W g
  end).

(** [for s in xrange(settings.max_steps)], with [n] passes left. *)
Fixpoint Game_loop (W : World) (n : nat) (s : Z) (g : Game.t) : Outcome :=
  match n with
  | O => Next g
  | S n' =>
      match Game_step W s g with
      | Next g => Game_loop W n' (s + 1) g
      | out => out
      end
  end.

Definition tanks_of (tm : Team) (g : Game.t) : list GameObject :=
  filter (fun o => Team_eqb (team o) tm)
    (omap (fun i => lookup_obj i (Game.objects g)) (Game.tanks g)).

(** [for tank in self.tanks: tank.brain.finalize(interrupted)] *)
Fixpoint finalize_all (W : World) (interrupted : bool) (ids : list nat)
    (g : Game.t) : Run :=
  match ids with
  | [] => Returned g
  | i :: ids' =>
      match lookup_obj i (Game.objects g) with
      | Some tank =>
          match brain tank with
          | None => Uncaught AttributeError g
          | Some b =>
              match finalize W b interrupted with
              | Some e => Uncaught e g
              | None => finalize_all W interrupted ids' g
              end
          end
      | None => finalize_all W interrupted ids' g
      end
  end.

(** [Game.end] *)
Definition Game_end (W : World) (interrupted : bool) (g : Game.t) : Run :=
  let g := if interrupted
           then Game.set_interrupted true (print g MsgInterrupted)
           else g in
  let g := Game.set_state STATE_ENDED g in
  let st := Game.stats g in
  let st := GameStats.set_score_red (Game.score_red g) st in
  let st := GameStats.set_score_blue (Game.score_blue g) st in
  let g := Game.set_stats st g in
  if Game.score_red g + Game.score_blue g =? 0 then
    Uncaught ZeroDivisionError g
  else
  let st := GameStats.set_score
              (inject_Z (Game.score_red g)
               / inject_Z (Game.score_red g + Game.score_blue g))%Q st in
  let st := GameStats.set_steps (Game.step g) st in
  let g := Game.set_stats st g in
  let g := Game_log g (MsgStats st) in
  let recorded :=
    if Game.record g then
      match Game.replay g with
      | None => Raise AttributeError
      | Some r =>
          let r := ReplayData.set_settings
                     (set_max_steps (Game.step g) (Game.settings g)) r in
          let r := ReplayData.set_field (Some (Game.field g)) r in
          let r := ReplayData.set_actions_red
                     (map actions (tanks_of TEAM_RED g)) r in
          let r := ReplayData.set_actions_blue
                     (map actions (tanks_of TEAM_BLUE g)) r in
          Ok (Game.set_replay (Some r) g)
      end
    else Ok g in
  match recorded with
  | Raise e => Uncaught e g
  | Diverge => Hangs
  | Ok g =>
      match Game.record g, Game.replay g with
      | false, Some _ => Returned g
      | _, _ => finalize_all W interrupted (Game.tanks g) g
      end
  end.

Definition is_interrupt (e : PyExn) : bool :=
  match e with
  | GameInterrupt | KeyboardInterrupt => true
  | _ => false
  end.

(** [Game.run]; [fuel] bounds the loops of [setup]. *)
Definition Game_run (W : World) (fuel : nat) (g : Game.t) : Run :=
  let ready := if GameState_eqb (Game.state g) STATE_READY
               then Ok g else Game_setup W fuel g in
  match ready with
  | Raise e => Uncaught e g
  | Diverge => Hangs
  | Ok g =>
      let g := Game.set_state STATE_RUNNING g in
      match Game_loop W (Z.to_nat (max_steps (Game.settings g))) 0 g with
      | Next g | Stop g => Game_end W false g
      | Abort e g =>
          if is_interrupt e
          then Game_end W true (Game.set_state STATE_INTERRUPT g)
          else Uncaught e g
      | NoOutcome => Hangs
      end
  end.
(** ** What the properties speak about *)

(** The attributes that only [setup], [run], [end] and
    [ControlPoint.update] assign: the two scores, the settings and the
    state of the game. *)
Definition scores (g : Game.t) : Z * Z * Settings * GameState :=
  (Game.score_red g, Game.score_blue g, Game.settings g, Game.state g).

(** The state of the game an outcome carries, when there is one. *)
Definition outcome_state (o : Outcome) : option Game.t :=
  match o with
  | Next g | Stop g | Abort _ g => Some g
  | NoOutcome => None
  end.

Definition run_state (r : Run) : option Game.t :=
  match r with
  | Returned g | Uncaught _ g => Some g
  | Hangs => None
  end.

(** The two scores add up to [max_score] and lie between 0 and
    [max_score]. *)
Definition score_inv (g : Game.t) : Prop :=
  let m := max_score (Game.settings g) in
  Game.score_red g + Game.score_blue g = m
  /\ Z.min 0 m <= Game.score_red g <= Z.max 0 m.

(** The invariant of the scores, for a match played with the settings
    [s]. *)
Definition kept (s : Settings) (g : Game.t) : Prop :=
  Game.settings g = s /\ score_inv g.

(** The tanks of a game with their teams and delegates, in the order of
    [self.tanks]. *)
Definition delegates (g : Game.t) : list (Team * option Brain) :=
  map (fun t => (team t, brain t))
    (omap (fun i => lookup_obj i (Game.objects g)) (Game.tanks g)).


(** Whether the game is recorded, and the replay bundle it holds. *)
Definition recording (g : Game.t) : bool * option ReplayData.t :=
  (Game.record g, Game.replay g).
(** ** A small match, used to run the definitions *)

(** A world in which nothing happens: the agents answer the no-op at once
    and never raise, no ray hits anything, the solver moves nothing and
    reports no collision, nobody interrupts, and no global [allobjects]
    exists.  [cos] and [sin] are constant, with their values at angle 0;
    [angle_fix] leaves its argument as it is. *)
Definition still_world : World :=
  {| cos := fun _ => 1%Q;
     sin := fun _ => 0%Q;
     angle_fix := fun a => a;
     gauss := fun _ => 0%Q;
     think := fun _ _ _ => mkThought false 0 (Some NOOP) 0;
     raycast := fun _ _ _ _ => [];
     physics := fun _ => ([], []);
     interrupt := fun _ _ => false;
     finalize := fun _ _ => None;
     global_allobjects := None |}.

(** A corridor of 5 x 3 tiles: a red spawn on the left, a control point in
    the middle, a blue spawn on the right. *)
Definition corridor : Field.t :=
  {| Field.width := 5; Field.height := 3; Field.tilesize := 16;
     Field.walls := [[1; 1; 1; 1; 1]; [1; 0; 0; 0; 1]; [1; 1; 1; 1; 1]];
     Field.spawns_red := [(1, 1, 0%Q)];
     Field.spawns_blue := [(3, 1, (- (22 # 7))%Q)];
     Field.controlpoints := [(2, 1)];
     Field.other_objects := [];
     Field.wallrects := [(0, 0, 80, 16); (0, 16, 16, 16);
                         (64, 16, 16, 16); (0, 32, 80, 16)]%Q |}.

(** [Settings()] with the default values, [pi] replaced by [22/7]. *)
Definition default_settings : Settings :=
  {| max_steps := 500; max_score := 1000; max_turn := (22 # 21)%Q;
     max_speed := 40; max_range := 60; max_see := 100;
     field_known := true; ammo_rate := 20; ammo_amount := 3;
     spawn_time := 10; field_width := 47; field_height := 32;
     tilesize := 16; think_time := (1 # 100)%Q;
     capture_mode := CAPTURE_MODE_NEUTRAL; end_condition := ENDGAME_SCORE;
     num_agents := 5 |}.

(** A world like [still_world] in which every decision takes one second
    and asks for a turn, full speed and a shot. *)
Definition slow_world : World :=
  {| cos := cos still_world;
     sin := sin still_world;
     angle_fix := angle_fix still_world;
     gauss := gauss still_world;
     think := fun _ _ _ => mkThought false 0 (Some (1, 40, true)%Q) 1;
     raycast := raycast still_world;
     physics := physics still_world;
     interrupt := interrupt still_world;
     finalize := finalize still_world;
     global_allobjects := global_allobjects still_world |}.

(** A new game on the corridor, verbose, not recorded. *)
Definition corridor_game : Game.t :=
  blank_game default_settings corridor false None true [].

(** The delegate and the tank of the first red agent of that game. *)
Definition red_brain_0 : Brain :=
  mkBrain red_brain_class 0 TEAM_RED default_settings true red_init.

Definition red_tank_0 : GameObject :=
  Tank_init 18 18 0 0%nat TEAM_RED (Some red_brain_0)
    (Some (mkSpawn 16 16 0)) None false.

Definition blue_tank_0 : GameObject :=
  Tank_init 50 18 0 0%nat TEAM_BLUE None None None false.

(** A control point owned by red that each team has touched once in the
    current cycle. *)
Definition red_point : GameObject :=
  set_collided (mkTally 1 1 0) (set_team TEAM_RED (ControlPoint_init 28 12)).

(** The default settings with a negative [max_turn]. *)
Definition backward_turn_settings : Settings :=
  set_max_turn (- (1))%Q default_settings.

(** New games on the corridor, not recorded: with [max_score = 0], with
    the crumbs flag as the only end condition, and with [field_known]
    off. *)
Definition zero_score_game : Game.t :=
  blank_game (set_max_score 0 default_settings) corridor false None true [].

Definition crumbs_game : Game.t :=
  blank_game (set_end_condition ENDGAME_CRUMBS default_settings) corridor
    false None true [].

Definition field_unknown_game : Game.t :=
  blank_game (set_field_known false default_settings) corridor false None
    true [].

(** A recorded match of three steps on the corridor. *)
Definition recorded_game : Game.t :=
  blank_game (set_max_steps 3 default_settings) corridor true None false [].

(** The state a run leaves behind, [d] when it leaves none. *)
Definition final_state (r : Run) (d : Game.t) : Game.t :=
  match run_state r with
  | Some g => g
  | None => d
  end.

(** The game a call returns, [d] when it returns none. *)
Definition returned (r : Result Game.t) (d : Game.t) : Game.t :=
  match r with
  | Ok g => g
  | _ => d
  end.

(** The game [Game(replay=r)] for the bundle [r] of a finished game [g]. *)
Definition replay_of (g : Game.t) : Result Game.t :=
  Game_init default_settings empty_field false (Game.replay g) false.
(** ** The field generator *)

(** A tile grid: the rows of 0/1 tiles. *)
Abbreviation Grid := (list (list Z)).

(** Indexing as Python does it: a negative index counts from the end, an
    index outside the list raises. *)
Definition py_index {A} (l : list A) (i : Z) : Result nat :=
  let n := Z.of_nat (length l) in
  if (0 <=? i) && (i <? n) then Ok (Z.to_nat i)
  else if (- n <=? i) && (i <? 0) then Ok (Z.to_nat (n + i))
  else Raise IndexError.

Definition py_get {A} (l : list A) (i : Z) : Result A :=
  k <- py_index l i ;;
  match l !! k with
  | Some a => Ok a
  | None => Raise IndexError
  end.

Definition py_set {A} (l : list A) (i : Z) (v : A) : Result (list A) :=
  k <- py_index l i ;;
  Ok (<[k := v]> l).

(** [g[i][j]] and [g[i][j] = v] *)
Definition get2 (g : Grid) (i j : Z) : Result Z :=
  row <- py_get g i ;;
  py_get row j.

Definition set2 (g : Grid) (i j : Z) (v : Z) : Result Grid :=
  row <- py_get g i ;;
  row <- py_set row j v ;;
  py_set g i row.

(** [int(q)] truncates towards zero. *)
Definition py_int (q : Q) : Z :=
  if Qltb q 0 then Qceiling q else Qfloor q.

Fixpoint mapR {A B} (f : A -> Result B) (l : list A) : Result (list B) :=
  match l with
  | [] => Ok []
  | a :: l' =>
      b <- f a ;;
      bs <- mapR f l' ;;
      Ok (b :: bs)
  end.

(** [zip] applied to the rows of [m]: the columns of [m], as many as the
    shortest row has entries. *)
Fixpoint transpose {A} (m : list (list A)) : list (list A) :=
  match m with
  | [] => []
  | r :: m' =>
      match m' with
      | [] => map (fun a => [a]) r
      | _ :: _ => zip_with cons r (transpose m')
      end
  end.

(** [FieldGenerator.reflect_tilemap] with [axis_vertical=True]: column [i]
    of the result is column [i] of the half map in the left half and column
    [newsize-1-i] in the right half. *)
Definition reflect_tilemap (tilemap : Grid) (newsize : Z) : Result Grid :=
  let tilemap := transpose tilemap in
  newtiles <-
    mapR (fun i => py_get tilemap
                     (if i <? newsize / 2 then i else newsize - 1 - i))
         (seqZ 0 newsize) ;;
  Ok (transpose newtiles).

(** The tile [(x, y)] of a grid, when it exists; a tile is free when it
    holds 0. *)
Definition cell (g : Grid) (p : Z * Z) : option Z :=
  let '(px, py) := p in
  if (0 <=? px) && (0 <=? py) then
    match g !! Z.to_nat py with
    | Some row => row !! Z.to_nat px
    | None => None
    end
  else None.

Definition is_free (g : Grid) (p : Z * Z) : bool :=
  match cell g p with
  | Some 0 => true
  | _ => false
  end.

Definition neighbours (p : Z * Z) : list (Z * Z) :=
  let '(px, py) := p in
  [(px + 1, py); (px - 1, py); (px, py + 1); (px, py - 1)].

(** *** The flood fill *)

Definition is_marked (reach : Grid) (p : Z * Z) : bool :=
  match cell reach p with
  | Some v => negb (v =? 0)
  | None => false
  end.

Definition mark (reach : Grid) (p : Z * Z) : Grid :=
  let '(px, py) := p in
  if (0 <=? px) && (0 <=? py) then
    match reach !! Z.to_nat py with
    | Some row => <[Z.to_nat py := <[Z.to_nat px := 1]> row]> reach
    | None => reach
    end
  else reach.

(** One round: the free tiles among [todo] that are not marked yet are
    marked and form the next edge. *)
Fixpoint flood_round (tilemap : Grid) (todo : list (Z * Z)) (reach : Grid)
    (next : list (Z * Z)) : Grid * list (Z * Z) :=
  match todo with
  | [] => (reach, next)
  | q :: todo' =>
      if is_free tilemap q && negb (is_marked reach q)
      then flood_round tilemap todo' (mark reach q) (q :: next)
      else flood_round tilemap todo' reach next
  end.

Fixpoint flood (rounds : nat) (tilemap : Grid) (edge : list (Z * Z))
    (reach : Grid) : Grid :=
  match rounds with
  | O => reach
  | S rounds' =>
      match edge with
      | [] => reach
      | _ :: _ =>
          let '(reach, next) :=
            flood_round tilemap (concat (map neighbours edge)) reach [] in
          flood rounds' tilemap next reach
      end
  end.

(** Modelled from the spec: [reachable(tilemap, start)] of the module
    [utilities], which is not part of the sources; the spec calls it the
    grid reachability flood fill from a start tile over free space.  The
    result is a grid of the size of [tilemap] with 1 on the start tile and
    on every tile the fill enters, moving between tiles that share a side
    and entering free tiles only.  Each round marks a new tile or ends the
    fill, so as many rounds as there are tiles complete it. *)
Definition reachable (tilemap : Grid) (start : Z * Z) : Grid :=
  let h := length tilemap in
  let w := length (hd [] tilemap) in
  flood (w * h) tilemap [start]
    (mark (replicate h (replicate w 0)) start).

(** *** The generator *)

Module FieldGenerator.

Record t := mk {
  width : Z;
  height : Z;
  tilesize : Z;
  num_spawns : Z;
  num_points : Z;
  num_ammo : Z;
  wall_fill : Q;
  wall_len : Z * Z;
  wall_width : Z;
  wall_orientation : Q;
  wall_gridsize : Z
}.

End FieldGenerator.

(** [FieldGenerator()] with the default arguments. *)
Definition FieldGenerator_default : FieldGenerator.t :=
  {| FieldGenerator.width := 39; FieldGenerator.height := 24;
     FieldGenerator.tilesize := 16; FieldGenerator.num_spawns := 5;
     FieldGenerator.num_points := 3; FieldGenerator.num_ammo := 6;
     FieldGenerator.wall_fill := (4 # 10)%Q;
     FieldGenerator.wall_len := (4, 4);
     FieldGenerator.wall_width := 4;
     FieldGenerator.wall_orientation := (1 # 2)%Q;
     FieldGenerator.wall_gridsize := 4 |}.

(** The random source: the successive draws behind [random.randint] and
    [random.random]. The number of draws made so far is threaded through
    the generator. *)
Record Random := mkRandom {
  draw_int : nat -> Z;
  draw_float : nat -> Q
}.

(** The [k]-th draw, as [random.randint(a, b)]: a value between [a] and [b],
    or [ValueError] for an empty range. *)
Definition randint (rnd : Random) (k : nat) (a b : Z) : Result Z :=
  if b <? a then Raise ValueError
  else Ok (a + draw_int rnd k mod (b - a + 1)).

(** [FieldGenerator.place_objects]: the loop that places the spawns. *)
Fixpoint place_spawns (G : FieldGenerator.t) (n : nat) (i j : Z)
    (reds blues : list (Z * Z * Q)) (pi : Q)
    : list (Z * Z * Q) * list (Z * Z * Q) :=
  match n with
  | O => (reds, blues)
  | S n' =>
      let reds := reds ++ [(i, j, 0%Q)] in
      let blues := blues ++ [(FieldGenerator.width G - 1 - i, j, (- pi)%Q)] in
      let i := i + 1 in
      if 2 + 2 <=? i
      then place_spawns G n' 2 (j + 1) reds blues pi
      else place_spawns G n' i j reds blues pi
  end.

(** The loop that places the ammo fountains in mirrored pairs. *)
Fixpoint place_ammo (G : FieldGenerator.t) (rnd : Random) (n : nat)
    (k : nat) (other : list (Z * Z * Class))
    : Result (list (Z * Z * Class) * nat) :=
  match n with
  | O => Ok (other, k)
  | S n' =>
      px <- randint rnd k 3 (FieldGenerator.width G / 2 - 1) ;;
      py <- randint rnd (S k) 5 (FieldGenerator.height G - 2) ;;
      place_ammo G rnd n' (S (S k))
        (other ++ [(px, py, AmmoFountain);
                   (FieldGenerator.width G - 1 - px, py, AmmoFountain)])
  end.

(** [FieldGenerator.place_objects]; [pi] stands for [math.pi]. *)
Definition place_objects (G : FieldGenerator.t) (rnd : Random) (pi : Q)
    (k : nat) (field : Field.t) : Result (Field.t * nat) :=
  let w := FieldGenerator.width G in
  let h := FieldGenerator.height G in
  let cpleft := ((w - 1) / 4, (h - 1) - 3) in
  cpmid_y <- randint rnd k 3 (h / 2 + 1) ;;
  let cpmid := (w / 2, cpmid_y) in
  let '(reds, blues) :=
    place_spawns G
      (Z.to_nat (FieldGenerator.num_spawns G
                 - Z.of_nat (length (Field.spawns_red field))))
      2 1 (Field.spawns_red field) (Field.spawns_blue field) pi in
  let cps := Field.controlpoints field
             ++ [cpleft; cpmid; (w - 1 - fst cpleft, snd cpleft)] in
  r <- place_ammo G rnd (Z.to_nat (FieldGenerator.num_ammo G / 2)) (S k)
         (Field.other_objects field) ;;
  let '(other, k) := r in
  Ok ({| Field.width := Field.width field;
         Field.height := Field.height field;
         Field.tilesize := Field.tilesize field;
         Field.walls := Field.walls field;
         Field.spawns_red := reds; Field.spawns_blue := blues;
         Field.controlpoints := cps; Field.other_objects := other;
         Field.wallrects := Field.wallrects field |}, k).

(** The tiles [create_wall_map] wants to keep reachable, in its order. *)
Definition reachable_points (field : Field.t) : list (Z * Z) :=
  Field.controlpoints field
  ++ map (fun o : Z * Z * Class => fst o) (Field.other_objects field)
  ++ map (fun s : Z * Z * Q => fst s) (Field.spawns_red field)
  ++ map (fun s : Z * Z * Q => fst s) (Field.spawns_blue field).

(** [for i in xrange(y, y + sec_height): for j in xrange(x, x + sec_width):
    new[i][j] = 1] *)
Fixpoint fill_tiles (tiles : list (Z * Z)) (v : Z) (g : Grid)
    : Result Grid :=
  match tiles with
  | [] => Ok g
  | (i, j) :: tiles' =>
      g <- set2 g i j v ;;
      fill_tiles tiles' v g
  end.

Definition block (py sec_height px sec_width : Z) : list (Z * Z) :=
  flat_map (fun i => map (fun j => (i, j)) (seqZ px sec_width))
    (seqZ py sec_height).

(** [all(reachability[y][x] for (x,y) in reachable_points)] *)
Fixpoint all_reachable (reachability : Grid) (pts : list (Z * Z))
    : Result bool :=
  match pts with
  | [] => Ok true
  | (px, py) :: pts' =>
      v <- get2 reachability py px ;;
      if v =? 0 then Ok false else all_reachable reachability pts'
  end.

Definition filled (tilemap : Grid) : Z :=
  foldr Z.add 0 (map (foldr Z.add 0) tilemap).

(** One candidate wall section, from four draws starting at [k]: the new
    half map, or an exception. *)
Definition candidate (G : FieldGenerator.t) (rnd : Random) (k : nat)
    (halfwidth : Z) (tilemap : Grid) : Result Grid :=
  let '(min_len, max_len) := FieldGenerator.wall_len G in
  len <- randint rnd (S k) min_len max_len ;;
  let '(sec_width, sec_height) :=
    if Qltb (draw_float rnd k) (FieldGenerator.wall_orientation G)
    then (len, FieldGenerator.wall_width G)
    else (FieldGenerator.wall_width G, len) in
  px <- randint rnd (S (S k)) 1 (halfwidth - sec_width) ;;
  py <- randint rnd (S (S (S k))) 1
          (FieldGenerator.height G - sec_height - 1) ;;
  if FieldGenerator.wall_gridsize G =? 0 then Raise ZeroDivisionError else
  let px := px / FieldGenerator.wall_gridsize G
            * FieldGenerator.wall_gridsize G in
  let py := py / FieldGenerator.wall_gridsize G
            * FieldGenerator.wall_gridsize G in
  fill_tiles (block py sec_height px sec_width) 1 tilemap.

(** The loop of [create_wall_map], with [fuel] passes at most. *)
Fixpoint wall_loop (G : FieldGenerator.t) (rnd : Random) (fuel : nat)
    (k : nat) (halfwidth : Z) (start : Z * Z) (pts : list (Z * Z))
    (failed : Z) (tilemap : Grid) : Result Grid :=
  let min_filled :=
    ((1 # 2) * inject_Z (FieldGenerator.height G)
     * inject_Z (FieldGenerator.width G) * FieldGenerator.wall_fill G)%Q in
  if Qltb (inject_Z (filled tilemap)) min_filled && (failed <? 100) then
    match fuel with
    | O => Diverge
    | S fuel' =>
        new <- candidate G rnd k halfwidth tilemap ;;
        full <- reflect_tilemap new (FieldGenerator.width G) ;;
        ok <- all_reachable (reachable full start) pts ;;
        if ok
        then wall_loop G rnd fuel' (4 + k) halfwidth start pts failed new
        else wall_loop G rnd fuel' (4 + k) halfwidth start pts
               (failed + 1) tilemap
    end
  else Ok tilemap.

(** The half map with the outer walls only. *)
Definition outer_walls (halfwidth height : Z) : Grid :=
  let t := replicate (Z.to_nat halfwidth) 1 in
  let m := [1] ++ replicate (Z.to_nat (halfwidth - 1)) 0 in
  let b := replicate (Z.to_nat halfwidth) 1 in
  [t] ++ replicate (Z.to_nat (height - 2)) m ++ [b].

(** [FieldGenerator.create_wall_map] *)
Definition create_wall_map (G : FieldGenerator.t) (rnd : Random)
    (fuel : nat) (k : nat) (field : Field.t) : Result Field.t :=
  match Field.spawns_red field with
  | [] => Raise IndexError
  | (sx, sy, _) :: _ =>
      let halfwidth :=
        py_int ((1 # 2) + inject_Z (FieldGenerator.width G) / 2)%Q in
      let tilemap := outer_walls halfwidth (FieldGenerator.height G) in
      tilemap <- wall_loop G rnd fuel k halfwidth (sx, sy)
                   (reachable_points field) 0 tilemap ;;
      walls <- reflect_tilemap tilemap (FieldGenerator.width G) ;;
      Ok (Field.set_walls walls field)
  end.

(** The tiles [clear_walls_under_objects] sets to 0, as [(row, column)]
    pairs in the order of the source. *)
Definition tiles_under_objects (cos sin : Q -> Q) (field : Field.t)
    : list (Z * Z) :=
  flat_map
    (fun s : Z * Z * Q =>
       let '(px, py, r) := s in
       [(py, px);
        (py_int (inject_Z py + sin r + (1 # 2))%Q,
         py_int (inject_Z px + cos r + (1 # 2))%Q)])
    (Field.spawns_red field ++ Field.spawns_blue field)
  ++ flat_map
       (fun c : Z * Z => let '(px, py) := c in block (py - 1) 3 (px - 1) 3)
       (Field.controlpoints field)
  ++ flat_map
       (fun o : Z * Z * Class => let '(px, py, _) := o in [(py, px)])
       (Field.other_objects field).

(** [FieldGenerator.clear_walls_under_objects] *)
Definition clear_walls_under_objects (cos sin : Q -> Q) (field : Field.t)
    : Result Field.t :=
  walls <- fill_tiles (tiles_under_objects cos sin field) 0
             (Field.walls field) ;;
  Ok (Field.set_walls walls field).

(** [Field(width, height, tilesize)] *)
Definition Field_init (width height tilesize : Z) : Field.t :=
  {| Field.width := width; Field.height := height;
     Field.tilesize := tilesize; Field.walls := [];
     Field.spawns_red := []; Field.spawns_blue := [];
     Field.controlpoints := []; Field.other_objects := [];
     Field.wallrects := [] |}.

(** [FieldGenerator.generate], up to the wall grid: the merged rectangles
    and the navigation mesh, which [rects_merge] and [make_nav_mesh] of
    [utilities] derive from the grid afterwards, are left out. *)
Definition generate (G : FieldGenerator.t) (rnd : Random)
    (cos sin : Q -> Q) (pi : Q) (fuel : nat) : Result Field.t :=
  let field := Field_init (FieldGenerator.width G) (FieldGenerator.height G)
                 (FieldGenerator.tilesize G) in
  r <- place_objects G rnd pi 0 field ;;
  let '(field, k) := r in
  field <- create_wall_map G rnd fuel k field ;;
  clear_walls_under_objects cos sin field.
(** *** Reachability on a grid *)

(** [reach_from g s q]: the flood fill can get from [s] to [q]: it moves
    between tiles that share a side and enters free tiles only. *)
Inductive reach_from (g : Grid) (s : Z * Z) : Z * Z -> Prop :=
  | reach_start : reach_from g s s
  | reach_step (q r : Z * Z) :
      reach_from g s q -> In r (neighbours q) -> is_free g r = true ->
      reach_from g s r.

(** [path g p q]: [q] is reachable from [p] through free tiles of [g],
    [p] and [q] included. *)
Inductive path (g : Grid) : Z * Z -> Z * Z -> Prop :=
  | path_here (p : Z * Z) : is_free g p = true -> path g p p
  | path_step (p q r : Z * Z) :
      path g p q -> In r (neighbours q) -> is_free g r = true ->
      path g p r.

(** The column of the half map that column [x] of the full map shows. *)
Definition mirror (newsize x : Z) : Z :=
  if x <? newsize / 2 then x else newsize - 1 - x.

(** A tile that lies inside the outer wall of a field of the generator. *)
Definition inside (G : FieldGenerator.t) (p : Z * Z) : Prop :=
  1 <= fst p <= FieldGenerator.width G - 2
  /\ 1 <= snd p <= FieldGenerator.height G - 2.

(** The field a call returns, [d] when it returns none. *)
Definition generated (r : Result Field.t) (d : Field.t) : Field.t :=
  match r with
  | Ok f => f
  | _ => d
  end.

(** A small generator and a random source for it. *)
Definition small_generator : FieldGenerator.t :=
  {| FieldGenerator.width := 15; FieldGenerator.height := 10;
     FieldGenerator.tilesize := 16; FieldGenerator.num_spawns := 3;
     FieldGenerator.num_points := 3; FieldGenerator.num_ammo := 2;
     FieldGenerator.wall_fill := (4 # 10)%Q;
     FieldGenerator.wall_len := (2, 3);
     FieldGenerator.wall_width := 1;
     FieldGenerator.wall_orientation := (1 # 2)%Q;
     FieldGenerator.wall_gridsize := 2 |}.

Definition some_draws : Random :=
  {| draw_int := fun k => (Z.of_nat k * 7919 + 13) mod 1009;
     draw_float := fun k => inject_Z (Z.of_nat k mod 2) |}.

Definition small_field : Field.t :=
  generated
    (generate small_generator some_draws (cos still_world)
       (sin still_world) (22 # 7)%Q 200)
    empty_field.
(** ** More small states, used to run the definitions *)

(** An ammo fountain on the middle tile of the corridor, as [get_objects]
    builds it, after [added_to_game] took its delay from the settings, with
    [n] as its identity; and the pack it offers. *)
Definition corridor_fountain (n : nat) (delay : Z) : GameObject :=
  set_DELAY delay (set_oid n (Fountain_init AmmoFountain 32 16)).

Definition corridor_pack (n parent_id : nat) : GameObject :=
  set_parent (Some parent_id) (set_oid n (Ammo_init 32 16)).

(** The corridor game with a red tank (identity 0), an ammo pack (1) and
    the fountain the pack belongs to (2). *)
Definition pickup_game : Game.t :=
  Game.set_next_oid 3%nat
    (Game.set_tanks [0%nat]
       (Game.set_objects
          [red_tank_0; corridor_pack 1 2;
           set_children [1%nat] (corridor_fountain 2 20)]
          corridor_game)).

(** The corridor game with an empty fountain (identity 0) whose delay is
    3. *)
Definition empty_fountain_game : Game.t :=
  Game.set_next_oid 1%nat
    (Game.set_objects [corridor_fountain 0 3] corridor_game).

(** The corridor game with a crumb fountain (identity 0) that has no
    crumbs. *)
Definition crumb_fountain_game : Game.t :=
  Game.set_next_oid 1%nat
    (Game.set_objects [set_oid 0 (Fountain_init CrumbFountain 32 16)]
       corridor_game).

(** A cosine that is right for the two directions spawns face: 1 at angle
    0, -1 elsewhere; and the field of the small generator made with it. *)
Definition facing_cos (r : Q) : Q := if Qeq_bool r 0 then 1%Q else (- (1))%Q.

Definition mirrored_field : Field.t :=
  generated
    (generate small_generator some_draws facing_cos (fun _ => 0%Q)
       (22 # 7)%Q 200)
    empty_field.

(** A red tank that records what it does, and a tank without delegate in
    the same place that replays three no-ops. *)
Definition recording_tank : GameObject :=
  Tank_init 18 18 0 0%nat TEAM_RED (Some red_brain_0)
    (Some (mkSpawn 16 16 0)) None true.

Definition replaying_tank : GameObject :=
  Tank_init 18 18 0 0%nat TEAM_RED None (Some (mkSpawn 16 16 0))
    (Some [NOOP; NOOP; NOOP]) false.

(** The corridor game with a red tank (identity 0), a crumb (1) and the
    crumb fountain it belongs to (2). *)
Definition corridor_crumb (n parent_id : nat) : GameObject :=
  set_parent (Some parent_id) (set_oid n (Crumb_init 32 16)).

Definition crumb_game : Game.t :=
  Game.set_next_oid 3%nat
    (Game.set_tanks [0%nat]
       (Game.set_objects
          [red_tank_0; corridor_crumb 1 2;
           set_children [1%nat]
             (set_oid 2 (Fountain_init CrumbFountain 32 16))]
          corridor_game)).

(** A red tank (identity 0) that fires at a blue tank (1) which has a
    spawn, in a world where every ray hits the object 1 first. *)
Definition firing_tank : GameObject := set_shoots true red_tank_0.

Definition blue_target : GameObject :=
  set_ammo 3
    (set_oid 1
       (Tank_init 50 18 0 0%nat TEAM_BLUE None (Some (mkSpawn 48 16 1))
          None false)).

Definition duel_game : Game.t :=
  Game.set_next_oid 2%nat
    (Game.set_tanks [0%nat; 1%nat]
       (Game.set_objects [firing_tank; blue_target] corridor_game)).

Definition sharp_world : World :=
  {| cos := cos still_world;
     sin := sin still_world;
     angle_fix := angle_fix still_world;
     gauss := gauss still_world;
     think := think still_world;
     raycast := fun _ _ _ _ => [((1 # 2)%Q, (50%Q, 24%Q), 1%nat)];
     physics := physics still_world;
     interrupt := interrupt still_world;
     finalize := finalize still_world;
     global_allobjects := global_allobjects still_world |}.

(** A new ammo fountain on the wall tile in the upper left corner of the
    corridor, with identity 7. *)
Definition walled_fountain : GameObject :=
  set_oid 7 (Fountain_init AmmoFountain 0 0).

(** A new ammo fountain on the middle tile of the corridor, with identity
    7. *)
Definition fresh_fountain : GameObject :=
  set_oid 7 (Fountain_init AmmoFountain 32 16).
(** ** What the further properties speak about *)

(** The test of [Fountain.spawn_one] on the point [(px, py)]: the tile under
    it lies inside the field and holds no wall. *)
Definition spawn_tile_free (f : Field.t) (px py : Q) : bool :=
  negb (Field.tilesize f =? 0)
  && (let j := Qfloor (px / inject_Z (Field.tilesize f)) in
      let i := Qfloor (py / inject_Z (Field.tilesize f)) in
      (0 <=? i) && (i <? Field.height f)
      && (0 <=? j) && (j <? Field.width f)
      && match nth_error (Field.walls f) (Z.to_nat i) with
         | Some row =>
             match nth_error row (Z.to_nat j) with
             | Some tile => tile =? 0
             | None => false
             end
         | None => false
         end).

(** The pack an ammo fountain [self] with identity [i] spawns when the next
    free identity is [n]: it is centred on the centre of the fountain. *)
Definition spawned_pack (self : GameObject) (i n : nat) : GameObject :=
  set_parent (Some i)
    (set_oid n
       (Ammo_init (x self + width self / 2 - inject_Z (SIZE Ammo) / 2)%Q
                  (y self + height self / 2 - inject_Z (SIZE Ammo) / 2)%Q)).

(** The states of an ammo fountain [self] with identity [i] and delay [d]
    in the games that follow [g]: it waits with [c] on its countdown and
    without children, nothing else having changed; or it has spawned its
    pack. *)
Definition waiting (i : nat) (self : GameObject) (g : Game.t) (d : nat)
    (c : Z) (g' : Game.t) : Prop :=
  exists f,
    lookup_obj i (Game.objects g') = Some f
    /\ cls f = AmmoFountain /\ children f = [] /\ countdown f = c
    /\ DELAY f = Z.of_nat d
    /\ x f = x self /\ y f = y self
    /\ width f = width self /\ height f = height self
    /\ Game.field g' = Game.field g
    /\ Game.next_oid g' = Game.next_oid g
    /\ map cls (Game.objects g') = map cls (Game.objects g).

Definition refilled (i : nat) (self : GameObject) (g : Game.t)
    (g' : Game.t) : Prop :=
  exists f l,
    Game.objects g' = l ++ [spawned_pack self i (Game.next_oid g)]
    /\ map cls l = map cls (Game.objects g)
    /\ lookup_obj i l = Some f
    /\ children f = [Game.next_oid g] /\ countdown f = 0.

(** The countdown after one [update] of a fountain without children. *)
Definition next_countdown (d : nat) (c : Z) : Z :=
  if c =? -1 then Z.of_nat d else c - 1.

(** The four overlaps of the bounding boxes of two objects, in the order of
    the source: left, top, right, bottom. *)
Definition overlaps (o1 o2 : GameObject) : Q * Q * Q * Q :=
  ((_x o1 + width o1 - _x o2)%Q, (_y o1 + height o1 - _y o2)%Q,
   (_x o2 + width o2 - _x o1)%Q, (_y o2 + height o2 - _y o1)%Q).

(** A grid with [h] rows of [w] tiles each. *)
Definition has_size (h w : nat) (g : Grid) : Prop :=
  length g = h /\ Forall (fun r : list Z => length r = w) g.

(** The tiles on the rim of a field of [w] by [h] tiles. *)
Definition on_rim (w h : Z) (p : Z * Z) : Prop :=
  0 <= fst p < w /\ 0 <= snd p < h
  /\ (fst p = 0 \/ fst p = w - 1 \/ snd p = 0 \/ snd p = h - 1).

(** Where [place_objects] puts the [k]-th spawn of the red team: two
    columns, filled row by row from the top. *)
Definition red_spawn (k : Z) : Z * Z := (2 + k mod 2, 1 + k / 2).

(** The tile opposite to [p] in a field of width [w]. *)
Definition opposite (w : Z) (p : Z * Z) : Z * Z := (w - 1 - fst p, snd p).

(** A half map as [create_wall_map] keeps it: [h] rows of [hw] tiles, each
    tile 0 or 1, with walls in the first row, the last row and the first
    column. *)
Definition walled_half (hw h : Z) (t : Grid) : Prop :=
  has_size (Z.to_nat h) (Z.to_nat hw) t
  /\ (forall p v, cell t p = Some v -> v = 0 \/ v = 1)
  /\ (forall px py,
        0 <= px < hw -> 0 <= py < h ->
        px = 0 \/ py = 0 \/ py = h - 1 ->
        cell t (px, py) = Some 1).

(** A tile, given as (row, column), that lies inside the rim of a field of
    [w] by [h] tiles. *)
Definition interior (w h : Z) (t : Z * Z) : Prop :=
  1 <= fst t <= h - 2 /\ 1 <= snd t <= w - 2.

(** What a match never changes between [setup] and [end], apart from the
    step counter the loop advances: the field, the flags, the replay
    bundle, the settings, the list of tanks and the state. *)
Definition frame (g : Game.t)
    : Field.t * bool * option ReplayData.t * bool * Settings * Z
      * list nat * GameState :=
  (Game.field g, Game.record g, Game.replay g, Game.verbose g,
   Game.settings g, Game.step g, Game.tanks g, Game.state g).

(** What [setup] leaves alone as well. *)
Definition fixed (g : Game.t)
    : Field.t * bool * option ReplayData.t * bool * Settings * Z :=
  (Game.field g, Game.record g, Game.replay g, Game.verbose g,
   Game.settings g, Game.step g).

(** [get_action] of one tank in [n] successive steps of a game. *)
Fixpoint drive (W : World) (n : nat) (self : GameObject) (g : Game.t)
    : GameObject * Game.t :=
  match n with
  | O => (self, g)
  | S n' =>
      let '(self, g) :=
        Tank_get_action W self (Game.set_step (Game.step g + 1) g) in
      drive W n' self g
  end.

(** What an observer sees of a tank: where it is, where it looks, what it
    carries, whether it fires and whether it is alive. *)
Definition pose (o : GameObject) : Q * Q * Q * Z * bool * Z :=
  (x o, y o, angle o, ammo o, shoots o, respawn_in o).

(** The centre of an object, the centre of the tile [(px, py)] of a field
    with tiles of size [ts], and how far to the upper left of the second
    the first lies. *)
Definition centre (o : GameObject) : Q * Q :=
  ((x o + width o / 2)%Q, (y o + height o / 2)%Q).

Definition tile_centre (ts : Z) (p : Z * Z) : Q * Q :=
  ((inject_Z (fst p * ts) + inject_Z ts / 2)%Q,
   (inject_Z (snd p * ts) + inject_Z ts / 2)%Q).

Definition off_centre (ts : Z) (p : Z * Z) (o : GameObject) : Q * Q :=
  ((fst (tile_centre ts p) - fst (centre o))%Q,
   (snd (tile_centre ts p) - snd (centre o))%Q).

(** An object of class [c] placed on the tile [p]: square, of the size of
    its class, at rest, and centred on the tile up to the half unit the
    integer division of the offset loses. *)
Definition placed_on (ts : Z) (c : Class) (p : Z * Z) (o : GameObject)
    : Prop :=
  cls o = c
  /\ width o = inject_Z (SIZE c) /\ height o = inject_Z (SIZE c)
  /\ _x o = x o /\ _y o = y o
  /\ (0 <= fst (off_centre ts p o) <= 1 # 2)%Q
  /\ (0 <= snd (off_centre ts p o) <= 1 # 2)%Q
  /\ ((ts - SIZE c) mod 2 = 0 ->
      (fst (off_centre ts p o) == 0)%Q /\ (snd (off_centre ts p o) == 0)%Q).

(** The tile under the point [(px, py)] cannot take a new pack: it lies
    outside the field or holds a wall. *)
Definition spawn_tile_blocked (f : Field.t) (px py : Q) : bool :=
  negb (Field.tilesize f =? 0)
  && (let j := Qfloor (px / inject_Z (Field.tilesize f)) in
      let i := Qfloor (py / inject_Z (Field.tilesize f)) in
      negb ((0 <=? i) && (i <? Field.height f)
            && (0 <=? j) && (j <? Field.width f))
      || match nth_error (Field.walls f) (Z.to_nat i) with
         | Some row =>
             match nth_error row (Z.to_nat j) with
             | Some tile => negb (tile =? 0)
             | None => false
             end
         | None => false
         end).
(** ** Queries on the collision lists *)

From Stdlib Require Import Ascii Sorted.

(** The test [get_objects_in_bounds] applies to an object it has not
    skipped: solid when only solid objects are asked for, and a bounding box
    that meets the bounds. *)
Definition in_bounds (xmin xmax ymin ymax : Q) (solid_only : bool)
    (o : GameObject) : bool :=
  (negb solid_only || solid o) && Qltb xmin (_x o + width o)
  && (Qltb ymin (_y o + height o) && Qltb (_y o) ymax).

(** One of the two loops of [get_objects_in_bounds]: the list is walked
    from the left and left at the first object whose [_x] lies beyond
    [xmax]. *)
Fixpoint scan_bounds (xmin xmax ymin ymax : Q) (solid_only : bool)
    (l : list GameObject) : list GameObject :=
  match l with
  | [] => []
  | o :: l' =>
      if Qltb xmax (_x o) then []
      else if in_bounds xmin xmax ymin ymax solid_only o
      then o :: scan_bounds xmin xmax ymin ymax solid_only l'
      else scan_bounds xmin xmax ymin ymax solid_only l'
  end.

(** [Game.get_objects_in_bounds], on the two collision lists of the game:
    the objects it yields, in order. *)
Definition get_objects_in_bounds (broadphase_mov broadphase_stat
    : list GameObject) (xmin xmax ymin ymax : Q) (solid_only : bool)
    : list GameObject :=
  scan_bounds xmin xmax ymin ymax solid_only broadphase_mov
  ++ scan_bounds xmin xmax ymin ymax solid_only broadphase_stat.

(** The order [sort(key=lambda o: o._x)] establishes. *)
Definition x_le (a b : GameObject) : Prop := (_x a <= _x b)%Q.

(** [Game.select_tanks]: the value [selected] receives on each tank of
    [self.tanks], in order.  A rectangle of negative width or height is
    first turned around. *)
Definition select_tanks (rect : Q * Q * Q * Q) (tm : Team)
    (tanks : list GameObject) : list bool :=
  let '(rx, ry, w, h) := rect in
  let '(rx, w) := if Qltb w 0 then ((rx + w)%Q, (- w)%Q) else (rx, w) in
  let '(ry, h) := if Qltb h 0 then ((ry + h)%Q, (- h)%Q) else (ry, h) in
  map (fun t =>
         Qltb (_x t) (rx + w) && Qltb (_y t) (ry + h)
         && Qltb rx (_x t + width t) && Qltb ry (_y t + height t)
         && Team_eqb (team t) tm)
      tanks.

(** ** The name of an agent *)

Local Open Scope char_scope.

(** The characters outside the class [[^a-z0-9\-]]. *)
Definition safe_char (c : ascii) : bool :=
  let n := nat_of_ascii c in
  ((97 <=? n)%nat && (n <=? 122)%nat)
  || ((48 <=? n)%nat && (n <=? 57)%nat)
  || (n =? 45)%nat.

(** [re.sub(unsafe_chars, '-', s)]: every maximal run of unsafe characters
    becomes one dash; [in_run] tells whether the run has begun. *)
Fixpoint sub_unsafe (in_run : bool) (s : list ascii) : list ascii :=
  match s with
  | [] => []
  | c :: s' =>
      if safe_char c then c :: sub_unsafe false s'
      else if in_run then sub_unsafe true s'
      else "-" :: sub_unsafe true s'
  end.

Local Close Scope char_scope.

(** [Game.agent_name]; [NAME] is the class attribute, when the class has
    one. *)
Definition agent_name (NAME : option string) : string :=
  match NAME with
  | Some n =>
      string_of_list_ascii
        (firstn 16 (sub_unsafe false (list_ascii_of_string n)))
  | None => "noname"%string
  end.

(** ** What [setup] builds *)

(** An object [add_object] takes without spawning, or an ammo fountain
    that finds the tile under its centre free. *)
Definition addable (f : Field.t) (o : GameObject) : Prop :=
  match cls o with
  | AmmoFountain =>
      children o = []
      /\ spawn_tile_free f (x o + width o / 2)%Q (y o + height o / 2)%Q
         = true
  | Fountain | CrumbFountain => False
  | _ => True
  end.

(** The objects of the game once the list [l] of addable objects has been
    added: every ammo fountain has taken the delay [rate] and is followed
    by the pack it spawned; packs take the identities from [nxt] on. *)
Fixpoint added (rate : Z) (nxt : nat) (l : list GameObject)
    : list GameObject :=
  match l with
  | [] => []
  | o :: l' =>
      if Class_eqb (cls o) AmmoFountain then
        set_children [nxt] (set_DELAY rate o)
        :: spawned_pack o (oid o) nxt :: added rate (S nxt) l'
      else o :: added rate nxt l'
  end.

Fixpoint count_fountains (l : list GameObject) : nat :=
  match l with
  | [] => 0%nat
  | o :: l' =>
      ((if Class_eqb (cls o) AmmoFountain then 1 else 0)
       + count_fountains l')%nat
  end.

(** The tank [setup] builds for the agent [i] of team [tm] at the spawn
    [s], and the tanks of a team, with the identities from [n] on. *)
Definition spawned_tank (g : Game.t) (tm : Team) (i : nat)
    (s : GameObject) : GameObject :=
  Tank_init (x s + 2)%Q (y s + 2)%Q (angle s) i tm
    (Some match tm with
          | TEAM_RED => new_brain_red g i
          | _ => new_brain_blue g i
          end)
    (Some (spawn_of s)) None (Game.record g).

Fixpoint tank_row (g : Game.t) (tm : Team) (i n : nat)
    (spawns : list GameObject) : list GameObject :=
  match spawns with
  | [] => []
  | s :: rest =>
      set_oid n (spawned_tank g tm i s) :: tank_row g tm (S i) (S n) rest
  end.

(** The corridor with an ammo fountain on its middle tile, and a new game
    on it. *)
Definition armed_corridor : Field.t :=
  {| Field.width := Field.width corridor;
     Field.height := Field.height corridor;
     Field.tilesize := Field.tilesize corridor;
     Field.walls := Field.walls corridor;
     Field.spawns_red := Field.spawns_red corridor;
     Field.spawns_blue := Field.spawns_blue corridor;
     Field.controlpoints := Field.controlpoints corridor;
     Field.other_objects := [(2, 1, AmmoFountain)];
     Field.wallrects := Field.wallrects corridor |}.

Definition armed_game : Game.t :=
  blank_game default_settings armed_corridor false None true [].
(** * Properties *)

(** ** Comparisons *)

Lemma Qltb_lt (a b : Q) : Qltb a b = true <-> (a < b)%Q.
Proof.
  unfold Qltb. rewrite negb_true_iff, <- not_true_iff_false, Qle_bool_iff.
  split; [apply Qnot_le_lt | apply Qlt_not_le].
Qed.

Lemma Qltb_ge (a b : Q) : Qltb a b = false <-> (b <= a)%Q.
Proof.
  unfold Qltb. rewrite negb_false_iff. apply Qle_bool_iff.
Qed.

Lemma py_min_spec (a b : Q) :
  (py_min a b <= a)%Q /\ (py_min a b <= b)%Q /\
  (py_min a b = a \/ py_min a b = b).
Proof.
  unfold py_min. destruct (Qltb b a) eqn:E.
  - apply Qltb_lt in E. repeat split; [lra | lra | now right].
  - apply Qltb_ge in E. repeat split; [lra | lra | now left].
Qed.

Lemma py_max_spec (a b : Q) :
  (a <= py_max a b)%Q /\ (b <= py_max a b)%Q /\
  (py_max a b = a \/ py_max a b = b).
Proof.
  unfold py_max. destruct (Qltb a b) eqn:E.
  - apply Qltb_lt in E. repeat split; [lra | lra | now right].
  - apply Qltb_ge in E. repeat split; [lra | lra | now left].
Qed.

Lemma Team_eqb_eq (a b : Team) : Team_eqb a b = true <-> a = b.
Proof. destruct a, b; simpl; split; congruence. Qed.

Lemma Team_eqb_neq (a b : Team) : Team_eqb a b = false <-> a <> b.
Proof. destruct a, b; simpl; split; congruence. Qed.

(** ** Separation *)

Section SeparationFacts.

Variable sqrt : Q -> Q.
Local Open Scope Q_scope.

(** Two circles never take the circle branch: [sep_as_circles] is still
    false after the first part, so the result is the rectangle one. *)
Lemma compute_separation_circles_as_rects (o1 o2 : GameObject) :
  shape o1 = SHAPE_CIRC -> shape o2 = SHAPE_CIRC ->
  compute_separation sqrt o1 o2 =
  match separate_rects o1 o2 with
  | Some (p, px, py) => Some (p, o1, o2, px, py)
  | None => None
  end.
Proof.
  intros H1 H2. unfold compute_separation, classify.
  rewrite H1, H2. simpl. reflexivity.
Qed.

End SeparationFacts.

(** C2 (the code departs from it).  For the two tanks at (0,0) and (3,4) the
    centres are at distance 5 < 8 + 8, so the claim asks for a penetration of
    (8 + 8) - 5 = 11 along the axis (3,4).  [compute_separation] answers with
    the rectangle overlap instead: penetration 12 and the correction
    (0, -12), which is not parallel to the axis. This holds whatever
    [sqrt] computes. *)
Theorem compute_separation_two_tanks :
  forall sqrt : Q -> Q,
    let a := tank_at 0 0 in
    let b := tank_at 3 4 in
    compute_separation sqrt a b = Some (12, a, b, 0, - (12))%Q
    /\ shape a = SHAPE_CIRC /\ shape b = SHAPE_CIRC
    /\ (centre_dist2 a b == 5 * 5)%Q
    /\ (radius a + radius b - 5 == 11)%Q
    /\ ~ (12 == 11)%Q
    /\ ~ ((centre_x b - centre_x a) * - (12) - (centre_y b - centre_y a) * 0
          == 0)%Q.
Proof.
  intros sqrt a b. repeat split; try reflexivity.
  - intros H. vm_compute in H. discriminate.
  - intros H. vm_compute in H. discriminate.
Qed.

(** ** Control points *)

Lemma tally_get_incr_same (c : Tally) (t : Team) :
  tally_get (tally_incr c t) t = tally_get c t + 1.
Proof. destruct t; reflexivity. Qed.

Lemma tally_get_incr_other (c : Tally) (t u : Team) :
  t <> u -> tally_get (tally_incr c t) u = tally_get c u.
Proof. destruct t, u; simpl; congruence. Qed.

Lemma tally_ok_zero : tally_ok tally_zero.
Proof. unfold tally_ok; simpl; lia. Qed.

Lemma tally_ok_incr (c : Tally) (t : Team) :
  t <> TEAM_NEUTRAL -> tally_ok c -> tally_ok (tally_incr c t).
Proof.
  unfold tally_ok. intros Ht (Hr & Hb & Hn).
  destruct t; simpl; try congruence; lia.
Qed.

Lemma tally_ok_get (c : Tally) (t : Team) : tally_ok c -> 0 <= tally_get c t.
Proof. unfold tally_ok. intros (Hr & Hb & Hn). destruct t; simpl; lia. Qed.

(** The update of a control point starts a new cycle. *)
Lemma ControlPoint_update_resets (self : GameObject) (g : Game.t) :
  collided (fst (ControlPoint_update self g)) = tally_zero
  /\ team (fst (ControlPoint_update self g)) = team self.
Proof.
  unfold ControlPoint_update.
  repeat match goal with
         | |- context [if ?b then _ else _] => destruct b
         end; split; reflexivity.
Qed.

(** In every mode a touch by a tank of the red or the blue team keeps the
    tally well formed. *)
Lemma ControlPoint_collide_tally_ok (mode : Z) (self other : GameObject) :
  team other <> TEAM_NEUTRAL -> tally_ok (collided self) ->
  tally_ok (collided (ControlPoint_collide mode self other)).
Proof.
  intros Ho Hc. unfold ControlPoint_collide.
  repeat match goal with
         | |- context [if ?b then _ else _] => destruct b
         end; simpl; auto using tally_ok_incr.
Qed.

Section Majority.

Variables self other : GameObject.
Hypothesis other_is_tank : cls other = Tank.
Hypothesis other_has_team : team other <> TEAM_NEUTRAL.
Hypothesis tally_wf : tally_ok (collided self).

Local Abbreviation self' :=
  (ControlPoint_collide CAPTURE_MODE_MAJORITY self other).

Lemma majority_counts_touch :
  collided self' = tally_incr (collided self) (team other).
Proof.
  unfold ControlPoint_collide. rewrite other_is_tank. simpl.
  repeat match goal with
         | |- context [if ?b then _ else _] => destruct b
         end; reflexivity.
Qed.

Lemma majority_owner :
  team self' =
  if negb (Team_eqb (team self) (team other))
     && (tally_get (collided self') (team other)
         =? tally_get (collided self') (team self))
  then TEAM_NEUTRAL
  else if tally_get (collided self') (team self)
          <? tally_get (collided self') (team other)
  then team other
  else team self.
Proof.
  rewrite majority_counts_touch.
  unfold ControlPoint_collide. rewrite other_is_tank. simpl.
  repeat match goal with
         | |- context [if ?b then _ else _] => destruct b
         end; reflexivity.
Qed.

Lemma majority_flips_iff :
  (team self' = team other /\ team self <> team other)
  <-> tally_get (collided self') (team self)
      < tally_get (collided self') (team other).
Proof.
  rewrite majority_owner.
  destruct (Team_eqb (team self) (team other)) eqn:E; simpl.
  - apply Team_eqb_eq in E. rewrite E, Z.ltb_irrefl.
    split; [intros [_ H]; congruence | lia].
  - apply Team_eqb_neq in E.
    destruct (Z.eqb_spec (tally_get (collided self') (team other))
                         (tally_get (collided self') (team self))) as [Q|Q].
    + split; [intros [H _]; congruence | lia].
    + destruct (Z.ltb_spec (tally_get (collided self') (team self))
                           (tally_get (collided self') (team other)));
        split; try tauto; try lia.
Qed.

Lemma majority_neutral_iff :
  team self' = TEAM_NEUTRAL
  <-> (team self <> team other
       /\ tally_get (collided self') (team other)
          = tally_get (collided self') (team self)).
Proof.
  rewrite majority_owner.
  destruct (Team_eqb (team self) (team other)) eqn:E; simpl.
  - apply Team_eqb_eq in E. rewrite E, Z.ltb_irrefl.
    split; [congruence | tauto].
  - apply Team_eqb_neq in E.
    destruct (Z.eqb_spec (tally_get (collided self') (team other))
                         (tally_get (collided self') (team self))) as [Q|Q].
    + tauto.
    + destruct (Z.ltb_spec (tally_get (collided self') (team self))
                           (tally_get (collided self') (team other)))
        as [L|L].
      * split; [congruence | tauto].
      * split; [ | tauto]. intros N. exfalso.
        rewrite N, majority_counts_touch in L.
        rewrite tally_get_incr_same in L.
        rewrite tally_get_incr_other in L by assumption.
        pose proof (tally_ok_get (collided self) (team other) tally_wf).
        destruct tally_wf as (_ & _ & Hn). simpl in L. lia.
Qed.

End Majority.

(** C7. In majority mode a touch by a tank is counted for the tank's team:
    the tally of that team grows by one and the tallies of the other teams
    stay as they were.  The point then belongs to that team, having
    belonged to another owner before, exactly when the team's tally now
    exceeds the tally of the owner before the touch, and it is neutral
    exactly when the touching team differs from that owner and the two
    tallies are equal.  In terms of the tallies before the touch, for a
    touching team that is not the owner: the point goes to that team when
    the owner had no more touches than it, becomes neutral when the owner
    had exactly one more, and stays with the owner when the owner had more
    than that; a touch by the owner's own team never changes the owner.  In
    particular a red point touched by a blue tank becomes blue as soon as
    the blue tally exceeds the red one.  The tally counts the touches of
    one cycle: [update] resets it. *)
Theorem majority_capture (self other : GameObject) (g : Game.t) :
  cls other = Tank ->
  team other <> TEAM_NEUTRAL ->
  tally_ok (collided self) ->
  let self' := ControlPoint_collide CAPTURE_MODE_MAJORITY self other in
  let before := tally_get (collided self) in
  let after := tally_get (collided self') in
  after (team other) = before (team other) + 1
  /\ (forall t, t <> team other -> after t = before t)
  /\ ((team self' = team other /\ team self <> team other)
      <-> after (team self) < after (team other))
  /\ (team self' = TEAM_NEUTRAL
      <-> (team self <> team other
           /\ after (team other) = after (team self)))
  /\ (team self <> team other ->
      (team self' = team other
       <-> before (team self) <= before (team other))
      /\ (team self' = TEAM_NEUTRAL
          <-> before (team self) = before (team other) + 1)
      /\ (team self' = team self
          <-> before (team other) + 1 < before (team self)))
  /\ (team self = team other -> team self' = team self)
  /\ (team self = TEAM_RED -> team other = TEAM_BLUE ->
      slot_red (collided self') < slot_blue (collided self') ->
      team self' = TEAM_BLUE)
  /\ (team self = TEAM_RED -> team other = TEAM_BLUE ->
      slot_red (collided self') = slot_red (collided self)
      /\ slot_blue (collided self') = slot_blue (collided self) + 1
      /\ (slot_red (collided self) <= slot_blue (collided self) ->
          team self' = TEAM_BLUE))
  /\ collided (fst (ControlPoint_update self' g)) = tally_zero.
Proof.
  intros Hc Ht Hw self' before after. subst before after.
  pose proof (majority_counts_touch self other Hc) as Ec.
  pose proof (majority_flips_iff self other Hc Ht) as Fl.
  pose proof (majority_neutral_iff self other Hc Ht Hw) as Ne.
  pose proof (majority_owner self other Hc) as Ow.
  fold self' in Ec, Fl, Ne, Ow.
  assert (A1 : tally_get (collided self') (team other)
               = tally_get (collided self) (team other) + 1).
  { rewrite Ec. apply tally_get_incr_same. }
  assert (A2 : forall t, t <> team other ->
                 tally_get (collided self') t
                 = tally_get (collided self) t).
  { intros t D. rewrite Ec. apply tally_get_incr_other. congruence. }
  assert (Pos : 0 <= tally_get (collided self) (team other))
    by (apply tally_ok_get; exact Hw).
  assert (Neu : team self = TEAM_NEUTRAL ->
                tally_get (collided self) (team self) = 0).
  { intros E. rewrite E. destruct Hw as (_ & _ & Hn). exact Hn. }
  assert (Away : team self <> team other ->
            (team self' = team other
             <-> tally_get (collided self) (team self)
                 <= tally_get (collided self) (team other))
            /\ (team self' = TEAM_NEUTRAL
                <-> tally_get (collided self) (team self)
                    = tally_get (collided self) (team other) + 1)
            /\ (team self' = team self
                <-> tally_get (collided self) (team other) + 1
                    < tally_get (collided self) (team self))).
  { intros D. pose proof (A2 (team self) D) as A3.
    split; [ | split].
    - split.
      + intros E.
        assert (L : tally_get (collided self') (team self)
                    < tally_get (collided self') (team other))
          by (apply Fl; auto).
        lia.
      + intros L. apply Fl. lia.
    - split.
      + intros E. apply Ne in E. lia.
      + intros E. apply Ne. split; [exact D | lia].
    - pose proof D as D'. apply Team_eqb_neq in D'.
      rewrite Ow, D'. cbn [negb andb].
      destruct (Z.eqb_spec (tally_get (collided self') (team other))
                           (tally_get (collided self') (team self)))
        as [Q|Q].
      + split; [ | lia]. intros E. symmetry in E. apply Neu in E. lia.
      + destruct (Z.ltb_spec (tally_get (collided self') (team self))
                             (tally_get (collided self') (team other)))
          as [L|L].
        * split; [ | lia]. intros E. congruence.
        * split; [lia | reflexivity]. }
  split; [exact A1 | ]. split; [exact A2 | ].
  split; [exact Fl | ]. split; [exact Ne | ].
  split; [exact Away | ].
  split.
  { intros E. rewrite Ow.
    assert (B : Team_eqb (team self) (team other) = true)
      by (now apply Team_eqb_eq).
    rewrite B, E, Z.ltb_irrefl. reflexivity. }
  split.
  { intros Hr Hb Hlt.
    assert (E : team self' = team other /\ team self <> team other).
    { apply Fl. rewrite Hr, Hb. exact Hlt. }
    destruct E as [E _]. congruence. }
  split; [ | apply ControlPoint_update_resets].
  intros Hr Hb.
  assert (D : team self <> team other) by congruence.
  pose proof (A2 TEAM_RED ltac:(congruence)) as R.
  pose proof A1 as B. rewrite Hb in B.
  cbn [tally_get] in R, B.
  split; [exact R | ]. split; [exact B | ].
  intros L. destruct (Away D) as (Go & _ & _).
  rewrite Hb in Go. apply Go. rewrite Hr. cbn [tally_get]. exact L.
Qed.

Lemma majority_capture_witness :
  let self := red_point in
  let other := blue_tank_0 in
  let self' := ControlPoint_collide CAPTURE_MODE_MAJORITY self other in
  let before := tally_get (collided self) in
  let after := tally_get (collided self') in
  after (team other) = before (team other) + 1
  /\ (forall t, t <> team other -> after t = before t)
  /\ ((team self' = team other /\ team self <> team other)
      <-> after (team self) < after (team other))
  /\ (team self' = TEAM_NEUTRAL
      <-> (team self <> team other
           /\ after (team other) = after (team self)))
  /\ (team self <> team other ->
      (team self' = team other
       <-> before (team self) <= before (team other))
      /\ (team self' = TEAM_NEUTRAL
          <-> before (team self) = before (team other) + 1)
      /\ (team self' = team self
          <-> before (team other) + 1 < before (team self)))
  /\ (team self = team other -> team self' = team self)
  /\ (team self = TEAM_RED -> team other = TEAM_BLUE ->
      slot_red (collided self') < slot_blue (collided self') ->
      team self' = TEAM_BLUE)
  /\ (team self = TEAM_RED -> team other = TEAM_BLUE ->
      slot_red (collided self') = slot_red (collided self)
      /\ slot_blue (collided self') = slot_blue (collided self) + 1
      /\ (slot_red (collided self) <= slot_blue (collided self) ->
          team self' = TEAM_BLUE))
  /\ collided (fst (ControlPoint_update self' corridor_game)) = tally_zero.
Proof.
  apply (majority_capture red_point blue_tank_0 corridor_game).
  - reflexivity.
  - discriminate.
  - unfold tally_ok; simpl; lia.
Defined.

(** ** The action of a tank *)

Section Clamps.

Variable W : World.
Variable s : Settings.

Local Open Scope Q_scope.

Lemma clamp_speed_le (speed : Q) : clamp_speed s speed <= max_speed s.
Proof. unfold clamp_speed. apply py_min_spec. Qed.

Lemma clamp_speed_below (speed : Q) :
  speed <= max_speed s -> clamp_speed s speed == speed.
Proof.
  unfold clamp_speed, py_min. intros H.
  destruct (Qltb speed (max_speed s)) eqn:E; [reflexivity | ].
  apply Qltb_ge in E. lra.
Qed.

Lemma clamp_turn_bounds (turn : Q) :
  0 <= max_turn s ->
  - max_turn s <= clamp_turn W s turn <= max_turn s.
Proof.
  intros H. unfold clamp_turn.
  pose proof (py_min_spec (max_turn s) (angle_fix W turn)) as (A & _ & _).
  pose proof (py_max_spec (- max_turn s)
                (py_min (max_turn s) (angle_fix W turn))) as (B & _ & [C|C]);
    rewrite C in *; lra.
Qed.

Lemma clamp_speed_zero : 0 <= max_speed s -> clamp_speed s 0 == 0.
Proof. apply clamp_speed_below. Qed.

Lemma clamp_turn_zero :
  0 <= max_turn s -> angle_fix W 0 == 0 -> clamp_turn W s 0 == 0.
Proof.
  intros H F. unfold clamp_turn, py_max, py_min.
  destruct (Qltb (angle_fix W 0) (max_turn s)) eqn:E1;
    [apply Qltb_lt in E1 | apply Qltb_ge in E1];
    match goal with
    | |- context [Qltb ?a ?b] =>
        destruct (Qltb a b) eqn:E2;
        [apply Qltb_lt in E2 | apply Qltb_ge in E2]
    end; lra.
Qed.

(** A shot is fired exactly when it is asked for and ammunition is left; it
    costs one round. *)
Lemma shoot_needs_ammo (turn speed : Q) (shoot : bool) (self : GameObject) :
  respawn_in self = (-1)%Z ->
  let self' := Tank_apply_action W s (turn, speed, shoot) self in
  (shoots self' = true <-> shoot = true /\ (0 < ammo self)%Z)
  /\ (shoots self' = true -> ammo self' = (ammo self - 1)%Z)
  /\ (shoots self' = false -> ammo self' = ammo self).
Proof.
  intros A. unfold Tank_apply_action. simpl. rewrite A. simpl.
  destruct shoot; simpl.
  - destruct (Z.ltb_spec 0 (ammo self)); simpl;
      repeat split; try tauto; try congruence; try lia.
  - repeat split; try tauto; try congruence.
Qed.

(** What an applied action does to a tank that is alive. *)
Lemma Tank_apply_action_alive (turn speed : Q) (shoot : bool)
    (self : GameObject) :
  respawn_in self = (-1)%Z ->
  let self' := Tank_apply_action W s (turn, speed, shoot) self in
  angle self' = angle self + clamp_turn W s turn
  /\ x self' = x self + cos W (angle self') * clamp_speed s speed
  /\ y self' = y self + sin W (angle self') * clamp_speed s speed.
Proof.
  intros A. unfold Tank_apply_action. simpl. rewrite A. simpl.
  destruct (shoot && _)%bool; simpl; repeat split; reflexivity.
Qed.

(** A tank that waits for its respawn is not moved by any action. *)
Lemma Tank_apply_action_dead (a : Action) (self : GameObject) :
  respawn_in self <> (-1)%Z ->
  Tank_apply_action W s a self = set_shoots false self.
Proof.
  intros A. unfold Tank_apply_action. destruct a as [[turn speed] shoot].
  simpl. destruct (Z.eqb_spec (respawn_in self) (-1)%Z); [contradiction | ].
  reflexivity.
Qed.

(** The no-op leaves angle and position where they are, provided the two
    limits are not negative. *)
Lemma Tank_apply_noop (self : GameObject) :
  0 <= max_speed s -> 0 <= max_turn s -> angle_fix W 0 == 0 ->
  let self' := Tank_apply_action W s NOOP self in
  angle self' == angle self /\ x self' == x self /\ y self' == y self
  /\ shoots self' = false /\ ammo self' = ammo self.
Proof.
  intros Hs Ht Hf.
  destruct (Z.eq_dec (respawn_in self) (-1)%Z) as [A|A].
  - pose proof (Tank_apply_action_alive 0 0 false self A) as H.
    pose proof (shoot_needs_ammo 0 0 false self A) as S.
    cbv zeta in H, S. destruct H as (Ea & Ex & Ey).
    destruct S as (S1 & _ & S2).
    pose proof (clamp_speed_zero Hs) as Z1.
    pose proof (clamp_turn_zero Ht Hf) as Z2.
    cbv zeta. unfold NOOP. rewrite Ea, Ex, Ey, Z1, Z2.
    assert (Sh : shoots (Tank_apply_action W s (0, 0, false) self) = false).
    { destruct (shoots (Tank_apply_action W s (0, 0, false) self));
        [ | reflexivity]. destruct S1 as [S1 _]. now destruct S1. }
    repeat split; try ring; auto.
  - rewrite Tank_apply_action_dead by assumption. simpl.
    repeat split; reflexivity.
Qed.

(** Applying an action does not touch the queue of actions. *)
Lemma Tank_apply_action_actions (a : Action) (self : GameObject) :
  actions (Tank_apply_action W s a self) = actions self.
Proof.
  unfold Tank_apply_action. destruct a as [[turn speed] shoot].
  repeat match goal with
         | |- context [if ?b then _ else _] => destruct b
         end; reflexivity.
Qed.

End Clamps.

Lemma settings_Game_log (g : Game.t) (m : Message) :
  Game.settings (Game_log g m) = Game.settings g.
Proof. unfold Game_log. now destruct (Game.verbose g). Qed.

Lemma settings_print_agent_exception (self : GameObject) (g : Game.t) :
  Game.settings (print_agent_exception self g) = Game.settings g.
Proof. reflexivity. Qed.

Lemma state_Game_log (g : Game.t) (m : Message) :
  Game.state (Game_log g m) = Game.state g.
Proof. unfold Game_log. now destruct (Game.verbose g). Qed.

(** The first half of [get_action] for a tank that asks its delegate and
    is late: the answer, or the exception, is replaced by the no-op. *)
Lemma Tank_choose_action_late (W : World) (self : GameObject) (g : Game.t)
    (b : Brain) :
  brain self = Some b ->
  (record self = true \/ actions self = []) ->
  let th := think W (Game.step g) (team self) (tank_id self) in
  let total := (time_thought self + action_time th)%Q in
  (think_time (Game.settings g) < total)%Q ->
  exists g0,
    (g0 = g \/ g0 = print_agent_exception self
                      (Game.set_agent_raised_exception true g))
    /\ Tank_choose_action W self g =
       (NOOP,
        (if record self then set_actions (actions self ++ [NOOP])
         else fun o => o) (set_time_thought total self),
        Game_log g0 (MsgTimedOut (team self) (tank_id self) total)).
Proof.
  intros Hb Hq th total Hlate.
  apply Qltb_lt in Hlate.
  unfold Tank_choose_action. rewrite Hb. fold th.
  assert (Sel : match negb (record self), actions self with
                | true, _ :: _ => False
                | _, _ => True
                end).
  { destruct Hq as [Hq|Hq]; rewrite Hq; simpl; auto.
    now destruct (negb (record self)). }
  destruct (action_result th) as [act|];
    [exists g | exists (print_agent_exception self
                          (Game.set_agent_raised_exception true g))];
    (split; [auto | ]);
    destruct (negb (record self)), (actions self) eqn:A;
    try contradiction; simpl; fold total;
    rewrite ?settings_print_agent_exception; simpl;
    rewrite Hlate; simpl; rewrite ?A; destruct (record self); reflexivity.
Qed.

(** C6, with the condition it needs.  A tank with a delegate whose
    accumulated decision time exceeds [think_time] uses the no-op, and the
    timeout message goes to [Game.log]; the call returns and leaves the
    state of the game as it is.  When [max_speed] and [max_turn] are not
    negative (and [angle_fix] maps 0 to 0) the tank keeps its angle and its
    position, does not shoot and keeps its ammunition. *)
Theorem timeout_noop (W : World) (self : GameObject) (g : Game.t)
    (b : Brain) :
  brain self = Some b ->
  (record self = true \/ actions self = []) ->
  let th := think W (Game.step g) (team self) (tank_id self) in
  let total := (time_thought self + action_time th)%Q in
  (think_time (Game.settings g) < total)%Q ->
  (0 <= max_speed (Game.settings g))%Q ->
  (0 <= max_turn (Game.settings g))%Q ->
  (angle_fix W 0 == 0)%Q ->
  let self' := fst (Tank_get_action W self g) in
  let g' := snd (Tank_get_action W self g) in
  fst (fst (Tank_choose_action W self g)) = NOOP
  /\ (exists g0,
        g' = Game_log g0 (MsgTimedOut (team self) (tank_id self) total)
        /\ (g0 = g \/
            g0 = print_agent_exception self
                   (Game.set_agent_raised_exception true g)))
  /\ Game.state g' = Game.state g
  /\ (angle self' == angle self)%Q
  /\ (x self' == x self)%Q
  /\ (y self' == y self)%Q
  /\ shoots self' = false
  /\ ammo self' = ammo self
  /\ (record self = true -> actions self' = actions self ++ [NOOP]).
Proof.
  intros Hb Hq th total Hlate Hs Ht Hf self' g'.
  destruct (Tank_choose_action_late W self g b Hb Hq Hlate)
    as (g0 & Hg0 & E).
  fold th in E. fold total in E.
  subst self' g'. unfold Tank_get_action. rewrite E. cbn [fst snd].
  rewrite settings_Game_log, state_Game_log.
  assert (S0 : Game.settings g0 = Game.settings g)
    by (destruct Hg0; subst g0; reflexivity).
  assert (T0 : Game.state g0 = Game.state g)
    by (destruct Hg0; subst g0; reflexivity).
  rewrite S0, T0.
  match goal with
  | |- context [Tank_apply_action W ?s NOOP ?t] =>
      pose proof (Tank_apply_noop W s t Hs Ht Hf) as P;
      cbv zeta in P; destruct P as (P1 & P2 & P3 & P4 & P5);
      pose proof (Tank_apply_action_actions W s NOOP t) as P6
  end.
  split; [reflexivity | ].
  split; [exists g0; auto | ].
  split; [reflexivity | ].
  rewrite P6. clear P6.
  destruct (record self); cbn [set_actions set_time_thought angle x y
                              shoots ammo actions] in *;
    repeat split; auto.
  discriminate.
Qed.

Lemma timeout_noop_witness :
  let self := red_tank_0 in
  let g := corridor_game in
  let th := think slow_world (Game.step g) (team self) (tank_id self) in
  let total := (time_thought self + action_time th)%Q in
  let self' := fst (Tank_get_action slow_world self g) in
  let g' := snd (Tank_get_action slow_world self g) in
  fst (fst (Tank_choose_action slow_world self g)) = NOOP
  /\ (exists g0,
        g' = Game_log g0 (MsgTimedOut (team self) (tank_id self) total)
        /\ (g0 = g \/
            g0 = print_agent_exception self
                   (Game.set_agent_raised_exception true g)))
  /\ Game.state g' = Game.state g
  /\ (angle self' == angle self)%Q
  /\ (x self' == x self)%Q
  /\ (y self' == y self)%Q
  /\ shoots self' = false
  /\ ammo self' = ammo self
  /\ (record self = true -> actions self' = actions self ++ [NOOP]).
Proof.
  apply (timeout_noop slow_world red_tank_0 corridor_game red_brain_0).
  - reflexivity.
  - right. reflexivity.
  - reflexivity.
  - discriminate.
  - discriminate.
  - reflexivity.
Defined.

(** C6 as it is stated fails when [max_turn] is negative: the no-op is
    still passed through the clamp [max(-max_turn, min(max_turn, 0))], which
    is then 1 for [max_turn = -1], and the tank turns by one radian although
    its delegate timed out. *)
Lemma timeout_turns_tank :
  let self := red_tank_0 in
  let g := blank_game backward_turn_settings corridor false None true [] in
  let th := think slow_world (Game.step g) (team self) (tank_id self) in
  brain self = Some red_brain_0
  /\ actions self = []
  /\ (think_time (Game.settings g) < time_thought self + action_time th)%Q
  /\ fst (fst (Tank_choose_action slow_world self g)) = NOOP
  /\ (angle (fst (Tank_get_action slow_world self g)) == angle self + 1)%Q
  /\ ~ (angle (fst (Tank_get_action slow_world self g)) == angle self)%Q.
Proof.
  repeat split; try reflexivity.
  intros H. vm_compute in H. discriminate.
Qed.

(** C8 (the code departs from it).  With [max_speed = 40] the action that
    asks for the speed -100 is applied with the speed -100: [min(max_speed,
    speed)] bounds the speed from above only. The tank, which is alive,
    moves by 100 units against its heading, whatever the world is. *)
Theorem speed_clamp_one_sided :
  forall W : World,
    let s := default_settings in
    let self := red_tank_0 in
    let self' := Tank_apply_action W s (0, - (100), false)%Q self in
    respawn_in self = -1
    /\ max_speed s = 40%Q
    /\ clamp_speed s (- (100)) = (- (100))%Q
    /\ (x self' == x self + cos W (angle self') * - (100))%Q
    /\ (y self' == y self + sin W (angle self') * - (100))%Q
    /\ ~ (Qabs (clamp_speed s (- (100))) <= max_speed s)%Q.
Proof.
  intros W s self self'. subst s self self'.
  repeat split; try reflexivity.
  intros H. vm_compute in H. apply H. reflexivity.
Qed.

(** ** The scores *)

(** Case analysis on every test a goal contains. *)
Ltac split_tests :=
  repeat match goal with
         | |- context [match ?x with _ => _ end] => destruct x eqn:?
         end.

Ltac same_scores :=
  intros; split_tests; simpl in *; try reflexivity; try congruence.

Lemma scores_Game_log (g : Game.t) (m : Message) :
  scores (Game_log g m) = scores g.
Proof. unfold Game_log. now destruct (Game.verbose g). Qed.

Lemma scores_set_objects (l : list GameObject) (g : Game.t) :
  scores (Game.set_objects l g) = scores g.
Proof. reflexivity. Qed.

Lemma scores_send_observation (W : World) (self : GameObject) (g : Game.t) :
  scores (snd (Tank_send_observation W self g)) = scores g.
Proof. unfold Tank_send_observation. same_scores. Qed.

Lemma scores_choose_action (W : World) (self : GameObject) (g : Game.t) :
  scores (snd (Tank_choose_action W self g)) = scores g.
Proof.
  unfold Tank_choose_action.
  destruct (negb (record self)), (actions self); simpl; try reflexivity;
    destruct (brain self); try destruct (action_result _); simpl;
    match goal with
    | |- context [Qltb ?a ?b] => destruct (Qltb a b)
    end; simpl; rewrite ?scores_Game_log; reflexivity.
Qed.

Lemma scores_get_action (W : World) (self : GameObject) (g : Game.t) :
  scores (snd (Tank_get_action W self g)) = scores g.
Proof.
  unfold Tank_get_action.
  pose proof (scores_choose_action W self g) as H.
  destruct (Tank_choose_action W self g) as [[a s] g']. exact H.
Qed.

Lemma scores_for_tanks (m : GameObject -> Game.t -> GameObject * Game.t) :
  (forall self g, scores (snd (m self g)) = scores g) ->
  forall ids g, scores (for_tanks m ids g) = scores g.
Proof.
  intros Hm ids. induction ids as [|i ids IH]; intros g; simpl; auto.
  rewrite IH. destruct (lookup_obj i (Game.objects g)) as [self|]; auto.
  specialize (Hm self g). destruct (m self g) as [s' g']. exact Hm.
Qed.

Lemma scores_shoot (W : World) (tank : GameObject) (g : Game.t) :
  scores (shoot W tank g) = scores g.
Proof. unfold shoot. same_scores. Qed.

Lemma scores_shoot_all (W : World) (ids : list nat) (g : Game.t) :
  scores (shoot_all W ids g) = scores g.
Proof.
  revert g. induction ids as [|i ids IH]; intros g; simpl; auto.
  rewrite IH. destruct (lookup_obj i (Game.objects g)); auto.
  apply scores_shoot.
Qed.

Lemma scores_rem_object (o : GameObject) (g : Game.t) :
  scores (rem_object o g) = scores g.
Proof. reflexivity. Qed.

Lemma scores_collide (i j : nat) (g : Game.t) :
  scores (collide i j g) = scores g.
Proof.
  unfold collide, Ammo_collide, Crumb_collide. same_scores.
Qed.

Lemma scores_notify (pairs : list (nat * nat)) (g : Game.t) :
  scores (notify pairs g) = scores g.
Proof.
  revert g. induction pairs as [|[i j] pairs IH]; intros g; simpl; auto.
  now rewrite IH, !scores_collide.
Qed.

Lemma scores_substep (W : World) (g : Game.t) :
  scores (substep W g) = scores g.
Proof.
  unfold substep. destruct (physics W (Game.objects g)) as [ps pairs].
  now rewrite scores_notify.
Qed.

Lemma scores_substeps (W : World) (n : nat) (g : Game.t) :
  scores (substeps W n g) = scores g.
Proof.
  revert g. induction n as [|n IH]; intros g; simpl; auto.
  now rewrite IH, scores_substep.
Qed.

Lemma scores_SPREAD (W : World) (self : GameObject) (px py : Q)
    (g : Game.t) :
  scores (snd (SPREAD W self px py g)) = scores g.
Proof. unfold SPREAD. now destruct (cls self). Qed.

Lemma scores_spawn_one (W : World) (attempts i : nat) (g g' : Game.t) :
  Fountain_spawn_one W attempts i g = Ok g' -> scores g' = scores g.
Proof.
  revert g. induction attempts as [|n IH]; intros g; cbn [Fountain_spawn_one].
  - intros [= <-]. reflexivity.
  - destruct (lookup_obj i (Game.objects g)) as [self|];
      [ | intros [= <-]; reflexivity].
    pose proof (scores_SPREAD W self (x self + width self / 2)%Q
                  (y self + height self / 2)%Q g) as S.
    destruct (SPREAD W self _ _ g) as [[px py] g1]. cbn [snd] in S.
    unfold alloc.
    split_tests; try discriminate; intros H;
      try (injection H as <-; rewrite <- S; reflexivity);
      try (apply IH in H; rewrite H; exact S).
Qed.

Lemma scores_Fountain_update (W : World) (self : GameObject)
    (g g' : Game.t) :
  Fountain_update W self g = Ok g' -> scores g' = scores g.
Proof.
  unfold Fountain_update.
  match goal with
  | |- context [if ?b then _ else _] => destruct b
  end; intros H.
  - apply scores_spawn_one in H. rewrite H. reflexivity.
  - injection H as <-. reflexivity.
Qed.

Lemma scores_reset_tanks (ids : list nat) (g g' : Game.t) :
  reset_tanks ids g = Ok g' -> scores g' = scores g.
Proof.
  revert g. induction ids as [|i ids IH]; intros g; simpl.
  - intros [= <-]. reflexivity.
  - destruct (lookup_obj i (Game.objects g)) as [tank|]; [ | apply IH].
    destruct (reset_tank (Game.settings g) tank); simpl; try discriminate.
    intros H. apply IH in H. rewrite H. reflexivity.
Qed.

Lemma score_inv_scores (g g' : Game.t) :
  scores g' = scores g -> score_inv g -> score_inv g'.
Proof.
  unfold scores, score_inv. intros [= R B S _]. now rewrite R, B, S.
Qed.

(** What [ControlPoint.update] does to the scores: nothing, or one point
    moves from one side to the other; the settings stay. *)
Lemma ControlPoint_update_scores (self : GameObject) (g : Game.t) :
  let g' := snd (ControlPoint_update self g) in
  Game.settings g' = Game.settings g
  /\ ((Game.score_red g' = Game.score_red g
       /\ Game.score_blue g' = Game.score_blue g)
      \/ (Game.score_red g' = Game.score_red g + 1
          /\ Game.score_blue g' = Game.score_blue g - 1
          /\ team self = TEAM_RED
          /\ Game.score_red g < max_score (Game.settings g))
      \/ (Game.score_blue g' = Game.score_blue g + 1
          /\ Game.score_red g' = Game.score_red g - 1
          /\ team self = TEAM_BLUE
          /\ Game.score_blue g < max_score (Game.settings g))).
Proof.
  unfold ControlPoint_update. cbn [team set_collided].
  destruct (Team_eqb (team self) TEAM_RED) eqn:ER; cbn [andb].
  - destruct (Z.ltb_spec (Game.score_red g) (max_score (Game.settings g))).
    + apply Team_eqb_eq in ER. cbn. split; [reflexivity | ]. right; left.
      repeat split; auto.
    + destruct (Team_eqb (team self) TEAM_BLUE) eqn:EB; cbn [andb].
      * apply Team_eqb_eq in ER. apply Team_eqb_eq in EB. congruence.
      * cbn. auto.
  - destruct (Team_eqb (team self) TEAM_BLUE) eqn:EB; cbn [andb].
    + destruct (Z.ltb_spec (Game.score_blue g) (max_score (Game.settings g))).
      * apply Team_eqb_eq in EB. cbn. split; [reflexivity | ].
        right; right. repeat split; auto.
      * cbn. auto.
    + cbn. auto.
Qed.

(** The invariant of the scores together with the settings a match
    started with. *)
Lemma kept_scores (s : Settings) (g g' : Game.t) :
  scores g' = scores g -> kept s g -> kept s g'.
Proof.
  unfold kept. intros E [S I]. split.
  - injection E as _ _ E _. congruence.
  - eapply score_inv_scores; eauto.
Qed.

Lemma ControlPoint_update_kept (s : Settings) (self : GameObject)
    (g : Game.t) :
  kept s g -> kept s (snd (ControlPoint_update self g)).
Proof.
  pose proof (ControlPoint_update_scores self g) as H. cbv zeta in H.
  destruct H as (S & H). unfold kept, score_inv. rewrite S.
  intros [E I]. split; [exact E | ].
  destruct H as [(R & B) | [(R & B & _ & L) | (B & R & _ & L)]];
    rewrite R, B; lia.
Qed.

Lemma update_object_kept (W : World) (s : Settings) (i : nat)
    (g g' : Game.t) :
  update_object W i g = Ok g' -> kept s g -> kept s g'.
Proof.
  unfold update_object.
  destruct (lookup_obj i (Game.objects g)) as [self|];
    [ | intros [= <-]; auto].
  destruct (cls self); try (intros [= <-]; auto; fail).
  - pose proof (ControlPoint_update_kept s self g) as P.
    destruct (ControlPoint_update self g) as [s' g1].
    intros [= <-] I. apply (kept_scores s g1); auto.
  - intros H. apply kept_scores. eapply scores_Fountain_update; eauto.
  - intros H. apply kept_scores. eapply scores_Fountain_update; eauto.
  - intros H. apply kept_scores. eapply scores_Fountain_update; eauto.
Qed.

Lemma update_all_kept (W : World) (s : Settings) (ids : list nat)
    (g g' : Game.t) :
  update_all W ids g = Ok g' -> kept s g -> kept s g'.
Proof.
  revert g. induction ids as [|i ids IH]; intros g; simpl.
  - intros [= <-]. auto.
  - destruct (update_object W i g) as [g1| |] eqn:E; simpl;
      try discriminate.
    intros H I. eapply IH; eauto. eapply update_object_kept; eauto.
Qed.

Lemma scores_sense_think_act (W : World) (g : Game.t) :
  scores (sense_think_act W g) = scores g.
Proof.
  unfold sense_think_act.
  rewrite scores_shoot_all.
  rewrite (scores_for_tanks _ (scores_get_action W)).
  apply (scores_for_tanks _ (scores_send_observation W)).
Qed.

Lemma scores_simulate (W : World) (g g' : Game.t) :
  outcome_state (simulate W g) = Some g' -> scores g' = scores g.
Proof.
  unfold simulate.
  destruct (reset_tanks _ _) as [g1| |] eqn:R; cbn [of_result];
    try (intros [= <-]; reflexivity); try discriminate.
  apply scores_reset_tanks in R.
  destruct (interrupt W _ 2); intros [= <-];
    rewrite ?scores_set_objects, ?scores_substeps, ?scores_substep;
    exact R.
Qed.

(** One pass through the loop keeps the invariant of the scores, however
    the pass ends. *)
Lemma Game_step_kept (W : World) (st : Settings) (s : Z) (g g' : Game.t) :
  outcome_state (Game_step W s g) = Some g' -> kept st g -> kept st g'.
Proof.
  unfold Game_step. intros H I.
  assert (I0 : kept st (Game.set_step (s + 1) g)) by exact I.
  revert H. generalize dependent (Game.set_step (s + 1) g). clear g I.
  intros g.
  destruct (interrupt W (Game.step g) 0); [intros I [= <-]; exact I | ].
  destruct (update_all W (map oid (Game.objects g)) g) as [g1| |] eqn:U;
    cbn [of_result]; try (intros I [= <-]; exact I); try discriminate.
  intros I. apply (update_all_kept _ _ _ _ _ U) in I. clear U g.
  apply (kept_scores _ _ _ (scores_sense_think_act W g1)) in I.
  revert I. generalize (sense_think_act W g1). clear g1. intros g I.
  destruct (interrupt W (Game.step g) 1); [intros [= <-]; exact I | ].
  destruct (score_over g); [intros [= <-]; exact I | ].
  destruct (crumbs_over W g) as [[|]| |]; cbn [outcome_state];
    try (intros [= <-]; exact I); try discriminate.
  intros H. apply scores_simulate in H. eapply kept_scores; eauto.
Qed.

Lemma Game_loop_kept (W : World) (st : Settings) (n : nat) (s : Z)
    (g g' : Game.t) :
  outcome_state (Game_loop W n s g) = Some g' -> kept st g -> kept st g'.
Proof.
  revert s g. induction n as [|n IH]; intros s g; simpl.
  - intros [= <-]. auto.
  - destruct (Game_step W s g) as [g1|g1|e g1|] eqn:E;
      cbn [outcome_state]; try discriminate.
    + intros H I. eapply IH; eauto.
      eapply Game_step_kept; eauto. rewrite E. reflexivity.
    + intros [= <-] I. eapply Game_step_kept; eauto. rewrite E. reflexivity.
    + intros [= <-] I. eapply Game_step_kept; eauto. rewrite E. reflexivity.
Qed.

Lemma scores_Fountain_added_to_game (W : World) (fuel i : nat)
    (g g' : Game.t) :
  Fountain_added_to_game W fuel i g = Ok g' -> scores g' = scores g.
Proof.
  revert g. induction fuel as [|n IH]; intros g;
    cbn [Fountain_added_to_game];
    destruct (lookup_obj i (Game.objects g)) as [self|];
    try (intros [= <-]; reflexivity);
    destruct (_ <? _)%nat; try (intros [= <-]; reflexivity);
    try discriminate.
  destruct (Fountain_spawn_one W 10 i g) as [g1| |] eqn:E; cbn [bind];
    try discriminate.
  intros H. apply IH in H. apply scores_spawn_one in E. congruence.
Qed.

Lemma scores_add_object (W : World) (fuel : nat) (o : GameObject)
    (g g' : Game.t) :
  add_object W fuel o g = Ok g' -> scores g' = scores g.
Proof.
  unfold add_object, added_to_game.
  destruct (cls o); try (intros [= <-]; reflexivity);
    intros H; apply scores_Fountain_added_to_game in H; exact H.
Qed.

Lemma scores_add_objects (W : World) (fuel : nat) (l : list GameObject)
    (g g' : Game.t) :
  add_objects W fuel l g = Ok g' -> scores g' = scores g.
Proof.
  revert g. induction l as [|o l IH]; intros g; cbn [add_objects].
  - intros [= <-]. reflexivity.
  - destruct (add_object W fuel o g) as [g1| |] eqn:E; cbn [bind];
      try discriminate.
    intros H. apply IH in H. apply scores_add_object in E. congruence.
Qed.

Lemma scores_enlist_tank (W : World) (fuel : nat) (t : GameObject)
    (g g' : Game.t) :
  enlist_tank W fuel t g = Ok g' -> scores g' = scores g.
Proof.
  unfold enlist_tank, alloc. intros H. apply scores_add_object in H.
  exact H.
Qed.

Lemma scores_setup_brain_tanks (W : World) (fuel : nat) (tm : Team)
    (spawns : list GameObject) (i : nat) (g g' : Game.t) :
  setup_brain_tanks W fuel tm i spawns g = Ok g' -> scores g' = scores g.
Proof.
  revert i g. induction spawns as [|s rest IH]; intros i g;
    cbn [setup_brain_tanks].
  - intros [= <-]. reflexivity.
  - destruct (Tank_call _ _) as [t| |]; cbn [bind]; try discriminate.
    destruct (enlist_tank W fuel t g) as [g1| |] eqn:E; cbn [bind];
      try discriminate.
    intros H. apply IH in H. apply scores_enlist_tank in E. congruence.
Qed.

Lemma scores_setup_replay_tanks (W : World) (fuel : nat) (tm : Team)
    (spawns : list GameObject) (acts : list (list Action)) (i : nat)
    (g g' : Game.t) :
  setup_replay_tanks W fuel tm i spawns acts g = Ok g' ->
  scores g' = scores g.
Proof.
  revert acts i g. induction spawns as [|s rest IH]; intros acts i g;
    cbn [setup_replay_tanks].
  - intros [= <-]. reflexivity.
  - destruct acts as [|a acts]; [intros [= <-]; reflexivity | ].
    destruct (Tank_call _ _) as [t| |]; cbn [bind]; try discriminate.
    destruct (enlist_tank W fuel t g) as [g1| |] eqn:E; cbn [bind];
      try discriminate.
    intros H. apply IH in H. apply scores_enlist_tank in E. congruence.
Qed.

(** [setup] gives each side half of [max_score]. *)
Lemma Game_setup_scores (W : World) (fuel : nat) (g g' : Game.t) :
  Game_setup W fuel g = Ok g' ->
  scores g' = (max_score (Game.settings g) / 2,
               max_score (Game.settings g) / 2, Game.settings g,
               STATE_READY).
Proof.
  unfold Game_setup.
  destruct (get_objects _ _) as [[[allobjects cps] reds] blues].
  match goal with
  | |- context [add_objects W fuel allobjects ?g0] =>
      assert (S0 : scores g0 =
                   (max_score (Game.settings g) / 2,
                    max_score (Game.settings g) / 2, Game.settings g,
                    Game.state g))
        by (destruct (Game.record g); reflexivity);
      destruct (add_objects W fuel allobjects g0) as [g1| |] eqn:A
  end; cbn [bind]; try discriminate.
  apply scores_add_objects in A. rewrite S0 in A. clear S0.
  match goal with
  | |- context [bind ?m _] => destruct m as [g2| |] eqn:T
  end; cbn [bind]; try discriminate.
  intros [= <-].
  assert (E : scores g2 = scores g1).
  { cbn [Game.record Game.replay Game.set_controlpoints] in T.
    destruct (Game.record g1), (Game.replay g1) as [r|];
      repeat match type of T with
             | bind ?m _ = _ => destruct m eqn:?; cbn [bind] in T;
                                try discriminate
             end;
      repeat match goal with
             | H : setup_brain_tanks _ _ _ _ _ _ = Ok _ |- _ =>
                 apply scores_setup_brain_tanks in H
             | H : setup_replay_tanks _ _ _ _ _ _ _ = Ok _ |- _ =>
                 apply scores_setup_replay_tanks in H
             end;
      unfold scores in *; simpl in *; congruence. }
  rewrite A in E. injection E as R B S _.
  unfold scores. cbn. now rewrite R, B, S.
Qed.

Lemma finalize_all_state (W : World) (b : bool) (ids : list nat)
    (g g' : Game.t) :
  run_state (finalize_all W b ids g) = Some g' -> g' = g.
Proof.
  induction ids as [|i ids IH]; simpl.
  - intros [= <-]. reflexivity.
  - destruct (lookup_obj i (Game.objects g)) as [tank|]; auto.
    destruct (brain tank) as [br|]; [ | intros [= <-]; reflexivity].
    destruct (finalize W br b); auto. intros [= <-]. reflexivity.
Qed.

(** [end] with a sum of scores that is not zero: the state is [ENDED], the
    scores are copied to the statistics and normalised. *)
Lemma Game_end_stats (W : World) (b : bool) (g g' : Game.t) :
  Game.score_red g + Game.score_blue g <> 0 ->
  run_state (Game_end W b g) = Some g' ->
  Game.score_red g' = Game.score_red g
  /\ Game.score_blue g' = Game.score_blue g
  /\ Game.settings g' = Game.settings g
  /\ Game.state g' = STATE_ENDED
  /\ GameStats.score_red (Game.stats g') = Game.score_red g
  /\ GameStats.score_blue (Game.stats g') = Game.score_blue g
  /\ GameStats.score (Game.stats g') =
     (inject_Z (Game.score_red g)
      / inject_Z (Game.score_red g + Game.score_blue g))%Q
  /\ GameStats.steps (Game.stats g') = Game.step g.
Proof.
  intros NZ. unfold Game_end.
  set (g0 := if b then _ else g).
  assert (E0 : scores g0 = scores g /\ Game.step g0 = Game.step g)
    by (subst g0; destruct b; split; reflexivity).
  destruct E0 as [E0 E1]. injection E0 as ER EB ES _.
  cbn [Game.score_red Game.score_blue Game.set_state Game.set_stats].
  rewrite ER, EB.
  destruct (Z.eqb_spec (Game.score_red g + Game.score_blue g) 0);
    [contradiction | ].
  unfold Game_log.
  destruct (Game.verbose _), (Game.record _) eqn:R, (Game.replay _) eqn:P;
    cbn -[Qdiv] in *; try rewrite R; try rewrite P; cbn -[Qdiv];
    intros H;
    try (apply finalize_all_state in H; subst g');
    try (injection H as <-);
    cbn -[Qdiv]; rewrite ?ER, ?EB, ?ES, ?E1;
    repeat split; reflexivity.
Qed.

(** [end] never changes the scores or the settings, and it always sets the
    state [ENDED], also when the division fails. *)
Lemma Game_end_scores (W : World) (b : bool) (g g' : Game.t) :
  run_state (Game_end W b g) = Some g' ->
  Game.score_red g' = Game.score_red g
  /\ Game.score_blue g' = Game.score_blue g
  /\ Game.settings g' = Game.settings g
  /\ Game.state g' = STATE_ENDED.
Proof.
  destruct (Z.eq_dec (Game.score_red g + Game.score_blue g) 0) as [Z|NZ].
  - unfold Game_end.
    set (g0 := if b then _ else g).
    assert (E0 : scores g0 = scores g) by (subst g0; destruct b; reflexivity).
    injection E0 as ER EB ES _.
    cbn [Game.score_red Game.score_blue Game.set_state Game.set_stats].
    rewrite ER, EB, Z. cbn. intros [= <-]. cbn. auto.
  - intros H.
    destruct (Game_end_stats W b g g' NZ H) as (A & B & C & D & _). auto.
Qed.

Lemma kept_Game_end (W : World) (s : Settings) (b : bool) (g g' : Game.t) :
  run_state (Game_end W b g) = Some g' -> kept s g -> kept s g'.
Proof.
  intros H [S I]. apply Game_end_scores in H.
  destruct H as (R & B & E & _). unfold kept, score_inv in *.
  rewrite R, B, E. auto.
Qed.

Lemma half_score_inv (m : Z) :
  m mod 2 = 0 ->
  m / 2 + m / 2 = m /\ Z.min 0 m <= m / 2 <= Z.max 0 m.
Proof. intros H. Z.div_mod_to_equations. lia. Qed.

Lemma Game_setup_kept (W : World) (fuel : nat) (g g1 : Game.t) :
  max_score (Game.settings g) mod 2 = 0 ->
  Game_setup W fuel g = Ok g1 -> kept (Game.settings g) g1.
Proof.
  intros E H. apply Game_setup_scores in H.
  injection H as R B S _. unfold kept, score_inv. rewrite R, B, S.
  split; [reflexivity | ]. now apply half_score_inv.
Qed.

Lemma kept_set_state (s : Settings) (st : GameState) (g : Game.t) :
  kept s g -> kept s (Game.set_state st g).
Proof. intros H. exact H. Qed.

Lemma update_object_state (W : World) (i : nat) (g g' : Game.t) :
  update_object W i g = Ok g' -> Game.state g' = Game.state g.
Proof.
  unfold update_object.
  destruct (lookup_obj i (Game.objects g)) as [self|];
    [ | intros [= <-]; reflexivity].
  destruct (cls self); try (intros [= <-]; reflexivity);
    try (intros O; apply scores_Fountain_update in O; now injection O).
  unfold ControlPoint_update.
  repeat match goal with
         | |- context [if ?b then _ else _] => destruct b
         end; intros [= <-]; reflexivity.
Qed.

Lemma update_all_state (W : World) (ids : list nat) (g g' : Game.t) :
  update_all W ids g = Ok g' -> Game.state g' = Game.state g.
Proof.
  revert g. induction ids as [|i ids IH]; intros g; cbn [update_all].
  - intros [= <-]. reflexivity.
  - destruct (update_object W i g) as [g1| |] eqn:O; cbn [bind];
      try discriminate.
    intros H. apply IH in H. apply update_object_state in O. congruence.
Qed.

(** The steps of the loop leave the state of the game alone. *)
Lemma Game_step_state (W : World) (s : Z) (g g' : Game.t) :
  outcome_state (Game_step W s g) = Some g' ->
  Game.state g' = Game.state g.
Proof.
  unfold Game_step.
  change (Game.state g) with (Game.state (Game.set_step (s + 1) g)).
  generalize (Game.set_step (s + 1) g). clear g. intros g.
  destruct (interrupt W (Game.step g) 0); [intros [= <-]; reflexivity | ].
  destruct (update_all W (map oid (Game.objects g)) g) as [g1| |] eqn:U;
    cbn [of_result]; try (intros [= <-]; reflexivity); try discriminate.
  apply update_all_state in U. rewrite <- U. clear U g.
  pose proof (scores_sense_think_act W g1) as E. injection E as _ _ _ E.
  rewrite <- E. generalize (sense_think_act W g1). clear. intros g.
  destruct (interrupt W (Game.step g) 1); [intros [= <-]; reflexivity | ].
  destruct (score_over g); [intros [= <-]; reflexivity | ].
  destruct (crumbs_over W g) as [[|]| |]; cbn [outcome_state];
    try (intros [= <-]; reflexivity); try discriminate.
  intros H. apply scores_simulate in H. now injection H.
Qed.

Lemma Game_loop_state (W : World) (n : nat) (s : Z) (g g' : Game.t) :
  outcome_state (Game_loop W n s g) = Some g' ->
  Game.state g' = Game.state g.
Proof.
  revert s g. induction n as [|n IH]; intros s g; simpl.
  - intros [= <-]. auto.
  - destruct (Game_step W s g) as [g1|g1|e g1|] eqn:E;
      cbn [outcome_state]; try discriminate;
      pose proof (Game_step_state W s g g1) as S; rewrite E in S;
      specialize (S eq_refl).
    + intros H. apply IH in H. congruence.
    + intros [= <-]. exact S.
    + intros [= <-]. exact S.
Qed.

(** ** The run of a match *)

(** Whatever [run] ends with, once [setup] is through the final state
    satisfies the invariant. *)
Lemma Game_run_kept (W : World) (fuel : nat) (g g1 g' : Game.t) :
  max_score (Game.settings g) mod 2 = 0 ->
  Game.state g <> STATE_READY ->
  Game_setup W fuel g = Ok g1 ->
  run_state (Game_run W fuel g) = Some g' ->
  kept (Game.settings g) g'.
Proof.
  intros E NR S. unfold Game_run.
  destruct (GameState_eqb (Game.state g) STATE_READY) eqn:Q.
  { destruct (Game.state g); simpl in Q; congruence. }
  rewrite S. apply (Game_setup_kept W fuel g g1 E) in S.
  apply (kept_set_state _ STATE_RUNNING) in S.
  destruct (Game_loop W _ 0 _) as [g2|g2|e g2|] eqn:L;
    try discriminate;
    pose proof (Game_loop_kept W (Game.settings g) _ _ _ g2
                  ltac:(rewrite L; reflexivity) S) as K.
  - intros H. eapply kept_Game_end; eauto.
  - intros H. eapply kept_Game_end; eauto.
  - destruct (is_interrupt e).
    + intros H. eapply kept_Game_end; eauto.
    + intros [= <-]. exact K.
Qed.

(** A run of a new game that leaves the game in the state [ENDED] went
    through [end], and [end] started from a state that satisfies the
    invariant. *)
Lemma Game_run_reaches_end (W : World) (fuel : nat) (g g' : Game.t) :
  max_score (Game.settings g) mod 2 = 0 ->
  Game.state g = STATE_NEW ->
  run_state (Game_run W fuel g) = Some g' ->
  Game.state g' = STATE_ENDED ->
  exists b g2, kept (Game.settings g) g2
               /\ run_state (Game_end W b g2) = Some g'.
Proof.
  intros E N. unfold Game_run. rewrite N. cbn [GameState_eqb].
  destruct (Game_setup W fuel g) as [g1| |] eqn:S; try discriminate.
  2:{ intros [= <-] H. congruence. }
  pose proof (Game_setup_kept W fuel g g1 E S) as K.
  apply (kept_set_state _ STATE_RUNNING) in K.
  destruct (Game_loop W _ 0 _) as [g2|g2|e g2|] eqn:L; try discriminate;
    pose proof (Game_loop_kept W (Game.settings g) _ _ _ g2
                  ltac:(rewrite L; reflexivity) K) as K2;
    pose proof (Game_loop_state W _ _ _ g2
                  ltac:(rewrite L; reflexivity)) as T2.
  - intros H _. exists false, g2. split; auto.
  - intros H _. exists false, g2. split; auto.
  - destruct (is_interrupt e) eqn:I.
    + intros H _. exists true, (Game.set_state STATE_INTERRUPT g2).
      split; auto.
    + intros [= <-] H. simpl in T2. congruence.
Qed.

(** C10. With an even [max_score], [setup] gives each side half of it;
    [ControlPoint.update] leaves the scores or moves one point from one side
    to the other; the other phases of a step do not change the scores; so
    after any number of passes through the loop, and when [run] is over, the
    two scores add up to [max_score]. *)
Theorem score_sum_invariant (W : World) (fuel : nat) (g : Game.t) :
  max_score (Game.settings g) mod 2 = 0 ->
  Game.state g <> STATE_READY ->
  let m := max_score (Game.settings g) in
  (forall g1, Game_setup W fuel g = Ok g1 ->
     Game.score_red g1 = m / 2 /\ Game.score_blue g1 = m / 2
     /\ Game.score_red g1 + Game.score_blue g1 = m)
  /\ (forall cp g0,
        let g1 := snd (ControlPoint_update cp g0) in
        (Game.score_red g1 = Game.score_red g0
         /\ Game.score_blue g1 = Game.score_blue g0)
        \/ (Game.score_red g1 = Game.score_red g0 + 1
            /\ Game.score_blue g1 = Game.score_blue g0 - 1)
        \/ (Game.score_blue g1 = Game.score_blue g0 + 1
            /\ Game.score_red g1 = Game.score_red g0 - 1))
  /\ (forall g0, scores (sense_think_act W g0) = scores g0)
  /\ (forall g0 g1, outcome_state (simulate W g0) = Some g1 ->
        scores g1 = scores g0)
  /\ (forall g1 n g2,
        Game_setup W fuel g = Ok g1 ->
        outcome_state (Game_loop W n 0 (Game.set_state STATE_RUNNING g1))
        = Some g2 ->
        Game.score_red g2 + Game.score_blue g2 = m)
  /\ (forall g1 g',
        Game_setup W fuel g = Ok g1 ->
        run_state (Game_run W fuel g) = Some g' ->
        Game.score_red g' + Game.score_blue g' = m).
Proof.
  intros E NR m. subst m.
  split; [ | split; [ | split; [ | split; [ | split]]]].
  - intros g1 S. apply Game_setup_scores in S. injection S as R B _ _.
    rewrite R, B. pose proof (half_score_inv _ E). tauto.
  - intros cp g0 g1. subst g1.
    pose proof (ControlPoint_update_scores cp g0) as H. cbv zeta in H.
    tauto.
  - apply scores_sense_think_act.
  - apply scores_simulate.
  - intros g1 n g2 S L.
    pose proof (Game_setup_kept W fuel g g1 E S) as K.
    apply (kept_set_state _ STATE_RUNNING) in K.
    destruct (Game_loop_kept W _ _ _ _ _ L K) as [S2 [I _]].
    rewrite <- S2. exact I.
  - intros g1 g' S R.
    destruct (Game_run_kept W fuel g g1 g' E NR S R) as [S2 [I _]].
    rewrite <- S2. exact I.
Qed.

Lemma ratio_bounds (r m : Z) :
  m <> 0 -> Z.min 0 m <= r <= Z.max 0 m ->
  (0 <= inject_Z r / inject_Z m <= 1)%Q.
Proof.
  intros NZ B.
  destruct (Z.lt_total m 0) as [L|[L|L]]; [ | contradiction | ].
  - assert (E : (inject_Z r / inject_Z m
                 == inject_Z (- r) / inject_Z (- m))%Q).
    { rewrite !inject_Z_opp. field. intros H.
      revert H. unfold Qeq. simpl. lia. }
    rewrite E.
    assert (P : (0 < inject_Z (- m))%Q) by (unfold Qlt; simpl; lia).
    split.
    + apply Qle_shift_div_l; [exact P | ].
      unfold Qle; simpl; lia.
    + apply Qle_shift_div_r; [exact P | ].
      unfold Qle; simpl; lia.
  - assert (P : (0 < inject_Z m)%Q) by (unfold Qlt; simpl; lia).
    split.
    + apply Qle_shift_div_l; [exact P | ].
      unfold Qle; simpl; lia.
    + apply Qle_shift_div_r; [exact P | ].
      unfold Qle; simpl; lia.
Qed.

Lemma score_sum_invariant_witness :
  let g' := final_state (Game_run still_world 1 corridor_game)
              corridor_game in
  Game.score_red g' + Game.score_blue g'
  = max_score (Game.settings corridor_game).
Proof.
  pose proof (score_sum_invariant still_world 1 corridor_game) as H.
  cbv zeta in H.
  assert (E : max_score (Game.settings corridor_game) mod 2 = 0)
    by reflexivity.
  assert (N : Game.state corridor_game <> STATE_READY) by discriminate.
  destruct (H E N) as (_ & _ & _ & _ & _ & R).
  apply (R (returned (Game_setup still_world 1 corridor_game)
              corridor_game)).
  - vm_compute. reflexivity.
  - vm_compute. reflexivity.
Defined.

(** C5, with the condition it needs.  For a new game with an even
    [max_score] other than 0, every run that reaches [end] (the loop ran
    out of steps, an end condition stopped it, or an interrupt was caught)
    leaves the scores in the statistics, with [score] equal to
    [score_red / (score_red + score_blue)], a number between 0 and 1. *)
Theorem final_score_normalised (W : World) (fuel : nat) (g g' : Game.t) :
  max_score (Game.settings g) mod 2 = 0 ->
  max_score (Game.settings g) <> 0 ->
  Game.state g = STATE_NEW ->
  run_state (Game_run W fuel g) = Some g' ->
  Game.state g' = STATE_ENDED ->
  let st := Game.stats g' in
  GameStats.score_red st = Game.score_red g'
  /\ GameStats.score_blue st = Game.score_blue g'
  /\ GameStats.score st =
     (inject_Z (GameStats.score_red st)
      / inject_Z (GameStats.score_red st + GameStats.score_blue st))%Q
  /\ (0 <= GameStats.score st <= 1)%Q.
Proof.
  intros E NZ N R T st. subst st.
  destruct (Game_run_reaches_end W fuel g g' E N R T)
    as (b & g2 & [S [Sum Bnd]] & H).
  rewrite S in Sum, Bnd.
  assert (NZ2 : Game.score_red g2 + Game.score_blue g2 <> 0) by lia.
  destruct (Game_end_stats W b g2 g' NZ2 H)
    as (R1 & B1 & _ & _ & R2 & B2 & Sc & _).
  rewrite R2, B2, R1, B1, Sc, Sum.
  repeat split; try reflexivity; apply ratio_bounds; auto.
Qed.

Lemma final_score_normalised_witness :
  let g' := final_state (Game_run still_world 1 corridor_game)
              corridor_game in
  let st := Game.stats g' in
  GameStats.score_red st = Game.score_red g'
  /\ GameStats.score_blue st = Game.score_blue g'
  /\ GameStats.score st =
     (inject_Z (GameStats.score_red st)
      / inject_Z (GameStats.score_red st + GameStats.score_blue st))%Q
  /\ (0 <= GameStats.score st <= 1)%Q.
Proof.
  apply (final_score_normalised still_world 1 corridor_game).
  - reflexivity.
  - discriminate.
  - reflexivity.
  - vm_compute. reflexivity.
  - vm_compute. reflexivity.
Defined.

(** C5 as it is stated fails for [max_score = 0], a value the validation
    of [Settings] accepts: both scores are 0, the score condition stops the
    loop in the first step, and [end] fails with a division by zero after
    it has set the state [ENDED]; [stats.score] keeps its initial value. *)
Lemma zero_max_score_not_finalised :
  Settings_init (Game.settings zero_score_game)
  = Ok (Game.settings zero_score_game)
  /\ exists g',
       Game_run still_world 1 zero_score_game
       = Uncaught ZeroDivisionError g'
       /\ Game.state g' = STATE_ENDED
       /\ Game.step g' = 1
       /\ Game.score_red g' = 0 /\ Game.score_blue g' = 0
       /\ GameStats.score (Game.stats g') = 0%Q.
Proof.
  split; [reflexivity | ].
  eexists. split; [vm_compute; reflexivity | ].
  repeat split.
Qed.

(** ** The crumbs end condition *)

Lemma update_object_settings (W : World) (i : nat) (g g' : Game.t) :
  update_object W i g = Ok g' -> Game.settings g' = Game.settings g.
Proof.
  unfold update_object.
  destruct (lookup_obj i (Game.objects g)) as [self|];
    [ | intros [= <-]; reflexivity].
  destruct (cls self); try (intros [= <-]; reflexivity);
    try (intros O; apply scores_Fountain_update in O; now injection O).
  unfold ControlPoint_update.
  repeat match goal with
         | |- context [if ?b then _ else _] => destruct b
         end; intros [= <-]; reflexivity.
Qed.

Lemma update_all_settings (W : World) (ids : list nat) (g g' : Game.t) :
  update_all W ids g = Ok g' -> Game.settings g' = Game.settings g.
Proof.
  revert g. induction ids as [|i ids IH]; intros g; cbn [update_all].
  - intros [= <-]. reflexivity.
  - destruct (update_object W i g) as [g1| |] eqn:O; cbn [bind];
      try discriminate.
    intros H. apply IH in H. apply update_object_settings in O. congruence.
Qed.

(** When the crumbs flag is set and the module has no global [allobjects],
    a pass through the loop never reaches the simulation: it is interrupted,
    stopped by the score condition, or left by an exception. *)
Lemma crumbs_flag_never_passes (W : World) (s : Z) (g : Game.t) :
  global_allobjects W = None ->
  Z.land (end_condition (Game.settings g)) ENDGAME_CRUMBS <> 0 ->
  match Game_step W s g with
  | Next _ => False
  | Stop g' => score_over g' = true
  | Abort _ _ | NoOutcome => True
  end.
Proof.
  intros G F. unfold Game_step.
  destruct (interrupt W _ 0); [exact I | ].
  destruct (update_all W _ _) as [g1| |] eqn:U; cbn [of_result];
    try exact I.
  apply update_all_settings in U. cbn [Game.settings Game.set_step] in U.
  pose proof (scores_sense_think_act W g1) as E. injection E as _ _ E _.
  destruct (interrupt W _ 1); [exact I | ].
  destruct (score_over (sense_think_act W g1)) eqn:SO; [exact SO | ].
  unfold crumbs_over, crumbs_left. rewrite E, U, G.
  destruct (Z.eqb_spec (Z.land (end_condition (Game.settings g))
                          ENDGAME_CRUMBS) 0); [contradiction | ].
  exact I.
Qed.

(** Whatever the global [allobjects] is bound to, the test does not look at
    the objects of the game: two games with the same settings get the same
    answer. *)
Lemma crumbs_over_ignores_objects (W : World) (g1 g2 : Game.t) :
  Game.settings g1 = Game.settings g2 ->
  crumbs_over W g1 = crumbs_over W g2.
Proof. unfold crumbs_over. intros ->. reflexivity. Qed.

(** C3 (the code departs from it).  The crumbs flag is the only end
    condition of [crumbs_game], and the game holds no crumb at all, so the
    claim asks the loop to stop in the first step and the game to be
    finalised.  The test reads the name [allobjects], which [run] does not
    bind: the first step raises [NameError], no handler of [run] catches
    it, and [end] is not called: the state is still [RUNNING] and the
    statistics are untouched. *)
Theorem crumbs_condition_raises :
  Z.land (end_condition (Game.settings crumbs_game)) ENDGAME_CRUMBS
  = ENDGAME_CRUMBS
  /\ exists g',
       Game_run still_world 1 crumbs_game
       = Uncaught (NameError "allobjects") g'
       /\ existsb is_crumb (Game.objects g') = false
       /\ Game.step g' = 1
       /\ Game.state g' = STATE_RUNNING
       /\ Game.stats g' = GameStats_init.
Proof.
  split; [reflexivity | ].
  eexists. split; [vm_compute; reflexivity | ].
  repeat split.
Qed.

(** ** The delegates of the tanks *)

(** The delegate [setup] builds for the blue tank at spawn [i]. *)
Lemma new_brain_blue_cases (g : Game.t) (i : nat) :
  new_brain_blue g i =
  if field_known (Game.settings g)
  then mkBrain blue_brain_class i TEAM_BLUE (Game.settings g) true blue_init
  else mkBrain red_brain_class i TEAM_RED (Game.settings g) false red_init.
Proof. reflexivity. Qed.

Lemma new_brain_red_cases (g : Game.t) (i : nat) :
  brain_class (new_brain_red g i) = red_brain_class
  /\ brain_id (new_brain_red g i) = i
  /\ brain_team (new_brain_red g i) = TEAM_RED
  /\ brain_field (new_brain_red g i) = field_known (Game.settings g).
Proof.
  unfold new_brain_red. destruct (field_known (Game.settings g));
    repeat split.
Qed.

(** C4 (the code departs from it).  With [field_known] off, [setup] on the
    corridor builds the delegate of the blue tank from the red brain class,
    with the red team id and the red extra arguments; only the agent index
    is the tank's own. *)
Theorem blue_delegate_field_unknown :
  field_known (Game.settings field_unknown_game) = false
  /\ exists g1,
       Game_setup still_world 1 field_unknown_game = Ok g1
       /\ delegates g1 =
          [(TEAM_RED,
            Some (mkBrain red_brain_class 0 TEAM_RED
                    (Game.settings field_unknown_game) false red_init));
           (TEAM_BLUE,
            Some (mkBrain red_brain_class 0 TEAM_RED
                    (Game.settings field_unknown_game) false red_init))].
Proof.
  split; [reflexivity | ].
  eexists. split; [vm_compute; reflexivity | ].
  vm_compute. reflexivity.
Qed.

(** ** Replays *)

(** The call that builds a replayed tank: five positional arguments fill
    [x], [y], [angle], [id] and [team], and the keyword [team] then names a
    parameter that already has a value. *)
Lemma replay_Tank_call_raises (v1 v2 v3 v4 v5 tm sp ac : PyVal) :
  Tank_call [v1; v2; v3; v4; v5]
    [("team", tm); ("spawn", sp); ("actions", ac)]%string
  = Raise (TypeError "got multiple values for keyword argument").
Proof. reflexivity. Qed.

(** The call of the branch with delegates binds its arguments. *)
Lemma brain_Tank_call_returns (px py pa : Q) (i : nat) (tm : Team)
    (b : Brain) (sp : Spawn) (rc : bool) :
  Tank_call [VFloat px; VFloat py; VFloat pa; VInt (Z.of_nat i)]
    [("team", VTeam tm); ("brain", VBrain b); ("spawn", VSpawn sp);
     ("record", VBool rc)]%string
  = Ok (Tank_init px py pa i tm (Some b) (Some sp) None rc).
Proof. unfold Tank_call. simpl. rewrite Nat2Z.id. reflexivity. Qed.

(** As soon as a spawn point and an action list are paired, the loop that
    builds the replayed tanks raises. *)
Lemma setup_replay_tanks_raises (W : World) (fuel : nat) (tm : Team)
    (i : nat) (s : GameObject) (rest : list GameObject) (a : list Action)
    (acts : list (list Action)) (g : Game.t) :
  setup_replay_tanks W fuel tm i (s :: rest) (a :: acts) g
  = Raise (TypeError "got multiple values for keyword argument").
Proof. reflexivity. Qed.

(** Adding the objects of the field does not touch the recording flag or
    the replay bundle. *)
Lemma recording_spawn_one (W : World) (attempts i : nat) (g g' : Game.t) :
  Fountain_spawn_one W attempts i g = Ok g' -> recording g' = recording g.
Proof.
  revert g. induction attempts as [|n IH]; intros g;
    cbn [Fountain_spawn_one].
  - intros [= <-]. reflexivity.
  - destruct (lookup_obj i (Game.objects g)) as [self|];
      [ | intros [= <-]; reflexivity].
    assert (S : recording
                  (snd (SPREAD W self (x self + width self / 2)%Q
                          (y self + height self / 2)%Q g))
                = recording g)
      by (unfold SPREAD; now destruct (cls self)).
    destruct (SPREAD W self _ _ g) as [[px py] g1]. cbn [snd] in S.
    unfold alloc.
    split_tests; try discriminate; intros H;
      try (injection H as <-; rewrite <- S; reflexivity);
      try (apply IH in H; rewrite H; exact S).
Qed.

Lemma recording_add_object (W : World) (fuel : nat) (o : GameObject)
    (g g' : Game.t) :
  add_object W fuel o g = Ok g' -> recording g' = recording g.
Proof.
  assert (F : forall n i g0 g1,
             Fountain_added_to_game W n i g0 = Ok g1 ->
             recording g1 = recording g0).
  { induction n as [|n IH]; intros i g0 g1;
      cbn [Fountain_added_to_game];
      destruct (lookup_obj i (Game.objects g0)) as [self|];
      try (intros [= <-]; reflexivity);
      destruct (_ <? _)%nat; try (intros [= <-]; reflexivity);
      try discriminate.
    destruct (Fountain_spawn_one W 10 i g0) as [g2| |] eqn:E; cbn [bind];
      try discriminate.
    intros H. apply IH in H. apply recording_spawn_one in E. congruence. }
  unfold add_object, added_to_game.
  destruct (cls o); try (intros [= <-]; reflexivity);
    intros H; apply F in H; exact H.
Qed.

Lemma recording_add_objects (W : World) (fuel : nat) (l : list GameObject)
    (g g' : Game.t) :
  add_objects W fuel l g = Ok g' -> recording g' = recording g.
Proof.
  revert g. induction l as [|o l IH]; intros g; cbn [add_objects].
  - intros [= <-]. reflexivity.
  - destruct (add_object W fuel o g) as [g1| |] eqn:E; cbn [bind];
      try discriminate.
    intros H. apply IH in H. apply recording_add_object in E. congruence.
Qed.

Lemma assign_oids_cons (n : nat) (l : list GameObject) :
  l <> [] -> exists o l', assign_oids n l = o :: l'.
Proof. destruct l; [congruence | ]. simpl. eauto. Qed.

(** A game built from a replay bundle never gets through [setup] when the
    field has a red spawn and the bundle has the actions of a red tank: the
    first replayed tank cannot be built. *)
Lemma replay_setup_never_returns (W : World) (fuel : nat) (g g' : Game.t)
    (r : ReplayData.t) :
  Game.record g = false ->
  Game.replay g = Some r ->
  Field.spawns_red (Game.field g) <> [] ->
  ReplayData.actions_red r <> [] ->
  Game_setup W fuel g <> Ok g'.
Proof.
  intros Rec Rep Spawns Acts. unfold Game_setup. rewrite Rec.
  unfold get_objects.
  match goal with
  | |- context [assign_oids ?n (map ?f (Field.spawns_red (Game.field g)))] =>
      destruct (assign_oids_cons n
                  (map f (Field.spawns_red (Game.field g))))
        as (s & rest & E);
      [destruct (Field.spawns_red (Game.field g));
         [congruence | discriminate] | rewrite E]
  end.
  match goal with
  | |- context [add_objects W fuel ?l ?g0] =>
      destruct (add_objects W fuel l g0) as [g1| |] eqn:A
  end; cbn [bind]; try discriminate.
  apply recording_add_objects in A. injection A as A1 A2.
  cbn [Game.record Game.replay Game.set_controlpoints Game.set_tanks
       Game.set_agent_raised_exception Game.set_stats Game.set_objects
       Game.set_step Game.set_score_blue Game.set_score_red
       Game.set_next_oid] in *.
  rewrite A1, A2, Rec, Rep.
  destruct (ReplayData.actions_red r) as [|a acts]; [congruence | ].
  cbn. discriminate.
Qed.

(** C1 (the code departs from it).  A match of three steps is recorded on
    the corridor and runs to completion; its bundle holds the settings, the
    field and three actions for each of the two tanks.  The game built from
    that bundle does not run: [setup] raises [TypeError] at the first
    replayed tank, so no step is replayed and no score is produced. *)
Theorem replay_of_recorded_match_raises :
  exists g1 r g2,
    Game_run still_world 1 recorded_game = Returned g1
    /\ Game.state g1 = STATE_ENDED
    /\ Game.replay g1 = Some r
    /\ ReplayData.actions_red r = [[NOOP; NOOP; NOOP]]
    /\ ReplayData.actions_blue r = [[NOOP; NOOP; NOOP]]
    /\ replay_of g1 = Ok g2
    /\ Game_run still_world 1 g2
       = Uncaught (TypeError "got multiple values for keyword argument") g2
    /\ Game.state g2 = STATE_NEW
    /\ Game.step g2 = 0.
Proof.
  eexists. eexists. eexists.
  split; [vm_compute; reflexivity | ].
  split; [reflexivity | ].
  split; [reflexivity | ].
  split; [reflexivity | ].
  split; [reflexivity | ].
  split; [vm_compute; reflexivity | ].
  split; [vm_compute; reflexivity | ].
  split; reflexivity.
Qed.

(** ** Paths on a grid *)

Lemma neighbours_sym (p q : Z * Z) :
  In q (neighbours p) -> In p (neighbours q).
Proof.
  destruct p as [px py], q as [qx qy]. simpl.
  intros [H|[H|[H|[H|[]]]]]; injection H as <- <-;
    [right; left | left | do 3 right; left | do 2 right; left];
    f_equal; lia.
Qed.

Lemma path_free_l (g : Grid) (p q : Z * Z) :
  path g p q -> is_free g p = true.
Proof. induction 1; auto. Qed.

Lemma path_free_r (g : Grid) (p q : Z * Z) :
  path g p q -> is_free g q = true.
Proof. induction 1; auto. Qed.

Lemma path_trans (g : Grid) (p q r : Z * Z) :
  path g p q -> path g q r -> path g p r.
Proof.
  intros H1 H2. revert H1. induction H2; intros; eauto using path_step.
Qed.

Lemma path_cons (g : Grid) (p q r : Z * Z) :
  is_free g p = true -> In q (neighbours p) -> path g q r -> path g p r.
Proof.
  intros F N H. induction H.
  - eapply path_step; eauto. now apply path_here.
  - eapply path_step; eauto.
Qed.

Lemma path_sym (g : Grid) (p q : Z * Z) : path g p q -> path g q p.
Proof.
  induction 1.
  - now apply path_here.
  - eapply path_cons; eauto. now apply neighbours_sym.
Qed.

(** What the flood fill reaches stays reachable, by a path, in a grid with
    more free tiles in which the start is free as well. *)
Lemma reach_from_path (g g' : Grid) (s q : Z * Z) :
  (forall p, is_free g p = true -> is_free g' p = true) ->
  is_free g' s = true ->
  reach_from g s q -> path g' s q.
Proof.
  intros M F H. induction H.
  - now apply path_here.
  - eapply path_step; eauto.
Qed.

Lemma path_mono (g g' : Grid) (p q : Z * Z) :
  (forall t, is_free g t = true -> is_free g' t = true) ->
  path g p q -> path g' p q.
Proof.
  intros M H. induction H.
  - apply path_here. auto.
  - eapply path_step; eauto.
Qed.

(** In a rectangle of free tiles every tile is reachable from every
    other. *)
Section FreeRectangle.

Variable g : Grid.
Variables x0 x1 y0 y1 : Z.
Hypothesis rect_free :
  forall px py, x0 <= px <= x1 -> y0 <= py <= y1 ->
                is_free g (px, py) = true.

Lemma path_right (px py : Z) (n : nat) :
  x0 <= px -> px + Z.of_nat n <= x1 -> y0 <= py <= y1 ->
  path g (px, py) (px + Z.of_nat n, py).
Proof.
  intros Hx Hn Hy. induction n as [|n IH].
  - replace (px + Z.of_nat 0) with px by lia.
    apply path_here. apply rect_free; lia.
  - eapply path_step.
    + apply IH. lia.
    + simpl. left. f_equal. lia.
    + apply rect_free; lia.
Qed.

Lemma path_down (px py : Z) (n : nat) :
  x0 <= px <= x1 -> y0 <= py -> py + Z.of_nat n <= y1 ->
  path g (px, py) (px, py + Z.of_nat n).
Proof.
  intros Hx Hy Hn. induction n as [|n IH].
  - replace (py + Z.of_nat 0) with py by lia.
    apply path_here. apply rect_free; lia.
  - eapply path_step.
    + apply IH. lia.
    + simpl. do 2 right. left. f_equal. lia.
    + apply rect_free; lia.
Qed.

Lemma path_row (px qx py : Z) :
  x0 <= px <= x1 -> x0 <= qx <= x1 -> y0 <= py <= y1 ->
  path g (px, py) (qx, py).
Proof.
  intros Hp Hq Hy. destruct (Z.le_gt_cases px qx).
  - replace qx with (px + Z.of_nat (Z.to_nat (qx - px))) by lia.
    apply path_right; lia.
  - apply path_sym.
    assert (E : px = qx + Z.of_nat (Z.to_nat (px - qx))) by lia.
    rewrite E. apply path_right; lia.
Qed.

Lemma path_column (px py qy : Z) :
  x0 <= px <= x1 -> y0 <= py <= y1 -> y0 <= qy <= y1 ->
  path g (px, py) (px, qy).
Proof.
  intros Hx Hp Hq. destruct (Z.le_gt_cases py qy).
  - replace qy with (py + Z.of_nat (Z.to_nat (qy - py))) by lia.
    apply path_down; lia.
  - apply path_sym.
    assert (E : py = qy + Z.of_nat (Z.to_nat (py - qy))) by lia.
    rewrite E. apply path_down; lia.
Qed.

Lemma path_in_rectangle (p q : Z * Z) :
  x0 <= fst p <= x1 -> y0 <= snd p <= y1 ->
  x0 <= fst q <= x1 -> y0 <= snd q <= y1 ->
  path g p q.
Proof.
  destruct p as [px py], q as [qx qy]. simpl. intros.
  apply path_trans with (qx, py).
  - apply path_row; lia.
  - apply path_column; lia.
Qed.

End FreeRectangle.

(** ** The flood fill is sound *)

Lemma cell_replicate_zero (h w : nat) (p : Z * Z) (v : Z) :
  cell (replicate h (replicate w 0)) p = Some v -> v = 0.
Proof.
  destruct p as [px py]. unfold cell. cbv beta iota.
  destruct ((0 <=? px) && (0 <=? py)); [ | discriminate].
  destruct (replicate h (replicate w 0) !! Z.to_nat py) as [row|] eqn:R;
    [ | discriminate].
  apply lookup_replicate in R. destruct R as [-> _].
  intros H. apply lookup_replicate in H. now destruct H.
Qed.

Lemma is_marked_blank (h w : nat) (p : Z * Z) :
  is_marked (replicate h (replicate w 0)) p = false.
Proof.
  unfold is_marked.
  destruct (cell _ p) as [v|] eqn:C; [ | reflexivity].
  apply cell_replicate_zero in C. now subst.
Qed.

(** Marking a tile marks no other tile. *)
Lemma is_marked_mark (reach : Grid) (p q : Z * Z) :
  is_marked (mark reach p) q = true -> q = p \/ is_marked reach q = true.
Proof.
  destruct p as [px py], q as [qx qy]. unfold mark. cbv beta iota.
  destruct ((0 <=? px) && (0 <=? py)) eqn:B; [ | auto].
  apply andb_true_iff in B. destruct B as [Bx By].
  apply Z.leb_le in Bx, By.
  destruct (reach !! Z.to_nat py) as [row|] eqn:R; [ | auto].
  unfold is_marked, cell. cbv beta iota.
  destruct ((0 <=? qx) && (0 <=? qy)) eqn:C; [ | discriminate].
  apply andb_true_iff in C. destruct C as [Cx Cy].
  apply Z.leb_le in Cx, Cy.
  destruct (decide (Z.to_nat py = Z.to_nat qy)) as [Ey|Ny].
  - rewrite <- Ey. rewrite list_lookup_insert_eq
      by (eapply lookup_lt_Some; eauto).
    rewrite R.
    destruct (decide (Z.to_nat px = Z.to_nat qx)) as [Ex|Nx].
    + intros _. left. f_equal; lia.
    + rewrite list_lookup_insert_ne by assumption. auto.
  - rewrite list_lookup_insert_ne by assumption. auto.
Qed.

Section FloodSound.

Variable tilemap : Grid.
Variable start : Z * Z.

Local Abbreviation R := (reach_from tilemap start).

Local Abbreviation sound reach :=
  (forall q, is_marked reach q = true -> reach_from tilemap start q).

Lemma flood_round_sound (todo : list (Z * Z)) (reach : Grid)
    (next : list (Z * Z)) :
  sound reach ->
  Forall R next ->
  Forall (fun q => exists e, R e /\ In q (neighbours e)) todo ->
  sound (fst (flood_round tilemap todo reach next))
  /\ Forall R (snd (flood_round tilemap todo reach next)).
Proof.
  revert reach next. induction todo as [|q todo IH];
    intros reach next S N T; simpl; [auto | ].
  inversion T as [|? ? (e & He & Hq) T']; subst.
  destruct (is_free tilemap q && negb (is_marked reach q)) eqn:B.
  - apply andb_true_iff in B. destruct B as [F _].
    assert (Rq : R q) by (eapply reach_step; eauto).
    apply IH; auto.
    intros r M. apply is_marked_mark in M. destruct M as [->|M]; auto.
  - apply IH; auto.
Qed.

Lemma flood_sound (rounds : nat) (edge : list (Z * Z)) (reach : Grid) :
  sound reach -> Forall R edge -> sound (flood rounds tilemap edge reach).
Proof.
  revert edge reach. induction rounds as [|n IH]; intros edge reach S E;
    simpl; [exact S | ].
  destruct edge as [|e edge']; [exact S | ].
  assert (T : Forall (fun q => exists e0, R e0 /\ In q (neighbours e0))
                (concat (map neighbours (e :: edge')))).
  { apply Forall_forall. intros q Hq.
    apply list_elem_of_In in Hq. apply in_concat in Hq.
    destruct Hq as (l & Hl & Hq). apply in_map_iff in Hl.
    destruct Hl as (e0 & <- & He0). exists e0. split; auto.
    rewrite Forall_forall in E. apply E. now apply list_elem_of_In. }
  pose proof (flood_round_sound _ reach [] S ltac:(constructor) T)
    as [S' N'].
  destruct (flood_round tilemap _ reach []) as [reach' next].
  apply IH; auto.
Qed.

End FloodSound.

(** Every tile the flood fill marks can be reached from the start. *)
Lemma reachable_sound (tilemap : Grid) (start q : Z * Z) :
  is_marked (reachable tilemap start) q = true ->
  reach_from tilemap start q.
Proof.
  unfold reachable. apply flood_sound.
  - intros r M. apply is_marked_mark in M. destruct M as [->|M].
    + apply reach_start.
    + rewrite is_marked_blank in M. discriminate.
  - repeat constructor.
Qed.

(** ** Reading and writing tiles *)

Lemma py_index_spec {A} (l : list A) (i : Z) (k : nat) :
  py_index l i = Ok k ->
  (k < length l)%nat /\ (0 <= i -> k = Z.to_nat i).
Proof.
  unfold py_index.
  destruct ((0 <=? i) && (i <? Z.of_nat (length l))) eqn:B.
  - apply andb_true_iff in B. destruct B as [B1 B2].
    apply Z.leb_le in B1. apply Z.ltb_lt in B2.
    intros [= <-]. split; [lia | reflexivity].
  - destruct ((- Z.of_nat (length l) <=? i) && (i <? 0)) eqn:C;
      [ | discriminate].
    apply andb_true_iff in C. destruct C as [C1 C2].
    apply Z.leb_le in C1. apply Z.ltb_lt in C2.
    intros [= <-]. split; lia.
Qed.

Lemma py_get_spec {A} (l : list A) (i : Z) (a : A) :
  py_get l i = Ok a ->
  exists k, py_index l i = Ok k /\ l !! k = Some a.
Proof.
  unfold py_get. destruct (py_index l i) as [k| |]; cbn [bind];
    try discriminate.
  destruct (l !! k) as [b|] eqn:L; [ | discriminate].
  intros [= <-]. eauto.
Qed.

Lemma get2_cell (g : Grid) (px py v : Z) :
  0 <= px -> 0 <= py -> get2 g py px = Ok v -> cell g (px, py) = Some v.
Proof.
  intros Hx Hy. unfold get2.
  destruct (py_get g py) as [row| |] eqn:G; cbn [bind]; try discriminate.
  intros H.
  apply py_get_spec in G. destruct G as (ky & Iy & Ly).
  apply py_get_spec in H. destruct H as (kx & Ix & Lx).
  apply py_index_spec in Iy, Ix.
  destruct Iy as [_ Ey], Ix as [_ Ex].
  rewrite Ey in Ly by assumption. rewrite Ex in Lx by assumption.
  unfold cell.
  destruct (Z.leb_spec 0 px), (Z.leb_spec 0 py); try lia. simpl.
  rewrite Ly. exact Lx.
Qed.

(** When the test of [create_wall_map] succeeds, every point is marked. *)
Lemma all_reachable_marked (reach : Grid) (pts : list (Z * Z)) :
  all_reachable reach pts = Ok true ->
  forall p, In p pts -> 0 <= fst p -> 0 <= snd p ->
            is_marked reach p = true.
Proof.
  induction pts as [|[px py] pts IH]; cbn [all_reachable].
  - intros _ p [].
  - destruct (get2 reach py px) as [v| |] eqn:G; cbn [bind];
      try discriminate.
    destruct (Z.eqb_spec v 0) as [|NZ]; [discriminate | ].
    intros H p [<-|Hp] Hx Hy; [ | now apply IH].
    simpl in Hx, Hy. unfold is_marked.
    rewrite (get2_cell _ _ _ _ Hx Hy G).
    now destruct (Z.eqb_spec v 0).
Qed.

(** Writing 0 to a tile frees it and leaves the free tiles free. *)
Lemma set2_zero (g g' : Grid) (i j : Z) :
  set2 g i j 0 = Ok g' ->
  (forall p, is_free g p = true -> is_free g' p = true)
  /\ (0 <= i -> 0 <= j -> is_free g' (j, i) = true).
Proof.
  unfold set2.
  destruct (py_get g i) as [row| |] eqn:G; cbn [bind]; try discriminate.
  apply py_get_spec in G. destruct G as (ki & Ii & Li).
  unfold py_set at 1.
  destruct (py_index row j) as [kj| |] eqn:Ij; cbn [bind]; try discriminate.
  unfold py_set. rewrite Ii. cbn [bind]. intros [= <-].
  apply py_index_spec in Ii, Ij.
  destruct Ii as [Bi Ei], Ij as [Bj Ej].
  assert (C : forall px py,
             0 <= px -> 0 <= py ->
             cell (<[ki := <[kj := 0]> row]> g) (px, py) =
             if decide (Z.to_nat py = ki) then
               if decide (Z.to_nat px = kj) then Some 0
               else cell g (px, py)
             else cell g (px, py)).
  { intros px py Hx Hy. unfold cell.
    destruct (Z.leb_spec 0 px), (Z.leb_spec 0 py); try lia. simpl.
    destruct (decide (Z.to_nat py = ki)) as [->|N].
    - rewrite list_lookup_insert_eq by assumption. rewrite Li.
      destruct (decide (Z.to_nat px = kj)) as [->|M].
      + now rewrite list_lookup_insert_eq.
      + now rewrite list_lookup_insert_ne.
    - now rewrite list_lookup_insert_ne. }
  split.
  - intros [px py] F. unfold is_free in *.
    destruct (cell g (px, py)) as [v|] eqn:Cg; [ | discriminate].
    assert (0 <= px /\ 0 <= py) as [Hx Hy].
    { unfold cell in Cg.
      destruct (Z.leb_spec 0 px), (Z.leb_spec 0 py); simpl in Cg;
        try discriminate; lia. }
    rewrite C by assumption.
    repeat destruct (decide _); rewrite ?Cg; auto.
  - intros Hi Hj. unfold is_free. rewrite C by assumption.
    rewrite decide_True by (symmetry; auto).
    rewrite decide_True by (symmetry; auto).
    reflexivity.
Qed.

Lemma fill_tiles_zero (tiles : list (Z * Z)) (g g' : Grid) :
  fill_tiles tiles 0 g = Ok g' ->
  (forall p, is_free g p = true -> is_free g' p = true)
  /\ (forall i j, In (i, j) tiles -> 0 <= i -> 0 <= j ->
                  is_free g' (j, i) = true).
Proof.
  revert g. induction tiles as [|[i j] tiles IH]; intros g;
    cbn [fill_tiles].
  - intros [= <-]. split; [auto | intros ? ? []].
  - destruct (set2 g i j 0) as [g1| |] eqn:S; cbn [bind];
      try discriminate.
    intros H. apply IH in H. destruct H as [M T].
    apply set2_zero in S. destruct S as [M1 T1].
    split; [auto | ].
    intros i' j' [[= <- <-]|Hin] Hi Hj; auto.
Qed.

(** ** Reflecting the half map *)

(** Column [x] of the transposed matrix holds entry [x] of every row. *)
Lemma transpose_lookup {A} (m : list (list A)) (x : nat) (col : list A) :
  transpose m !! x = Some col ->
  Forall2 (fun r a => r !! x = Some a) m col.
Proof.
  revert col. induction m as [|r m IH]; intros col; cbn [transpose].
  - discriminate.
  - destruct m as [|r' m'].
    + rewrite list_lookup_fmap. destruct (r !! x) as [a|] eqn:E;
        [ | discriminate].
      intros [= <-]. repeat constructor. exact E.
    + intros H. apply lookup_zip_with_Some in H.
      destruct H as (a & col' & -> & Ha & Hc).
      constructor; [exact Ha | ]. apply IH. exact Hc.
Qed.

Lemma transpose_length {A} (m : list (list A)) (n : nat) :
  m <> [] -> Forall (fun r => length r = n) m ->
  length (transpose m) = n.
Proof.
  induction m as [|r m IH]; [congruence | ]. intros _ F.
  inversion F as [|? ? Hr F']; subst. cbn [transpose].
  destruct m as [|r' m'].
  - now rewrite length_fmap.
  - rewrite length_zip_with, IH by (auto; discriminate). lia.
Qed.

Lemma mapR_Forall2 {A B} (f : A -> Result B) (l : list A) (bs : list B) :
  mapR f l = Ok bs -> Forall2 (fun a b => f a = Ok b) l bs.
Proof.
  revert bs. induction l as [|a l IH]; intros bs; cbn [mapR].
  - intros [= <-]. constructor.
  - destruct (f a) as [b| |] eqn:E; cbn [bind]; try discriminate.
    destruct (mapR f l) as [bs'| |]; cbn [bind]; try discriminate.
    intros [= <-]. constructor; auto.
Qed.

(** A tile of the reflected map is the tile of the half map in the
    mirrored column. *)
Lemma reflect_tilemap_cell (tilemap full : Grid) (newsize : Z)
    (px py : Z) (row : list Z) (a : Z) :
  reflect_tilemap tilemap newsize = Ok full ->
  0 <= px < newsize -> 0 <= py ->
  0 <= mirror newsize px ->
  tilemap !! Z.to_nat py = Some row ->
  row !! Z.to_nat (mirror newsize px) = Some a ->
  cell full (px, py) = Some a.
Proof.
  unfold reflect_tilemap. intros H Hx Hy Hm Lr La.
  destruct (mapR _ _) as [nt| |] eqn:M; cbn [bind] in H;
    try discriminate.
  injection H as <-.
  apply mapR_Forall2 in M.
  assert (Hnt : length nt = Z.to_nat newsize).
  { apply Forall2_length in M. rewrite length_seqZ in M. lia. }
  assert (Cols : Forall (fun c => Forall2 (fun r b => exists k,
                            r !! k = Some b) tilemap c) nt).
  { apply Forall_forall. intros c Hc.
    apply list_elem_of_lookup in Hc. destruct Hc as [i Hi].
    destruct (Forall2_lookup_r _ _ _ _ _ M Hi) as (z & _ & G).
    apply py_get_spec in G. destruct G as (k & _ & G).
    apply transpose_lookup in G.
    eapply Forall2_impl; [exact G | ]. simpl. eauto. }
  assert (Len : Forall (fun c => length c = length tilemap) nt).
  { eapply Forall_impl; [exact Cols | ]. simpl. intros c F.
    symmetry. eapply Forall2_length; eauto. }
  assert (NE : nt <> []).
  { intros ->. simpl in Hnt. lia. }
  pose proof (transpose_length nt _ NE Len) as LF.
  assert (Hlt : (Z.to_nat py < length (transpose nt))%nat).
  { rewrite LF. eapply lookup_lt_Some; eauto. }
  apply lookup_lt_is_Some_2 in Hlt. destruct Hlt as [frow Lf].
  pose proof (transpose_lookup _ _ _ Lf) as T.
  assert (Hc : exists c, nt !! Z.to_nat px = Some c).
  { apply lookup_lt_is_Some_2. lia. }
  destruct Hc as [c Lc].
  destruct (Forall2_lookup_l _ _ _ _ _ T Lc) as (b & Lb & Cb).
  simpl in Cb.
  destruct (Forall2_lookup_r _ _ _ _ _ M Lc) as (z & Lz & G).
  apply lookup_seqZ in Lz. destruct Lz as [-> _].
  replace (0 + Z.of_nat (Z.to_nat px)) with px in G by lia.
  fold (mirror newsize px) in G.
  apply py_get_spec in G. destruct G as (k & Ik & G).
  apply py_index_spec in Ik. destruct Ik as [_ Ek].
  rewrite (Ek Hm) in G.
  apply transpose_lookup in G.
  destruct (Forall2_lookup_l _ _ _ _ _ G Lr) as (b' & Lb' & Cb').
  simpl in Cb'.
  unfold cell.
  destruct (Z.leb_spec 0 px), (Z.leb_spec 0 py); try lia. simpl.
  rewrite Lf, Lb. congruence.
Qed.

(** ** The empty room *)

Lemma halfwidth_spec (w : Z) :
  0 <= w -> py_int ((1 # 2) + inject_Z w / 2)%Q = (w + 1) / 2.
Proof.
  intros H. unfold py_int.
  assert (P : (0 <= (1 # 2) + inject_Z w / 2)%Q).
  { assert (0 <= inject_Z w)%Q by (unfold Qle; simpl; lia).
    assert (0 <= inject_Z w / 2)%Q
      by (apply Qle_shift_div_l; [reflexivity | lra]).
    lra. }
  apply Qltb_ge in P. rewrite P.
  assert (E : ((1 # 2) + inject_Z w / 2 == (w + 1) # 2)%Q).
  { unfold Qeq, Qplus, Qdiv, Qmult, Qinv, inject_Z. simpl. lia. }
  rewrite E. reflexivity.
Qed.

Lemma outer_walls_inner_row (hw h py : Z) :
  1 <= py <= h - 2 ->
  outer_walls hw h !! Z.to_nat py
  = Some ([1] ++ replicate (Z.to_nat (hw - 1)) 0).
Proof.
  intros H. unfold outer_walls. cbn [app].
  rewrite lookup_cons_ne_0 by lia.
  rewrite lookup_app_l by (rewrite length_replicate; lia).
  apply lookup_replicate_2. lia.
Qed.

Lemma inner_row_free (hw k : Z) :
  1 <= k < hw ->
  ([1] ++ replicate (Z.to_nat (hw - 1)) 0) !! Z.to_nat k = Some 0.
Proof.
  intros H. cbn [app].
  rewrite lookup_cons_ne_0 by lia.
  apply lookup_replicate_2. lia.
Qed.

Lemma mirror_inner (w px : Z) :
  1 <= px <= w - 2 -> 1 <= mirror w px < (w + 1) / 2.
Proof.
  intros H. unfold mirror.
  destruct (Z.ltb_spec px (w / 2)); Z.div_mod_to_equations; lia.
Qed.

(** In the reflected map of the outer walls every tile inside the outer
    wall is free. *)
Lemma empty_room_free (w h : Z) (full : Grid) (px py : Z) :
  reflect_tilemap (outer_walls ((w + 1) / 2) h) w = Ok full ->
  1 <= px <= w - 2 -> 1 <= py <= h - 2 ->
  is_free full (px, py) = true.
Proof.
  intros R Hx Hy. unfold is_free.
  pose proof (mirror_inner w px Hx) as M.
  erewrite (reflect_tilemap_cell _ _ _ px py _ 0 R); try lia; auto.
  - apply outer_walls_inner_row. exact Hy.
  - apply inner_row_free. exact M.
Qed.

(** ** Where the generator places the objects *)

Lemma randint_range (rnd : Random) (k : nat) (a b v : Z) :
  randint rnd k a b = Ok v -> a <= v <= b.
Proof.
  unfold randint. destruct (Z.ltb_spec b a); [discriminate | ].
  intros [= <-].
  pose proof (Z.mod_pos_bound (draw_int rnd k) (b - a + 1)). lia.
Qed.

Section Placement.

Variable G : FieldGenerator.t.
Hypothesis wide : 5 <= FieldGenerator.width G.
Hypothesis high : 5 <= FieldGenerator.height G.

Local Abbreviation w := (FieldGenerator.width G).
Local Abbreviation h := (FieldGenerator.height G).

Lemma place_spawns_inside (pi : Q) (n : nat) (i j : Z)
    (reds blues : list (Z * Z * Q)) :
  2 <= i <= 3 -> 1 <= j ->
  2 * (j - 1) + (i - 2) + Z.of_nat n <= 2 * (h - 2) ->
  Forall (fun s => inside G (fst s)) reds ->
  Forall (fun s => inside G (fst s)) blues ->
  Forall (fun s => inside G (fst s))
    (fst (place_spawns G n i j reds blues pi))
  /\ Forall (fun s => inside G (fst s))
       (snd (place_spawns G n i j reds blues pi)).
Proof.
  revert i j reds blues. induction n as [|n IH]; intros i j reds blues
    Hi Hj Hn Hr Hb; cbn [place_spawns]; [auto | ].
  assert (Ir : Forall (fun s : Z * Z * Q => inside G (fst s))
                 (reds ++ [(i, j, 0%Q)])).
  { apply Forall_app. split; [exact Hr | ]. repeat constructor; simpl; lia. }
  assert (Ib : Forall (fun s : Z * Z * Q => inside G (fst s))
                 (blues ++ [(w - 1 - i, j, (- pi)%Q)])).
  { apply Forall_app. split; [exact Hb | ]. repeat constructor; simpl; lia. }
  destruct (Z.leb_spec (2 + 2) (i + 1)); apply IH; auto; lia.
Qed.

Lemma place_ammo_inside (rnd : Random) (n : nat) (k k' : nat)
    (other other' : list (Z * Z * Class)) :
  place_ammo G rnd n k other = Ok (other', k') ->
  Forall (fun o => inside G (fst o)) other ->
  Forall (fun o => inside G (fst o)) other'.
Proof.
  revert k other. induction n as [|n IH]; intros k other;
    cbn [place_ammo].
  - intros [= <- _]. auto.
  - destruct (randint rnd k 3 _) as [px| |] eqn:X; cbn [bind];
      try discriminate.
    destruct (randint rnd (S k) 5 _) as [py| |] eqn:Y; cbn [bind];
      try discriminate.
    apply randint_range in X, Y.
    intros H F. eapply IH; [exact H | ].
    apply Forall_app. split; [exact F | ].
    assert (w / 2 - 1 <= w - 2) by (Z.div_mod_to_equations; lia).
    assert (1 <= w - (w / 2)) by (Z.div_mod_to_equations; lia).
    repeat constructor; simpl; lia.
Qed.

(** Every object [place_objects] puts on a new field lies inside the
    outer wall, whatever is drawn. *)
Lemma place_objects_inside (rnd : Random) (pi : Q) (k k' : nat)
    (f : Field.t) :
  FieldGenerator.num_spawns G <= 2 * (h - 2) ->
  place_objects G rnd pi k (Field_init w h (FieldGenerator.tilesize G))
  = Ok (f, k') ->
  Forall (inside G) (reachable_points f).
Proof.
  intros Hn. unfold place_objects. cbn [Field_init Field.spawns_red
    Field.spawns_blue Field.controlpoints Field.other_objects length].
  destruct (randint rnd k 3 _) as [my| |] eqn:Y; cbn [bind];
    try discriminate.
  apply randint_range in Y.
  pose proof (place_spawns_inside pi
                (Z.to_nat (FieldGenerator.num_spawns G - Z.of_nat 0))
                2 1 [] []) as S.
  destruct (place_spawns G _ 2 1 [] [] pi) as [reds blues].
  destruct S as [Sr Sb]; try lia; try constructor.
  destruct (place_ammo G rnd _ (S k) []) as [[other k1]| |] eqn:A;
    cbn [bind]; try discriminate.
  apply place_ammo_inside in A; [ | constructor].
  intros [= <- _]. unfold reachable_points.
  cbn [Field.spawns_red Field.spawns_blue Field.controlpoints
       Field.other_objects app].
  assert (1 <= (w - 1) / 4 <= w - 2) by (Z.div_mod_to_equations; lia).
  assert (1 <= w / 2 <= w - 2) by (Z.div_mod_to_equations; lia).
  assert (h / 2 + 1 <= h - 2) by (Z.div_mod_to_equations; lia).
  repeat apply Forall_cons_2; try (split; simpl; lia).
  rewrite !Forall_app, !Forall_fmap. auto.
Qed.

End Placement.

(** ** The walls keep the objects reachable *)

(** Whatever holds of the first half map and of every half map that passed
    the reachability test holds of the half map the loop ends with. *)
Lemma wall_loop_invariant (P : Grid -> Prop) (G : FieldGenerator.t)
    (rnd : Random) (halfwidth : Z) (start : Z * Z) (pts : list (Z * Z)) :
  (forall new full,
     reflect_tilemap new (FieldGenerator.width G) = Ok full ->
     all_reachable (reachable full start) pts = Ok true -> P new) ->
  forall fuel k failed tilemap tilemap',
    P tilemap ->
    wall_loop G rnd fuel k halfwidth start pts failed tilemap
    = Ok tilemap' ->
    P tilemap'.
Proof.
  intros Hnew fuel. induction fuel as [|fuel IH];
    intros k failed tilemap tilemap' HP; cbn [wall_loop];
    destruct (_ && _); try discriminate;
    try (intros [= <-]; exact HP).
  destruct (candidate _ _ _ _ _) as [new| |]; cbn [bind];
    try discriminate.
  destruct (reflect_tilemap new _) as [full| |] eqn:R; cbn [bind];
    try discriminate.
  destruct (all_reachable _ _) as [[|]| |] eqn:A; cbn [bind];
    try discriminate.
  - apply IH. eapply Hnew; eauto.
  - apply IH. exact HP.
Qed.

Lemma block_In (py sh px sw i j : Z) :
  In (i, j) (block py sh px sw)
  <-> (py <= i < py + sh) /\ (px <= j < px + sw).
Proof.
  unfold block. rewrite in_flat_map. split.
  - intros (i' & Hi & Hj). apply in_map_iff in Hj.
    destruct Hj as (j' & [= <- <-] & Hj).
    apply list_elem_of_In, elem_of_seqZ in Hi.
    apply list_elem_of_In, elem_of_seqZ in Hj. lia.
  - intros [Hi Hj]. exists i. split.
    + apply list_elem_of_In, elem_of_seqZ. lia.
    + apply in_map. apply list_elem_of_In, elem_of_seqZ. lia.
Qed.

(** Every point the generator wants reachable is among the tiles that
    [clear_walls_under_objects] frees. *)
Lemma points_under_objects (cos sin : Q -> Q) (field : Field.t)
    (p : Z * Z) :
  In p (reachable_points field) ->
  In (snd p, fst p) (tiles_under_objects cos sin field).
Proof.
  unfold reachable_points, tiles_under_objects.
  rewrite !in_app_iff, !in_flat_map, !in_map_iff.
  intros [H|[H|[H|H]]].
  - right; left. exists p. split; [exact H | ].
    destruct p as [px py]. apply block_In. simpl. lia.
  - right; right. destruct H as ([[ox oy] c] & <- & H).
    exists (ox, oy, c). split; [exact H | ]. simpl. auto.
  - left. destruct H as ([[sx sy] r] & <- & H).
    exists (sx, sy, r). rewrite in_app_iff. split; [auto | ].
    simpl. auto.
  - left. destruct H as ([[sx sy] r] & <- & H).
    exists (sx, sy, r). rewrite in_app_iff. split; [auto | ].
    simpl. auto.
Qed.


(** * Further properties of the engine *)

(** ** Tanks *)

(** X1.  Whatever action a tank is given, and whether it is alive or not,
    one call of [Tank.get_action] changes its angle by at most [max_turn]
    in either direction, when [max_turn] is not negative. *)
Theorem turn_is_bounded (W : World) (s : Settings) (a : Action)
    (self : GameObject) :
  (0 <= max_turn s)%Q ->
  let self' := Tank_apply_action W s a self in
  (- max_turn s <= angle self' - angle self <= max_turn s)%Q.
Proof.
  intros H self'. subst self'. destruct a as [[turn speed] shoot].
  destruct (Z.eq_dec (respawn_in self) (-1)) as [A|A].
  - destruct (Tank_apply_action_alive W s turn speed shoot self A)
      as (E & _).
    rewrite E. pose proof (clamp_turn_bounds W s turn H). lra.
  - rewrite Tank_apply_action_dead by assumption.
    cbn [set_shoots angle]. lra.
Qed.

Lemma turn_is_bounded_witness :
  (- max_turn default_settings
   <= angle (Tank_apply_action slow_world default_settings
               (5, 40, true)%Q red_tank_0)
      - angle red_tank_0
   <= max_turn default_settings)%Q.
Proof.
  apply (turn_is_bounded slow_world default_settings (5, 40, true)%Q
           red_tank_0).
  discriminate.
Defined.

(** X2.  A tank fires exactly when it is alive, its action asks for a shot
    and it has ammunition; a shot costs one round, nothing else changes the
    ammunition, and the ammunition never becomes negative. *)
Theorem shot_costs_one_round (W : World) (s : Settings) (a : Action)
    (self : GameObject) :
  let self' := Tank_apply_action W s a self in
  (shoots self' = true
   <-> respawn_in self = -1 /\ snd a = true /\ 0 < ammo self)
  /\ ammo self' = ammo self - (if shoots self' then 1 else 0)
  /\ (0 <= ammo self -> 0 <= ammo self').
Proof.
  intros self'. subst self'. destruct a as [[turn speed] shoot].
  cbn [snd].
  destruct (Z.eq_dec (respawn_in self) (-1)) as [A|A].
  - destruct (shoot_needs_ammo W s turn speed shoot self A)
      as (S1 & S2 & S3).
    destruct (shoots (Tank_apply_action W s (turn, speed, shoot) self))
      eqn:E.
    + rewrite (S2 eq_refl). destruct S1 as [S1 _].
      destruct (S1 eq_refl). repeat split; auto; lia.
    + rewrite (S3 eq_refl). split; [ | split; lia].
      split; [discriminate | ].
      intros (_ & B & C). apply S1. auto.
  - rewrite Tank_apply_action_dead by assumption.
    cbn [set_shoots shoots ammo]. split; [ | split; lia].
    split; [discriminate | ]. intros (B & _). contradiction.
Qed.

(** X3.  A tank that waits for its respawn ignores the action of the step:
    position, angle and ammunition stay as they are and it does not
    shoot. *)
Theorem dead_tank_ignores_action (W : World) (s : Settings) (a : Action)
    (self : GameObject) :
  respawn_in self <> -1 ->
  let self' := Tank_apply_action W s a self in
  x self' = x self /\ y self' = y self /\ angle self' = angle self
  /\ ammo self' = ammo self /\ shoots self' = false
  /\ respawn_in self' = respawn_in self.
Proof.
  intros A self'. subst self'.
  rewrite Tank_apply_action_dead by assumption.
  repeat split; reflexivity.
Qed.

Lemma dead_tank_ignores_action_witness :
  let self := set_respawn_in 3 red_tank_0 in
  let self' := Tank_apply_action slow_world default_settings
                 (1, 40, true)%Q self in
  x self' = x self /\ y self' = y self /\ angle self' = angle self
  /\ ammo self' = ammo self /\ shoots self' = false
  /\ respawn_in self' = respawn_in self.
Proof.
  apply (dead_tank_ignores_action slow_world default_settings
           (1, 40, true)%Q (set_respawn_in 3 red_tank_0)).
  discriminate.
Defined.

Lemma Tank_update_step (self : GameObject) (n : nat) :
  respawn_in self = Z.of_nat n ->
  respawn_in (Tank_update self) = Z.of_nat n - 1.
Proof.
  intros E. unfold Tank_update. rewrite E.
  destruct (Z.eqb_spec (Z.of_nat n) 0) as [Z0|Z0].
  - cbn [set_respawn_in respawn_in]. lia.
  - destruct (Z.ltb_spec 0 (Z.of_nat n)); [ | lia].
    cbn [set_respawn_in respawn_in]. lia.
Qed.

Lemma Tank_update_alive (self : GameObject) :
  respawn_in self = -1 -> Tank_update self = self.
Proof. intros E. unfold Tank_update. rewrite E. reflexivity. Qed.

(** X4.  A tank whose [respawn_in] was set to [n >= 0] counts down by one
    at each [update]: after [k <= n] updates it is still waiting, with
    [n - k] left; the update after that makes it alive again ([-1]), and
    further updates leave it alive. *)
Theorem respawn_countdown (self : GameObject) (n : nat) :
  respawn_in self = Z.of_nat n ->
  (forall k, (k <= n)%nat ->
     respawn_in (Nat.iter k Tank_update self) = Z.of_nat (n - k))
  /\ (forall k, (n < k)%nat ->
        respawn_in (Nat.iter k Tank_update self) = -1).
Proof.
  intros E.
  assert (P1 : forall k, (k <= n)%nat ->
            respawn_in (Nat.iter k Tank_update self) = Z.of_nat (n - k)).
  { induction k as [|k IH]; intros L.
    - change (Nat.iter 0 Tank_update self) with self.
      rewrite E. f_equal. lia.
    - rewrite Nat.iter_succ.
      rewrite (Tank_update_step _ (n - k)) by (apply IH; lia). lia. }
  split; [exact P1 | ].
  assert (P2 : respawn_in (Nat.iter (S n) Tank_update self) = -1).
  { rewrite Nat.iter_succ. rewrite (Tank_update_step _ 0).
    - reflexivity.
    - rewrite P1 by lia. f_equal. lia. }
  intros k L. replace k with ((k - S n) + S n)%nat by lia.
  induction (k - S n)%nat as [|m IH].
  - exact P2.
  - change (S m + S n)%nat with (S (m + S n)).
    rewrite Nat.iter_succ. rewrite Tank_update_alive; exact IH.
Qed.

Lemma respawn_countdown_witness :
  (forall k, (k <= 10)%nat ->
     respawn_in (Nat.iter k Tank_update (set_respawn_in 10 red_tank_0))
     = Z.of_nat (10 - k))
  /\ (forall k, (10 < k)%nat ->
        respawn_in (Nat.iter k Tank_update (set_respawn_in 10 red_tank_0))
        = -1).
Proof.
  apply (respawn_countdown (set_respawn_in 10 red_tank_0) 10).
  reflexivity.
Defined.
(** ** Control points *)

Lemma first_mode_step (self other : GameObject) :
  cls other = Tank ->
  ControlPoint_collide CAPTURE_MODE_FIRST self other
  = if 0 <? tally_get (collided self) (team self) then self
    else set_collided (tally_incr (collided self) (team other))
           (set_team (team other) self).
Proof.
  intros T. unfold ControlPoint_collide, CAPTURE_MODE_FIRST. rewrite T.
  reflexivity.
Qed.

Lemma first_mode_holds (self other : GameObject) :
  0 < tally_get (collided self) (team self) ->
  ControlPoint_collide CAPTURE_MODE_FIRST self other = self.
Proof.
  intros H. unfold ControlPoint_collide, CAPTURE_MODE_FIRST.
  destruct (Class_eqb (cls other) Tank); [ | reflexivity].
  cbn [negb Z.eqb].
  destruct (Z.ltb_spec 0 (tally_get (collided self) (team self)));
    [reflexivity | lia].
Qed.

Lemma tally_get_zero (t : Team) : tally_get tally_zero t = 0.
Proof. destruct t; reflexivity. Qed.

(** X5.  In the capture mode "first", after [update] has reset the tally
    the first tank that touches a control point takes it for its team, and
    the point keeps that owner whatever touches it later in the same
    cycle. *)
Theorem first_touch_keeps_point (cp t : GameObject)
    (later : list GameObject) :
  collided cp = tally_zero ->
  cls t = Tank ->
  team (fold_left (ControlPoint_collide CAPTURE_MODE_FIRST) (t :: later) cp)
  = team t.
Proof.
  intros Z T. cbn [fold_left].
  rewrite (first_mode_step cp t T), Z, tally_get_zero.
  cbn [Z.ltb Z.compare].
  set (o := set_collided _ _).
  assert (P : 0 < tally_get (collided o) (team o))
    by (subst o; cbn [collided set_collided team set_team];
        rewrite tally_get_incr_same, tally_get_zero; lia).
  assert (E : team o = team t) by reflexivity.
  rewrite <- E. clearbody o. clear E.
  induction later as [|u later IH]; cbn [fold_left]; [reflexivity | ].
  rewrite first_mode_holds by exact P. exact IH.
Qed.

Lemma first_touch_keeps_point_witness :
  team (fold_left (ControlPoint_collide CAPTURE_MODE_FIRST)
          [blue_tank_0; red_tank_0; red_tank_0] (ControlPoint_init 28 12))
  = team blue_tank_0.
Proof.
  apply (first_touch_keeps_point (ControlPoint_init 28 12) blue_tank_0
           [red_tank_0; red_tank_0]); reflexivity.
Defined.

Lemma neutral_mode_step (self other : GameObject) :
  cls other = Tank ->
  ControlPoint_collide CAPTURE_MODE_NEUTRAL self other
  = if (0 <? tally_get (collided self) (team self))
       && negb (Team_eqb (team self) (team other))
    then set_team TEAM_NEUTRAL self
    else set_collided (tally_incr (collided self) (team other))
           (set_team (team other) self).
Proof.
  intros T. unfold ControlPoint_collide, CAPTURE_MODE_NEUTRAL. rewrite T.
  reflexivity.
Qed.

Lemma Team_eqb_refl (t : Team) : Team_eqb t t = true.
Proof. now destruct t. Qed.

(** X6.  In the capture mode "neutral", after [update] has reset the
    tally: when all the tanks that touch a control point in a cycle belong
    to one team, the point ends the cycle owned by that team; when a tank of
    the other team touches a point taken in this cycle, the point becomes
    neutral; and the tank that touches it after that takes it, being the
    first to touch a neutral point. *)
Theorem neutral_mode_contest (cp a b c : GameObject)
    (same : list GameObject) :
  collided cp = tally_zero ->
  cls a = Tank -> cls b = Tank -> cls c = Tank ->
  team a <> TEAM_NEUTRAL ->
  Forall (fun o => cls o = Tank /\ team o = team a) same ->
  team b <> team a ->
  let touch := fold_left (ControlPoint_collide CAPTURE_MODE_NEUTRAL) in
  team (touch (a :: same) cp) = team a
  /\ team (touch (a :: same ++ [b]) cp) = TEAM_NEUTRAL
  /\ team (touch (a :: same ++ [b; c]) cp) = team c.
Proof.
  intros Z Ta Tb Tc Na F D touch. subst touch. cbn [fold_left].
  rewrite (neutral_mode_step cp a Ta), Z, tally_get_zero.
  cbn [Z.ltb Z.compare andb].
  set (o := set_collided _ _).
  assert (P : 0 < tally_get (collided o) (team o)
              /\ team o = team a
              /\ tally_get (collided o) TEAM_NEUTRAL = 0).
  { subst o. cbn [collided set_collided team set_team].
    rewrite tally_get_incr_same, tally_get_zero.
    rewrite tally_get_incr_other by assumption.
    rewrite tally_get_zero. repeat split; lia. }
  clearbody o.
  assert (K : exists o', fold_left
                (ControlPoint_collide CAPTURE_MODE_NEUTRAL) same o = o'
              /\ 0 < tally_get (collided o') (team o')
              /\ team o' = team a
              /\ tally_get (collided o') TEAM_NEUTRAL = 0).
  { revert o P. induction F as [|u same [Tu Eu] F IH]; intros o P;
      cbn [fold_left]; [eauto | ].
    apply IH. destruct P as (P1 & P2 & P3).
    rewrite (neutral_mode_step o u Tu), P2, Eu, Team_eqb_refl.
    rewrite andb_false_r.
    cbn [collided set_collided team set_team].
    rewrite tally_get_incr_same, <- P2.
    rewrite tally_get_incr_other by congruence.
    repeat split; auto; lia. }
  destruct K as (o' & K & P1 & P2 & P3).
  rewrite !fold_left_app, K. cbn [fold_left].
  split; [exact P2 | ].
  assert (N : ControlPoint_collide CAPTURE_MODE_NEUTRAL o' b
              = set_team TEAM_NEUTRAL o').
  { rewrite (neutral_mode_step o' b Tb).
    destruct (Z.ltb_spec 0 (tally_get (collided o') (team o')));
      [ | lia].
    assert (E : Team_eqb (team o') (team b) = false)
      by (apply Team_eqb_neq; congruence).
    rewrite E. reflexivity. }
  rewrite N. split; [reflexivity | ].
  rewrite (neutral_mode_step _ c Tc).
  cbn [collided set_collided team set_team]. rewrite P3.
  reflexivity.
Qed.

Lemma neutral_mode_contest_witness :
  let touch := fold_left (ControlPoint_collide CAPTURE_MODE_NEUTRAL) in
  let cp := ControlPoint_init 28 12 in
  team (touch (red_tank_0 :: [red_tank_0]) cp) = team red_tank_0
  /\ team (touch (red_tank_0 :: [red_tank_0] ++ [blue_tank_0]) cp)
     = TEAM_NEUTRAL
  /\ team (touch (red_tank_0 :: [red_tank_0] ++ [blue_tank_0; red_tank_0])
             cp)
     = team red_tank_0.
Proof.
  apply (neutral_mode_contest (ControlPoint_init 28 12) red_tank_0
           blue_tank_0 red_tank_0 [red_tank_0]);
    try reflexivity; try discriminate.
  repeat constructor.
Defined.
(** ** The range of the scores *)

(** X7.  With an even [max_score] that is not negative, neither score ever
    leaves the range from 0 to [max_score]: not after [setup], not after any
    number of passes through the main loop, and not when [run] is over.
    [ControlPoint.update] gives a point to the owner only while the owner
    has fewer than [max_score] points, and the other side then still has
    one to give. *)
Theorem scores_stay_in_range (W : World) (fuel : nat) (g g1 : Game.t) :
  max_score (Game.settings g) mod 2 = 0 ->
  0 <= max_score (Game.settings g) ->
  Game.state g <> STATE_READY ->
  Game_setup W fuel g = Ok g1 ->
  let m := max_score (Game.settings g) in
  let in_range (g2 : Game.t) :=
    0 <= Game.score_red g2 <= m /\ 0 <= Game.score_blue g2 <= m in
  in_range g1
  /\ (forall n g2,
        outcome_state (Game_loop W n 0 (Game.set_state STATE_RUNNING g1))
        = Some g2 -> in_range g2)
  /\ (forall g', run_state (Game_run W fuel g) = Some g' -> in_range g').
Proof.
  intros E P NR S m in_range. subst m in_range. cbv beta.
  assert (R : forall g2, kept (Game.settings g) g2 ->
                0 <= Game.score_red g2 <= max_score (Game.settings g)
                /\ 0 <= Game.score_blue g2 <= max_score (Game.settings g)).
  { intros g2 (S2 & Sum & Bnd). rewrite S2 in Sum, Bnd. lia. }
  pose proof (Game_setup_kept W fuel g g1 E S) as K.
  split; [exact (R _ K) | split].
  - intros n g2 L. apply R.
    apply (kept_set_state _ STATE_RUNNING) in K.
    exact (Game_loop_kept W _ _ _ _ _ L K).
  - intros g' H. apply R. exact (Game_run_kept W fuel g g1 g' E NR S H).
Qed.

Lemma scores_stay_in_range_witness :
  let g := corridor_game in
  let g1 := returned (Game_setup still_world 1 corridor_game)
              corridor_game in
  let m := max_score (Game.settings g) in
  let in_range (g2 : Game.t) :=
    0 <= Game.score_red g2 <= m /\ 0 <= Game.score_blue g2 <= m in
  in_range g1
  /\ (forall n g2,
        outcome_state
          (Game_loop still_world n 0 (Game.set_state STATE_RUNNING g1))
        = Some g2 -> in_range g2)
  /\ (forall g', run_state (Game_run still_world 1 g) = Some g' ->
        in_range g').
Proof.
  apply (scores_stay_in_range still_world 1 corridor_game).
  - reflexivity.
  - discriminate.
  - discriminate.
  - vm_compute. reflexivity.
Defined.
(** ** The object list *)

Lemma has_oid_true (i : nat) (o : GameObject) :
  has_oid i o = true <-> oid o = i.
Proof. unfold has_oid. apply Nat.eqb_eq. Qed.

Lemma lookup_obj_oid (i : nat) (l : list GameObject) (o : GameObject) :
  lookup_obj i l = Some o -> oid o = i.
Proof.
  unfold lookup_obj. intros H. apply find_some in H.
  apply has_oid_true. tauto.
Qed.

Lemma lookup_obj_In (i : nat) (l : list GameObject) (o : GameObject) :
  lookup_obj i l = Some o -> In o l.
Proof. unfold lookup_obj. intros H. apply find_some in H. tauto. Qed.

(** Updating the object [i] by a function that keeps identities changes
    what is found under [i] and nothing else. *)
Lemma lookup_update_same (i : nat) (f : GameObject -> GameObject)
    (l : list GameObject) :
  (forall o, oid (f o) = oid o) ->
  lookup_obj i (update_obj i f l) = option_map f (lookup_obj i l).
Proof.
  intros F. unfold lookup_obj, update_obj.
  induction l as [|o l IH]; [reflexivity | ]. cbn [map find].
  destruct (has_oid i o) eqn:E.
  - unfold has_oid in *. rewrite F, E. reflexivity.
  - rewrite E. exact IH.
Qed.

Lemma lookup_update_other (i j : nat) (f : GameObject -> GameObject)
    (l : list GameObject) :
  (forall o, oid (f o) = oid o) -> i <> j ->
  lookup_obj j (update_obj i f l) = lookup_obj j l.
Proof.
  intros F D. unfold lookup_obj, update_obj.
  induction l as [|o l IH]; [reflexivity | ]. cbn [map find].
  destruct (has_oid i o) eqn:E.
  - apply has_oid_true in E.
    assert (N : has_oid j o = false)
      by (unfold has_oid; apply Nat.eqb_neq; congruence).
    unfold has_oid in *. rewrite F. rewrite N. exact IH.
  - destruct (has_oid j o); [reflexivity | exact IH].
Qed.

Lemma lookup_remove_same (i : nat) (l : list GameObject) :
  lookup_obj i (remove_obj i l) = None.
Proof.
  unfold lookup_obj, remove_obj.
  induction l as [|o l IH]; [reflexivity | ].
  rewrite filter_cons.
  destruct (has_oid i o) eqn:E; cbn [negb]; simpl; [exact IH | ].
  rewrite E. exact IH.
Qed.

Lemma lookup_remove_other (i j : nat) (l : list GameObject) :
  i <> j -> lookup_obj j (remove_obj i l) = lookup_obj j l.
Proof.
  intros D. unfold lookup_obj, remove_obj.
  induction l as [|o l IH]; [reflexivity | ].
  rewrite filter_cons.
  destruct (has_oid i o) eqn:E; cbn [negb]; simpl.
  - apply has_oid_true in E.
    assert (N : has_oid j o = false)
      by (unfold has_oid; apply Nat.eqb_neq; congruence).
    rewrite N. exact IH.
  - destruct (has_oid j o); [reflexivity | exact IH].
Qed.

Lemma lookup_app_new (i : nat) (l : list GameObject) (o : GameObject) :
  lookup_obj i (l ++ [o])
  = match lookup_obj i l with
    | Some a => Some a
    | None => if has_oid i o then Some o else None
    end.
Proof.
  unfold lookup_obj. induction l as [|a l IH]; cbn [app find].
  - reflexivity.
  - destruct (has_oid i a); [reflexivity | exact IH].
Qed.

(** ** Pickups *)


(** ** Fountains *)

Lemma update_all_app (W : World) (l1 l2 : list nat) (g : Game.t) :
  update_all W (l1 ++ l2) g
  = (g1 <- update_all W l1 g ;; update_all W l2 g1).
Proof.
  revert g. induction l1 as [|i l1 IH]; intros g; cbn [app update_all].
  - reflexivity.
  - destruct (update_object W i g); cbn [bind]; auto.
Qed.

Lemma map_cls_update (i : nat) (f : GameObject -> GameObject)
    (l : list GameObject) :
  (forall o, cls (f o) = cls o) ->
  map cls (update_obj i f l) = map cls l.
Proof.
  intros F. unfold update_obj. rewrite map_map. apply map_ext.
  intros o. destruct (has_oid i o); auto.
Qed.

(** [spawn_one] of a fountain that spreads nothing, on a free tile: the
    first attempt succeeds. *)
Lemma spawn_one_on_free_tile (W : World) (n i : nat) (self : GameObject)
    (g : Game.t) :
  lookup_obj i (Game.objects g) = Some self ->
  cls self = AmmoFountain ->
  spawn_tile_free (Game.field g) (x self + width self / 2)%Q
    (y self + height self / 2)%Q = true ->
  Fountain_spawn_one W (S n) i g
  = Ok (Game.set_objects
          (update_obj i
             (fun f => set_children (children f ++ [Game.next_oid g]) f)
             (Game.objects g)
           ++ [spawned_pack self i (Game.next_oid g)])
          (Game.set_next_oid (S (Game.next_oid g)) g)).
Proof.
  intros L C F. cbn [Fountain_spawn_one]. rewrite L.
  unfold SPREAD. rewrite C. unfold spawn_tile_free in F.
  apply andb_prop in F. destruct F as [F0 F].
  apply negb_true_iff in F0. rewrite F0.
  cbv zeta in F.
  apply andb_prop in F. destruct F as [F1 F2]. rewrite F1.
  destruct (nth_error (Field.walls (Game.field g)) _) as [row|];
    [ | discriminate].
  destruct (nth_error row _) as [tile|]; [ | discriminate].
  rewrite F2. reflexivity.
Qed.

Section Refill.

Variable W : World.
Variable i : nat.
Variable self : GameObject.
Variable g : Game.t.
Variable d : nat.

Hypothesis found : lookup_obj i (Game.objects g) = Some self.
Hypothesis is_fountain : cls self = AmmoFountain.
Hypothesis delay : DELAY self = Z.of_nat d.
Hypothesis free :
  spawn_tile_free (Game.field g) (x self + width self / 2)%Q
    (y self + height self / 2)%Q = true.

Local Abbreviation waits_at := (waiting i self g d).
Local Abbreviation has_refilled := (refilled i self g).
Local Abbreviation next := (next_countdown d).

Lemma Fountain_update_step (c : Z) (g1 : Game.t) :
  waits_at c g1 -> c = -1 \/ 1 <= c ->
  exists g2,
    update_object W i g1 = Ok g2
    /\ (next c <> 0 -> waits_at (next c) g2)
    /\ (next c = 0 -> has_refilled g2).
Proof.
  intros (f & L & C & Ch & Cd & Dl & X & Y & Wd & Ht & Fd & Nx & Cl) Rg.
  pose proof (lookup_obj_oid _ _ _ L) as O.
  unfold update_object. rewrite L, C. unfold Fountain_update.
  rewrite Ch, Cd, Dl, C, O. cbn [length MIN_CHILDREN Nat.ltb Nat.leb].
  assert (E : (let c0 := if -1 <? c then c - 1 else c in
               if (c0 =? -1) && true then Z.of_nat d else c0)
              = next c).
  { unfold next_countdown. cbv zeta.
    destruct Rg as [->|Rg]; [reflexivity | ].
    destruct (Z.ltb_spec (-1) c); [ | lia].
    destruct (Z.eqb_spec (c - 1) (-1)); [lia | ].
    destruct (Z.eqb_spec c (-1)); [lia | reflexivity]. }
  cbv zeta in E. rewrite E. clear E.
  set (c' := next c).
  set (g1' := Game.set_objects _ g1).
  assert (L' : lookup_obj i (Game.objects g1')
               = Some (set_countdown c' f)).
  { subst g1'. cbn [Game.objects Game.set_objects].
    rewrite lookup_update_same by reflexivity. rewrite L. reflexivity. }
  assert (Cl' : map cls (Game.objects g1') = map cls (Game.objects g)).
  { subst g1'. cbn [Game.objects Game.set_objects].
    rewrite map_cls_update by reflexivity. exact Cl. }
  assert (Fd' : Game.field g1' = Game.field g) by exact Fd.
  assert (Nx' : Game.next_oid g1' = Game.next_oid g) by exact Nx.
  clearbody g1'.
  destruct (Z.eqb_spec c' 0) as [Z0|Z0].
  - rewrite (spawn_one_on_free_tile W 9 i (set_countdown c' f) g1' L').
    + eexists. split; [reflexivity | ]. split; [contradiction | ].
      intros _.
      exists (set_children [Game.next_oid g] (set_countdown c' f)).
      eexists. cbn [Game.objects Game.set_objects Game.next_oid].
      split; [ | split; [ | split; [ | split]]].
      * rewrite Nx'. unfold spawned_pack.
        cbn [x y width height set_countdown].
        rewrite X, Y, Wd, Ht. reflexivity.
      * rewrite map_cls_update by reflexivity. exact Cl'.
      * rewrite lookup_update_same by reflexivity. rewrite L'.
        cbn [option_map]. f_equal. rewrite ?Nx'.
        cbn [children set_countdown]. rewrite Ch. reflexivity.
      * reflexivity.
      * exact Z0.
    + exact C.
    + cbn [x y width height set_countdown].
      rewrite X, Y, Wd, Ht, Fd'. exact free.
  - eexists. split; [reflexivity | ]. split; [ | contradiction].
    intros _. exists (set_countdown c' f).
    repeat split; auto.
Qed.

Lemma waits (n : nat) : forall (c : nat) (g1 : Game.t),
  waits_at (Z.of_nat c) g1 -> (n < c)%nat ->
  exists g2, update_all W (replicate n i) g1 = Ok g2
             /\ waits_at (Z.of_nat (c - n)) g2.
Proof.
  induction n as [|n IH]; intros c g1 Wt Lt.
  - exists g1. split; [reflexivity | ].
    replace (c - 0)%nat with c by lia. exact Wt.
  - cbn [replicate update_all].
    destruct (Fountain_update_step (Z.of_nat c) g1 Wt ltac:(lia))
      as (g2 & U & Wt2 & _).
    rewrite U. cbn [bind].
    assert (N : next (Z.of_nat c) = Z.of_nat (c - 1)).
    { unfold next_countdown.
      destruct (Z.eqb_spec (Z.of_nat c) (-1)); lia. }
    rewrite N in Wt2.
    destruct (IH (c - 1)%nat g2 (Wt2 ltac:(lia)) ltac:(lia))
      as (g3 & U3 & Wt3).
    exists g3. split; [exact U3 | ].
    replace (c - S n)%nat with (c - 1 - n)%nat by lia. exact Wt3.
Qed.

Lemma fires (c : nat) (g1 : Game.t) :
  waits_at (Z.of_nat c) g1 -> (1 <= c)%nat ->
  exists g2, update_all W (replicate c i) g1 = Ok g2 /\ has_refilled g2.
Proof.
  intros Wt Lt. destruct c as [|c]; [lia | ].
  rewrite replicate_S_end, update_all_app.
  destruct (waits c (S c) g1 Wt ltac:(lia)) as (g2 & U & Wt2).
  rewrite U. cbn [bind update_all].
  replace (Z.of_nat (S c - c)) with 1 in Wt2 by lia.
  destruct (Fountain_update_step 1 g2 Wt2 ltac:(lia))
    as (g3 & U3 & _ & R).
  rewrite U3. cbn [bind]. exists g3. split; [reflexivity | ].
  apply R. reflexivity.
Qed.

End Refill.

(** X9.  An ammo fountain that has lost its pack, standing on a free tile,
    offers a new pack at its [DELAY + 1]-th update and not before: the
    first update starts the countdown at [DELAY], each later update
    lowers it by one, and the update that brings it to 0 spawns the pack,
    centred on the fountain, with the next free identity and the fountain
    as its parent.  Until then the object list keeps its classes and the
    fountain stays without children. *)
Theorem fountain_refills_after_delay (W : World) (i : nat)
    (self : GameObject) (g : Game.t) (d : nat) :
  lookup_obj i (Game.objects g) = Some self ->
  cls self = AmmoFountain ->
  children self = [] -> countdown self = -1 ->
  DELAY self = Z.of_nat d ->
  spawn_tile_free (Game.field g) (x self + width self / 2)%Q
    (y self + height self / 2)%Q = true ->
  (forall k, (k <= d)%nat ->
     exists g' f,
       update_all W (replicate k i) g = Ok g'
       /\ map cls (Game.objects g') = map cls (Game.objects g)
       /\ lookup_obj i (Game.objects g') = Some f /\ children f = [])
  /\ exists g' f l,
       update_all W (replicate (S d) i) g = Ok g'
       /\ Game.objects g' = l ++ [spawned_pack self i (Game.next_oid g)]
       /\ map cls l = map cls (Game.objects g)
       /\ lookup_obj i l = Some f /\ children f = [Game.next_oid g].
Proof.
  intros L C Ch Cd Dl F.
  assert (W0 : waiting i self g d (-1) g)
    by (exists self; repeat split; auto).
  destruct (Fountain_update_step W i self g d F (-1) g W0 ltac:(lia))
    as (g1 & U1 & Wt1 & R1).
  change (next_countdown d (-1)) with (Z.of_nat d) in Wt1, R1.
  split.
  - intros k Lk. destruct k as [|k].
    + exists g, self. repeat split; auto.
    + cbn [replicate update_all]. rewrite U1. cbn [bind].
      destruct (waits W i self g d F k d g1 (Wt1 ltac:(lia)) ltac:(lia))
        as (g2 & U2 & (f & Lf & _ & Chf & _ & _ & _ & _ & _ & _ & _ & _
                       & Cl)).
      exists g2, f. auto.
  - cbn [replicate update_all]. rewrite U1. cbn [bind].
    destruct d as [|d].
    + destruct (R1 eq_refl) as (f & l & O & Cl & Lf & Chf & _).
      exists g1, f, l. auto.
    + destruct (fires W i self g (S d) F (S d) g1 (Wt1 ltac:(lia))
                  ltac:(lia))
        as (g2 & U2 & (f & l & O & Cl & Lf & Chf & _)).
      exists g2, f, l. auto.
Qed.

Lemma fountain_refills_after_delay_witness :
  let g := empty_fountain_game in
  let self := corridor_fountain 0 3 in
  (forall k, (k <= 3)%nat ->
     exists g' f,
       update_all still_world (replicate k 0%nat) g = Ok g'
       /\ map cls (Game.objects g') = map cls (Game.objects g)
       /\ lookup_obj 0 (Game.objects g') = Some f /\ children f = [])
  /\ exists g' f l,
       update_all still_world (replicate 4 0%nat) g = Ok g'
       /\ Game.objects g' = l ++ [spawned_pack self 0 (Game.next_oid g)]
       /\ map cls l = map cls (Game.objects g)
       /\ lookup_obj 0 l = Some f /\ children f = [Game.next_oid g].
Proof.
  apply (fountain_refills_after_delay still_world 0
           (corridor_fountain 0 3) empty_fountain_game 3);
    reflexivity.
Defined.

(** X10.  A crumb fountain never spawns in [update]: its class delay is
    [-1], so the countdown, once at [-1], is set to [-1] again and never
    reaches 0.  However many updates it receives and however few crumbs are
    left, the object list keeps its length and its classes: crumbs that
    were picked up are not replaced. *)
Theorem crumb_fountain_never_refills (W : World) (i : nat)
    (self : GameObject) (g : Game.t) (k : nat) :
  lookup_obj i (Game.objects g) = Some self ->
  cls self = CrumbFountain ->
  countdown self = -1 -> DELAY self = -1 ->
  exists g' f,
    update_all W (replicate k i) g = Ok g'
    /\ map cls (Game.objects g') = map cls (Game.objects g)
    /\ lookup_obj i (Game.objects g') = Some f
    /\ children f = children self /\ countdown f = -1.
Proof.
  revert g self. induction k as [|k IH]; intros g self L C Cd Dl.
  - exists g, self. repeat split; auto.
  - cbn [replicate update_all]. unfold update_object at 1.
    rewrite L, C. unfold Fountain_update. rewrite Cd, Dl.
    change (-1 <? -1) with false. cbv iota.
    change (-1 =? -1) with true. cbn [andb].
    match goal with
    | |- context [if ?b then -1 else -1] =>
        replace (if b then -1 else -1) with (-1) by (now destruct b)
    end.
    change (-1 =? 0) with false. cbv iota. cbn [bind].
    set (g1 := Game.set_objects _ g).
    assert (L1 : lookup_obj i (Game.objects g1)
                 = Some (set_countdown (-1) self)).
    { subst g1. cbn [Game.objects Game.set_objects].
      rewrite (lookup_obj_oid _ _ _ L).
      rewrite lookup_update_same by reflexivity.
      rewrite L. reflexivity. }
    assert (M1 : map cls (Game.objects g1) = map cls (Game.objects g)).
    { subst g1. cbn [Game.objects Game.set_objects].
      apply map_cls_update. reflexivity. }
    clearbody g1.
    destruct (IH g1 (set_countdown (-1) self) L1 C eq_refl Dl)
      as (g' & f & U & M & Lf & Chf & Cf).
    exists g', f. rewrite U, M, M1. auto.
Qed.

Lemma crumb_fountain_never_refills_witness :
  let g := crumb_fountain_game in
  let self := set_oid 0 (Fountain_init CrumbFountain 32 16) in
  exists g' f,
    update_all still_world (replicate 5 0%nat) g = Ok g'
    /\ map cls (Game.objects g') = map cls (Game.objects g)
    /\ lookup_obj 0 (Game.objects g') = Some f
    /\ children f = children self /\ countdown f = -1.
Proof.
  apply (crumb_fountain_never_refills still_world 0
           (set_oid 0 (Fountain_init CrumbFountain 32 16))
           crumb_fountain_game 5); reflexivity.
Defined.
(** ** Separation of bounding boxes *)

Section Boxes.

Variable sqrt : Q -> Q.
Local Open Scope Q_scope.

(** Two objects of the same shape are separated as boxes: two rectangles
    by intent, two circles because the flag of the circle branch is
    assigned under a misspelt name. *)
Lemma compute_separation_same_shape (o1 o2 : GameObject) :
  shape o1 = shape o2 ->
  compute_separation sqrt o1 o2 =
  match separate_rects o1 o2 with
  | Some (p, px, py) => Some (p, o1, o2, px, py)
  | None => None
  end.
Proof.
  intros H. unfold compute_separation, classify. rewrite H.
  destruct (shape o2); reflexivity.
Qed.

Ltac split_Qltb :=
  repeat match goal with
         | |- context [Qltb ?a ?b] =>
             let E := fresh "E" in
             destruct (Qltb a b) eqn:E;
             [apply Qltb_lt in E | apply Qltb_ge in E]; cbn [negb]
         end.

Lemma separate_rects_spec (o1 o2 : GameObject) :
  let '(l, t, r, b) := overlaps o1 o2 in
  match separate_rects o1 o2 with
  | None => ~ (0 < l /\ 0 < t /\ 0 < r /\ 0 < b)
  | Some (p, px, py) =>
      0 < l /\ 0 < t /\ 0 < r /\ 0 < b
      /\ p <= l /\ p <= t /\ p <= r /\ p <= b
      /\ ((p = l /\ px = - l /\ py = 0)
          \/ (p = t /\ px = 0 /\ py = - t)
          \/ (p = r /\ px = r /\ py = 0)
          \/ (p = b /\ px = 0 /\ py = b))
  end.
Proof.
  unfold overlaps, separate_rects. cbv zeta.
  split_Qltb; try (intros (A & B & C & D); lra);
    repeat split; try lra; tauto.
Qed.


Lemma same_shape_separation (o1 o2 : GameObject) :
  shape o1 = shape o2 ->
  let '(l, t, r, b) := overlaps o1 o2 in
  match compute_separation sqrt o1 o2 with
  | None => ~ (0 < l /\ 0 < t /\ 0 < r /\ 0 < b)
  | Some (p, a, c, px, py) =>
      a = o1 /\ c = o2
      /\ 0 < l /\ 0 < t /\ 0 < r /\ 0 < b
      /\ p <= l /\ p <= t /\ p <= r /\ p <= b
      /\ ((p = l /\ px = - l /\ py = 0)
          \/ (p = t /\ px = 0 /\ py = - t)
          \/ (p = r /\ px = r /\ py = 0)
          \/ (p = b /\ px = 0 /\ py = b))
  end.
Proof.
  intros H. rewrite (compute_separation_same_shape o1 o2 H).
  pose proof (separate_rects_spec o1 o2) as S.
  destruct (overlaps o1 o2) as [[[l t] r] b].
  destruct (separate_rects o1 o2) as [[[p px] py]|]; [ | exact S].
  split; [reflexivity | split; [reflexivity | exact S]].
Qed.

(** X11.  For two objects of the same shape (two rectangles, or two tanks,
    which the engine treats as boxes) [compute_separation] returns [None]
    exactly when the bounding boxes do not overlap on a set of positive
    width and height.  Otherwise it returns the two objects in the order
    given, the smallest of the four overlaps as penetration, and a
    correction for the first object that is parallel to an axis, as long as
    the penetration, and points away from the second object. *)
Theorem boxes_separation (o1 o2 : GameObject) :
  shape o1 = shape o2 ->
  let '(l, t, r, b) := overlaps o1 o2 in
  match compute_separation sqrt o1 o2 with
  | None => ~ (0 < l /\ 0 < t /\ 0 < r /\ 0 < b)
  | Some (p, a, c, px, py) =>
      a = o1 /\ c = o2
      /\ 0 < l /\ 0 < t /\ 0 < r /\ 0 < b
      /\ p <= l /\ p <= t /\ p <= r /\ p <= b
      /\ ((p = l /\ px = - l /\ py = 0)
          \/ (p = t /\ px = 0 /\ py = - t)
          \/ (p = r /\ px = r /\ py = 0)
          \/ (p = b /\ px = 0 /\ py = b))
  end.
Proof.
  intros H. now apply same_shape_separation.
Qed.

End Boxes.

Lemma boxes_separation_witness :
  let o1 := tank_at 0 0 in
  let o2 := tank_at 3 4 in
  let '(l, t, r, b) := overlaps o1 o2 in
  match compute_separation (fun q => q) o1 o2 with
  | None => ~ (0 < l /\ 0 < t /\ 0 < r /\ 0 < b)%Q
  | Some (p, a, c, px, py) =>
      a = o1 /\ c = o2
      /\ (0 < l)%Q /\ (0 < t)%Q /\ (0 < r)%Q /\ (0 < b)%Q
      /\ (p <= l)%Q /\ (p <= t)%Q /\ (p <= r)%Q /\ (p <= b)%Q
      /\ ((p = l /\ px = - l /\ py = 0)
          \/ (p = t /\ px = 0 /\ py = - t)
          \/ (p = r /\ px = r /\ py = 0)
          \/ (p = b /\ px = 0 /\ py = b))%Q
  end.
Proof.
  apply (boxes_separation (fun q => q) (tank_at 0 0) (tank_at 3 4)).
  reflexivity.
Defined.

(** ** Queries on the collision lists *)

Section Bounds.

Variables xmin xmax ymin ymax : Q.
Variable solid_only : bool.

Local Abbreviation hit :=
  (fun o : GameObject =>
     negb (Qltb xmax (_x o)) && in_bounds xmin xmax ymin ymax solid_only o).

(** Behind an object that lies beyond [xmax] a sorted list holds no
    hit. *)
Lemma no_hit_beyond (o : GameObject) (l : list GameObject) :
  Qltb xmax (_x o) = true -> Forall (x_le o) l -> List.filter hit l = [].
Proof.
  intros B F. induction F as [|a l A F IH]; [reflexivity | ].
  cbn [List.filter].
  assert (E : Qltb xmax (_x a) = true).
  { apply Qltb_lt. apply Qltb_lt in B. unfold x_le in A. lra. }
  rewrite E. cbn [negb andb]. exact IH.
Qed.

Lemma scan_bounds_sorted (l : list GameObject) :
  StronglySorted x_le l ->
  scan_bounds xmin xmax ymin ymax solid_only l = List.filter hit l.
Proof.
  intros S. induction S as [|o l S IH F]; [reflexivity | ].
  cbn [scan_bounds List.filter].
  destruct (Qltb xmax (_x o)) eqn:B; cbn [negb andb].
  - symmetry. exact (no_hit_beyond o l B F).
  - rewrite IH. reflexivity.
Qed.

(** X13.  On collision lists that are sorted by [_x], as [add_object] and
    [substep] sort them, [get_objects_in_bounds] yields exactly the objects
    whose bounding box meets the bounds ([_x <= xmax], [_x + width > xmin],
    [_y < ymax], [_y + height > ymin]) and that are solid when only solid
    objects are asked for: the movable ones first, each list in its order.
    Leaving a list at the first object beyond [xmax] loses nothing. *)
Theorem bounds_query_complete (mov stat : list GameObject) :
  StronglySorted x_le mov -> StronglySorted x_le stat ->
  get_objects_in_bounds mov stat xmin xmax ymin ymax solid_only
  = List.filter hit mov ++ List.filter hit stat.
Proof.
  intros M S. unfold get_objects_in_bounds.
  rewrite (scan_bounds_sorted mov M), (scan_bounds_sorted stat S).
  reflexivity.
Qed.

End Bounds.

Lemma bounds_query_complete_witness :
  let hit := fun o : GameObject =>
               negb (Qltb 10 (_x o)) && in_bounds 1 10 0 20 true o in
  get_objects_in_bounds [tank_at 0 0; tank_at 3 4; tank_at 30 4]
    [Wall_init 9 9 12 12] 1 10 0 20 true
  = List.filter hit [tank_at 0 0; tank_at 3 4; tank_at 30 4]
    ++ List.filter hit [Wall_init 9 9 12 12].
Proof.
  apply (bounds_query_complete 1 10 0 20 true
           [tank_at 0 0; tank_at 3 4; tank_at 30 4] [Wall_init 9 9 12 12]).
  - repeat constructor; discriminate.
  - repeat constructor.
Defined.

(** On a list that is not sorted the early exit can lose objects: the tank
    at 3 lies within the bounds but behind one beyond them. *)
Lemma bounds_query_needs_sorting :
  get_objects_in_bounds [tank_at 30 4; tank_at 3 4] [] 1 10 0 20 true = []
  /\ List.filter
       (fun o => negb (Qltb 10 (_x o)) && in_bounds 1 10 0 20 true o)
       [tank_at 30 4; tank_at 3 4] = [tank_at 3 4].
Proof. split; reflexivity. Qed.

(** ** Selecting tanks *)

Lemma Qltb_compat (a b c d : Q) :
  (a == c)%Q -> (b == d)%Q -> Qltb a b = Qltb c d.
Proof.
  intros E1 E2.
  destruct (Qltb a b) eqn:A; destruct (Qltb c d) eqn:C; try reflexivity;
    [apply Qltb_lt in A; apply Qltb_ge in C
    |apply Qltb_ge in A; apply Qltb_lt in C]; lra.
Qed.

Lemma select_tanks_flip_x (rx ry w h : Q) (tm : Team)
    (tanks : list GameObject) :
  select_tanks ((rx + w)%Q, ry, (- w)%Q, h) tm tanks
  = select_tanks (rx, ry, w, h) tm tanks.
Proof.
  unfold select_tanks.
  destruct (Qltb w 0) eqn:W; destruct (Qltb (- w) 0) eqn:W';
    [apply Qltb_lt in W; apply Qltb_lt in W'; lra
    |apply Qltb_lt in W; apply Qltb_ge in W'
    |apply Qltb_ge in W; apply Qltb_lt in W'
    |apply Qltb_ge in W; apply Qltb_ge in W'];
    destruct (Qltb h 0); apply map_ext; intros t;
    repeat (f_equal; try (apply Qltb_compat; lra)).
Qed.

Lemma select_tanks_flip_y (rx ry w h : Q) (tm : Team)
    (tanks : list GameObject) :
  select_tanks (rx, (ry + h)%Q, w, (- h)%Q) tm tanks
  = select_tanks (rx, ry, w, h) tm tanks.
Proof.
  unfold select_tanks.
  destruct (Qltb h 0) eqn:H; destruct (Qltb (- h) 0) eqn:H';
    [apply Qltb_lt in H; apply Qltb_lt in H'; lra
    |apply Qltb_lt in H; apply Qltb_ge in H'
    |apply Qltb_ge in H; apply Qltb_lt in H'
    |apply Qltb_ge in H; apply Qltb_ge in H'];
    destruct (Qltb w 0); apply map_ext; intros t;
    repeat (f_equal; try (apply Qltb_compat; lra)).
Qed.

(** X14.  [select_tanks] does not depend on the corner from which the
    rectangle was drawn: the rectangle [(x, y, w, h)] and the same
    rectangle described from its opposite side or corner, with negative
    width or height, select the same tanks.  Every tank receives a value:
    [True] when it is of the team asked for and its bounding box meets the
    rectangle, [False] otherwise. *)
Theorem selection_ignores_drag_direction (rx ry w h : Q) (tm : Team)
    (tanks : list GameObject) :
  let selected := select_tanks (rx, ry, w, h) tm tanks in
  select_tanks ((rx + w)%Q, ry, (- w)%Q, h) tm tanks = selected
  /\ select_tanks (rx, (ry + h)%Q, w, (- h)%Q) tm tanks = selected
  /\ select_tanks ((rx + w)%Q, (ry + h)%Q, (- w)%Q, (- h)%Q) tm tanks
     = selected
  /\ length selected = length tanks
  /\ forall k t,
       nth_error tanks k = Some t ->
       (0 <= w)%Q -> (0 <= h)%Q ->
       nth_error selected k
       = Some (Qltb (_x t) (rx + w) && Qltb (_y t) (ry + h)
               && Qltb rx (_x t + width t) && Qltb ry (_y t + height t)
               && Team_eqb (team t) tm).
Proof.
  intros selected. subst selected.
  split; [apply select_tanks_flip_x | ].
  split; [apply select_tanks_flip_y | ].
  split; [rewrite select_tanks_flip_x; apply select_tanks_flip_y | ].
  split.
  - unfold select_tanks.
    destruct (Qltb w 0), (Qltb h 0); apply length_map.
  - intros k t N Pw Ph. unfold select_tanks.
    apply Qltb_ge in Pw, Ph. rewrite Pw, Ph.
    rewrite nth_error_map, N. reflexivity.
Qed.
(** ** The name of an agent *)

Lemma sub_unsafe_safe (r : bool) (s : list ascii) :
  Forall (fun c => safe_char c = true) (sub_unsafe r s).
Proof.
  revert r. induction s as [|c s IH]; intros r; cbn [sub_unsafe].
  - constructor.
  - destruct (safe_char c) eqn:E.
    + constructor; [exact E | apply IH].
    + destruct r; [apply IH | ].
      constructor; [reflexivity | apply IH].
Qed.

Lemma sub_unsafe_id (s : list ascii) :
  Forall (fun c => safe_char c = true) s -> sub_unsafe false s = s.
Proof.
  induction 1 as [|c s E F IH]; cbn [sub_unsafe]; [reflexivity | ].
  rewrite E, IH. reflexivity.
Qed.

Lemma Forall_firstn {A} (P : A -> Prop) (n : nat) (l : list A) :
  Forall P l -> Forall P (firstn n l).
Proof.
  intros F. revert n. induction F as [|a l Pa F IH]; intros [|n];
    cbn [firstn]; constructor; auto.
Qed.

(** X15.  The name [agent_name] gives to an agent class with a [NAME] is at
    most 16 characters long and consists of lower-case letters, digits and
    dashes only; a name that already has this form is returned unchanged,
    so that naming is idempotent.  A class without [NAME] is called
    [noname]. *)
Theorem agent_name_is_safe (n : string) :
  let name := agent_name (Some n) in
  (String.length name <= 16)%nat
  /\ Forall (fun c => safe_char c = true) (list_ascii_of_string name)
  /\ agent_name (Some name) = name
  /\ ((String.length n <= 16)%nat ->
      Forall (fun c => safe_char c = true) (list_ascii_of_string n) ->
      name = n)
  /\ agent_name None = "noname"%string
  /\ agent_name (Some (agent_name None)) = agent_name None.
Proof.
  intros name. subst name. unfold agent_name.
  set (l := firstn 16 (sub_unsafe false (list_ascii_of_string n))).
  assert (Len : (length l <= 16)%nat) by apply firstn_le_length.
  assert (Safe : Forall (fun c => safe_char c = true) l)
    by apply Forall_firstn, sub_unsafe_safe.
  assert (SL : forall s, String.length s
                         = length (list_ascii_of_string s)).
  { induction s as [|c s IH]; cbn; congruence. }
  split; [rewrite SL, list_ascii_of_string_of_list_ascii; exact Len | ].
  split; [rewrite list_ascii_of_string_of_list_ascii; exact Safe | ].
  split.
  { rewrite list_ascii_of_string_of_list_ascii.
    rewrite (sub_unsafe_id l Safe), firstn_all2 by exact Len.
    reflexivity. }
  split.
  { intros Ln Sn. subst l. rewrite (sub_unsafe_id _ Sn).
    rewrite firstn_all2 by (rewrite <- SL; exact Ln).
    apply string_of_list_ascii_of_string. }
  split; reflexivity.
Qed.
(** ** Grids *)

Lemma set2_inv (g g' : Grid) (i j v : Z) :
  set2 g i j v = Ok g' ->
  exists ki kj row,
    g !! ki = Some row /\ (kj < length row)%nat
    /\ g' = <[ki := <[kj := v]> row]> g
    /\ (0 <= i -> ki = Z.to_nat i) /\ (0 <= j -> kj = Z.to_nat j).
Proof.
  unfold set2.
  destruct (py_get g i) as [row| |] eqn:G; cbn [bind]; try discriminate.
  apply py_get_spec in G. destruct G as (ki & Ii & Li).
  unfold py_set at 1.
  destruct (py_index row j) as [kj| |] eqn:Ij; cbn [bind]; try discriminate.
  unfold py_set. rewrite Ii. cbn [bind]. intros [= <-].
  apply py_index_spec in Ii, Ij.
  destruct Ii as [Bi Ei], Ij as [Bj Ej].
  exists ki, kj, row. auto.
Qed.

Lemma cell_insert (g : Grid) (ki kj : nat) (row : list Z) (v : Z)
    (px py : Z) :
  g !! ki = Some row -> (kj < length row)%nat ->
  0 <= px -> 0 <= py ->
  cell (<[ki := <[kj := v]> row]> g) (px, py)
  = if decide (Z.to_nat py = ki /\ Z.to_nat px = kj) then Some v
    else cell g (px, py).
Proof.
  intros Li Bj Hx Hy. unfold cell.
  destruct (Z.leb_spec 0 px), (Z.leb_spec 0 py); try lia. cbn [andb].
  assert (Bi : (ki < length g)%nat) by (eapply lookup_lt_Some; eauto).
  destruct (decide (Z.to_nat py = ki)) as [->|N].
  - rewrite list_lookup_insert_eq by assumption. rewrite Li.
    destruct (decide (Z.to_nat px = kj)) as [->|M].
    + rewrite decide_True by auto. now rewrite list_lookup_insert_eq.
    + rewrite decide_False by tauto. now rewrite list_lookup_insert_ne.
  - rewrite decide_False by tauto. now rewrite list_lookup_insert_ne.
Qed.

Lemma cell_nonneg (g : Grid) (p : Z * Z) (v : Z) :
  cell g p = Some v -> 0 <= fst p /\ 0 <= snd p.
Proof.
  destruct p as [px py]. unfold cell.
  destruct (Z.leb_spec 0 px), (Z.leb_spec 0 py); cbn [andb fst snd];
    try discriminate; lia.
Qed.

Lemma cell_negative (g : Grid) (px py : Z) :
  px < 0 \/ py < 0 -> cell g (px, py) = None.
Proof.
  intros H. unfold cell.
  destruct (Z.leb_spec 0 px), (Z.leb_spec 0 py); cbn [andb]; auto; lia.
Qed.

Lemma has_size_insert (h w : nat) (g : Grid) (ki kj : nat)
    (row : list Z) (v : Z) :
  g !! ki = Some row -> has_size h w g ->
  has_size h w (<[ki := <[kj := v]> row]> g).
Proof.
  intros Li [Hl Hr]. split.
  - now rewrite length_insert.
  - apply Forall_insert; [exact Hr | ].
    rewrite length_insert.
    eapply (proj1 (Forall_lookup _ _) Hr); eauto.
Qed.

(** Writing a tile keeps the size of the grid and changes that tile at
    most. *)
Lemma set2_size (h w : nat) (g g' : Grid) (i j v : Z) :
  set2 g i j v = Ok g' -> has_size h w g -> has_size h w g'.
Proof.
  intros S. apply set2_inv in S.
  destruct S as (ki & kj & row & Li & Bj & -> & _ & _).
  now apply has_size_insert.
Qed.

Lemma set2_other (g g' : Grid) (i j v : Z) (p : Z * Z) :
  set2 g i j v = Ok g' ->
  cell g' p = cell g p \/ cell g' p = Some v.
Proof.
  intros S. apply set2_inv in S.
  destruct S as (ki & kj & row & Li & Bj & -> & _ & _).
  destruct p as [px py].
  destruct (Z.lt_ge_cases px 0) as [Nx|Hx];
    [left; rewrite !cell_negative by auto; reflexivity | ].
  destruct (Z.lt_ge_cases py 0) as [Ny|Hy];
    [left; rewrite !cell_negative by auto; reflexivity | ].
  rewrite (cell_insert g ki kj row v px py Li Bj Hx Hy).
  destruct (decide _); auto.
Qed.

Lemma set2_cells (g g' : Grid) (i j v : Z) (px py : Z) :
  set2 g i j v = Ok g' -> 0 <= i -> 0 <= j ->
  cell g' (px, py)
  = if decide (py = i /\ px = j) then Some v else cell g (px, py).
Proof.
  intros S Hi Hj. apply set2_inv in S.
  destruct S as (ki & kj & row & Li & Bj & -> & Ei & Ej).
  rewrite (Ei Hi) in *. rewrite (Ej Hj) in *.
  destruct (Z.lt_ge_cases px 0) as [Nx|Hx].
  { rewrite !cell_negative by auto. rewrite decide_False by lia.
    reflexivity. }
  destruct (Z.lt_ge_cases py 0) as [Ny|Hy].
  { rewrite !cell_negative by auto. rewrite decide_False by lia.
    reflexivity. }
  rewrite (cell_insert g _ _ row v px py Li Bj Hx Hy).
  destruct (decide (Z.to_nat py = Z.to_nat i /\ Z.to_nat px = Z.to_nat j))
    as [[A B]|N].
  - rewrite decide_True by lia. reflexivity.
  - rewrite decide_False by lia. reflexivity.
Qed.

Lemma fill_tiles_size (h w : nat) (tiles : list (Z * Z)) (v : Z)
    (g g' : Grid) :
  fill_tiles tiles v g = Ok g' -> has_size h w g -> has_size h w g'.
Proof.
  revert g. induction tiles as [|[i j] tiles IH]; intros g;
    cbn [fill_tiles].
  - intros [= <-]. auto.
  - destruct (set2 g i j v) as [g1| |] eqn:S; cbn [bind];
      try discriminate.
    intros H Hs. eapply IH; eauto. eapply set2_size; eauto.
Qed.

(** Tiles that hold [v] keep it when tiles are filled with [v]. *)
Lemma fill_tiles_keeps (tiles : list (Z * Z)) (v : Z) (g g' : Grid)
    (p : Z * Z) :
  fill_tiles tiles v g = Ok g' -> cell g p = Some v -> cell g' p = Some v.
Proof.
  revert g. induction tiles as [|[i j] tiles IH]; intros g;
    cbn [fill_tiles].
  - intros [= <-]. auto.
  - destruct (set2 g i j v) as [g1| |] eqn:S; cbn [bind];
      try discriminate.
    intros H C. eapply IH; eauto.
    destruct (set2_other g g1 i j v p S) as [E|E]; congruence.
Qed.

(** Filling tiles that are addressed from the front: the tiles of the list
    hold [v] afterwards, the others what they held. *)
Lemma fill_tiles_cells (tiles : list (Z * Z)) (v : Z) (g g' : Grid)
    (px py : Z) :
  fill_tiles tiles v g = Ok g' ->
  Forall (fun t => 0 <= fst t /\ 0 <= snd t) tiles ->
  cell g' (px, py)
  = if decide (elem_of (py, px) tiles) then Some v else cell g (px, py).
Proof.
  revert g. induction tiles as [|[i j] tiles IH]; intros g;
    cbn [fill_tiles].
  - intros [= <-] _. rewrite decide_False by apply not_elem_of_nil.
    reflexivity.
  - destruct (set2 g i j v) as [g1| |] eqn:S; cbn [bind];
      try discriminate.
    intros H F. inversion F as [|? ? [Hi Hj] F']; subst.
    cbn [fst snd] in Hi, Hj.
    rewrite (IH g1 H F').
    rewrite (set2_cells g g1 i j v px py S Hi Hj).
    destruct (decide (elem_of (py, px) tiles)) as [I|I].
    + rewrite decide_True by (apply elem_of_cons; auto). reflexivity.
    + destruct (decide (py = i /\ px = j)) as [[-> ->]|N].
      * rewrite decide_True by (apply elem_of_cons; auto). reflexivity.
      * rewrite decide_False; [reflexivity | ].
        intros I'. apply elem_of_cons in I'.
        destruct I' as [[= <- <-]|I']; tauto.
Qed.
(** ** The layout of a generated field *)

Lemma place_spawns_spec (G : FieldGenerator.t) (pi : Q) (n : nat) :
  forall (k i j : Z) (reds blues : list (Z * Z * Q)),
    0 <= k -> i = 2 + k mod 2 -> j = 1 + k / 2 ->
    place_spawns G n i j reds blues pi
    = (reds ++ map (fun i => (red_spawn i, 0%Q)) (seqZ k (Z.of_nat n)),
       blues ++ map (fun i => (opposite (FieldGenerator.width G)
                                 (red_spawn i), (- pi)%Q))
                  (seqZ k (Z.of_nat n))).
Proof.
  induction n as [|n IH]; intros k i j reds blues Hk Ei Ej.
  - cbn [place_spawns]. change (Z.of_nat 0) with 0.
    rewrite seqZ_nil by lia. cbn [map]. now rewrite !app_nil_r.
  - cbn [place_spawns].
    rewrite Nat2Z.inj_succ, seqZ_cons by lia.
    replace (Z.pred (Z.succ (Z.of_nat n))) with (Z.of_nat n) by lia.
    cbn [map].
    assert (R : (i, j) = red_spawn k) by (unfold red_spawn; congruence).
    destruct (Z.leb_spec (2 + 2) (i + 1)).
    + rewrite (IH (Z.succ k)); try lia;
        try (Z.div_mod_to_equations; lia).
      rewrite <- !app_assoc. cbn [app]. rewrite <- R. reflexivity.
    + rewrite (IH (Z.succ k)); try lia;
        try (Z.div_mod_to_equations; lia).
      rewrite <- !app_assoc. cbn [app]. rewrite <- R. reflexivity.
Qed.

Lemma place_ammo_spec (G : FieldGenerator.t) (rnd : Random) (n : nat) :
  forall (k k' : nat) (other other' : list (Z * Z * Class)),
    place_ammo G rnd n k other = Ok (other', k') ->
    exists am : list (Z * Z),
      other' = other
               ++ flat_map
                    (fun p => [(p, AmmoFountain);
                               (opposite (FieldGenerator.width G) p,
                                AmmoFountain)]) am
      /\ length am = n
      /\ Forall (fun p => 3 <= fst p <= FieldGenerator.width G / 2 - 1
                          /\ 5 <= snd p <= FieldGenerator.height G - 2) am.
Proof.
  induction n as [|n IH]; intros k k' other other'; cbn [place_ammo].
  - intros [= <- _]. exists []. cbn. rewrite app_nil_r. auto.
  - destruct (randint rnd k 3 _) as [px| |] eqn:X; cbn [bind];
      try discriminate.
    destruct (randint rnd (S k) 5 _) as [py| |] eqn:Y; cbn [bind];
      try discriminate.
    apply randint_range in X, Y.
    intros H. apply IH in H. destruct H as (am & -> & L & F).
    exists ((px, py) :: am). cbn [flat_map length app].
    rewrite <- app_assoc. cbn [app].
    split; [reflexivity | ]. split; [congruence | ].
    constructor; [cbn [fst snd]; lia | exact F].
Qed.

(** What [place_objects] returns, when it returns. *)
Lemma place_objects_spec (G : FieldGenerator.t) (rnd : Random)
    (pi : Q) (k k' : nat) (f : Field.t) :
  let w := FieldGenerator.width G in
  let h := FieldGenerator.height G in
  place_objects G rnd pi k (Field_init w h (FieldGenerator.tilesize G))
  = Ok (f, k') ->
  Field.spawns_red f
  = map (fun i => (red_spawn i, 0%Q))
      (seqZ 0 (FieldGenerator.num_spawns G))
  /\ Field.spawns_blue f
     = map (fun s : Z * Z * Q => (opposite w (fst s), (- pi)%Q))
         (Field.spawns_red f)
  /\ (exists my,
        3 <= my <= h / 2 + 1
        /\ Field.controlpoints f
           = [((w - 1) / 4, h - 4); (w / 2, my);
              opposite w ((w - 1) / 4, h - 4)]
        /\ (w mod 2 = 1 -> opposite w (w / 2, my) = (w / 2, my)))
  /\ (exists am : list (Z * Z),
        Field.other_objects f
        = flat_map (fun p => [(p, AmmoFountain);
                              (opposite w p, AmmoFountain)]) am
        /\ length am = Z.to_nat (FieldGenerator.num_ammo G / 2)
        /\ Forall (fun p => 3 <= fst p <= w / 2 - 1
                            /\ 5 <= snd p <= h - 2) am)
  /\ Field.walls f = [] /\ Field.width f = w /\ Field.height f = h.
Proof.
  intros w h. subst w h. unfold place_objects.
  cbn [Field_init Field.spawns_red Field.spawns_blue Field.controlpoints
       Field.other_objects Field.width Field.height Field.walls length].
  destruct (randint rnd k 3 _) as [my| |] eqn:Y; cbn [bind];
    try discriminate.
  apply randint_range in Y.
  rewrite (place_spawns_spec G pi _ 0 2 1 [] []) by first [reflexivity | lia].
  cbn [app].
  destruct (place_ammo G rnd _ (S k) []) as [[other k1]| |] eqn:A;
    cbn [bind]; try discriminate.
  apply place_ammo_spec in A. destruct A as (am & -> & L & F).
  intros [= <- _].
  cbn [Field.spawns_red Field.spawns_blue Field.controlpoints
       Field.other_objects Field.width Field.height Field.walls app].
  assert (N : Z.of_nat (Z.to_nat (FieldGenerator.num_spawns G
                                  - Z.of_nat 0))
              = Z.max 0 (FieldGenerator.num_spawns G)) by lia.
  rewrite N.
  assert (S0 : seqZ 0 (Z.max 0 (FieldGenerator.num_spawns G))
               = seqZ 0 (FieldGenerator.num_spawns G)).
  { destruct (Z.le_gt_cases 0 (FieldGenerator.num_spawns G)).
    - now rewrite Z.max_r.
    - rewrite Z.max_l by lia. now rewrite !seqZ_nil by lia. }
  rewrite S0.
  split; [reflexivity | ].
  split; [now rewrite map_map | ].
  split.
  { exists my. split; [exact Y | ].
    split.
    { unfold opposite. cbn [fst snd].
      replace (FieldGenerator.height G - 1 - 3)
        with (FieldGenerator.height G - 4) by lia.
      reflexivity. }
    intros O. unfold opposite. cbn [fst snd]. f_equal.
    Z.div_mod_to_equations. lia. }
  split; [ | auto].
  exists am. auto.
Qed.

Lemma randint_returns (rnd : Random) (k : nat) (a b : Z) :
  a <= b -> exists v, randint rnd k a b = Ok v.
Proof.
  intros H. unfold randint. destruct (Z.ltb_spec b a); [lia | eauto].
Qed.

Lemma place_ammo_returns (G : FieldGenerator.t) (rnd : Random) (n : nat) :
  3 <= FieldGenerator.width G / 2 - 1 ->
  5 <= FieldGenerator.height G - 2 ->
  forall (k : nat) (other : list (Z * Z * Class)),
    exists r, place_ammo G rnd n k other = Ok r.
Proof.
  intros Hw Hh. induction n as [|n IH]; intros k other; cbn [place_ammo].
  - eauto.
  - destruct (randint_returns rnd k 3 _ Hw) as [px ->].
    destruct (randint_returns rnd (S k) 5 _ Hh) as [py ->].
    cbn [bind]. apply IH.
Qed.

(** X16.  [place_objects] returns for every field of at least 8 by 7 tiles,
    whatever is drawn, and lays the new field out in mirrored pairs.  The red spawns fill the columns 2 and 3 row by row from row
    1, facing right; each blue spawn lies opposite to a red one and faces
    left.  The three control points are one on the left, its opposite, and
    one in the column [width/2], which is its own opposite when the width
    is odd.  The ammo fountains come in [num_ammo/2] pairs of opposite
    tiles, so that an odd [num_ammo] places one fountain less. *)
Theorem objects_are_placed_in_pairs (G : FieldGenerator.t) (rnd : Random)
    (pi : Q) (k : nat) :
  let w := FieldGenerator.width G in
  let h := FieldGenerator.height G in
  8 <= w -> 7 <= h ->
  exists f k',
    place_objects G rnd pi k (Field_init w h (FieldGenerator.tilesize G))
    = Ok (f, k')
    /\ Field.spawns_red f
       = map (fun i => (red_spawn i, 0%Q))
           (seqZ 0 (FieldGenerator.num_spawns G))
    /\ Field.spawns_blue f
       = map (fun s : Z * Z * Q => (opposite w (fst s), (- pi)%Q))
           (Field.spawns_red f)
    /\ (exists my,
          3 <= my <= h / 2 + 1
          /\ Field.controlpoints f
             = [((w - 1) / 4, h - 4); (w / 2, my);
                opposite w ((w - 1) / 4, h - 4)]
          /\ (w mod 2 = 1 -> opposite w (w / 2, my) = (w / 2, my)))
    /\ (exists am : list (Z * Z),
          Field.other_objects f
          = flat_map (fun p => [(p, AmmoFountain);
                                (opposite w p, AmmoFountain)]) am
          /\ length am = Z.to_nat (FieldGenerator.num_ammo G / 2)
          /\ Forall (fun p => 3 <= fst p <= w / 2 - 1
                              /\ 5 <= snd p <= h - 2) am)
    /\ Field.walls f = [] /\ Field.width f = w /\ Field.height f = h.
Proof.
  intros w h Hw Hh. subst w h.
  assert (R : exists r,
             place_objects G rnd pi k
               (Field_init (FieldGenerator.width G)
                  (FieldGenerator.height G) (FieldGenerator.tilesize G))
             = Ok r).
  { unfold place_objects.
    destruct (randint_returns rnd k 3 (FieldGenerator.height G / 2 + 1))
      as [my ->]; [Z.div_mod_to_equations; lia | ].
    cbn [bind]. destruct (place_spawns G _ 2 1 _ _ pi) as [reds blues].
    destruct (place_ammo_returns G rnd
                (Z.to_nat (FieldGenerator.num_ammo G / 2))
                ltac:(Z.div_mod_to_equations; lia)
                ltac:(lia) (S k)
                (Field.other_objects
                   (Field_init (FieldGenerator.width G)
                      (FieldGenerator.height G)
                      (FieldGenerator.tilesize G))))
      as [[other k1] ->].
    cbn [bind]. eauto. }
  destruct R as [[f k'] R]. exists f, k'. split; [exact R | ].
  exact (place_objects_spec G rnd pi k k' f R).
Qed.

Lemma objects_are_placed_in_pairs_witness :
  let G := small_generator in
  let w := FieldGenerator.width G in
  let h := FieldGenerator.height G in
  exists f k',
    place_objects G some_draws (22 # 7) 0
      (Field_init w h (FieldGenerator.tilesize G))
    = Ok (f, k')
    /\ Field.spawns_red f
       = map (fun i => (red_spawn i, 0%Q))
           (seqZ 0 (FieldGenerator.num_spawns G))
    /\ Field.spawns_blue f
       = map (fun s : Z * Z * Q => (opposite w (fst s), (- (22 # 7))%Q))
           (Field.spawns_red f)
    /\ (exists my,
          3 <= my <= h / 2 + 1
          /\ Field.controlpoints f
             = [((w - 1) / 4, h - 4); (w / 2, my);
                opposite w ((w - 1) / 4, h - 4)]
          /\ (w mod 2 = 1 -> opposite w (w / 2, my) = (w / 2, my)))
    /\ (exists am : list (Z * Z),
          Field.other_objects f
          = flat_map (fun p => [(p, AmmoFountain);
                                (opposite w p, AmmoFountain)]) am
          /\ length am = Z.to_nat (FieldGenerator.num_ammo G / 2)
          /\ Forall (fun p => 3 <= fst p <= w / 2 - 1
                              /\ 5 <= snd p <= h - 2) am)
    /\ Field.walls f = [] /\ Field.width f = w /\ Field.height f = h.
Proof.
  apply (objects_are_placed_in_pairs small_generator some_draws (22 # 7) 0);
    discriminate.
Defined.
(** ** The reflected map *)

Lemma transpose_rows {A} (m : list (list A)) :
  Forall (fun r => length r = length m) (transpose m).
Proof.
  induction m as [|r m IH]; cbn [transpose]; [constructor | ].
  destruct m as [|r' m'].
  - apply Forall_fmap, Forall_true. reflexivity.
  - apply Forall_lookup. intros i col H.
    apply lookup_zip_with_Some in H.
    destruct H as (a & col' & -> & _ & Hc).
    cbn [length]. f_equal.
    exact (proj1 (Forall_lookup _ _) IH i col' Hc).
Qed.

Lemma mirror_twice (n px : Z) :
  0 <= px < n -> mirror n (n - 1 - px) = mirror n px.
Proof.
  intros H. unfold mirror.
  destruct (Z.ltb_spec (n - 1 - px) (n / 2)), (Z.ltb_spec px (n / 2));
    Z.div_mod_to_equations; lia.
Qed.

Lemma mirror_range (n px : Z) :
  0 <= px < n -> 0 <= mirror n px < (n + 1) / 2.
Proof.
  intros H. unfold mirror.
  destruct (Z.ltb_spec px (n / 2)); Z.div_mod_to_equations; lia.
Qed.

(** The columns the reflection collects, and what it makes of them. *)
Lemma reflect_tilemap_inv (tilemap full : Grid) (n : Z) :
  reflect_tilemap tilemap n = Ok full ->
  exists nt : Grid,
    full = transpose nt
    /\ length nt = Z.to_nat n
    /\ Forall (fun c => length c = length tilemap) nt
    /\ forall px c,
         0 <= px -> nt !! Z.to_nat px = Some c ->
         py_get (transpose tilemap) (mirror n px) = Ok c.
Proof.
  unfold reflect_tilemap. intros H.
  destruct (mapR _ _) as [nt| |] eqn:M; cbn [bind] in H;
    try discriminate.
  injection H as <-. exists nt.
  apply mapR_Forall2 in M.
  split; [reflexivity | ]. split.
  { apply Forall2_length in M. rewrite length_seqZ in M. lia. }
  assert (G : forall px c,
             0 <= px -> nt !! Z.to_nat px = Some c ->
             py_get (transpose tilemap) (mirror n px) = Ok c).
  { intros px c Hx Lc.
    destruct (Forall2_lookup_r _ _ _ _ _ M Lc) as (z & Lz & G).
    apply lookup_seqZ in Lz. destruct Lz as [-> _].
    replace (0 + Z.of_nat (Z.to_nat px)) with px in G by lia.
    exact G. }
  split; [ | exact G].
  apply Forall_lookup. intros i c Lc.
  specialize (G (Z.of_nat i) c ltac:(lia)).
  rewrite Nat2Z.id in G. specialize (G Lc).
  apply py_get_spec in G. destruct G as (k & _ & G).
  exact (proj1 (Forall_lookup _ _) (transpose_rows tilemap) k c G).
Qed.

Lemma reflect_tilemap_size (tilemap full : Grid) (n : Z) :
  reflect_tilemap tilemap n = Ok full -> 0 < n ->
  has_size (length tilemap) (Z.to_nat n) full.
Proof.
  intros H Hn. apply reflect_tilemap_inv in H.
  destruct H as (nt & -> & Ln & Lc & _).
  split.
  - apply transpose_length; [ | exact Lc].
    intros ->. cbn in Ln. lia.
  - rewrite <- Ln. apply transpose_rows.
Qed.

Lemma cell_transpose (nt : Grid) (px py : Z) (c : list Z) :
  0 <= px -> 0 <= py ->
  Forall (fun c => length c = length (hd [] nt)) nt ->
  nt !! Z.to_nat px = Some c ->
  cell (transpose nt) (px, py) = c !! Z.to_nat py.
Proof.
  intros Hx Hy Len Lc. unfold cell.
  destruct (Z.leb_spec 0 px), (Z.leb_spec 0 py); try lia. cbn [andb].
  assert (NE : nt <> []) by (intros ->; discriminate).
  pose proof (transpose_length nt _ NE Len) as LT.
  assert (Lh : length c = length (hd [] nt))
    by exact (proj1 (Forall_lookup _ _) Len _ _ Lc).
  destruct (transpose nt !! Z.to_nat py) as [frow|] eqn:Lf.
  - pose proof (transpose_lookup _ _ _ Lf) as T.
    destruct (Forall2_lookup_l _ _ _ _ _ T Lc) as (b & Lb & Cb).
    cbn in Cb. congruence.
  - apply lookup_ge_None in Lf. symmetry. apply lookup_ge_None. lia.
Qed.

Lemma same_length_hd (nt : Grid) (k : nat) :
  Forall (fun c => length c = k) nt ->
  Forall (fun c => length c = length (hd [] nt)) nt.
Proof.
  intros F. destruct nt as [|c nt]; [constructor | ]. cbn [hd].
  inversion F as [|? ? Hc F']; subst.
  eapply Forall_impl; [exact F | ]. cbn. congruence.
Qed.

Lemma reflect_tilemap_symmetric (tilemap full : Grid) (n : Z) :
  reflect_tilemap tilemap n = Ok full -> 0 < n ->
  has_size (length tilemap) (Z.to_nat n) full
  /\ (forall px py,
        0 <= px < n -> cell full (px, py) = cell full (n - 1 - px, py))
  /\ (forall px py,
        0 <= px < n -> 0 <= py ->
        cell full (px, py) = cell tilemap (mirror n px, py)).
Proof.
  intros H Hn. split; [exact (reflect_tilemap_size _ _ _ H Hn) | ].
  apply reflect_tilemap_inv in H.
  destruct H as (nt & -> & Ln & Lc & G).
  pose proof (same_length_hd nt _ Lc) as Lh.
  assert (Col : forall px, 0 <= px < n ->
                  exists c, nt !! Z.to_nat px = Some c).
  { intros px Hx. apply lookup_lt_is_Some_2. lia. }
  split.
  - intros px py Hx.
    destruct (Z.lt_ge_cases py 0) as [Ny|Hy];
      [rewrite !cell_negative by auto; reflexivity | ].
    destruct (Col px Hx) as [c Lx].
    destruct (Col (n - 1 - px) ltac:(lia)) as [c' Lx'].
    pose proof (G px c ltac:(lia) Lx) as E.
    pose proof (G (n - 1 - px) c' ltac:(lia) Lx') as E'.
    rewrite mirror_twice in E' by exact Hx.
    assert (c' = c) by congruence. subst c'.
    rewrite (cell_transpose nt px py c) by (auto; lia).
    rewrite (cell_transpose nt (n - 1 - px) py c) by (auto; lia).
    reflexivity.
  - intros px py Hx Hy.
    destruct (Col px Hx) as [c Lx].
    rewrite (cell_transpose nt px py c) by (auto; lia).
    pose proof (G px c ltac:(lia) Lx) as E.
    pose proof (mirror_range n px Hx) as Mr.
    apply py_get_spec in E. destruct E as (k & Ik & E).
    apply py_index_spec in Ik. destruct Ik as [_ Ek].
    rewrite (Ek ltac:(lia)) in E.
    pose proof (transpose_lookup _ _ _ E) as T.
    unfold cell.
    destruct (Z.leb_spec 0 (mirror n px)), (Z.leb_spec 0 py); try lia.
    cbn [andb].
    destruct (tilemap !! Z.to_nat py) as [row|] eqn:Lr.
    + destruct (Forall2_lookup_l _ _ _ _ _ T Lr) as (b & Lb & Cb).
      cbn in Cb. congruence.
    + apply lookup_ge_None. apply lookup_ge_None in Lr.
      rewrite <- (Forall2_length _ _ _ T). exact Lr.
Qed.

(** X17.  The map [reflect_tilemap] returns for a new size [n > 0] has as
    many rows as the map it was given, every row has [n] tiles, and it is
    symmetric about its vertical axis: the tile in column [x] of a row is
    the tile in column [n - 1 - x].  The left half shows the columns of the
    map that was given, the right half shows them in reverse order. *)
Theorem reflected_map_is_symmetric (tilemap full : Grid) (n : Z) :
  reflect_tilemap tilemap n = Ok full -> 0 < n ->
  has_size (length tilemap) (Z.to_nat n) full
  /\ (forall px py,
        0 <= px < n -> cell full (px, py) = cell full (n - 1 - px, py))
  /\ (forall px py,
        0 <= px < n -> 0 <= py ->
        cell full (px, py) = cell tilemap (mirror n px, py)).
Proof.
  intros H Hn. now apply reflect_tilemap_symmetric.
Qed.

Lemma reflected_map_is_symmetric_witness :
  let tilemap := outer_walls 3 3 in
  let full := Field.walls corridor in
  has_size (length tilemap) (Z.to_nat 5) full
  /\ (forall px py,
        0 <= px < 5 -> cell full (px, py) = cell full (5 - 1 - px, py))
  /\ (forall px py,
        0 <= px < 5 -> 0 <= py ->
        cell full (px, py) = cell tilemap (mirror 5 px, py)).
Proof.
  apply (reflected_map_is_symmetric (outer_walls 3 3)
           (Field.walls corridor) 5); reflexivity.
Defined.
(** ** The walls around a generated field *)

Lemma py_int_floor (q : Q) : (0 <= q)%Q -> py_int q = Qfloor q.
Proof.
  intros H. unfold py_int. apply Qltb_ge in H. now rewrite H.
Qed.

Lemma Qfloor_between (q : Q) (a b : Z) :
  (inject_Z a <= q)%Q -> (q < inject_Z b + 1)%Q -> a <= Qfloor q <= b.
Proof.
  intros A B.
  pose proof (Qfloor_le q) as F1. pose proof (Qlt_floor q) as F2.
  rewrite inject_Z_plus in F2. change (inject_Z 1) with 1%Q in F2.
  split.
  - assert (L : (inject_Z a < inject_Z (Qfloor q + 1))%Q).
    { rewrite inject_Z_plus. change (inject_Z 1) with 1%Q. lra. }
    rewrite <- Zlt_Qlt in L. lia.
  - assert (L : (inject_Z (Qfloor q) < inject_Z (b + 1))%Q).
    { rewrite inject_Z_plus. change (inject_Z 1) with 1%Q. lra. }
    rewrite <- Zlt_Qlt in L. lia.
Qed.

(** [int(z + q + 0.5)] for an integer [z >= 1]: a [q] between -1 and 1
    gives a neighbour of [z] or [z] itself, a [q] between -1/2 and 1/2
    gives [z]. *)
Lemma py_int_near (z : Z) (q : Q) :
  1 <= z -> (- (1) <= q <= 1)%Q ->
  z - 1 <= py_int (inject_Z z + q + (1 # 2))%Q <= z + 1.
Proof.
  intros Hz Hq.
  assert (P : (1 <= inject_Z z)%Q)
    by (change 1%Q with (inject_Z 1); rewrite <- Zle_Qle; exact Hz).
  rewrite py_int_floor by lra.
  apply Qfloor_between.
  - unfold Z.sub. rewrite inject_Z_plus, inject_Z_opp.
    change (inject_Z 1) with 1%Q. lra.
  - rewrite inject_Z_plus. change (inject_Z 1) with 1%Q. lra.
Qed.

Lemma py_int_same (z : Z) (q : Q) :
  1 <= z -> (- (1 # 2) <= q)%Q -> (q < 1 # 2)%Q ->
  py_int (inject_Z z + q + (1 # 2))%Q = z.
Proof.
  intros Hz Hq1 Hq2.
  assert (P : (1 <= inject_Z z)%Q)
    by (change 1%Q with (inject_Z 1); rewrite <- Zle_Qle; exact Hz).
  rewrite py_int_floor by lra.
  assert (B : z <= Qfloor (inject_Z z + q + (1 # 2)) <= z)
    by (apply Qfloor_between; lra).
  lia.
Qed.

(** *** The half map *)

Lemma cell_lookup (g : Grid) (px py : Z) (row : list Z) :
  0 <= px -> 0 <= py -> g !! Z.to_nat py = Some row ->
  cell g (px, py) = row !! Z.to_nat px.
Proof.
  intros Hx Hy L. unfold cell.
  destruct (Z.leb_spec 0 px), (Z.leb_spec 0 py); try lia. cbn [andb].
  now rewrite L.
Qed.

Lemma outer_walls_walled (hw h : Z) :
  1 <= hw -> 2 <= h -> walled_half hw h (outer_walls hw h).
Proof.
  intros Hw Hh.
  assert (Rows : forall py, 0 <= py < h ->
            outer_walls hw h !! Z.to_nat py
            = Some (if decide (py = 0 \/ py = h - 1)
                    then replicate (Z.to_nat hw) 1
                    else [1] ++ replicate (Z.to_nat (hw - 1)) 0)).
  { intros py Hy. destruct (decide (py = 0 \/ py = h - 1)) as [[->| ->]|N].
    - reflexivity.
    - unfold outer_walls. cbn [app].
      rewrite lookup_cons_ne_0 by lia.
      rewrite lookup_app_r by (rewrite length_replicate; lia).
      rewrite length_replicate.
      replace (Nat.pred (Z.to_nat (h - 1)) - Z.to_nat (h - 2))%nat
        with 0%nat by lia.
      reflexivity.
    - apply outer_walls_inner_row. lia. }
  split; [ | split].
  - split.
    + unfold outer_walls.
      rewrite !length_app, length_replicate. cbn [length]. lia.
    + unfold outer_walls. rewrite !Forall_app. repeat split.
      * repeat constructor. rewrite length_replicate. reflexivity.
      * apply Forall_replicate. cbn [app length].
        rewrite length_replicate. lia.
      * repeat constructor. rewrite length_replicate. reflexivity.
  - intros [px py] v C.
    destruct (cell_nonneg _ _ _ C) as [Hx Hy]. cbn [fst snd] in Hx, Hy.
    destruct (Z.lt_ge_cases py h) as [Ly|Gy].
    + rewrite (cell_lookup _ px py _ Hx Hy (Rows py ltac:(lia))) in C.
      destruct (decide _).
      * apply lookup_replicate in C. destruct C as [-> _]. auto.
      * destruct (decide (px = 0)) as [->|Nx].
        -- cbn in C. injection C as <-. auto.
        -- cbn [app] in C. rewrite lookup_cons_ne_0 in C by lia.
           apply lookup_replicate in C. destruct C as [-> _]. auto.
    + unfold cell in C.
      destruct (Z.leb_spec 0 px), (Z.leb_spec 0 py); try lia.
      cbn [andb] in C.
      assert (N : outer_walls hw h !! Z.to_nat py = None).
      { apply lookup_ge_None. unfold outer_walls.
        rewrite !length_app, length_replicate. cbn [length]. lia. }
      rewrite N in C. discriminate.
  - intros px py Hx Hy B.
    rewrite (cell_lookup _ px py _ ltac:(lia) ltac:(lia)
               (Rows py Hy)).
    destruct (decide (py = 0 \/ py = h - 1)) as [D|N].
    + apply lookup_replicate_2. lia.
    + assert (px = 0) as -> by lia. reflexivity.
Qed.

Lemma fill_tiles_binary (tiles : list (Z * Z)) (v : Z) (g g' : Grid) :
  fill_tiles tiles v g = Ok g' -> v = 0 \/ v = 1 ->
  (forall p u, cell g p = Some u -> u = 0 \/ u = 1) ->
  forall p u, cell g' p = Some u -> u = 0 \/ u = 1.
Proof.
  intros H Hv. revert g H.
  induction tiles as [|[i j] tiles IH]; intros g; cbn [fill_tiles].
  - intros [= <-]. auto.
  - destruct (set2 g i j v) as [g1| |] eqn:S; cbn [bind];
      try discriminate.
    intros H B. apply (IH g1 H). intros p u C.
    destruct (set2_other g g1 i j v p S) as [E|E]; rewrite E in C.
    + eauto.
    + injection C as <-. exact Hv.
Qed.

Lemma candidate_walled (G : FieldGenerator.t) (rnd : Random) (k : nat)
    (hw h : Z) (t new : Grid) :
  candidate G rnd k hw t = Ok new ->
  walled_half hw h t -> walled_half hw h new.
Proof.
  unfold candidate. destruct (FieldGenerator.wall_len G) as [lo hi].
  destruct (randint rnd (S k) lo hi) as [len| |]; cbn [bind];
    try discriminate.
  destruct (if Qltb _ _ then _ else _) as [sw sh].
  destruct (randint rnd (S (S k)) 1 _) as [px| |]; cbn [bind];
    try discriminate.
  destruct (randint rnd (S (S (S k))) 1 _) as [py| |]; cbn [bind];
    try discriminate.
  destruct (FieldGenerator.wall_gridsize G =? 0); [discriminate | ].
  intros F (Sz & Bin & Rim). split; [ | split].
  - eapply fill_tiles_size; eauto.
  - eapply fill_tiles_binary; eauto.
  - intros x y Hx Hy B. eapply fill_tiles_keeps; eauto.
Qed.

(** What holds of the first half map and is kept by every candidate holds
    of the half map the loop ends with. *)
Lemma wall_loop_preserves (P : Grid -> Prop) (G : FieldGenerator.t)
    (rnd : Random) (halfwidth : Z) (start : Z * Z) (pts : list (Z * Z)) :
  (forall k t new,
     P t -> candidate G rnd k halfwidth t = Ok new -> P new) ->
  forall fuel k failed tilemap tilemap',
    P tilemap ->
    wall_loop G rnd fuel k halfwidth start pts failed tilemap
    = Ok tilemap' ->
    P tilemap'.
Proof.
  intros Hc fuel. induction fuel as [|fuel IH];
    intros k failed tilemap tilemap' HP; cbn [wall_loop];
    destruct (_ && _); try discriminate;
    try (intros [= <-]; exact HP).
  destruct (candidate _ _ _ _ _) as [new| |] eqn:C; cbn [bind];
    try discriminate.
  destruct (reflect_tilemap new _) as [full| |] eqn:R; cbn [bind];
    try discriminate.
  destruct (all_reachable _ _) as [[|]| |] eqn:A; cbn [bind];
    try discriminate.
  - apply IH. eapply Hc; eauto.
  - apply IH. exact HP.
Qed.

(** *** The full map *)

Lemma reflect_walled (w h : Z) (t full : Grid) :
  2 <= w -> 2 <= h ->
  walled_half ((w + 1) / 2) h t ->
  reflect_tilemap t w = Ok full ->
  has_size (Z.to_nat h) (Z.to_nat w) full
  /\ (forall p v, cell full p = Some v -> v = 0 \/ v = 1)
  /\ (forall p, on_rim w h p -> cell full p = Some 1).
Proof.
  intros Hw Hh ((Len & Rows) & Bin & Rim) R.
  destruct (reflect_tilemap_symmetric t full w R ltac:(lia))
    as (Sz & _ & Cells).
  rewrite Len in Sz. split; [exact Sz | ].
  assert (In_range : forall px py v,
            cell full (px, py) = Some v -> 0 <= px < w).
  { intros px py v C. destruct (cell_nonneg _ _ _ C) as [Hx Hy].
    cbn [fst snd] in Hx, Hy. split; [exact Hx | ].
    unfold cell in C.
    destruct (Z.leb_spec 0 px), (Z.leb_spec 0 py); try lia.
    cbn [andb] in C.
    destruct (full !! Z.to_nat py) as [row|] eqn:L; [ | discriminate].
    apply lookup_lt_Some in C.
    rewrite (proj1 (Forall_lookup _ _) (proj2 Sz) _ _ L) in C. lia. }
  split.
  - intros [px py] v C. pose proof (In_range px py v C) as Hx.
    destruct (cell_nonneg _ _ _ C) as [_ Hy]. cbn [snd] in Hy.
    rewrite (Cells px py Hx Hy) in C. eauto.
  - intros [px py] (Hx & Hy & B). cbn [fst snd] in Hx, Hy, B.
    rewrite (Cells px py Hx ltac:(lia)).
    pose proof (mirror_range w px Hx) as M.
    apply Rim; [exact M | exact Hy | ].
    unfold mirror. destruct (Z.ltb_spec px (w / 2));
      Z.div_mod_to_equations; lia.
Qed.

(** *** The tiles that are cleared *)

Section Cleared.

Variable G : FieldGenerator.t.
Variables cos sin : Q -> Q.
Variable pi : Q.

Local Abbreviation w := (FieldGenerator.width G).
Local Abbreviation h := (FieldGenerator.height G).

Hypothesis wide : 9 <= w.
Hypothesis high : 7 <= h.
Hypothesis spawns_fit : FieldGenerator.num_spawns G <= 2 * (h - 2).
Hypothesis cos_right : (- (1) <= cos 0 <= 1)%Q.
Hypothesis cos_left : (- (1) <= cos (- pi) <= 1)%Q.
Hypothesis sin_right : (- (1 # 2) <= sin 0 < 1 # 2)%Q.
Hypothesis sin_left : (- (1 # 2) <= sin (- pi) < 1 # 2)%Q.

Lemma red_spawn_range (i : Z) :
  0 <= i < FieldGenerator.num_spawns G ->
  2 <= fst (red_spawn i) <= 3 /\ 1 <= snd (red_spawn i) <= h - 2.
Proof.
  intros H. unfold red_spawn. cbn [fst snd].
  Z.div_mod_to_equations. lia.
Qed.

(** Every tile [clear_walls_under_objects] writes lies inside the rim. *)
Lemma cleared_tiles_interior (rnd : Random) (k k' : nat) (f : Field.t) :
  place_objects G rnd pi k (Field_init w h (FieldGenerator.tilesize G))
  = Ok (f, k') ->
  Forall (interior w h) (tiles_under_objects cos sin f).
Proof.
  intros P. apply place_objects_spec in P. cbv zeta in P.
  destruct P as (Er & Eb & (my & Hmy & Ec & _) & (am & Eo & _ & Fa) & _).
  unfold tiles_under_objects. rewrite Eb, Er, Ec, Eo.
  rewrite !Forall_app. split; [ | split].
  - apply Forall_flat_map. rewrite Forall_app. split.
    + apply Forall_forall. intros s Hs.
      apply list_elem_of_In, in_map_iff in Hs.
      destruct Hs as (i & <- & Hi).
      apply list_elem_of_In, elem_of_seqZ in Hi.
      destruct (red_spawn_range i ltac:(lia)) as [Hx Hy].
      destruct (red_spawn i) as [sx sy]. cbn [fst snd] in Hx, Hy.
      destruct sin_right. 
      pose proof (py_int_near sx (cos 0) ltac:(lia) cos_right).
      rewrite (py_int_same sy (sin 0)) by (auto; lia).
      repeat constructor; cbn [fst snd]; lia.
    + apply Forall_forall. intros s Hs.
      apply list_elem_of_In, in_map_iff in Hs.
      destruct Hs as (s0 & <- & Hs). apply in_map_iff in Hs.
      destruct Hs as (i & <- & Hi).
      apply list_elem_of_In, elem_of_seqZ in Hi.
      destruct (red_spawn_range i ltac:(lia)) as [Hx Hy].
      cbn [fst]. unfold opposite.
      destruct (red_spawn i) as [sx sy]. cbn [fst snd] in *.
      destruct sin_left.
      pose proof (py_int_near (w - 1 - sx) (cos (- pi)) ltac:(lia)
                    cos_left).
      rewrite (py_int_same sy (sin (- pi))) by (auto; lia).
      repeat constructor; cbn [fst snd]; lia.
  - apply Forall_flat_map.
    assert (1 < (w - 1) / 4 /\ (w - 1) / 4 < w - 3)
      by (Z.div_mod_to_equations; lia).
    assert (1 < w / 2 < w - 2) by (Z.div_mod_to_equations; lia).
    assert (h / 2 + 2 <= h - 2) by (Z.div_mod_to_equations; lia).
    assert (B : forall px py, 2 <= px <= w - 3 -> 2 <= py <= h - 3 ->
                Forall (interior w h) (block (py - 1) 3 (px - 1) 3)).
    { intros px py Hx Hy. apply Forall_forall. intros [i j] Hij.
      apply list_elem_of_In, block_In in Hij.
      split; cbn [fst snd]; lia. }
    unfold opposite. cbn [fst snd].
    apply Forall_cons; split; [apply B; lia | ].
    apply Forall_cons; split; [apply B; lia | ].
    apply Forall_cons; split; [apply B; lia | ].
    apply Forall_nil. exact I.
  - apply Forall_flat_map. apply Forall_flat_map.
    eapply Forall_impl; [exact Fa | ].
    intros [px py] [Hx Hy]. cbn [fst snd] in Hx, Hy.
    assert (w / 2 - 1 <= w - 2) by (Z.div_mod_to_equations; lia).
    assert (1 <= w - (w / 2)) by (Z.div_mod_to_equations; lia).
    unfold opposite. cbn [fst snd].
    repeat constructor; cbn [fst snd]; lia.
Qed.

End Cleared.

(** How [generate] arrives at its field. *)
Lemma generate_inv (G : FieldGenerator.t) (rnd : Random)
    (cos sin : Q -> Q) (pi : Q) (fuel : nat) (f : Field.t) :
  0 <= FieldGenerator.width G ->
  generate G rnd cos sin pi fuel = Ok f ->
  exists f1 k start t walls2 walls3,
    place_objects G rnd pi 0
      (Field_init (FieldGenerator.width G) (FieldGenerator.height G)
         (FieldGenerator.tilesize G)) = Ok (f1, k)
    /\ wall_loop G rnd fuel k ((FieldGenerator.width G + 1) / 2) start
         (reachable_points f1) 0
         (outer_walls ((FieldGenerator.width G + 1) / 2)
            (FieldGenerator.height G)) = Ok t
    /\ reflect_tilemap t (FieldGenerator.width G) = Ok walls2
    /\ fill_tiles (tiles_under_objects cos sin f1) 0 walls2 = Ok walls3
    /\ f = Field.set_walls walls3 f1.
Proof.
  intros Hw. unfold generate.
  destruct (place_objects _ _ _ _ _) as [[f1 k]| |] eqn:P; cbn [bind];
    try discriminate.
  unfold create_wall_map.
  destruct (Field.spawns_red f1) as [|[[sx sy] sr] rest] eqn:Sp;
    [discriminate | ].
  rewrite (halfwidth_spec _ Hw).
  destruct (wall_loop _ _ _ _ _ _ _ _ _) as [t| |] eqn:L; cbn [bind];
    try discriminate.
  destruct (reflect_tilemap t _) as [walls2| |] eqn:R; cbn [bind];
    try discriminate.
  unfold clear_walls_under_objects.
  change (tiles_under_objects cos sin (Field.set_walls walls2 f1))
    with (tiles_under_objects cos sin f1).
  cbn [Field.walls Field.set_walls].
  destruct (fill_tiles _ 0 walls2) as [walls3| |] eqn:F; cbn [bind];
    try discriminate.
  intros [= <-].
  exists f1, k, (sx, sy), t, walls2, walls3.
  repeat split; auto.
Qed.

(** X18.  Every field [generate] returns for a generator of at least 9 by
    7 tiles whose spawns fit between the top and the bottom wall is walled
    in: the wall grid has [height] rows of [width] tiles, every tile is 0
    or 1, and every tile on the rim of the field is a wall.  The wall
    sections only add walls, and the tiles cleared under the objects lie
    inside the rim.  ([cos] and [sin] need only be what they are for a spawn
    that faces right or left: between -1 and 1, the sine less than a half
    in size.) *)
Theorem generated_field_is_walled_in (G : FieldGenerator.t)
    (rnd : Random) (cos sin : Q -> Q) (pi : Q) (fuel : nat)
    (f : Field.t) :
  let w := FieldGenerator.width G in
  let h := FieldGenerator.height G in
  9 <= w -> 7 <= h ->
  FieldGenerator.num_spawns G <= 2 * (h - 2) ->
  (- (1) <= cos 0 <= 1)%Q -> (- (1) <= cos (- pi) <= 1)%Q ->
  (- (1 # 2) <= sin 0 < 1 # 2)%Q ->
  (- (1 # 2) <= sin (- pi) < 1 # 2)%Q ->
  generate G rnd cos sin pi fuel = Ok f ->
  has_size (Z.to_nat h) (Z.to_nat w) (Field.walls f)
  /\ (forall p v, cell (Field.walls f) p = Some v -> v = 0 \/ v = 1)
  /\ (forall p, on_rim w h p -> cell (Field.walls f) p = Some 1).
Proof.
  intros w h Hw Hh Hn C0 C1 S0 S1 Gen. subst w h.
  destruct (generate_inv G rnd cos sin pi fuel f ltac:(lia) Gen)
    as (f1 & k & start & t & walls2 & walls3 & P & L & R & F & ->).
  cbn [Field.walls Field.set_walls].
  assert (Wt : walled_half ((FieldGenerator.width G + 1) / 2)
                 (FieldGenerator.height G) t).
  { eapply (wall_loop_preserves
              (walled_half ((FieldGenerator.width G + 1) / 2)
                 (FieldGenerator.height G))); [ | | exact L].
    - intros k0 t0 new Ht Hc. eapply candidate_walled; eauto.
    - apply outer_walls_walled; [ | lia].
      apply Z.div_le_lower_bound; lia. }
  destruct (reflect_walled (FieldGenerator.width G)
              (FieldGenerator.height G) t walls2 ltac:(lia) ltac:(lia)
              Wt R)
    as (Sz & Bin & Rim).
  pose proof (cleared_tiles_interior G cos sin pi Hw Hh Hn C0 C1 S0 S1
                rnd 0 k f1 P) as Int.
  split; [eapply fill_tiles_size; eauto | ].
  split; [eapply fill_tiles_binary; eauto | ].
  intros [px py] Hr.
  rewrite (fill_tiles_cells _ 0 walls2 walls3 px py F).
  - rewrite decide_False; [apply Rim; exact Hr | ].
    intros E.
    pose proof (proj1 (Forall_forall _ _) Int _ E) as [A B].
    destruct Hr as (Hx & Hy & D). cbn [fst snd] in *. lia.
  - eapply Forall_impl; [exact Int | ].
    intros [i j] [A B]. cbn [fst snd] in *. lia.
Qed.

Lemma generated_field_is_walled_in_witness :
  let w := FieldGenerator.width small_generator in
  let h := FieldGenerator.height small_generator in
  has_size (Z.to_nat h) (Z.to_nat w) (Field.walls small_field)
  /\ (forall p v, cell (Field.walls small_field) p = Some v ->
        v = 0 \/ v = 1)
  /\ (forall p, on_rim w h p -> cell (Field.walls small_field) p = Some 1).
Proof.
  apply (generated_field_is_walled_in small_generator some_draws
           (cos still_world) (sin still_world) (22 # 7)%Q 200 small_field).
  - discriminate.
  - discriminate.
  - discriminate.
  - split; discriminate.
  - split; discriminate.
  - split; [discriminate | reflexivity].
  - split; [discriminate | reflexivity].
  - vm_compute. reflexivity.
Defined.
(** ** The symmetry of a generated field *)

Lemma py_int_shift (z d : Z) (q : Q) :
  1 <= z + d -> (q == inject_Z d)%Q ->
  py_int (inject_Z z + q + (1 # 2))%Q = z + d.
Proof.
  intros Hz Hq.
  assert (P : (1 <= inject_Z (z + d))%Q)
    by (change 1%Q with (inject_Z 1); rewrite <- Zle_Qle; exact Hz).
  rewrite inject_Z_plus in P.
  rewrite py_int_floor by lra.
  assert (B : z + d <= Qfloor (inject_Z z + q + (1 # 2)) <= z + d).
  { apply Qfloor_between; rewrite inject_Z_plus; lra. }
  lia.
Qed.

Section Mirrored.

Variable G : FieldGenerator.t.
Variables cos sin : Q -> Q.
Variable pi : Q.

Local Abbreviation w := (FieldGenerator.width G).
Local Abbreviation h := (FieldGenerator.height G).

Hypothesis odd_width : w mod 2 = 1.
Hypothesis cos_right : (cos 0 == 1)%Q.
Hypothesis cos_left : (cos (- pi) == - (1))%Q.
Hypothesis sin_right : (- (1 # 2) <= sin 0 < 1 # 2)%Q.
Hypothesis sin_left : (- (1 # 2) <= sin (- pi) < 1 # 2)%Q.

(** The tiles cleared under a red spawn and under the blue spawn opposite
    to it. *)
Lemma tiles_under_spawns (sx sy : Z) :
  1 <= sx <= w - 3 -> 1 <= sy ->
  [(sy, sx);
   (py_int (inject_Z sy + sin 0 + (1 # 2))%Q,
    py_int (inject_Z sx + cos 0 + (1 # 2))%Q)]
  = [(sy, sx); (sy, sx + 1)]
  /\ [(sy, w - 1 - sx);
      (py_int (inject_Z sy + sin (- pi) + (1 # 2))%Q,
       py_int (inject_Z (w - 1 - sx) + cos (- pi) + (1 # 2))%Q)]
     = [(sy, w - 1 - sx); (sy, w - 1 - (sx + 1))].
Proof.
  intros Hx Hy. destruct sin_right, sin_left.
  rewrite (py_int_same sy (sin 0)) by (auto; lia).
  rewrite (py_int_same sy (sin (- pi))) by (auto; lia).
  rewrite (py_int_shift sx 1) by (auto; lia).
  rewrite (py_int_shift (w - 1 - sx) (-1)) by (auto; lia).
  split; [reflexivity | ].
  replace (w - 1 - sx + -1) with (w - 1 - (sx + 1)) by lia.
  reflexivity.
Qed.

Lemma cleared_tiles_mirrored (rnd : Random) (k k' : nat) (f : Field.t)
    (i j : Z) :
  9 <= w ->
  place_objects G rnd pi k (Field_init w h (FieldGenerator.tilesize G))
  = Ok (f, k') ->
  In (i, j) (tiles_under_objects cos sin f) ->
  In (i, w - 1 - j) (tiles_under_objects cos sin f).
Proof.
  intros Hw P. apply place_objects_spec in P. cbv zeta in P.
  destruct P as (Er & Eb & (my & Hmy & Ec & Mid) & (am & Eo & _ & Fa)
                 & _).
  specialize (Mid odd_width). injection Mid as Mid.
  unfold tiles_under_objects. rewrite Eb, Er, Ec, Eo.
  rewrite !in_app_iff.
  assert (RS : forall n, 1 <= fst (red_spawn n) <= w - 3
                         \/ n < 0).
  { intros n. unfold red_spawn. cbn [fst].
    destruct (Z.lt_ge_cases n 0); [auto | left].
    Z.div_mod_to_equations. lia. }
  intros [H|[H|H]].
  - left. apply in_flat_map in H. destruct H as (s & Hs & Ht).
    apply in_flat_map. apply in_app_iff in Hs.
    destruct Hs as [Hs|Hs].
    + apply in_map_iff in Hs. destruct Hs as (n & <- & Hn).
      pose proof Hn as Hn'.
      apply list_elem_of_In, elem_of_seqZ in Hn'.
      destruct (RS n) as [Rx|]; [ | lia].
      assert (Ry : 1 <= snd (red_spawn n))
        by (unfold red_spawn; cbn [snd]; Z.div_mod_to_equations; lia).
      exists (opposite w (red_spawn n), (- pi)%Q). split.
      * apply in_app_iff. right. apply in_map_iff.
        exists (red_spawn n, 0%Q). split; [reflexivity | ].
        apply in_map_iff. eauto.
      * unfold opposite. destruct (red_spawn n) as [sx sy].
        cbn [fst snd] in *.
        destruct (tiles_under_spawns sx sy Rx Ry) as [T1 T2].
        rewrite T1 in Ht. rewrite T2.
        destruct Ht as [[= <- <-]|[[= <- <-]|[]]]; cbn; auto.
    + apply in_map_iff in Hs. destruct Hs as (s0 & <- & Hs).
      apply in_map_iff in Hs. destruct Hs as (n & <- & Hn).
      pose proof Hn as Hn'.
      apply list_elem_of_In, elem_of_seqZ in Hn'.
      destruct (RS n) as [Rx|]; [ | lia].
      assert (Ry : 1 <= snd (red_spawn n))
        by (unfold red_spawn; cbn [snd]; Z.div_mod_to_equations; lia).
      exists (red_spawn n, 0%Q). split.
      * apply in_app_iff. left. apply in_map_iff. eauto.
      * cbn [fst] in Ht. unfold opposite in Ht.
        destruct (red_spawn n) as [sx sy]. cbn [fst snd] in *.
        destruct (tiles_under_spawns sx sy Rx Ry) as [T1 T2].
        rewrite T2 in Ht. rewrite T1.
        destruct Ht as [[= <- <-]|[[= <- <-]|[]]]; cbn;
          [left | right; left]; f_equal; lia.
  - right; left. apply in_flat_map in H. destruct H as (c & Hc & Ht).
    apply in_flat_map.
    assert (Opp : exists c', In c' [((w - 1) / 4, h - 4); (w / 2, my);
                                    opposite w ((w - 1) / 4, h - 4)]
                             /\ fst c' = w - 1 - fst c /\ snd c' = snd c).
    { unfold opposite in *. cbn [fst snd] in *.
      destruct Hc as [<-|[<-|[<-|[]]]]; cbn [fst snd].
      - eexists. split; [right; right; left; reflexivity | ]. auto.
      - eexists. split; [right; left; reflexivity | ].
        cbn [fst snd]. split; congruence.
      - eexists. split; [left; reflexivity | ]. cbn [fst snd].
        split; lia. }
    destruct Opp as ([cx' cy'] & Hc' & Ex & Ey). exists (cx', cy').
    split; [exact Hc' | ].
    destruct c as [cx cy]. cbn [fst snd] in *. subst cx' cy'.
    apply block_In in Ht. apply block_In. lia.
  - right; right. apply in_flat_map in H. destruct H as (o & Ho & Ht).
    apply in_flat_map. apply in_flat_map in Ho.
    destruct Ho as ([px py] & Hp & Ho).
    unfold opposite in Ho. cbn [fst snd] in Ho.
    destruct Ho as [<-|[<-|[]]]; cbn in Ht;
      destruct Ht as [[= <- <-]|[]].
    + exists (opposite w (px, py), AmmoFountain). split.
      * apply in_flat_map. exists (px, py). cbn. auto.
      * cbn. auto.
    + exists ((px, py), AmmoFountain). split.
      * apply in_flat_map. exists (px, py). cbn. auto.
      * cbn. left. f_equal. lia.
Qed.

End Mirrored.

(** X19.  Every field [generate] returns for a generator of odd width, at
    least 9 by 7 tiles, whose spawns fit between the top and the bottom
    wall, is the same for both teams: the wall grid is symmetric about the
    vertical axis of the field, each blue spawn lies opposite to a red one
    and faces the other way, and the control points and the ammo fountains
    are their own mirror image.  ([cos] must be 1 at angle 0 and -1 at
    [-pi], [sin] less than a half in size there.) *)
Theorem generated_field_is_symmetric (G : FieldGenerator.t)
    (rnd : Random) (cos sin : Q -> Q) (pi : Q) (fuel : nat)
    (f : Field.t) :
  let w := FieldGenerator.width G in
  let h := FieldGenerator.height G in
  9 <= w -> 7 <= h -> w mod 2 = 1 ->
  FieldGenerator.num_spawns G <= 2 * (h - 2) ->
  (cos 0 == 1)%Q -> (cos (- pi) == - (1))%Q ->
  (- (1 # 2) <= sin 0 < 1 # 2)%Q ->
  (- (1 # 2) <= sin (- pi) < 1 # 2)%Q ->
  generate G rnd cos sin pi fuel = Ok f ->
  (forall px py,
     0 <= px < w ->
     cell (Field.walls f) (px, py) = cell (Field.walls f) (w - 1 - px, py))
  /\ Field.spawns_blue f
     = map (fun s : Z * Z * Q => (opposite w (fst s), (- pi)%Q))
         (Field.spawns_red f)
  /\ (forall c, In c (Field.controlpoints f) ->
        In (opposite w c) (Field.controlpoints f))
  /\ (forall p c, In (p, c) (Field.other_objects f) ->
        In (opposite w p, c) (Field.other_objects f)).
Proof.
  intros w h Hw Hh Odd Hn C0 C1 S0 S1 Gen. subst w h.
  destruct (generate_inv G rnd cos sin pi fuel f ltac:(lia) Gen)
    as (f1 & k & start & t & walls2 & walls3 & P & L & R & F & ->).
  cbn [Field.walls Field.set_walls Field.spawns_red Field.spawns_blue
       Field.controlpoints Field.other_objects].
  pose proof (cleared_tiles_interior G cos sin pi Hw Hh Hn
                ltac:(lra) ltac:(lra) S0 S1 rnd 0 k f1 P) as Int.
  assert (Nn : Forall (fun t : Z * Z => 0 <= fst t /\ 0 <= snd t)
                 (tiles_under_objects cos sin f1)).
  { eapply Forall_impl; [exact Int | ].
    intros [i j] [A B]. cbn [fst snd] in *. lia. }
  pose proof (place_objects_spec G rnd pi 0 k f1 P) as Sp.
  cbv zeta in Sp.
  destruct Sp as (Er & Eb & (my & Hmy & Ec & Mid) & (am & Eo & _ & Fa)
                  & _).
  split; [ | split; [exact Eb | split]].
  - intros px py Hx.
    rewrite !(fill_tiles_cells _ 0 walls2 walls3 _ py F Nn).
    destruct (reflect_tilemap_symmetric t walls2 _ R ltac:(lia))
      as (_ & Sym & _).
    rewrite <- (Sym px py Hx).
    pose proof (cleared_tiles_mirrored G cos sin pi Odd C0 C1 S0 S1
                  rnd 0 k f1 py) as M.
    destruct (decide (elem_of (py, px) (tiles_under_objects cos sin f1)))
      as [E|E].
    + rewrite decide_True; [reflexivity | ].
      apply list_elem_of_In. apply M; [exact Hw | exact P | ].
      apply list_elem_of_In. exact E.
    + rewrite decide_False; [reflexivity | ].
      intros E'. apply E. apply list_elem_of_In.
      replace px with (FieldGenerator.width G - 1
                       - (FieldGenerator.width G - 1 - px)) by lia.
      apply M; [exact Hw | exact P | ].
      apply list_elem_of_In. exact E'.
  - rewrite Ec. specialize (Mid Odd). unfold opposite in *.
    cbn [fst snd] in *. injection Mid as Mid.
    intros c [<-|[<-|[<-|[]]]]; cbn [fst snd].
    + right; right; left. reflexivity.
    + right; left. f_equal. lia.
    + left. f_equal. lia.
  - rewrite Eo. intros p c H. apply in_flat_map in H.
    destruct H as ([px py] & Hp & H). apply in_flat_map.
    exists (px, py). split; [exact Hp | ].
    unfold opposite in *. cbn [fst snd] in *.
    destruct H as [[= <- <-]|[[= <- <-]|[]]]; cbn [fst snd].
    + right; left. reflexivity.
    + left. f_equal. f_equal. lia.
Qed.

Lemma generated_field_is_symmetric_witness :
  let f := mirrored_field in
  let w := FieldGenerator.width small_generator in
  (forall px py,
     0 <= px < w ->
     cell (Field.walls f) (px, py) = cell (Field.walls f) (w - 1 - px, py))
  /\ Field.spawns_blue f
     = map (fun s : Z * Z * Q => (opposite w (fst s), (- (22 # 7))%Q))
         (Field.spawns_red f)
  /\ (forall c, In c (Field.controlpoints f) ->
        In (opposite w c) (Field.controlpoints f))
  /\ (forall p c, In (p, c) (Field.other_objects f) ->
        In (opposite w p, c) (Field.other_objects f)).
Proof.
  apply (generated_field_is_symmetric small_generator some_draws
           facing_cos (fun _ => 0%Q) (22 # 7)%Q 200 mirrored_field).
  - discriminate.
  - discriminate.
  - reflexivity.
  - discriminate.
  - reflexivity.
  - reflexivity.
  - split; [discriminate | reflexivity].
  - split; [discriminate | reflexivity].
  - vm_compute. reflexivity.
Defined.
(** ** What a match leaves alone *)

Ltac same_frame :=
  intros; split_tests; simpl in *; try reflexivity; try congruence.

Lemma frame_Game_log (g : Game.t) (m : Message) :
  frame (Game_log g m) = frame g.
Proof. unfold Game_log. now destruct (Game.verbose g). Qed.

Lemma frame_send_observation (W : World) (self : GameObject) (g : Game.t) :
  frame (snd (Tank_send_observation W self g)) = frame g.
Proof. unfold Tank_send_observation. same_frame. Qed.

Lemma frame_choose_action (W : World) (self : GameObject) (g : Game.t) :
  frame (snd (Tank_choose_action W self g)) = frame g.
Proof.
  unfold Tank_choose_action.
  destruct (negb (record self)), (actions self); simpl; try reflexivity;
    destruct (brain self); try destruct (action_result _); simpl;
    match goal with
    | |- context [Qltb ?a ?b] => destruct (Qltb a b)
    end; simpl; rewrite ?frame_Game_log; reflexivity.
Qed.

Lemma frame_get_action (W : World) (self : GameObject) (g : Game.t) :
  frame (snd (Tank_get_action W self g)) = frame g.
Proof.
  unfold Tank_get_action.
  pose proof (frame_choose_action W self g) as H.
  destruct (Tank_choose_action W self g) as [[a s] g']. exact H.
Qed.

Lemma frame_for_tanks (m : GameObject -> Game.t -> GameObject * Game.t) :
  (forall self g, frame (snd (m self g)) = frame g) ->
  forall ids g, frame (for_tanks m ids g) = frame g.
Proof.
  intros Hm ids. induction ids as [|i ids IH]; intros g; simpl; auto.
  rewrite IH. destruct (lookup_obj i (Game.objects g)) as [self|]; auto.
  specialize (Hm self g). destruct (m self g) as [s' g']. exact Hm.
Qed.

Lemma frame_shoot_all (W : World) (ids : list nat) (g : Game.t) :
  frame (shoot_all W ids g) = frame g.
Proof.
  revert g. induction ids as [|i ids IH]; intros g; simpl; auto.
  rewrite IH. destruct (lookup_obj i (Game.objects g)); auto.
  unfold shoot. same_frame.
Qed.

Lemma frame_collide (i j : nat) (g : Game.t) :
  frame (collide i j g) = frame g.
Proof. unfold collide, Ammo_collide, Crumb_collide. same_frame. Qed.

Lemma frame_notify (pairs : list (nat * nat)) (g : Game.t) :
  frame (notify pairs g) = frame g.
Proof.
  revert g. induction pairs as [|[i j] pairs IH]; intros g; simpl; auto.
  now rewrite IH, !frame_collide.
Qed.

Lemma frame_substep (W : World) (g : Game.t) :
  frame (substep W g) = frame g.
Proof.
  unfold substep. destruct (physics W (Game.objects g)) as [ps pairs].
  now rewrite frame_notify.
Qed.

Lemma frame_substeps (W : World) (n : nat) (g : Game.t) :
  frame (substeps W n g) = frame g.
Proof.
  revert g. induction n as [|n IH]; intros g; simpl; auto.
  now rewrite IH, frame_substep.
Qed.

Lemma frame_spawn_one (W : World) (attempts i : nat) (g g' : Game.t) :
  Fountain_spawn_one W attempts i g = Ok g' -> frame g' = frame g.
Proof.
  revert g. induction attempts as [|n IH]; intros g;
    cbn [Fountain_spawn_one].
  - intros [= <-]. reflexivity.
  - destruct (lookup_obj i (Game.objects g)) as [self|];
      [ | intros [= <-]; reflexivity].
    assert (S : frame (snd (SPREAD W self (x self + width self / 2)%Q
                              (y self + height self / 2)%Q g))
                = frame g)
      by (unfold SPREAD; now destruct (cls self)).
    assert (F : Game.field (snd (SPREAD W self (x self + width self / 2)%Q
                                   (y self + height self / 2)%Q g))
                = Game.field g) by (now injection S).
    destruct (SPREAD W self _ _ g) as [[px py] g1]. cbn [snd] in S, F.
    unfold alloc.
    split_tests; try discriminate; intros H;
      try (injection H as <-; rewrite <- S; reflexivity);
      try (apply IH in H; rewrite H; exact S).
Qed.

Lemma frame_update_object (W : World) (i : nat) (g g' : Game.t) :
  update_object W i g = Ok g' -> frame g' = frame g.
Proof.
  unfold update_object.
  destruct (lookup_obj i (Game.objects g)) as [self|];
    [ | intros [= <-]; reflexivity].
  assert (F : forall g1, Fountain_update W self g = Ok g1 ->
                         frame g1 = frame g).
  { unfold Fountain_update. intros g1.
    match goal with
    | |- context [if ?b then _ else _] => destruct b
    end; intros H.
    - apply frame_spawn_one in H. rewrite H. reflexivity.
    - injection H as <-. reflexivity. }
  destruct (cls self); try (intros [= <-]; reflexivity); try apply F.
  unfold ControlPoint_update.
  repeat match goal with
         | |- context [if ?b then _ else _] => destruct b
         end; intros [= <-]; reflexivity.
Qed.

Lemma frame_update_all (W : World) (ids : list nat) (g g' : Game.t) :
  update_all W ids g = Ok g' -> frame g' = frame g.
Proof.
  revert g. induction ids as [|i ids IH]; intros g; cbn [update_all].
  - intros [= <-]. reflexivity.
  - destruct (update_object W i g) as [g1| |] eqn:O; cbn [bind];
      try discriminate.
    intros H. apply IH in H. apply frame_update_object in O. congruence.
Qed.

Lemma frame_reset_tanks (ids : list nat) (g g' : Game.t) :
  reset_tanks ids g = Ok g' -> frame g' = frame g.
Proof.
  revert g. induction ids as [|i ids IH]; intros g; simpl.
  - intros [= <-]. reflexivity.
  - destruct (lookup_obj i (Game.objects g)) as [tank|]; [ | apply IH].
    destruct (reset_tank (Game.settings g) tank); simpl; try discriminate.
    intros H. apply IH in H. rewrite H. reflexivity.
Qed.

Lemma frame_set_objects (l : list GameObject) (g : Game.t) :
  frame (Game.set_objects l g) = frame g.
Proof. reflexivity. Qed.

Lemma frame_sense_think_act (W : World) (g : Game.t) :
  frame (sense_think_act W g) = frame g.
Proof.
  unfold sense_think_act.
  rewrite frame_shoot_all.
  rewrite (frame_for_tanks _ (frame_get_action W)).
  apply (frame_for_tanks _ (frame_send_observation W)).
Qed.

Lemma frame_simulate (W : World) (g g' : Game.t) :
  outcome_state (simulate W g) = Some g' -> frame g' = frame g.
Proof.
  unfold simulate.
  destruct (reset_tanks _ _) as [g1| |] eqn:R; cbn [of_result];
    try (intros [= <-]; reflexivity); try discriminate.
  apply frame_reset_tanks in R.
  destruct (interrupt W _ 2); intros [= <-];
    rewrite ?frame_set_objects, ?frame_substeps, ?frame_substep; exact R.
Qed.

(** One pass through the loop advances the step counter and changes
    nothing else of the frame, however the pass ends. *)
Lemma frame_Game_step (W : World) (s : Z) (g g' : Game.t) :
  outcome_state (Game_step W s g) = Some g' ->
  frame g' = frame (Game.set_step (s + 1) g).
Proof.
  unfold Game_step. generalize (Game.set_step (s + 1) g). clear g.
  intros g.
  destruct (interrupt W (Game.step g) 0); [intros [= <-]; reflexivity | ].
  destruct (update_all W (map oid (Game.objects g)) g) as [g1| |] eqn:U;
    cbn [of_result]; try (intros [= <-]; reflexivity); try discriminate.
  apply frame_update_all in U. rewrite <- U. clear U g.
  rewrite <- (frame_sense_think_act W g1).
  generalize (sense_think_act W g1). clear. intros g.
  destruct (interrupt W (Game.step g) 1); [intros [= <-]; reflexivity | ].
  destruct (score_over g); [intros [= <-]; reflexivity | ].
  destruct (crumbs_over W g) as [[|]| |]; cbn [outcome_state];
    try (intros [= <-]; reflexivity); try discriminate.
  apply frame_simulate.
Qed.

(** The loop with [n] passes left, entered with the loop variable [s]: the
    step counter ends at [s + k] for the number [k <= n] of passes that
    were begun, or is untouched when none was. *)
Lemma frame_Game_loop (W : World) (n : nat) (s : Z) (g g' : Game.t) :
  outcome_state (Game_loop W n s g) = Some g' ->
  frame g' = frame g
  \/ exists k, 1 <= k <= Z.of_nat n
               /\ frame g' = frame (Game.set_step (s + k) g).
Proof.
  revert s g. induction n as [|n IH]; intros s g; cbn [Game_loop].
  - intros [= <-]. auto.
  - destruct (Game_step W s g) as [g1|g1|e g1|] eqn:E;
      cbn [outcome_state]; try discriminate;
      pose proof (frame_Game_step W s g g1) as S; rewrite E in S;
      specialize (S eq_refl).
    + intros H. apply IH in H. right. destruct H as [H|(k & Hk & H)].
      * exists 1. split; [lia | congruence].
      * exists (1 + k). split; [lia | ].
        replace (s + (1 + k)) with (s + 1 + k) by lia. rewrite H.
        unfold frame in *. cbn [Game.set_step Game.field Game.record
          Game.replay Game.verbose Game.settings Game.step Game.tanks
          Game.state] in *.
        injection S as S1 S2 S3 S4 S5 _ S7 S8. congruence.
    + intros [= <-]. right. exists 1. split; [lia | exact S].
    + intros [= <-]. right. exists 1. split; [lia | exact S].
Qed.

Lemma fixed_of_frame (g g' : Game.t) :
  frame g' = frame g -> fixed g' = fixed g.
Proof. unfold frame, fixed. intros [= -> -> -> -> -> -> _ _]. reflexivity. Qed.

Lemma frame_add_object (W : World) (fuel : nat) (o : GameObject)
    (g g' : Game.t) :
  add_object W fuel o g = Ok g' -> frame g' = frame g.
Proof.
  assert (F : forall n i g0 g1,
             Fountain_added_to_game W n i g0 = Ok g1 ->
             frame g1 = frame g0).
  { induction n as [|n IH]; intros i g0 g1;
      cbn [Fountain_added_to_game];
      destruct (lookup_obj i (Game.objects g0)) as [self|];
      try (intros [= <-]; reflexivity);
      destruct (_ <? _)%nat; try (intros [= <-]; reflexivity);
      try discriminate.
    destruct (Fountain_spawn_one W 10 i g0) as [g2| |] eqn:E; cbn [bind];
      try discriminate.
    intros H. apply IH in H. apply frame_spawn_one in E. congruence. }
  unfold add_object, added_to_game.
  destruct (cls o); try (intros [= <-]; reflexivity);
    intros H; apply F in H; exact H.
Qed.

Lemma fixed_add_objects (W : World) (fuel : nat) (l : list GameObject)
    (g g' : Game.t) :
  add_objects W fuel l g = Ok g' -> fixed g' = fixed g.
Proof.
  revert g. induction l as [|o l IH]; intros g; cbn [add_objects].
  - intros [= <-]. reflexivity.
  - destruct (add_object W fuel o g) as [g1| |] eqn:E; cbn [bind];
      try discriminate.
    intros H. apply IH in H.
    apply frame_add_object, fixed_of_frame in E. congruence.
Qed.

Lemma fixed_enlist_tank (W : World) (fuel : nat) (t : GameObject)
    (g g' : Game.t) :
  enlist_tank W fuel t g = Ok g' -> fixed g' = fixed g.
Proof.
  unfold enlist_tank, alloc. intros H.
  apply frame_add_object, fixed_of_frame in H. exact H.
Qed.

Lemma fixed_setup_brain_tanks (W : World) (fuel : nat) (tm : Team)
    (spawns : list GameObject) (i : nat) (g g' : Game.t) :
  setup_brain_tanks W fuel tm i spawns g = Ok g' -> fixed g' = fixed g.
Proof.
  revert i g. induction spawns as [|s rest IH]; intros i g;
    cbn [setup_brain_tanks].
  - intros [= <-]. reflexivity.
  - destruct (Tank_call _ _) as [t| |]; cbn [bind]; try discriminate.
    destruct (enlist_tank W fuel t g) as [g1| |] eqn:E; cbn [bind];
      try discriminate.
    intros H. apply IH in H. apply fixed_enlist_tank in E. congruence.
Qed.

Lemma fixed_setup_replay_tanks (W : World) (fuel : nat) (tm : Team)
    (spawns : list GameObject) (acts : list (list Action)) (i : nat)
    (g g' : Game.t) :
  setup_replay_tanks W fuel tm i spawns acts g = Ok g' ->
  fixed g' = fixed g.
Proof.
  revert acts i g. induction spawns as [|s rest IH]; intros acts i g;
    cbn [setup_replay_tanks].
  - intros [= <-]. reflexivity.
  - destruct acts as [|a acts]; [intros [= <-]; reflexivity | ].
    destruct (Tank_call _ _) as [t| |]; cbn [bind]; try discriminate.
    destruct (enlist_tank W fuel t g) as [g1| |] eqn:E; cbn [bind];
      try discriminate.
    intros H. apply IH in H. apply fixed_enlist_tank in E. congruence.
Qed.

(** [setup] keeps the field, the flags and the settings, starts the step
    counter at 0, and opens a new bundle when the game is recorded. *)
Lemma Game_setup_fixed (W : World) (fuel : nat) (g g' : Game.t) :
  Game_setup W fuel g = Ok g' ->
  fixed g'
  = (Game.field g, Game.record g,
     (if Game.record g then Some (ReplayData_init g) else Game.replay g),
     Game.verbose g, Game.settings g, 0)
  /\ Game.state g' = STATE_READY.
Proof.
  intros H. split; [ | apply Game_setup_scores in H; now injection H].
  revert H. unfold Game_setup.
  destruct (get_objects _ _) as [[[allobjects cps] reds] blues].
  match goal with
  | |- context [add_objects W fuel allobjects ?g0] =>
      assert (S0 : fixed g0 =
                   (Game.field g, Game.record g,
                    (if Game.record g then Some (ReplayData_init g)
                     else Game.replay g),
                    Game.verbose g, Game.settings g, 0))
        by (destruct (Game.record g) eqn:Rg; unfold fixed; cbn;
            rewrite ?Rg; reflexivity);
      destruct (add_objects W fuel allobjects g0) as [g1| |] eqn:A
  end; cbn [bind]; try discriminate.
  apply fixed_add_objects in A. rewrite S0 in A. clear S0.
  match goal with
  | |- context [bind ?m _] => destruct m as [g2| |] eqn:T
  end; cbn [bind]; try discriminate.
  intros [= <-].
  assert (E : fixed g2 = fixed g1).
  { cbn [Game.record Game.replay Game.set_controlpoints] in T.
    destruct (Game.record g1), (Game.replay g1) as [r|];
      repeat match type of T with
             | bind ?m _ = _ => destruct m eqn:?; cbn [bind] in T;
                                try discriminate
             end;
      repeat match goal with
             | H : setup_brain_tanks _ _ _ _ _ _ = Ok _ |- _ =>
                 apply fixed_setup_brain_tanks in H
             | H : setup_replay_tanks _ _ _ _ _ _ _ = Ok _ |- _ =>
                 apply fixed_setup_replay_tanks in H
             end;
      unfold fixed in *; simpl in *; congruence. }
  rewrite A in E. exact E.
Qed.

(** [end], when it returns: the state is [ENDED], the number of steps is
    in the statistics, and a recorded game has its bundle completed with
    the settings cut to the steps played, the field and the version. *)
Lemma Game_end_fixed (W : World) (b : bool) (g g' : Game.t) :
  Game_end W b g = Returned g' ->
  Game.field g' = Game.field g /\ Game.settings g' = Game.settings g
  /\ Game.record g' = Game.record g /\ Game.verbose g' = Game.verbose g
  /\ Game.step g' = Game.step g /\ Game.state g' = STATE_ENDED
  /\ Game.interrupted g' = (b || Game.interrupted g)
  /\ GameStats.steps (Game.stats g') = Game.step g
  /\ (Game.record g = false -> Game.replay g' = Game.replay g)
  /\ (Game.record g = true ->
      exists r0 r,
        Game.replay g = Some r0 /\ Game.replay g' = Some r
        /\ ReplayData.settings r
           = set_max_steps (Game.step g) (Game.settings g)
        /\ ReplayData.field r = Some (Game.field g)
        /\ ReplayData.version r = ReplayData.version r0).
Proof.
  unfold Game_end.
  set (g0 := if b then _ else g).
  assert (E0 : fixed g0 = fixed g /\ Game.state g0 = Game.state g
               /\ Game.interrupted g0 = (b || Game.interrupted g))
    by (subst g0; destruct b; repeat split; reflexivity).
  destruct E0 as (E0 & _ & Ei).
  injection E0 as Ef Er Ep Ev Es Et.
  clearbody g0.
  cbn [Game.score_red Game.score_blue Game.set_state Game.set_stats].
  destruct (_ =? 0); [discriminate | ].
  unfold Game_log.
  destruct (Game.verbose _) eqn:V, (Game.record _) eqn:R,
    (Game.replay _) eqn:P;
    cbn -[Qdiv] in *; try rewrite R; try rewrite P; cbn -[Qdiv];
    intros H;
    try discriminate;
    try (apply (f_equal run_state) in H; cbn [run_state] in H;
         apply finalize_all_state in H; subst g');
    try (injection H as <-);
    cbn -[Qdiv]; rewrite ?Ef, ?Es, ?Et, ?Ei, <- ?Er, <- ?Ep, <- ?Ev;
    repeat split; try reflexivity; try congruence;
    try (intros _; eexists; eexists; repeat split; reflexivity).
Qed.

(** X20.  A match that [run] plays to its end, from [setup] on, leaves the
    field, the settings and the flags of the game as they were; it ends in
    the state [ENDED] after at most [max_steps] steps, and the number of
    steps played is what the statistics report.  A game that is not
    recorded keeps its replay attribute; a recorded game ends with a new
    bundle that holds the version, the field, and the settings with
    [max_steps] cut to the steps played. *)
Theorem run_keeps_field_and_bounds (W : World) (fuel : nat)
    (g g' : Game.t) :
  Game.state g <> STATE_READY ->
  Game_run W fuel g = Returned g' ->
  Game.field g' = Game.field g /\ Game.settings g' = Game.settings g
  /\ Game.record g' = Game.record g /\ Game.verbose g' = Game.verbose g
  /\ Game.state g' = STATE_ENDED
  /\ GameStats.steps (Game.stats g') = Game.step g'
  /\ 0 <= Game.step g' <= Z.max 0 (max_steps (Game.settings g))
  /\ (Game.record g = false -> Game.replay g' = Game.replay g)
  /\ (Game.record g = true ->
      exists r,
        Game.replay g' = Some r
        /\ ReplayData.settings r
           = set_max_steps (Game.step g') (Game.settings g)
        /\ ReplayData.field r = Some (Game.field g)
        /\ ReplayData.version r = version).
Proof.
  intros NR. unfold Game_run.
  destruct (GameState_eqb (Game.state g) STATE_READY) eqn:Q.
  { destruct (Game.state g); simpl in Q; congruence. }
  destruct (Game_setup W fuel g) as [g1| |] eqn:S; try discriminate.
  apply Game_setup_fixed in S. destruct S as [S _].
  injection S as Sf Sr Sp Sv Ss St.
  set (g1' := Game.set_state STATE_RUNNING g1).
  assert (L : forall g2,
            outcome_state
              (Game_loop W (Z.to_nat (max_steps (Game.settings g1'))) 0
                 g1') = Some g2 ->
            Game.field g2 = Game.field g
            /\ Game.settings g2 = Game.settings g
            /\ Game.record g2 = Game.record g
            /\ Game.verbose g2 = Game.verbose g
            /\ Game.replay g2 = Game.replay g1
            /\ 0 <= Game.step g2 <= Z.max 0 (max_steps (Game.settings g))).
  { intros g2 H. apply frame_Game_loop in H.
    assert (M : max_steps (Game.settings g1')
                = max_steps (Game.settings g))
      by (subst g1'; cbn; now rewrite Ss).
    rewrite M in H.
    destruct H as [H|(k & Hk & H)]; unfold frame in H;
      subst g1'; cbn in H; injection H as -> -> -> -> -> -> _ _;
      rewrite ?Sf, ?Ss, ?Sr, ?Sv, ?St; repeat split; auto; lia. }
  assert (E : forall b g2 g3,
            Game.field g2 = Game.field g
            /\ Game.settings g2 = Game.settings g
            /\ Game.record g2 = Game.record g
            /\ Game.verbose g2 = Game.verbose g
            /\ Game.replay g2 = Game.replay g1
            /\ 0 <= Game.step g2 <= Z.max 0 (max_steps (Game.settings g)) ->
            Game_end W b g2 = Returned g' ->
            g3 = g' ->
            Game.field g3 = Game.field g
            /\ Game.settings g3 = Game.settings g
            /\ Game.record g3 = Game.record g
            /\ Game.verbose g3 = Game.verbose g
            /\ Game.state g3 = STATE_ENDED
            /\ GameStats.steps (Game.stats g3) = Game.step g3
            /\ 0 <= Game.step g3 <= Z.max 0 (max_steps (Game.settings g))
            /\ (Game.record g = false -> Game.replay g3 = Game.replay g)
            /\ (Game.record g = true ->
                exists r,
                  Game.replay g3 = Some r
                  /\ ReplayData.settings r
                     = set_max_steps (Game.step g3) (Game.settings g)
                  /\ ReplayData.field r = Some (Game.field g)
                  /\ ReplayData.version r = version)).
  { intros b g2 g3 (Lf & Ls & Lr & Lv & Lp & Lt) H ->.
    apply Game_end_fixed in H.
    destruct H as (Ef & Es & Er & Ev & Et & Ee & _ & En & Ep0 & Ep1).
    rewrite Ef, Es, Er, Ev, Et, En, Lf, Ls, Lr, Lv.
    repeat split; auto; try lia.
    - intros R. rewrite Ep0 by congruence. rewrite Lp, Sp, R. reflexivity.
    - intros R. destruct (Ep1 ltac:(congruence))
        as (r0 & r & P0 & P1 & Q1 & Q2 & Q3).
      exists r. rewrite Lp, Sp, R in P0. injection P0 as <-.
      rewrite Ls, Lf in *. auto. }
  destruct (Game_loop W _ 0 _) as [g2|g2|e g2|] eqn:Lp;
    try discriminate.
  - intros H. eapply (E false g2); eauto.
  - intros H. eapply (E false g2); eauto.
  - destruct (is_interrupt e); [ | discriminate].
    intros H. eapply (E true (Game.set_state STATE_INTERRUPT g2)); eauto.
    exact (L g2 eq_refl).
Qed.

Lemma run_keeps_field_and_bounds_witness :
  let g := recorded_game in
  let g' := final_state (Game_run still_world 1 recorded_game)
              recorded_game in
  Game.field g' = Game.field g /\ Game.settings g' = Game.settings g
  /\ Game.record g' = Game.record g /\ Game.verbose g' = Game.verbose g
  /\ Game.state g' = STATE_ENDED
  /\ GameStats.steps (Game.stats g') = Game.step g'
  /\ 0 <= Game.step g' <= Z.max 0 (max_steps (Game.settings g))
  /\ (Game.record g = false -> Game.replay g' = Game.replay g)
  /\ (Game.record g = true ->
      exists r,
        Game.replay g' = Some r
        /\ ReplayData.settings r
           = set_max_steps (Game.step g') (Game.settings g)
        /\ ReplayData.field r = Some (Game.field g)
        /\ ReplayData.version r = version).
Proof.
  apply (run_keeps_field_and_bounds still_world 1 recorded_game).
  - discriminate.
  - vm_compute. reflexivity.
Defined.
(** ** Recording and replaying the actions of a tank *)

(** A recording tank appends the action it uses, whatever the delegate
    did. *)
Lemma choose_action_records (W : World) (self : GameObject) (g : Game.t) :
  record self = true ->
  let '(a, self', g') := Tank_choose_action W self g in
  actions self' = actions self ++ [a]
  /\ pose self' = pose self /\ record self' = true
  /\ Game.settings g' = Game.settings g.
Proof.
  intros R. unfold Tank_choose_action. rewrite R. cbn [negb].
  destruct (match brain self with
            | Some _ => action_result _
            | None => None
            end) as [a|]; cbv zeta;
    cbn [set_time_thought time_thought record];
    match goal with
    | |- context [Qltb ?a ?b] => destruct (Qltb a b)
    end;
    rewrite R; unfold pose;
    cbn [record set_actions set_time_thought actions x y angle ammo
         shoots respawn_in];
    rewrite ?settings_Game_log; auto.
Qed.

(** A replaying tank takes the head of its queue and asks nobody. *)
Lemma choose_action_replays (W : World) (self : GameObject) (g : Game.t)
    (a : Action) (rest : list Action) :
  record self = false -> actions self = a :: rest ->
  Tank_choose_action W self g = (a, set_actions rest self, g).
Proof.
  intros R A. unfold Tank_choose_action. rewrite R, A. reflexivity.
Qed.

(** Applying an action reads the pose of the tank and nothing else. *)
Lemma apply_action_pose (W : World) (s : Settings) (a : Action)
    (o1 o2 : GameObject) :
  pose o1 = pose o2 ->
  pose (Tank_apply_action W s a o1) = pose (Tank_apply_action W s a o2).
Proof.
  unfold pose. intros [= Ex Ey Ea Em Es Er].
  unfold Tank_apply_action. destruct a as [[turn speed] shoot].
  cbn [respawn_in set_shoots]. rewrite Er.
  destruct (respawn_in o2 =? -1); cbn; rewrite ?Ex, ?Ey, ?Ea, ?Em, ?Er;
    [ | reflexivity].
  destruct (shoot && (0 <? ammo o2)); cbn; rewrite ?Ex, ?Ey, ?Ea, ?Em, ?Er;
    reflexivity.
Qed.

Lemma apply_action_record (W : World) (s : Settings) (a : Action)
    (o : GameObject) :
  record (Tank_apply_action W s a o) = record o.
Proof.
  unfold Tank_apply_action. destruct a as [[turn speed] shoot].
  repeat match goal with
         | |- context [if ?b then _ else _] => destruct b
         end; reflexivity.
Qed.

Lemma set_step_again (a b : Z) (g : Game.t) :
  Game.set_step b (Game.set_step a g) = Game.set_step b g.
Proof. reflexivity. Qed.

Lemma set_step_same (g : Game.t) : Game.set_step (Game.step g) g = g.
Proof. now destruct g. Qed.

Lemma replay_follows_recording (W W' : World) (n : nat) :
  cos W' = cos W -> sin W' = sin W -> angle_fix W' = angle_fix W ->
  forall (rec rep : GameObject) (g g2 : Game.t) (rest : list Action),
    record rec = true -> record rep = false ->
    pose rep = pose rec ->
    Game.settings g2 = Game.settings g ->
    exists l,
      length l = n
      /\ actions (fst (drive W n rec g)) = actions rec ++ l
      /\ (actions rep = l ++ rest ->
          pose (fst (drive W' n rep g2)) = pose (fst (drive W n rec g))
          /\ actions (fst (drive W' n rep g2)) = rest
          /\ snd (drive W' n rep g2)
             = Game.set_step (Game.step g2 + Z.of_nat n) g2).
Proof.
  intros Ec Es Ef. induction n as [|n IH];
    intros rec rep g g2 rest Rr Rp P S.
  - exists []. cbn [drive fst snd length app].
    rewrite app_nil_r. repeat split; auto.
    change (Z.of_nat 0) with 0. rewrite Z.add_0_r.
    symmetry. apply set_step_same.
  - cbn [drive].
    set (gs := Game.set_step (Game.step g + 1) g).
    set (g2' := Game.set_step (Game.step g2 + 1) g2).
    pose proof (choose_action_records W rec gs Rr) as C.
    destruct (Tank_choose_action W rec gs) as [[a rec1] g1] eqn:Ch.
    destruct C as (Ca & Cp & Cr & Cs).
    set (rec2 := Tank_apply_action W (Game.settings g1) a rec1).
    assert (Erec : Tank_get_action W rec gs = (rec2, g1))
      by (unfold Tank_get_action; rewrite Ch; reflexivity).
    rewrite Erec.
    assert (R2 : record rec2 = true)
      by (subst rec2; now rewrite apply_action_record).
    assert (A2 : actions rec2 = actions rec ++ [a])
      by (subst rec2; now rewrite Tank_apply_action_actions).
    set (rep2 := Tank_apply_action W' (Game.settings g2') a
                   (set_actions
                      match actions rep with
                      | [] => [] | _ :: r => r
                      end rep)).
    assert (Sg : Game.settings g2' = Game.settings g1).
    { subst g2' gs. cbn [Game.settings Game.set_step] in *. congruence. }
    assert (P2 : pose rep2 = pose rec2).
    { subst rep2 rec2. rewrite Sg.
      assert (E : forall o, Tank_apply_action W' (Game.settings g1) a o
                            = Tank_apply_action W (Game.settings g1) a o).
      { intros o. unfold Tank_apply_action, clamp_turn.
        now rewrite Ec, Es, Ef. }
      rewrite E. apply apply_action_pose. rewrite Cp. exact P. }
    assert (Rp2 : record rep2 = false)
      by (subst rep2; now rewrite apply_action_record).
    destruct (IH rec2 rep2 g1 g2' rest R2 Rp2 P2 Sg)
      as (l & Ll & Al & Hrep).
    exists (a :: l). split; [cbn; congruence | ].
    split; [rewrite Al, A2, <- app_assoc; reflexivity | ].
    intros Ar.
    assert (Erep : Tank_get_action W' rep g2' = (rep2, g2')).
    { unfold Tank_get_action.
      rewrite (choose_action_replays W' rep g2' a (l ++ rest) Rp Ar).
      subst rep2. rewrite Ar. reflexivity. }
    rewrite Erep.
    assert (A3 : actions rep2 = l ++ rest).
    { subst rep2. rewrite Tank_apply_action_actions, Ar. reflexivity. }
    destruct (Hrep A3) as (H1 & H2 & H3).
    split; [exact H1 | ]. split; [exact H2 | ].
    rewrite H3. subst g2'. cbn [Game.step Game.set_step].
    rewrite set_step_again. f_equal. lia.
Qed.

Lemma drive_add (W : World) (k m : nat) (self : GameObject) (g : Game.t) :
  drive W (k + m) self g
  = drive W m (fst (drive W k self g)) (snd (drive W k self g)).
Proof.
  revert self g. induction k as [|k IH]; intros self g; cbn [drive Nat.add].
  - reflexivity.
  - destruct (Tank_get_action W self _) as [self1 g1]. apply IH.
Qed.

Lemma choose_action_keeps_record (W : World) (self : GameObject)
    (g : Game.t) :
  record (snd (fst (Tank_choose_action W self g))) = record self.
Proof.
  unfold Tank_choose_action.
  destruct (record self) eqn:R; cbn [negb];
    [ | destruct (actions self); [ | cbn; exact R]];
    destruct (match brain self with
              | Some _ => action_result _
              | None => None
              end); cbv zeta;
    cbn [record set_time_thought time_thought];
    match goal with
    | |- context [Qltb ?a ?b] => destruct (Qltb a b)
    end; rewrite ?R; cbn; rewrite ?R; reflexivity.
Qed.

Lemma drive_record (W : World) (n : nat) (self : GameObject) (g : Game.t) :
  record (fst (drive W n self g)) = record self
  /\ Game.settings (snd (drive W n self g)) = Game.settings g.
Proof.
  revert self g. induction n as [|n IH]; intros self g; cbn [drive].
  - auto.
  - unfold Tank_get_action.
    pose proof (frame_choose_action W self
                  (Game.set_step (Game.step g + 1) g)) as F.
    pose proof (choose_action_keeps_record W self
                  (Game.set_step (Game.step g + 1) g)) as R.
    destruct (Tank_choose_action W self _) as [[a s1] g1].
    cbn [fst snd] in *. destruct (IH (Tank_apply_action W
                                        (Game.settings g1) a s1) g1)
      as [I1 I2].
    rewrite I1, I2, apply_action_record, R.
    split; [reflexivity | ]. unfold frame in F. now injection F.
Qed.

Lemma drive_records (W : World) (n : nat) (rec : GameObject)
    (g : Game.t) :
  record rec = true ->
  exists l, length l = n
            /\ actions (fst (drive W n rec g)) = actions rec ++ l.
Proof.
  revert rec g. induction n as [|n IH]; intros rec g R; cbn [drive].
  - exists []. now rewrite app_nil_r.
  - unfold Tank_get_action.
    pose proof (choose_action_records W rec
                  (Game.set_step (Game.step g + 1) g) R) as C.
    destruct (Tank_choose_action W rec _) as [[a rec1] g1].
    destruct C as (Ca & _ & Cr & _).
    destruct (IH (Tank_apply_action W (Game.settings g1) a rec1) g1
                ltac:(now rewrite apply_action_record))
      as (l & Ll & Al).
    exists (a :: l). split; [cbn; congruence | ].
    rewrite Al, Tank_apply_action_actions, Ca, <- app_assoc.
    reflexivity.
Qed.

(** X21.  A tank that replays the actions another tank recorded behaves
    like it, step by step.  Let a tank record [n] steps, starting with an
    empty list, and let a tank without recording start in the same pose
    with the recorded list as its queue, under the same settings.  Then the
    list has one entry per step; after every number [k <= n] of steps the
    replaying tank has the pose the recording tank had (position, angle,
    ammunition, shot, respawn counter); after [n] steps its queue is empty;
    and the replay has asked no delegate: the game it runs in is unchanged
    apart from its step counter, whatever the agents of that world would
    have answered. *)
Theorem replay_follows_the_recording (W W' : World) (n : nat)
    (rec rep : GameObject) (g g2 : Game.t) :
  cos W' = cos W -> sin W' = sin W -> angle_fix W' = angle_fix W ->
  record rec = true -> actions rec = [] -> record rep = false ->
  pose rep = pose rec ->
  Game.settings g2 = Game.settings g ->
  actions rep = actions (fst (drive W n rec g)) ->
  length (actions rep) = n
  /\ (forall k, (k <= n)%nat ->
        pose (fst (drive W' k rep g2)) = pose (fst (drive W k rec g)))
  /\ actions (fst (drive W' n rep g2)) = []
  /\ snd (drive W' n rep g2)
     = Game.set_step (Game.step g2 + Z.of_nat n) g2.
Proof.
  intros Ec Es Ef Rr Ar Rp P S Q.
  destruct (replay_follows_recording W W' n Ec Es Ef rec rep g g2 []
              Rr Rp P S) as (l & Ll & Al & H).
  rewrite Ar in Al. cbn [app] in Al.
  rewrite Al in Q. split; [congruence | ].
  destruct (H ltac:(now rewrite app_nil_r)) as (_ & H2 & H3).
  split; [ | auto].
  intros k Hk.
  replace n with (k + (n - k))%nat in Al by lia.
  rewrite drive_add in Al.
  destruct (drive_record W k rec g) as [Rk Sk].
  destruct (drive_records W (n - k) (fst (drive W k rec g))
              (snd (drive W k rec g)) ltac:(congruence))
    as (lm & _ & Am).
  destruct (replay_follows_recording W W' k Ec Es Ef rec rep g g2 lm
              Rr Rp P S) as (lk & _ & Ak & Hk2).
  apply Hk2. rewrite Q, <- Al, Am, Ak, Ar. reflexivity.
Qed.

Lemma replay_follows_the_recording_witness :
  let rec := recording_tank in
  let rep := replaying_tank in
  let g := corridor_game in
  length (actions rep) = 3%nat
  /\ (forall k, (k <= 3)%nat ->
        pose (fst (drive slow_world k rep g))
        = pose (fst (drive still_world k rec g)))
  /\ actions (fst (drive slow_world 3 rep g)) = []
  /\ snd (drive slow_world 3 rep g)
     = Game.set_step (Game.step g + Z.of_nat 3) g.
Proof.
  apply (replay_follows_the_recording still_world slow_world 3
           recording_tank replaying_tank corridor_game corridor_game);
    reflexivity.
Defined.
(** ** Crumbs *)


(** ** Shots *)

Lemma Class_eqb_Tank (c : Class) : Class_eqb c Tank = true <-> c = Tank.
Proof. destruct c; cbn; split; congruence. Qed.

(** X23.  The shot of a tank changes nothing when the ray hits nothing,
    and otherwise only the first object hit.  An object that is not a tank
    absorbs the shot unchanged.  A tank that is hit gets its respawn
    counter set to [spawn_time] and nothing else: it keeps its own [shoots]
    flag, so it still fires in the same step.  The reset that follows puts
    it 2 units into its spawn with the angle of the spawn, without
    ammunition and at rest; once the tank has been updated in the next
    step, the reset leaves it alone (for a [spawn_time] that is not
    negative).  Scores, statistics and settings are not touched. *)
Theorem hit_tank_restarts_at_spawn (W : World) (tank : GameObject)
    (g : Game.t) :
  shoots tank = true ->
  let s := Game.settings g in
  let tcx := (_x tank + width tank / 2)%Q in
  let tcy := (_y tank + height tank / 2)%Q in
  let hits :=
    raycast W (Game.objects g) (tcx, tcy)
      ((cos W (angle tank) * max_range s + tcx)%Q,
       (sin W (angle tank) * max_range s + tcy)%Q) (oid tank) in
  let g' := shoot W tank g in
  scores g' = scores g /\ Game.stats g' = Game.stats g
  /\ (hits = [] -> g' = g)
  /\ forall t p who rest v,
       hits = (t, p, who) :: rest ->
       lookup_obj who (Game.objects g) = Some v ->
       (forall k, k <> who ->
          lookup_obj k (Game.objects g') = lookup_obj k (Game.objects g))
       /\ (cls v <> Tank -> lookup_obj who (Game.objects g') = Some v)
       /\ (cls v = Tank ->
           lookup_obj who (Game.objects g')
           = Some (set_respawn_in (spawn_time s) v)
           /\ forall sp, spawn v = Some sp ->
                exists v',
                  reset_tank s (set_respawn_in (spawn_time s) v) = Ok v'
                  /\ pose v'
                     = ((spawn_x sp + 2)%Q, (spawn_y sp + 2)%Q,
                        spawn_angle sp, 0, shoots v, spawn_time s)
                  /\ _x v' = x v' /\ _y v' = y v'
                  /\ _dx v' = 0%Q /\ _dy v' = 0%Q
                  /\ (0 <= spawn_time s ->
                      reset_tank s (Tank_update v')
                      = Ok (Tank_update v'))).
Proof.
  intros Sh s tcx tcy hits g'.
  assert (E : g' = match hits with
                   | (_, _, who) :: _ =>
                       Game.set_objects
                         (update_obj who
                            (fun o => if Class_eqb (cls o) Tank
                                      then set_respawn_in (spawn_time s) o
                                      else o)
                            (Game.objects g)) g
                   | [] => g
                   end).
  { subst g'. unfold shoot. rewrite Sh. reflexivity. }
  clearbody g' hits. subst g'.
  set (f := fun o : GameObject => if Class_eqb (cls o) Tank
                                  then set_respawn_in (spawn_time s) o
                                  else o).
  assert (F : forall o, oid (f o) = oid o)
    by (intros o; unfold f; destruct (Class_eqb (cls o) Tank);
        reflexivity).
  split; [destruct hits as [|[[t p] who] rest]; reflexivity | ].
  split; [destruct hits as [|[[t p] who] rest]; reflexivity | ].
  split; [intros ->; reflexivity | ].
  intros t p who rest v -> Lv. cbn [Game.objects Game.set_objects].
  split; [intros k Dk; apply lookup_update_other; auto | ].
  rewrite lookup_update_same by exact F. rewrite Lv. cbn [option_map].
  unfold f.
  split.
  { intros N. destruct (Class_eqb (cls v) Tank) eqn:C; [ | reflexivity].
    apply Class_eqb_Tank in C. contradiction. }
  intros C. rewrite C. cbn [Class_eqb].
  split; [reflexivity | ].
  intros sp Sp. unfold reset_tank. cbn [respawn_in set_respawn_in spawn].
  rewrite Z.eqb_refl, Sp. eexists. split; [reflexivity | ].
  split; [reflexivity | ].
  repeat (split; [reflexivity | ]).
  intros Hs. unfold Tank_update.
  cbn [respawn_in set_respawn_in set_ammo set_x set__x set_y set__y
       set__dx set__dy set_angle].
  destruct (spawn_time s =? 0) eqn:Z0.
  - apply Z.eqb_eq in Z0. cbn [respawn_in set_respawn_in].
    rewrite Z0. reflexivity.
  - apply Z.eqb_neq in Z0.
    assert (P : (0 <? spawn_time s) = true) by (apply Z.ltb_lt; lia).
    rewrite P. cbn [respawn_in set_respawn_in].
    assert (N : (spawn_time s - 1 =? spawn_time s) = false)
      by (apply Z.eqb_neq; lia).
    rewrite N. reflexivity.
Qed.

Lemma hit_tank_restarts_at_spawn_witness :
  let W := sharp_world in
  let tank := firing_tank in
  let g := duel_game in
  let s := Game.settings g in
  let tcx := (_x tank + width tank / 2)%Q in
  let tcy := (_y tank + height tank / 2)%Q in
  let hits :=
    raycast W (Game.objects g) (tcx, tcy)
      ((cos W (angle tank) * max_range s + tcx)%Q,
       (sin W (angle tank) * max_range s + tcy)%Q) (oid tank) in
  let g' := shoot W tank g in
  scores g' = scores g /\ Game.stats g' = Game.stats g
  /\ (hits = [] -> g' = g)
  /\ forall t p who rest v,
       hits = (t, p, who) :: rest ->
       lookup_obj who (Game.objects g) = Some v ->
       (forall k, k <> who ->
          lookup_obj k (Game.objects g') = lookup_obj k (Game.objects g))
       /\ (cls v <> Tank -> lookup_obj who (Game.objects g') = Some v)
       /\ (cls v = Tank ->
           lookup_obj who (Game.objects g')
           = Some (set_respawn_in (spawn_time s) v)
           /\ forall sp, spawn v = Some sp ->
                exists v',
                  reset_tank s (set_respawn_in (spawn_time s) v) = Ok v'
                  /\ pose v'
                     = ((spawn_x sp + 2)%Q, (spawn_y sp + 2)%Q,
                        spawn_angle sp, 0, shoots v, spawn_time s)
                  /\ _x v' = x v' /\ _y v' = y v'
                  /\ _dx v' = 0%Q /\ _dy v' = 0%Q
                  /\ (0 <= spawn_time s ->
                      reset_tank s (Tank_update v')
                      = Ok (Tank_update v'))).
Proof.
  apply (hit_tank_restarts_at_spawn sharp_world firing_tank duel_game).
  reflexivity.
Defined.
(** ** The objects of a field *)

Lemma half_offset (ts sz k : Z) :
  let d := (inject_Z (k * ts) + inject_Z ts / 2
            - (inject_Z (k * ts + (ts - sz) / 2) + inject_Z sz / 2))%Q in
  (0 <= d <= 1 # 2)%Q /\ ((ts - sz) mod 2 = 0 -> (d == 0)%Q).
Proof.
  intros d. subst d.
  pose proof (Z.div_mod (ts - sz) 2 ltac:(lia)) as E.
  pose proof (Z.mod_pos_bound (ts - sz) 2 ltac:(lia)) as B.
  set (q := (ts - sz) / 2) in *. set (r := (ts - sz) mod 2) in *.
  clearbody q r.
  assert (T : ts = 2 * q + r + sz) by lia.
  assert (D : (inject_Z (k * ts) + inject_Z ts / 2
               - (inject_Z (k * ts + q) + inject_Z sz / 2)
               == inject_Z r / 2)%Q).
  { rewrite (inject_Z_plus (k * ts) q).
    replace (inject_Z ts) with (inject_Z (2 * q + r + sz))
      by (now rewrite <- T).
    rewrite !inject_Z_plus, !inject_Z_mult.
    change (inject_Z 2) with 2%Q. field. }
  rewrite D.
  assert (R : r = 0 \/ r = 1) by lia.
  destruct R as [-> | ->]; split; try split; try discriminate;
    try reflexivity; lia.
Qed.

Lemma Forall2_assign_oids {A : Type} (P : A -> GameObject -> Prop)
    (mk : A -> GameObject) (l : list A) (n : nat) :
  (forall a k, P a (set_oid k (mk a))) ->
  Forall2 P l (assign_oids n (map mk l)).
Proof.
  intros H. revert n.
  induction l as [|a l IH]; intros n; cbn [map assign_oids];
    constructor; auto.
Qed.

Lemma ControlPoint_placed (ts px py : Z) (k : nat) :
  placed_on ts ControlPoint (px, py)
    (set_oid k
       (ControlPoint_init
          (inject_Z (px * ts + (ts - SIZE ControlPoint) / 2))
          (inject_Z (py * ts + (ts - SIZE ControlPoint) / 2)))).
Proof.
  unfold placed_on, off_centre, tile_centre, centre.
  cbn [fst snd x y width height cls _x _y set_oid ControlPoint_init
       GameObject_init].
  destruct (half_offset ts (SIZE ControlPoint) px) as [X1 X2].
  destruct (half_offset ts (SIZE ControlPoint) py) as [Y1 Y2].
  repeat split; auto; try apply X1; try apply Y1; tauto.
Qed.

Lemma TankSpawn_placed (ts px py : Z) (r : Q) (tm : Team) (k : nat) :
  placed_on ts TankSpawn (px, py)
    (set_oid k
       (TankSpawn_init
          (inject_Z (px * ts + (ts - SIZE TankSpawn) / 2))
          (inject_Z (py * ts + (ts - SIZE TankSpawn) / 2)) r tm)).
Proof.
  unfold placed_on, off_centre, tile_centre, centre.
  cbn [fst snd x y width height cls _x _y set_oid TankSpawn_init set_team
       GameObject_init].
  destruct (half_offset ts (SIZE TankSpawn) px) as [X1 X2].
  destruct (half_offset ts (SIZE TankSpawn) py) as [Y1 Y2].
  repeat split; auto; try apply X1; try apply Y1; tauto.
Qed.

Lemma construct_size (c : Class) (px py : Q) :
  let o := construct c px py in
  cls o = c /\ x o = px /\ y o = py
  /\ width o = inject_Z (SIZE c) /\ height o = inject_Z (SIZE c).
Proof. destruct c; cbn; repeat split; reflexivity. Qed.

Lemma exact_offset (ts sz k : Z) :
  (inject_Z (k * ts) + inject_Z ts / 2
   - (inject_Z (k * ts) + inject_Z (ts - sz) / 2 + inject_Z sz / 2)
   == 0)%Q.
Proof.
  unfold Z.sub. rewrite inject_Z_plus, inject_Z_opp. field.
Qed.

(** X24.  [get_objects] builds one object per entry of the field and puts
    it on the tile the entry names: a control point per control point and a
    spawn per spawn (red ones for the red team, blue ones for the blue
    team, each with the angle of the entry), all square, of the size of
    their class, and centred on their tile up to the half unit the integer
    division of the offset loses when [tilesize] and size differ in parity;
    a wall per wall rectangle with exactly that rectangle; and one object
    of the named class per other object, centred on its tile exactly.  The
    list of all objects is walls, control points, red spawns, blue spawns
    and other objects, in that order. *)
Theorem objects_sit_on_their_tiles (f : Field.t) (n : nat) :
  let ts := Field.tilesize f in
  let '(all, cps, reds, blues) := get_objects f n in
  Forall2 (placed_on ts ControlPoint) (Field.controlpoints f) cps
  /\ Forall2 (fun (s : Z * Z * Q) o =>
                placed_on ts TankSpawn (fst s) o
                /\ team o = TEAM_RED /\ angle o = snd s)
       (Field.spawns_red f) reds
  /\ Forall2 (fun (s : Z * Z * Q) o =>
                placed_on ts TankSpawn (fst s) o
                /\ team o = TEAM_BLUE /\ angle o = snd s)
       (Field.spawns_blue f) blues
  /\ exists walls others,
       all = walls ++ cps ++ reds ++ blues ++ others
       /\ Forall2 (fun (w : Q * Q * Q * Q) o =>
                     cls o = Wall
                     /\ (x o, y o, width o, height o) = w)
            (Field.wallrects f) walls
       /\ Forall2 (fun (p : Z * Z * Class) o =>
                     cls o = snd p
                     /\ width o = inject_Z (SIZE (snd p))
                     /\ height o = inject_Z (SIZE (snd p))
                     /\ (fst (off_centre ts (fst p) o) == 0)%Q
                     /\ (snd (off_centre ts (fst p) o) == 0)%Q)
            (Field.other_objects f) others.
Proof.
  intros ts. unfold get_objects. fold ts. cbv zeta.
  split.
  { apply Forall2_assign_oids. intros [px py] k.
    apply ControlPoint_placed. }
  split.
  { apply Forall2_assign_oids. intros [[px py] r] k.
    split; [apply TankSpawn_placed | split; reflexivity]. }
  split.
  { apply Forall2_assign_oids. intros [[px py] r] k.
    split; [apply TankSpawn_placed | split; reflexivity]. }
  eexists _, _. split; [reflexivity | ].
  split.
  { apply Forall2_assign_oids. intros [[[wx wy] ww] wh] k.
    split; reflexivity. }
  apply Forall2_assign_oids. intros [[px py] c] k.
  destruct (construct_size c
              (inject_Z (px * ts) + inject_Z (ts - SIZE c) / 2)%Q
              (inject_Z (py * ts) + inject_Z (ts - SIZE c) / 2)%Q)
    as (C1 & C2 & C3 & C4 & C5).
  unfold off_centre, tile_centre, centre.
  cbn [fst snd].
  change (cls (set_oid k ?o)) with (cls o).
  change (width (set_oid k ?o)) with (width o).
  change (height (set_oid k ?o)) with (height o).
  change (x (set_oid k ?o)) with (x o).
  change (y (set_oid k ?o)) with (y o).
  rewrite C1, C2, C3, C4, C5.
  repeat split; auto; apply exact_offset.
Qed.
(** ** Adding a fountain to the game *)

Lemma spawn_one_on_blocked_tile (W : World) (n i : nat)
    (self : GameObject) (g : Game.t) :
  lookup_obj i (Game.objects g) = Some self ->
  cls self = AmmoFountain ->
  spawn_tile_blocked (Game.field g) (x self + width self / 2)%Q
    (y self + height self / 2)%Q = true ->
  Fountain_spawn_one W n i g = Ok g.
Proof.
  intros L C B. induction n as [|n IH]; cbn [Fountain_spawn_one];
    [reflexivity | ].
  rewrite L. unfold SPREAD. rewrite C. unfold spawn_tile_blocked in B.
  apply andb_prop in B. destruct B as [B0 B].
  apply negb_true_iff in B0. rewrite B0. cbv zeta in B.
  match goal with
  | |- (if ?b then _ else _) = _ => destruct b eqn:In
  end; [ | exact IH].
  rewrite ?In in B. cbn [negb orb] in B.
  destruct (nth_error (Field.walls (Game.field g)) _) as [row|];
    [ | discriminate].
  destruct (nth_error row _) as [tile|]; [ | discriminate].
  apply negb_true_iff in B. rewrite B. exact IH.
Qed.

Lemma added_fountain_found (o : GameObject) (g : Game.t) :
  lookup_obj (oid o) (Game.objects g) = None ->
  lookup_obj (oid o)
    (update_obj (oid o) (set_DELAY (ammo_rate (Game.settings g)))
       (Game.objects g ++ [o]))
  = Some (set_DELAY (ammo_rate (Game.settings g)) o).
Proof.
  intros N. rewrite lookup_update_same by reflexivity.
  rewrite lookup_app_new, N.
  assert (H : has_oid (oid o) o = true) by (now apply has_oid_true).
  rewrite H. reflexivity.
Qed.

(** X25.  An ammo fountain without children that is added on a tile
    which is a wall, or which lies outside the field, never comes back from
    [add_object]: [spawn_one] gives up after its attempts without a pack,
    and the loop of [added_to_game] calls it again, for ever. *)
Theorem fountain_on_a_wall_hangs (W : World) (fuel : nat)
    (o : GameObject) (g : Game.t) :
  cls o = AmmoFountain -> children o = [] ->
  lookup_obj (oid o) (Game.objects g) = None ->
  spawn_tile_blocked (Game.field g) (x o + width o / 2)%Q
    (y o + height o / 2)%Q = true ->
  add_object W fuel o g = Diverge.
Proof.
  intros C Ch N B. unfold add_object, added_to_game. rewrite C.
  cbn [Game.objects Game.set_objects Game.settings].
  pose proof (added_fountain_found o g N) as L.
  set (g1 := Game.set_objects _ _).
  change (lookup_obj (oid o) (Game.objects g1)
          = Some (set_DELAY (ammo_rate (Game.settings g)) o)) in L.
  assert (B1 : spawn_tile_blocked (Game.field g1)
                 (x (set_DELAY (ammo_rate (Game.settings g)) o)
                  + width (set_DELAY (ammo_rate (Game.settings g)) o) / 2)%Q
                 (y (set_DELAY (ammo_rate (Game.settings g)) o)
                  + height (set_DELAY (ammo_rate (Game.settings g)) o) / 2)%Q
               = true) by exact B.
  clearbody g1.
  induction fuel as [|fuel IH]; cbn [Fountain_added_to_game]; rewrite L;
    cbn [children set_DELAY cls]; rewrite Ch, C;
    cbn [length MIN_CHILDREN Nat.ltb Nat.leb]; [reflexivity | ].
  rewrite (spawn_one_on_blocked_tile W 10 (oid o) _ g1 L C B1).
  cbn [bind]. exact IH.
Qed.

Lemma fountain_on_a_wall_hangs_witness :
  add_object still_world 1000 walled_fountain corridor_game = Diverge.
Proof.
  apply fountain_on_a_wall_hangs; reflexivity.
Defined.

Lemma add_fountain_on_free_tile (W : World) (fuel : nat)
    (o : GameObject) (g : Game.t) :
  cls o = AmmoFountain -> children o = [] ->
  lookup_obj (oid o) (Game.objects g) = None ->
  spawn_tile_free (Game.field g) (x o + width o / 2)%Q
    (y o + height o / 2)%Q = true ->
  exists g',
    add_object W (S fuel) o g = Ok g'
    /\ Game.objects g'
       = Game.objects g
         ++ [set_children [Game.next_oid g]
               (set_DELAY (ammo_rate (Game.settings g)) o);
             spawned_pack o (oid o) (Game.next_oid g)]
    /\ Game.next_oid g' = S (Game.next_oid g).
Proof.
  intros C Ch N F. unfold add_object, added_to_game. rewrite C.
  cbn [Game.objects Game.set_objects Game.settings].
  pose proof (added_fountain_found o g N) as L.
  set (o1 := set_DELAY (ammo_rate (Game.settings g)) o) in *.
  set (objs := update_obj (oid o) _ _) in *.
  assert (Eo : objs = Game.objects g ++ [o1]).
  { subst objs. unfold update_obj. rewrite map_app. cbn [map].
    assert (H : has_oid (oid o) o = true) by (now apply has_oid_true).
    rewrite H. f_equal.
    assert (G : forall l, lookup_obj (oid o) l = None ->
                  map (fun o0 => if has_oid (oid o) o0
                                 then set_DELAY
                                        (ammo_rate (Game.settings g)) o0
                                 else o0) l = l).
    { induction l as [|a l IH]; [reflexivity | ].
      unfold lookup_obj. cbn [find map].
      destruct (has_oid (oid o) a); [discriminate | ].
      intros Hl. now rewrite (IH Hl). }
    apply G. exact N. }
  set (g1 := Game.set_objects objs (Game.set_objects _ g)).
  change (lookup_obj (oid o) (Game.objects g1) = Some o1) in L.
  cbn [Fountain_added_to_game]. rewrite L.
  assert (C1 : cls o1 = AmmoFountain) by exact C.
  assert (Ch1 : children o1 = []) by exact Ch.
  rewrite Ch1, C1. cbn [length MIN_CHILDREN Nat.ltb Nat.leb].
  rewrite (spawn_one_on_free_tile W 9 (oid o) o1 g1 L C1 F).
  cbn [bind].
  set (g2 := Game.set_objects _ _).
  assert (E2 : Game.objects g2
               = Game.objects g
                 ++ [set_children [Game.next_oid g] o1;
                     spawned_pack o (oid o) (Game.next_oid g)]).
  { subst g2 g1. cbn [Game.objects Game.set_objects Game.next_oid
                      Game.set_next_oid].
    rewrite Eo. unfold update_obj. rewrite map_app. cbn [map].
    assert (H : has_oid (oid o) o1 = true) by (now apply has_oid_true).
    rewrite H. rewrite Ch1. cbn [app]. rewrite <- app_assoc. cbn [app].
    f_equal.
    assert (G : forall l, lookup_obj (oid o) l = None ->
                  map (fun o0 => if has_oid (oid o) o0
                                 then set_children
                                        (children o0 ++ [Game.next_oid g]) o0
                                 else o0) l = l).
    { induction l as [|a l IH]; [reflexivity | ].
      unfold lookup_obj. cbn [find map].
      destruct (has_oid (oid o) a); [discriminate | ].
      intros Hl. now rewrite (IH Hl). }
    apply G. exact N. }
  assert (L2 : lookup_obj (oid o) (Game.objects g2)
               = Some (set_children [Game.next_oid g] o1)).
  { rewrite E2.
    change (Game.objects g
            ++ [set_children [Game.next_oid g] o1;
                spawned_pack o (oid o) (Game.next_oid g)])
      with (Game.objects g
            ++ [set_children [Game.next_oid g] o1]
               ++ [spawned_pack o (oid o) (Game.next_oid g)]).
    rewrite app_assoc, !lookup_app_new, N.
    assert (H : has_oid (oid o) (set_children [Game.next_oid g] o1)
                = true) by (now apply has_oid_true).
    rewrite H. reflexivity. }
  exists g2. split.
  { destruct fuel; cbn [Fountain_added_to_game]; rewrite L2;
      cbn [children set_children cls]; rewrite C1;
      cbn [length MIN_CHILDREN Nat.ltb Nat.leb]; reflexivity. }
  split; [exact E2 | reflexivity].
Qed.

(** X26.  An ammo fountain without children that is added on a free tile
    of the field comes back from [add_object] after one round of the loop:
    it is in the object list with the delay [ammo_rate] of the settings and
    one child, and that child, a new ammo pack centred on the fountain, is
    the last object of the list; the objects that were in the game are
    untouched, and so are the field, the scores and the tanks. *)
Theorem fountain_starts_with_a_pack (W : World) (fuel : nat)
    (o : GameObject) (g : Game.t) :
  cls o = AmmoFountain -> children o = [] ->
  lookup_obj (oid o) (Game.objects g) = None ->
  spawn_tile_free (Game.field g) (x o + width o / 2)%Q
    (y o + height o / 2)%Q = true ->
  exists g',
    add_object W (S fuel) o g = Ok g'
    /\ Game.objects g'
       = Game.objects g
         ++ [set_children [Game.next_oid g]
               (set_DELAY (ammo_rate (Game.settings g)) o);
             spawned_pack o (oid o) (Game.next_oid g)]
    /\ Game.next_oid g' = S (Game.next_oid g)
    /\ scores g' = scores g /\ frame g' = frame g.
Proof.
  intros C Ch N F.
  destruct (add_fountain_on_free_tile W fuel o g C Ch N F)
    as (g' & A & E & Nx).
  exists g'. repeat split; auto.
  - eapply scores_add_object; eassumption.
  - eapply frame_add_object; eassumption.
Qed.

Lemma fountain_starts_with_a_pack_witness :
  let o := fresh_fountain in
  let g := corridor_game in
  exists g',
    add_object still_world 1 o g = Ok g'
    /\ Game.objects g'
       = Game.objects g
         ++ [set_children [Game.next_oid g]
               (set_DELAY (ammo_rate (Game.settings g)) o);
             spawned_pack o (oid o) (Game.next_oid g)]
    /\ Game.next_oid g' = S (Game.next_oid g)
    /\ scores g' = scores g /\ frame g' = frame g.
Proof.
  apply (fountain_starts_with_a_pack still_world 0 fresh_fountain
           corridor_game); reflexivity.
Defined.
(** ** What [setup] builds *)

Lemma lookup_obj_fresh (i : nat) (l : list GameObject) :
  Forall (fun o => oid o <> i) l -> lookup_obj i l = None.
Proof.
  unfold lookup_obj. induction 1 as [|a l H _ IH]; [reflexivity | ].
  cbn [find].
  assert (N : has_oid i a = false)
    by (unfold has_oid; now apply Nat.eqb_neq).
  rewrite N. exact IH.
Qed.

Lemma add_plain_object (W : World) (fuel : nat) (o : GameObject)
    (g : Game.t) :
  is_fountain (cls o) = false ->
  add_object W fuel o g = Ok (Game.set_objects (Game.objects g ++ [o]) g).
Proof.
  unfold add_object, added_to_game.
  destruct (cls o); cbn; intros H; try discriminate; reflexivity.
Qed.

Lemma frame_field (g g' : Game.t) :
  frame g' = frame g ->
  Game.field g' = Game.field g /\ Game.settings g' = Game.settings g
  /\ Game.record g' = Game.record g /\ Game.replay g' = Game.replay g
  /\ Game.tanks g' = Game.tanks g.
Proof. unfold frame. intros [= -> -> -> _ -> _ -> _]. auto. Qed.

Lemma add_objects_spec (W : World) (fuel : nat) (l : list GameObject) :
  forall (m : nat) (g : Game.t),
    map oid l = seq m (length l) ->
    Forall (addable (Game.field g)) l ->
    Forall (fun o => (oid o < m \/ m + length l <= oid o)%nat)
      (Game.objects g) ->
    Forall (fun o => (oid o < Game.next_oid g)%nat) (Game.objects g) ->
    (m + length l <= Game.next_oid g)%nat ->
    exists g',
      add_objects W (S fuel) l g = Ok g'
      /\ Game.objects g'
         = Game.objects g
           ++ added (ammo_rate (Game.settings g)) (Game.next_oid g) l
      /\ Game.next_oid g' = (Game.next_oid g + count_fountains l)%nat
      /\ Forall (fun o => (oid o < Game.next_oid g')%nat) (Game.objects g')
      /\ frame g' = frame g.
Proof.
  induction l as [|o r IH]; intros m g Ho Ha Hr Hn Hm.
  - exists g. cbn [add_objects added count_fountains].
    rewrite app_nil_r, Nat.add_0_r. auto.
  - cbn [map length seq] in Ho. injection Ho as Om Or.
    apply Forall_cons in Ha. destruct Ha as [Ao Ar].
    cbn [length] in Hr, Hm.
    assert (Fr : lookup_obj (oid o) (Game.objects g) = None).
    { apply lookup_obj_fresh. eapply Forall_impl; [exact Hr | ].
      cbn beta. intros a Ha. lia. }
    assert (Step : exists g1,
               add_object W (S fuel) o g = Ok g1
               /\ Game.objects g1
                  = Game.objects g
                    ++ added (ammo_rate (Game.settings g))
                         (Game.next_oid g) [o]
               /\ Game.next_oid g1
                  = (Game.next_oid g + count_fountains [o])%nat).
    { unfold addable in Ao. cbn [added count_fountains].
      destruct (cls o) eqn:C; try contradiction;
        try (exists (Game.set_objects (Game.objects g ++ [o]) g);
             split; [apply add_plain_object; rewrite C; reflexivity | ];
             cbn [Class_eqb]; split; [reflexivity | ];
             cbn [Game.next_oid Game.set_objects]; lia).
      destruct Ao as [Ch Fo].
      destruct (add_fountain_on_free_tile W fuel o g C Ch Fr Fo)
        as (g1 & A1 & E1 & N1).
      exists g1. cbn [Class_eqb].
      split; [exact A1 | ]. split; [exact E1 | lia]. }
    destruct Step as (g1 & A1 & E1 & N1).
    pose proof (frame_add_object _ _ _ _ _ A1) as F1.
    destruct (frame_field _ _ F1) as (Ff & Fs & _).
    assert (Oa : Forall (fun a => (oid a < S m \/ Game.next_oid g <= oid a)%nat
                                  /\ (oid a < Game.next_oid g1)%nat)
                   (added (ammo_rate (Game.settings g))
                      (Game.next_oid g) [o])).
    { cbn [added count_fountains] in *.
      destruct (Class_eqb (cls o) AmmoFountain).
      - apply Forall_cons. split.
        { cbn [oid set_children set_DELAY]. lia. }
        apply Forall_cons. split; [ | apply Forall_nil; exact I].
        unfold spawned_pack. cbn [oid set_parent set_oid]. lia.
      - apply Forall_cons. split; [lia | apply Forall_nil; exact I]. }
    destruct (IH (S m) g1) as (g' & A' & E' & N' & Fo' & F').
    + exact Or.
    + rewrite Ff. exact Ar.
    + rewrite E1. apply Forall_app. split.
      * eapply Forall_impl; [exact Hr | ]. cbn beta. intros a Ha. lia.
      * eapply Forall_impl; [exact Oa | ]. cbn beta. intros a Ha. lia.
    + rewrite E1. apply Forall_app. split.
      * eapply Forall_impl; [exact Hn | ]. cbn beta. intros a Ha. lia.
      * eapply Forall_impl; [exact Oa | ]. cbn beta. intros a Ha. lia.
    + lia.
    + exists g'. cbn [add_objects]. rewrite A1. cbn [bind].
      split; [exact A' | ].
      split.
      { rewrite E', E1, Fs, N1, <- app_assoc. f_equal.
        cbn [added count_fountains].
        destruct (Class_eqb (cls o) AmmoFountain); cbn [app];
          repeat f_equal; lia. }
      split; [rewrite N', N1; cbn [count_fountains]; lia | ].
      split; [exact Fo' | congruence].
Qed.

Lemma tank_row_same (g g' : Game.t) (tm : Team) (spawns : list GameObject) :
  Game.settings g' = Game.settings g -> Game.record g' = Game.record g ->
  forall i n, tank_row g' tm i n spawns = tank_row g tm i n spawns.
Proof.
  intros S R. induction spawns as [|s rest IH]; intros i n;
    cbn [tank_row]; [reflexivity | ].
  rewrite IH. unfold spawned_tank, new_brain_red, new_brain_blue.
  rewrite S, R. reflexivity.
Qed.

Lemma tank_row_oids (g : Game.t) (tm : Team) (spawns : list GameObject) :
  forall i n, map oid (tank_row g tm i n spawns) = seq n (length spawns).
Proof.
  induction spawns as [|s rest IH]; intros i n;
    cbn [tank_row map length seq]; [reflexivity | ].
  now rewrite IH.
Qed.

Lemma tank_row_length (g : Game.t) (tm : Team)
    (spawns : list GameObject) :
  forall i n, length (tank_row g tm i n spawns) = length spawns.
Proof.
  induction spawns as [|s rest IH]; intros i n;
    cbn [tank_row length]; [reflexivity | ].
  now rewrite IH.
Qed.

Lemma setup_brain_tanks_spec (W : World) (fuel : nat) (tm : Team)
    (spawns : list GameObject) :
  forall (i : nat) (g : Game.t),
    exists g',
      setup_brain_tanks W fuel tm i spawns g = Ok g'
      /\ Game.objects g'
         = Game.objects g ++ tank_row g tm i (Game.next_oid g) spawns
      /\ Game.tanks g'
         = Game.tanks g ++ seq (Game.next_oid g) (length spawns)
      /\ Game.next_oid g' = (Game.next_oid g + length spawns)%nat
      /\ Game.settings g' = Game.settings g
      /\ Game.record g' = Game.record g
      /\ Game.controlpoints g' = Game.controlpoints g.
Proof.
  induction spawns as [|s rest IH]; intros i g.
  - exists g. cbn [setup_brain_tanks tank_row seq length].
    rewrite !app_nil_r, Nat.add_0_r. auto 10.
  - cbn [setup_brain_tanks]. rewrite brain_Tank_call_returns.
    cbn [bind]. unfold enlist_tank, alloc.
    rewrite add_plain_object by reflexivity. cbn [bind].
    set (g1 := Game.set_objects _ _).
    destruct (IH (S i) g1) as (g' & A & E & T & N & S & R & C).
    exists g'. split; [exact A | ].
    rewrite E, T, N, S, R, C.
    rewrite (tank_row_same g g1 tm rest) by reflexivity.
    subst g1.
    cbn [Game.objects Game.set_objects Game.tanks Game.set_tanks
         Game.next_oid Game.set_next_oid Game.settings Game.record
         Game.controlpoints tank_row seq length].
    rewrite <- !app_assoc. cbn [app].
    repeat split; auto; lia.
Qed.

Lemma lookup_row (n : nat) (row : list GameObject) :
  forall (l : list GameObject) (k : nat),
    Forall (fun o => (oid o < n + k)%nat) l ->
    map oid row = seq (n + k) (length row) ->
    Forall2 (fun i t => lookup_obj i (l ++ row) = Some t)
      (seq (n + k) (length row)) row.
Proof.
  induction row as [|t row IH]; intros l k Hl Hr; cbn [length seq].
  - constructor.
  - cbn [map length seq] in Hr. injection Hr as Ht Hr.
    constructor.
    + assert (N : lookup_obj (n + k) l = None).
      { apply lookup_obj_fresh. eapply Forall_impl; [exact Hl | ].
        cbn beta. intros a Ha. lia. }
      revert N. unfold lookup_obj. clear -Ht.
      induction l as [|a l IHl]; cbn [app find].
      * intros _. assert (H : has_oid (n + k) t = true)
          by (now apply has_oid_true). now rewrite H.
      * destruct (has_oid (n + k) a); [discriminate | exact IHl].
    + replace (S (n + k)) with (n + S k)%nat in * by lia.
      change (l ++ t :: row) with (l ++ [t] ++ row).
      rewrite app_assoc. apply IH; [ | exact Hr].
      apply Forall_app. split.
      * eapply Forall_impl; [exact Hl | ]. cbn beta. intros a Ha. lia.
      * apply Forall_cons. split; [lia | apply Forall_nil; exact I].
Qed.

Lemma nth_error_lookup_eq {A : Type} (l : list A) (n : nat) :
  nth_error l n = l !! n.
Proof.
  revert n. induction l as [|a l IH]; intros [|n]; cbn; auto.
Qed.

Lemma floor_tile (ts k : Z) (q : Q) :
  0 < ts -> (q == inject_Z (k * ts) + inject_Z ts / 2)%Q ->
  Qfloor (q / inject_Z ts) = k.
Proof.
  intros T E.
  assert (N : ~ (inject_Z ts == 0)%Q).
  { intros H. unfold Qeq in H. cbn in H. lia. }
  assert (H : (q / inject_Z ts == inject_Z k + (1 # 2))%Q).
  { rewrite E, inject_Z_mult. field. exact N. }
  assert (B : k <= Qfloor (q / inject_Z ts) <= k).
  { apply Qfloor_between; rewrite H; lra. }
  lia.
Qed.

Lemma fountain_addable (f : Field.t) (px py : Z) (k : nat) :
  let ts := Field.tilesize f in
  0 < ts -> is_free (Field.walls f) (px, py) = true ->
  px < Field.width f -> py < Field.height f ->
  addable f
    (set_oid k
       (construct AmmoFountain
          (inject_Z (px * ts) + inject_Z (ts - SIZE AmmoFountain) / 2)%Q
          (inject_Z (py * ts) + inject_Z (ts - SIZE AmmoFountain) / 2)%Q)).
Proof.
  intros ts T Fr Hx Hy.
  destruct (construct_size AmmoFountain
              (inject_Z (px * ts) + inject_Z (ts - SIZE AmmoFountain) / 2)%Q
              (inject_Z (py * ts) + inject_Z (ts - SIZE AmmoFountain) / 2)%Q)
    as (C1 & C2 & C3 & C4 & C5).
  unfold addable.
  change (cls (set_oid k ?o)) with (cls o).
  change (children (set_oid k ?o)) with (children o).
  change (width (set_oid k ?o)) with (width o).
  change (height (set_oid k ?o)) with (height o).
  change (x (set_oid k ?o)) with (x o).
  change (y (set_oid k ?o)) with (y o).
  rewrite C1, C2, C3, C4, C5. split; [reflexivity | ].
  unfold spawn_tile_free. fold ts.
  assert (T0 : (ts =? 0) = false) by (apply Z.eqb_neq; lia).
  rewrite T0. cbn [negb andb]. cbv zeta.
  rewrite (floor_tile ts px
             (inject_Z (px * ts) + inject_Z (ts - SIZE AmmoFountain) / 2
              + inject_Z (SIZE AmmoFountain) / 2)),
          (floor_tile ts py
             (inject_Z (py * ts) + inject_Z (ts - SIZE AmmoFountain) / 2
              + inject_Z (SIZE AmmoFountain) / 2)); try exact T;
    try (unfold Z.sub; rewrite inject_Z_plus, inject_Z_opp; field).
  unfold is_free, cell in Fr.
  destruct (Z.leb_spec 0 px); [ | discriminate].
  destruct (Z.leb_spec 0 py); [ | discriminate].
  cbn [andb] in Fr |- *.
  assert (Bx : (px <? Field.width f) = true) by (apply Z.ltb_lt; lia).
  assert (By : (py <? Field.height f) = true) by (apply Z.ltb_lt; lia).
  rewrite Bx, By. cbn [andb].
  rewrite !nth_error_lookup_eq.
  destruct (Field.walls f !! Z.to_nat py) as [row|]; [ | discriminate].
  rewrite nth_error_lookup_eq.
  destruct (row !! Z.to_nat px) as [[| |]|]; try discriminate.
  reflexivity.
Qed.

Lemma assign_oids_oids (l : list GameObject) :
  forall n, map oid (assign_oids n l) = seq n (length l).
Proof.
  induction l as [|o l IH]; intros n; cbn [assign_oids map length seq];
    [reflexivity | ].
  now rewrite IH.
Qed.

Lemma assign_oids_length (l : list GameObject) :
  forall n, length (assign_oids n l) = length l.
Proof.
  induction l as [|o l IH]; intros n; cbn [assign_oids length];
    [reflexivity | ].
  now rewrite IH.
Qed.

Lemma Forall_assign_oids {A : Type} (P : GameObject -> Prop)
    (mk : A -> GameObject) (l : list A) :
  Forall (fun a => forall k, P (set_oid k (mk a))) l ->
  forall n, Forall P (assign_oids n (map mk l)).
Proof.
  induction 1 as [|a l H _ IH]; intros n; cbn [map assign_oids];
    constructor; auto.
Qed.

Lemma get_objects_addable (f : Field.t) (n : nat) :
  0 < Field.tilesize f ->
  Forall (fun p : Z * Z * Class =>
            snd p = AmmoFountain
            /\ is_free (Field.walls f) (fst p) = true
            /\ fst (fst p) < Field.width f
            /\ snd (fst p) < Field.height f)
    (Field.other_objects f) ->
  let all := fst (fst (fst (get_objects f n))) in
  map oid all = seq n (length all) /\ Forall (addable f) all.
Proof.
  intros T H. unfold get_objects. cbv zeta. cbn [fst]. split.
  - rewrite !map_app, !assign_oids_oids, !length_app,
      !assign_oids_length, !length_map.
    rewrite !seq_app. repeat f_equal; lia.
  - repeat (apply Forall_app; split).
    + apply Forall_assign_oids. apply Forall_forall.
      intros [[[wx wy] ww] wh] _ k. exact I.
    + apply Forall_assign_oids. apply Forall_forall.
      intros [px py] _ k. exact I.
    + apply Forall_assign_oids. apply Forall_forall.
      intros [[px py] r] _ k. exact I.
    + apply Forall_assign_oids. apply Forall_forall.
      intros [[px py] r] _ k. exact I.
    + apply Forall_assign_oids.
      eapply Forall_impl; [exact H | ]. cbn beta.
      intros [[px py] c] (C & Fr & Hx & Hy) k. cbn [fst snd] in *.
      subst c. now apply fountain_addable.
Qed.

(** X27.  [setup] of a game that is played by agents (recorded, or
    without a replay) comes back when the tiles are not empty and every
    other object of the field is an ammo fountain on a free tile inside
    the field.  The game then holds the objects of the field in the order
    of [get_objects], every ammo fountain with the delay [ammo_rate] and
    followed by the pack it spawned, and after them one tank per red spawn
    and one per blue spawn: the tank of agent [i] of a team stands 2 units
    into spawn [i] of that team with the angle of the spawn, alive and
    without ammunition, with the recording flag of the game.  [self.tanks]
    lists exactly these tanks, red ones first, each found in the game by
    its identity, and [self.controlpoints] the control points of the
    field. *)
Theorem setup_builds_the_match (W : World) (fuel : nat) (g : Game.t) :
  let f := Game.field g in
  (Game.record g = true \/ Game.replay g = None) ->
  0 < Field.tilesize f ->
  Forall (fun p : Z * Z * Class =>
            snd p = AmmoFountain
            /\ is_free (Field.walls f) (fst p) = true
            /\ fst (fst p) < Field.width f
            /\ snd (fst p) < Field.height f)
    (Field.other_objects f) ->
  let '(all, cps, reds, blues) := get_objects f (Game.next_oid g) in
  let n1 := (Game.next_oid g + length all)%nat in
  let n2 := (n1 + count_fountains all)%nat in
  let tanks := tank_row g TEAM_RED 0 n2 reds
               ++ tank_row g TEAM_BLUE 0 (n2 + length reds) blues in
  exists g',
    Game_setup W (S fuel) g = Ok g'
    /\ Game.objects g'
       = added (ammo_rate (Game.settings g)) n1 all ++ tanks
    /\ Game.tanks g' = map oid tanks
    /\ Forall2 (fun i t => lookup_obj i (Game.objects g') = Some t)
         (Game.tanks g') tanks
    /\ Game.controlpoints g' = map oid cps
    /\ Game.next_oid g' = (n2 + length tanks)%nat.
Proof.
  intros f Hb T Ho.
  pose proof (get_objects_addable f (Game.next_oid g) T Ho) as G.
  unfold Game_setup.
  set (g0 := if Game.record g then _ else g).
  assert (E0 : Game.field g0 = f /\ Game.next_oid g0 = Game.next_oid g
               /\ Game.settings g0 = Game.settings g
               /\ Game.record g0 = Game.record g
               /\ (Game.record g0 = true \/ Game.replay g0 = None)).
  { subst g0. destruct (Game.record g) eqn:R; cbn; repeat split; auto.
    destruct Hb; [discriminate | auto]. }
  destruct E0 as (Ef & En & Es & Er & Eb). clearbody g0. rewrite Ef, En.
  destruct (get_objects f (Game.next_oid g))
    as [[[all cps] reds] blues].
  cbn [fst] in G. destruct G as [Go Ga]. cbv zeta.
  set (n1 := (Game.next_oid g + length all)%nat).
  set (g1 := Game.set_controlpoints [] _).
  assert (P1 : Forall (addable (Game.field g1)) all)
    by (subst g1; cbn; rewrite Ef; exact Ga).
  assert (P2' : Forall (fun o => (oid o < Game.next_oid g
                                  \/ Game.next_oid g + length all <= oid o)%nat)
                  (Game.objects g1))
    by (subst g1; cbn; constructor).
  assert (P3 : Forall (fun o => (oid o < Game.next_oid g1)%nat)
                 (Game.objects g1))
    by (subst g1; cbn; constructor).
  assert (P4 : (Game.next_oid g + length all <= Game.next_oid g1)%nat)
    by (subst g1; cbn; lia).
  destruct (add_objects_spec W fuel all (Game.next_oid g) g1 Go P1 P2' P3
              P4) as (g2 & A2 & E2 & N2 & F2 & Fr2).
  rewrite A2. cbn [bind].
  destruct (frame_field _ _ Fr2) as (_ & S2 & R2 & P2 & T2).
  set (g3 := Game.set_controlpoints (map oid cps) g2).
  assert (B3 : match Game.record g3, Game.replay g3 with
               | false, Some r =>
                   g4 <- setup_replay_tanks W (S fuel) TEAM_RED 0 reds
                           (ReplayData.actions_red r) g3 ;;
                   setup_replay_tanks W (S fuel) TEAM_BLUE 0 blues
                     (ReplayData.actions_blue r) g4
               | _, _ =>
                   g4 <- setup_brain_tanks W (S fuel) TEAM_RED 0 reds g3 ;;
                   setup_brain_tanks W (S fuel) TEAM_BLUE 0 blues g4
               end
               = (g4 <- setup_brain_tanks W (S fuel) TEAM_RED 0 reds g3 ;;
                  setup_brain_tanks W (S fuel) TEAM_BLUE 0 blues g4)).
  { subst g3. cbn [Game.record Game.replay Game.set_controlpoints].
    rewrite R2, P2. subst g1. cbn.
    destruct Eb as [-> | ->]; [reflexivity | ].
    destruct (Game.record g0); reflexivity. }
  rewrite B3. clear B3.
  destruct (setup_brain_tanks_spec W (S fuel) TEAM_RED reds 0 g3)
    as (g4 & A4 & E4 & T4 & N4 & S4 & R4 & C4).
  rewrite A4. cbn [bind].
  destruct (setup_brain_tanks_spec W (S fuel) TEAM_BLUE blues 0 g4)
    as (g5 & A5 & E5 & T5 & N5 & S5 & R5 & C5).
  rewrite A5. cbn [bind].
  assert (S3 : Game.settings g3 = Game.settings g
               /\ Game.record g3 = Game.record g).
  { subst g3. cbn. rewrite S2, R2. subst g1. cbn. auto. }
  destruct S3 as [S3 R3].
  assert (N3 : Game.next_oid g3 = (n1 + count_fountains all)%nat).
  { subst g3. cbn. rewrite N2. subst g1. cbn. rewrite ?En. reflexivity. }
  assert (O3 : Game.objects g3
               = added (ammo_rate (Game.settings g)) n1 all).
  { subst g3. cbn. rewrite E2. subst g1. cbn. rewrite ?Es, ?En.
    reflexivity. }
  assert (T3 : Game.tanks g3 = []).
  { subst g3. cbn. rewrite T2. subst g1. reflexivity. }
  rewrite (tank_row_same g g4 TEAM_BLUE blues) in E5 by congruence.
  rewrite (tank_row_same g g3 TEAM_RED reds) in E4 by congruence.
  rewrite N4, N3 in E5, T5, N5. rewrite N3 in E4, T4.
  rewrite O3 in E4. rewrite T3 in T4. cbn [app] in T4.
  rewrite E4 in E5. rewrite T4 in T5. rewrite <- app_assoc in E5.
  eexists. split; [reflexivity | ].
  cbn [Game.objects Game.tanks Game.controlpoints Game.next_oid
       Game.set_state Game.set_interrupted].
  split; [exact E5 | ].
  assert (Tk : Game.tanks g5
               = map oid
                   (tank_row g TEAM_RED 0 (n1 + count_fountains all) reds
                    ++ tank_row g TEAM_BLUE 0
                         (n1 + count_fountains all + length reds) blues)).
  { rewrite T5, map_app, !tank_row_oids. reflexivity. }
  split; [exact Tk | ].
  split.
  { rewrite Tk, E5.
    set (row := tank_row g TEAM_RED 0 _ reds ++ tank_row g TEAM_BLUE 0 _ _).
    assert (Ro : map oid row
                 = seq (n1 + count_fountains all + 0) (length row)).
    { subst row. rewrite map_app, !tank_row_oids, length_app,
        !tank_row_length, seq_app, Nat.add_0_r. reflexivity. }
    rewrite Ro. apply lookup_row; [ | exact Ro].
    rewrite <- O3, Nat.add_0_r, <- N3. subst g3. exact F2. }
  split; [rewrite C5, C4; reflexivity | ].
  rewrite N5, length_app, !tank_row_length. lia.
Qed.

Lemma setup_builds_the_match_witness :
  let g := armed_game in
  let f := Game.field g in
  let '(all, cps, reds, blues) := get_objects f (Game.next_oid g) in
  let n1 := (Game.next_oid g + length all)%nat in
  let n2 := (n1 + count_fountains all)%nat in
  let tanks := tank_row g TEAM_RED 0 n2 reds
               ++ tank_row g TEAM_BLUE 0 (n2 + length reds) blues in
  exists g',
    Game_setup still_world 1 g = Ok g'
    /\ Game.objects g'
       = added (ammo_rate (Game.settings g)) n1 all ++ tanks
    /\ Game.tanks g' = map oid tanks
    /\ Forall2 (fun i t => lookup_obj i (Game.objects g') = Some t)
         (Game.tanks g') tanks
    /\ Game.controlpoints g' = map oid cps
    /\ Game.next_oid g' = (n2 + length tanks)%nat.
Proof.
  apply (setup_builds_the_match still_world 0 armed_game).
  - right. reflexivity.
  - reflexivity.
  - repeat constructor.
Defined.
(** ** Why a match ends *)

Lemma Game_step_next (W : World) (s : Z) (g g' : Game.t) :
  Game_step W s g = Next g' -> Game.step g' = s + 1.
Proof.
  intros H. pose proof (frame_Game_step W s g g') as F.
  rewrite H in F. specialize (F eq_refl).
  unfold frame in F. now injection F.
Qed.

Lemma Game_step_stop (W : World) (s : Z) (g g' : Game.t) :
  Game_step W s g = Stop g' ->
  score_over g' = true \/ crumbs_over W g' = Ok true.
Proof.
  unfold Game_step. generalize (Game.set_step (s + 1) g). clear g.
  intros g.
  destruct (interrupt W (Game.step g) 0); [discriminate | ].
  destruct (update_all W (map oid (Game.objects g)) g) as [g1| |];
    cbn [of_result]; try discriminate.
  generalize (sense_think_act W g1). clear. intros g.
  destruct (interrupt W (Game.step g) 1); [discriminate | ].
  destruct (score_over g) eqn:S; [intros [= <-]; auto | ].
  destruct (crumbs_over W g) as [[|]| |] eqn:C; try discriminate.
  - intros [= <-]. auto.
  - unfold simulate.
    destruct (reset_tanks _ _) as [g2| |]; cbn [of_result];
      try discriminate.
    destruct (interrupt W _ 2); discriminate.
Qed.

Lemma Game_loop_next (W : World) (n : nat) :
  forall (s : Z) (g g' : Game.t),
    Game_loop W n s g = Next g' -> Game.step g = s ->
    Game.step g' = s + Z.of_nat n.
Proof.
  induction n as [|n IH]; intros s g g'; cbn [Game_loop].
  - intros [= <-] E. change (Z.of_nat 0) with 0. lia.
  - destruct (Game_step W s g) as [g1|g1|e g1|] eqn:E; try discriminate.
    intros H _. apply Game_step_next in E. apply IH in H; [ | exact E].
    lia.
Qed.

Lemma Game_loop_stop (W : World) (n : nat) :
  forall (s : Z) (g g' : Game.t),
    Game_loop W n s g = Stop g' ->
    score_over g' = true \/ crumbs_over W g' = Ok true.
Proof.
  induction n as [|n IH]; intros s g g'; cbn [Game_loop];
    [discriminate | ].
  destruct (Game_step W s g) as [g1|g1|e g1|] eqn:E; try discriminate.
  - apply IH.
  - intros [= <-]. eapply Game_step_stop; eauto.
Qed.

(** X28.  A match that [run] plays from [setup] to its end has ended for
    one of four reasons: it was interrupted; or every one of the
    [max_steps] steps was played; or the score flag is among the end
    conditions and the score of a team is zero; or the crumbs flag is among
    them and no crumb is left among the objects the test looks at.  In
    particular a match that is not interrupted and whose end conditions
    hold neither flag is always played to its last step. *)
Theorem match_ends_for_a_reason (W : World) (fuel : nat)
    (g g' : Game.t) :
  Game.state g <> STATE_READY ->
  Game_run W fuel g = Returned g' ->
  let s := Game.settings g in
  Game.interrupted g' = true
  \/ Game.step g' = Z.max 0 (max_steps s)
  \/ (Z.land (end_condition s) ENDGAME_SCORE <> 0
      /\ (Game.score_red g' = 0 \/ Game.score_blue g' = 0))
  \/ (Z.land (end_condition s) ENDGAME_CRUMBS <> 0
      /\ exists l, global_allobjects W = Some l
                   /\ existsb is_crumb l = false).
Proof.
  intros NR. unfold Game_run.
  destruct (GameState_eqb (Game.state g) STATE_READY) eqn:Q.
  { destruct (Game.state g); simpl in Q; congruence. }
  destruct (Game_setup W fuel g) as [g1| |] eqn:S; try discriminate.
  apply Game_setup_fixed in S. destruct S as [S _].
  injection S as Sf Sr Sp Sv Ss St.
  set (g1' := Game.set_state STATE_RUNNING g1).
  assert (M : max_steps (Game.settings g1') = max_steps (Game.settings g))
    by (subst g1'; cbn; now rewrite Ss).
  assert (L : forall g2,
            outcome_state
              (Game_loop W (Z.to_nat (max_steps (Game.settings g1'))) 0
                 g1') = Some g2 ->
            Game.settings g2 = Game.settings g).
  { intros g2 H. apply frame_Game_loop in H.
    destruct H as [H|(k & Hk & H)]; unfold frame in H;
      subst g1'; cbn in H; injection H as _ _ _ _ -> _ _ _; exact Ss. }
  destruct (Game_loop W _ 0 _) as [g2|g2|e g2|] eqn:Lp;
    try discriminate.
  - intros H. right. left.
    apply Game_loop_next in Lp; [ | subst g1'; exact St].
    apply Game_end_fixed in H.
    destruct H as (_ & _ & _ & _ & Et & _).
    rewrite Et, Lp, M. lia.
  - intros H. right. right.
    specialize (L g2 eq_refl).
    apply Game_loop_stop in Lp.
    assert (E : run_state (Game_end W false g2) = Some g')
      by (rewrite H; reflexivity).
    apply Game_end_scores in E. destruct E as (Er & Eb & _).
    destruct Lp as [Sc|Cr].
    + left. unfold score_over in Sc. rewrite L in Sc.
      apply andb_prop in Sc. destruct Sc as [Sf' Sz].
      apply negb_true_iff, Z.eqb_neq in Sf'.
      split; [exact Sf' | ]. rewrite Er, Eb.
      apply orb_prop in Sz. destruct Sz as [Z0|Z0];
        apply Z.eqb_eq in Z0; auto.
    + right. unfold crumbs_over in Cr. rewrite L in Cr.
      destruct (Z.land (end_condition (Game.settings g)) ENDGAME_CRUMBS
                =? 0) eqn:Fc; cbn [negb] in Cr; [discriminate | ].
      apply Z.eqb_neq in Fc. split; [exact Fc | ].
      unfold crumbs_left in Cr.
      destruct (global_allobjects W) as [l|]; cbn [bind] in Cr;
        [ | discriminate].
      exists l. split; [reflexivity | ].
      injection Cr as Cr. now apply negb_true_iff in Cr.
  - destruct (is_interrupt e); [ | discriminate].
    intros H. left.
    apply Game_end_fixed in H.
    destruct H as (_ & _ & _ & _ & _ & _ & Ei & _).
    rewrite Ei. reflexivity.
Qed.

Lemma match_ends_for_a_reason_witness :
  let g := recorded_game in
  let g' := final_state (Game_run still_world 1 recorded_game)
              recorded_game in
  let s := Game.settings g in
  Game.interrupted g' = true
  \/ Game.step g' = Z.max 0 (max_steps s)
  \/ (Z.land (end_condition s) ENDGAME_SCORE <> 0
      /\ (Game.score_red g' = 0 \/ Game.score_blue g' = 0))
  \/ (Z.land (end_condition s) ENDGAME_CRUMBS <> 0
      /\ exists l, global_allobjects still_world = Some l
                   /\ existsb is_crumb l = false).
Proof.
  apply (match_ends_for_a_reason still_world 1 recorded_game).
  - discriminate.
  - vm_compute. reflexivity.
Defined.
